(** * sync-utils: DeferredPromise, Barrier and PromiseSynch over a model of
    the ECMAScript promise machinery.

    The three classes of [src/index.js] are thin wrappers around the native
    [Promise]: every interesting behaviour (one-shot settlement, reaction
    jobs, [Promise.all], [Promise.race], [Promise.allSettled], [finally])
    happens in the runtime.  The development therefore has two layers:

    - a model of the runtime, written after the abstract operations of
      ECMA-262 (section 27.2, "Promise Objects"): promises live in a heap,
      closures created by the runtime are first-order data ([fn]), and the
      job queue is an explicit FIFO list;
    - the three classes, translated line by line on top of that model. *)

From Stdlib Require Import ZArith String Ascii Lia.
From stdpp Require Import base list.

Set Warnings "-register-all".
Local Open Scope string_scope.
Local Open Scope list_scope.
Local Open Scope Z_scope.

(** ** JavaScript values *)

(** Promise identity: the position of the promise in the heap. *)
Abbreviation ref := nat (only parsing).

(** Numbers.  Only integer-valued doubles, NaN and the two infinities are
    represented; fractional numbers are left out of the model. *)
Inductive num :=
| NaN
| PosInf
| NegInf
| Fin (z : Z).

Inductive val :=
| VUndef                              (* undefined, also a missing argument *)
| VNull
| VBool (b : bool)
| VNum (n : num)
| VStr (s : string)
| VErr (name msg : string)            (* new RangeError(msg), new TypeError(msg) *)
| VArr (l : list val)                 (* array of values *)
| VSettled (status : string) (v : val) (* {status, value} or {status, reason} *)
| VPromise (p : ref)                  (* native promise object *)
| VDeferred (p : ref).                (* DeferredPromise object whose #promise is p *)

(** A completion record of a call: normal return or throw. *)
Inductive completion :=
| Normal (v : val)
| Throw (e : val).

(** Result of an operation returning something other than a JS value. *)
Inductive result (A : Type) :=
| Ok (a : A)
| Thrown (e : val).
Arguments Ok {A} a.
Arguments Thrown {A} e.

Definition RangeError (msg : string) : val := VErr "RangeError" msg.
Definition TypeError (msg : string) : val := VErr "TypeError" msg.

(** ** Coercions used by the argument checks

    [index !== 0 && !index || index < 0] relies on ToBoolean, on strict
    equality with the number 0 and on the relational comparison, which
    converts its operand with ToNumber.  ToNumber of a string needs the
    whole numeric-literal grammar and ToNumber of an object runs
    ToPrimitive; the model covers the empty string and canonical decimal
    index strings ("0", "17"), and answers [None] for every other string
    and for objects: such arguments are outside the modelled fragment. *)

Definition digit_of (a : ascii) : option Z :=
  let n := Z.of_nat (nat_of_ascii a) in
  if (48 <=? n) && (n <=? 57) then Some (n - 48) else None.

Fixpoint digits_val (acc : Z) (s : string) : option Z :=
  match s with
  | EmptyString => Some acc
  | String a s' =>
      match digit_of a with
      | Some d => digits_val (10 * acc + d) s'
      | None => None
      end
  end.

(** The strings that are [ToString n] for a non-negative integer [n]:
    decimal digits without a leading zero. *)
Definition canonical_index (s : string) : option Z :=
  match s with
  | EmptyString => None
  | String a s' =>
      match digit_of a, s' with
      | Some 0, EmptyString => Some 0
      | Some 0, _ => None
      | Some _, _ => digits_val 0 s
      | None, _ => None
      end
  end.

Definition ToBoolean (x : val) : bool :=
  match x with
  | VUndef | VNull => false
  | VBool b => b
  | VNum NaN => false
  | VNum (Fin z) => negb (z =? 0)
  | VNum _ => true
  | VStr s => negb (String.eqb s "")
  | _ => true
  end.

Definition ToNumber (x : val) : option num :=
  match x with
  | VUndef => Some NaN
  | VNull => Some (Fin 0)
  | VBool b => Some (Fin (if b then 1 else 0))
  | VNum n => Some n
  | VStr s =>
      if String.eqb s "" then Some (Fin 0)
      else Fin <$> canonical_index s
  | _ => None
  end.

(** [x !== 0] *)
Definition strict_neq_zero (x : val) : bool :=
  match x with
  | VNum (Fin 0) => false
  | _ => true
  end.

(** [x < 0]: false when the operand converts to NaN. *)
Definition lt_zero (x : val) : option bool :=
  n ← ToNumber x;
  Some match n with
       | NegInf => true
       | Fin z => z <? 0
       | _ => false
       end.

(** [x !== 0 && !x || x < 0], with the short circuit of [||]. *)
Definition invalid_number (x : val) : option bool :=
  if strict_neq_zero x && negb (ToBoolean x) then Some true else lt_zero x.

(** ToLength, as applied by [Array.from] to the [length] property of its
    array-like argument. *)
Definition ToLength (x : val) : option Z :=
  n ← ToNumber x;
  Some match n with
       | NaN | NegInf => 0
       | PosInf => 2 ^ 53 - 1
       | Fin z => Z.min (Z.max z 0) (2 ^ 53 - 1)
       end.

(** [a[key]] on an array: the element when the property key is the
    canonical string of an index below the length, [undefined] (inner
    [None]) when no such property exists.  Other strings may name inherited
    properties of arrays and are outside the modelled fragment (outer
    [None]), as are objects. *)
Definition array_get {A : Type} (a : list A) (key : val) : option (option A) :=
  match key with
  | VNum (Fin z) => Some (if 0 <=? z then a !! Z.to_nat z else None)
  | VNum _ | VBool _ | VUndef | VNull => Some None
  | VStr s => (fun n => a !! Z.to_nat n) <$> canonical_index s
  | _ => None
  end.

(** ** The promise runtime *)

(** Functions created by the runtime or by the library, as data.  A
    resolving function is identified by the [[AlreadyResolved]] record
    (cell) it shares with its twin; the cell also remembers the promise. *)
Inductive fn :=
| FResolve (k : nat)               (* Promise Resolve Function *)
| FReject (k : nat)                (* Promise Reject Function *)
| FAllElem (a i : nat)             (* Promise.all Resolve Element Function *)
| FSettledOk (a i : nat)           (* Promise.allSettled Resolve Element Function *)
| FSettledErr (a i : nat)          (* Promise.allSettled Reject Element Function *)
| FThenFinally (onFinally : fn)    (* thenFinally closure of finally *)
| FCatchFinally (onFinally : fn)   (* catchFinally closure of finally *)
| FValueThunk (v : val)            (* () => v *)
| FThrower (e : val)               (* () => { throw e } *)
| FDelete (s index : nat)          (* () => this.#promises.delete(index) *)
| FUser (tag : nat) (body : val -> completion).
                                   (* a caller's callback: observable through
                                      the log, returns or throws *)

Inductive rtype := Fulfill | Reject.

(** PromiseReaction record. *)
Record reaction := mkReaction {
  r_cap : nat;                 (* cell of the capability's resolving functions *)
  r_type : rtype;
  r_handler : option fn        (* [None]: empty handler *)
}.

Inductive pstate :=
| Pending
| Fulfilled (v : val)
| Rejected (e : val).

Record promise := mkPromise {
  p_state : pstate;
  p_fulfillReactions : list reaction;
  p_rejectReactions : list reaction
}.

Inductive job :=
| ReactionJob (r : reaction) (argument : val)     (* NewPromiseReactionJob *)
| ThenableJob (p : ref) (thenable : val).         (* NewPromiseResolveThenableJob *)

(** State shared by the element functions of one [Promise.all] or
    [Promise.allSettled] call. *)
Record agg := mkAgg {
  a_values : list val;
  a_called : list bool;        (* [[AlreadyCalled]] of each element *)
  a_remaining : Z;             (* remainingElementsCount *)
  a_cap : nat                  (* cell of the result capability *)
}.

(** A PromiseSynch object: [#index] and the [#promises] Map, kept in
    insertion order as a JS Map iterates. *)
Record synch := mkSynch {
  s_index : nat;
  s_promises : list (nat * val)
}.

Record state := mkState {
  heap : list promise;
  cells : list (ref * bool);   (* [[AlreadyResolved]] records, with their promise *)
  aggs : list agg;
  queue : list job;            (* the promise job queue, first in first out *)
  log : list (nat * val);      (* calls received by the callers' callbacks *)
  synchs : list synch
}.

Definition init : state := mkState [] [] [] [] [] [].

Definition set_heap (f : list promise -> list promise) (st : state) : state :=
  mkState (f (heap st)) (cells st) (aggs st) (queue st) (log st) (synchs st).
Definition set_cells (f : list (ref * bool) -> list (ref * bool)) (st : state) : state :=
  mkState (heap st) (f (cells st)) (aggs st) (queue st) (log st) (synchs st).
Definition set_aggs (f : list agg -> list agg) (st : state) : state :=
  mkState (heap st) (cells st) (f (aggs st)) (queue st) (log st) (synchs st).
Definition set_queue (f : list job -> list job) (st : state) : state :=
  mkState (heap st) (cells st) (aggs st) (f (queue st)) (log st) (synchs st).
Definition set_log (f : list (nat * val) -> list (nat * val)) (st : state) : state :=
  mkState (heap st) (cells st) (aggs st) (queue st) (f (log st)) (synchs st).
Definition set_synchs (f : list synch -> list synch) (st : state) : state :=
  mkState (heap st) (cells st) (aggs st) (queue st) (log st) (f (synchs st)).

(** Computations of the runtime: a state monad. *)
Definition M (A : Type) : Type := state -> A * state.
Definition ret {A : Type} (a : A) : M A := fun st => (a, st).
Definition bind {A B : Type} (m : M A) (k : A -> M B) : M B :=
  fun st => let (a, st') := m st in k a st'.
Definition modify (f : state -> state) : M unit := fun st => (tt, f st).
Definition gets {A : Type} (f : state -> A) : M A := fun st => (f st, st).

Notation "'do' x <- m ; k" := (bind m (fun x => k))
  (at level 10, x pattern, m at level 100, k at level 200).
Notation "m ;; k" := (bind m (fun _ => k))
  (at level 100, k at level 200, right associativity).

(** *** Allocation and the job queue *)

(** [new Promise(executor)]: a pending promise and the cell of its pair of
    resolving functions (CreateResolvingFunctions). *)
Definition new_promise : M (ref * nat) := fun st =>
  let p := length (heap st) in
  let k := length (cells st) in
  ((p, k),
   set_cells (fun c => c ++ [(p, false)])
     (set_heap (fun h => h ++ [mkPromise Pending [] []]) st)).

(** CreateResolvingFunctions on an existing promise. *)
Definition new_cell (p : ref) : M nat := fun st =>
  (length (cells st), set_cells (fun c => c ++ [(p, false)]) st).

Definition enqueue (j : job) : M unit :=
  modify (set_queue (fun q => q ++ [j])).

(** TriggerPromiseReactions *)
Definition trigger (reactions : list reaction) (argument : val) : M unit :=
  modify (set_queue (fun q => q ++ ((fun r => ReactionJob r argument) <$> reactions))).

(** FulfillPromise and RejectPromise: store the outcome, drop the reaction
    lists and schedule one job per registered reaction. *)
Definition FulfillPromise (p : ref) (v : val) : M unit := fun st =>
  match heap st !! p with
  | Some pr =>
      trigger (p_fulfillReactions pr) v
        (set_heap (fun h => <[p := mkPromise (Fulfilled v) [] []]> h) st)
  | None => (tt, st)
  end.

Definition RejectPromise (p : ref) (e : val) : M unit := fun st =>
  match heap st !! p with
  | Some pr =>
      trigger (p_rejectReactions pr) e
        (set_heap (fun h => <[p := mkPromise (Rejected e) [] []]> h) st)
  | None => (tt, st)
  end.

(** [Get(resolution, "then")] is callable for native promises
    (Promise.prototype.then) and for DeferredPromise objects (their own
    [then], which is Promise.prototype.then bound to [#promise]).  In both
    cases calling it performs [then] on the promise returned here.  The other
    values of the model have no [then]. *)
Definition get_then (v : val) : option ref :=
  match v with
  | VPromise q | VDeferred q => Some q
  | _ => None
  end.

(** Promise Resolve Functions (27.2.1.3.2). *)
Definition resolve_fn (k : nat) (resolution : val) : M completion := fun st =>
  match cells st !! k with
  | Some (p, false) =>
      let st1 := set_cells (fun c => <[k := (p, true)]> c) st in
      match resolution with
      | VPromise q =>
          if Nat.eqb q p
          then (Normal VUndef,
                snd (RejectPromise p (TypeError "Chaining cycle detected for promise") st1))
          else (Normal VUndef, snd (enqueue (ThenableJob p resolution) st1))
      | VDeferred _ => (Normal VUndef, snd (enqueue (ThenableJob p resolution) st1))
      | _ => (Normal VUndef, snd (FulfillPromise p resolution st1))
      end
  | _ => (Normal VUndef, st)
  end.

(** Promise Reject Functions (27.2.1.3.1). *)
Definition reject_fn (k : nat) (reason : val) : M completion := fun st =>
  match cells st !! k with
  | Some (p, false) =>
      (Normal VUndef,
       snd (RejectPromise p reason (set_cells (fun c => <[k := (p, true)]> c) st)))
  | _ => (Normal VUndef, st)
  end.

(** PerformPromiseThen, with the result capability given by its cell. *)
Definition PerformPromiseThen (p : ref) (onFulfilled onRejected : option fn)
    (cap : nat) : M unit := fun st =>
  let fulfillReaction := mkReaction cap Fulfill onFulfilled in
  let rejectReaction := mkReaction cap Reject onRejected in
  match heap st !! p with
  | Some pr =>
      match p_state pr with
      | Pending =>
          (tt, set_heap (fun h =>
                 <[p := mkPromise Pending
                          (p_fulfillReactions pr ++ [fulfillReaction])
                          (p_rejectReactions pr ++ [rejectReaction])]> h) st)
      | Fulfilled v => enqueue (ReactionJob fulfillReaction v) st
      | Rejected e => enqueue (ReactionJob rejectReaction e) st
      end
  | None => (tt, st)
  end.

(** [Promise.prototype.then]: a fresh derived promise is the capability. *)
Definition promise_then (p : ref) (onFulfilled onRejected : option fn) : M ref :=
  do (d, k) <- new_promise;
  PerformPromiseThen p onFulfilled onRejected k ;;
  ret d.

(** PromiseResolve(%Promise%, x): a native promise is returned as it is,
    anything else is wrapped in a new promise resolved with it. *)
Definition PromiseResolve (x : val) : M ref :=
  match x with
  | VPromise q => ret q
  | _ =>
      do (p, k) <- new_promise;
      resolve_fn k x ;;
      ret p
  end.

(** *** Aggregates: Promise.all, Promise.allSettled, Promise.race *)

(** The element functions of [Promise.all] and [Promise.allSettled] store
    their entry, decrement remainingElementsCount and resolve the result
    capability with the array of values when it reaches zero. *)
Definition element_fn (a i : nat) (entry : val) : M completion := fun st =>
  match aggs st !! a with
  | Some g =>
      match a_called g !! i with
      | Some false =>
          let values := <[i := entry]> (a_values g) in
          let remaining := a_remaining g - 1 in
          let st1 :=
            set_aggs (fun l =>
              <[a := mkAgg values (<[i := true]> (a_called g)) remaining (a_cap g)]> l) st in
          if remaining =? 0 then resolve_fn (a_cap g) (VArr values) st1
          else (Normal VUndef, st1)
      | _ => (Normal VUndef, st)
      end
  | None => (Normal VUndef, st)
  end.

Definition new_agg (cap : nat) : M nat := fun st =>
  (length (aggs st), set_aggs (fun l => l ++ [mkAgg [] [] 1 cap]) st).

(** Steps b and l of the loop: append [undefined] to values, create the
    element's [[AlreadyCalled]] record and count the element. *)
Definition agg_push (a : nat) : M unit :=
  modify (set_aggs (fun l =>
    match l !! a with
    | Some g =>
        <[a := mkAgg (a_values g ++ [VUndef]) (a_called g ++ [false])
                 (a_remaining g + 1) (a_cap g)]> l
    | None => l
    end)).

(** After the loop: decrement the count and resolve when nothing is left. *)
Definition agg_finish (a : nat) : M unit := fun st =>
  match aggs st !! a with
  | Some g =>
      let remaining := a_remaining g - 1 in
      let st1 :=
        set_aggs (fun l =>
          <[a := mkAgg (a_values g) (a_called g) remaining (a_cap g)]> l) st in
      if remaining =? 0 then (tt, snd (resolve_fn (a_cap g) (VArr (a_values g)) st1))
      else (tt, st1)
  | None => (tt, st)
  end.

(** PerformPromiseAll / PerformPromiseAllSettled.  [mk i] gives the two
    handlers passed to [then] for element [i]. *)
Fixpoint aggregate_loop (mk : nat -> fn * fn) (a : nat) (items : list val)
    (index : nat) : M unit :=
  match items with
  | [] => ret tt
  | next :: rest =>
      agg_push a ;;
      do nextPromise <- PromiseResolve next;
      promise_then nextPromise (Some (fst (mk index))) (Some (snd (mk index))) ;;
      aggregate_loop mk a rest (S index)
  end.

Definition Promise_all (items : list val) : M ref :=
  do (r, k) <- new_promise;
  do a <- new_agg k;
  aggregate_loop (fun i => (FAllElem a i, FReject k)) a items 0%nat ;;
  agg_finish a ;;
  ret r.

Definition Promise_allSettled (items : list val) : M ref :=
  do (r, k) <- new_promise;
  do a <- new_agg k;
  aggregate_loop (fun i => (FSettledOk a i, FSettledErr a i)) a items 0%nat ;;
  agg_finish a ;;
  ret r.

(** PerformPromiseRace *)
Fixpoint race_loop (k : nat) (items : list val) : M unit :=
  match items with
  | [] => ret tt
  | next :: rest =>
      do nextPromise <- PromiseResolve next;
      promise_then nextPromise (Some (FResolve k)) (Some (FReject k)) ;;
      race_loop k rest
  end.

Definition Promise_race (items : list val) : M ref :=
  do (r, k) <- new_promise;
  race_loop k items ;;
  ret r.

(** *** Map operations on the registry of a PromiseSynch *)

Fixpoint map_has (index : nat) (m : list (nat * val)) : bool :=
  match m with
  | [] => false
  | (i, _) :: m' => Nat.eqb i index || map_has index m'
  end.

(** [Map.prototype.set]: an existing key keeps its position. *)
Fixpoint map_set (index : nat) (v : val) (m : list (nat * val)) : list (nat * val) :=
  match m with
  | [] => [(index, v)]
  | (i, w) :: m' =>
      if Nat.eqb i index then (i, v) :: m' else (i, w) :: map_set index v m'
  end.

Fixpoint map_delete (index : nat) (m : list (nat * val)) : list (nat * val) :=
  match m with
  | [] => []
  | (i, w) :: m' =>
      if Nat.eqb i index then map_delete index m' else (i, w) :: map_delete index m'
  end.

(** [() => this.#promises.delete(index)] *)
Definition delete_fn (s index : nat) : M completion := fun st =>
  match synchs st !! s with
  | Some sy =>
      (Normal (VBool (map_has index (s_promises sy))),
       set_synchs (fun l =>
         <[s := mkSynch (s_index sy) (map_delete index (s_promises sy))]> l) st)
  | None => (Normal (VBool false), st)
  end.

(** *** Calling a function *)

Fixpoint call (f : fn) (x : val) : M completion :=
  match f with
  | FResolve k => resolve_fn k x
  | FReject k => reject_fn k x
  | FAllElem a i => element_fn a i x
  | FSettledOk a i => element_fn a i (VSettled "fulfilled" x)
  | FSettledErr a i => element_fn a i (VSettled "rejected" x)
  | FThenFinally onFinally =>
      do result <- call onFinally VUndef;
      match result with
      | Throw e => ret (Throw e)
      | Normal r =>
          do p <- PromiseResolve r;
          do d <- promise_then p (Some (FValueThunk x)) None;
          ret (Normal (VPromise d))
      end
  | FCatchFinally onFinally =>
      do result <- call onFinally VUndef;
      match result with
      | Throw e => ret (Throw e)
      | Normal r =>
          do p <- PromiseResolve r;
          do d <- promise_then p (Some (FThrower x)) None;
          ret (Normal (VPromise d))
      end
  | FValueThunk v => ret (Normal v)
  | FThrower e => ret (Throw e)
  | FDelete s index => delete_fn s index
  | FUser tag body =>
      modify (set_log (fun l => l ++ [(tag, x)])) ;;
      ret (body x)
  end.

(** *** Jobs *)

(** NewPromiseReactionJob and NewPromiseResolveThenableJob. *)
Definition run_job (j : job) : M unit :=
  match j with
  | ReactionJob r argument =>
      do handlerResult <-
        match r_handler r with
        | None =>
            ret match r_type r with
                | Fulfill => Normal argument
                | Reject => Throw argument
                end
        | Some h => call h argument
        end;
      match handlerResult with
      | Throw e => reject_fn (r_cap r) e ;; ret tt
      | Normal v => resolve_fn (r_cap r) v ;; ret tt
      end
  | ThenableJob p thenable =>
      do k <- new_cell p;
      match get_then thenable with
      | Some q => promise_then q (Some (FResolve k)) (Some (FReject k)) ;; ret tt
      | None => ret tt
      end
  end.

(** One turn of the scheduler: the oldest job runs to completion. *)
Definition tick (st : state) : state :=
  match queue st with
  | [] => st
  | j :: q => snd (run_job j (set_queue (fun _ => q) st))
  end.

Fixpoint run (fuel : nat) (st : state) : state :=
  match fuel with
  | O => st
  | S n => run n (tick st)
  end.

(** [Promise.prototype.catch] and [Promise.prototype.finally]; an argument
    that is not callable is [None]. *)
Definition promise_catch (p : ref) (onRejected : option fn) : M ref :=
  promise_then p None onRejected.

Definition promise_finally (p : ref) (onFinally : option fn) : M ref :=
  match onFinally with
  | None => promise_then p None None
  | Some f => promise_then p (Some (FThenFinally f)) (Some (FCatchFinally f))
  end.

Definition state_of (st : state) (p : ref) : option pstate :=
  p_state <$> heap st !! p.

(** ** class DeferredPromise *)

Module DeferredPromise.

(** The three methods of Promise.prototype the constructor binds. *)
Inductive method := PromiseThen | PromiseCatch | PromiseFinally.

(** [f.bind(thisArg)] *)
Record bound := bind_ { target : method; boundThis : ref }.

Record t := mk {
  promise : ref;          (* #promise *)
  resolve : fn;
  reject : fn;
  then_ : bound;
  catch : bound;
  finally : bound;
  toStringTag : string    (* this[Symbol.toStringTag] *)
}.

Definition constructor : M t :=
  do (p, k) <- new_promise;
  ret (mk p (FResolve k) (FReject k)
          (bind_ PromiseThen p) (bind_ PromiseCatch p) (bind_ PromiseFinally p)
          "Promise").

(** Calling a bound function: the receiver of the call is ignored, the
    target runs with [boundThis]. *)
Definition call_bound (b : bound) (arg0 arg1 : option fn) : M ref :=
  match target b with
  | PromiseThen => promise_then (boundThis b) arg0 arg1
  | PromiseCatch => promise_catch (boundThis b) arg0
  | PromiseFinally => promise_finally (boundThis b) arg0
  end.

(** The object as a JS value. *)
Definition to_val (d : t) : val := VDeferred (promise d).

(** [Object.prototype.toString.call(d)] *)
Definition Object_toString (d : t) : string :=
  "[object " ++ toStringTag d ++ "]".

End DeferredPromise.

(** ** class Barrier *)

Module Barrier.

Record t := mk {
  length : val;
  promises : list val;            (* #promises *)
  resolveFunctions : list fn      (* #resolveFunctions *)
}.

(** The mapping loop of [Array.from({length}, () => {...})]: each call of
    the arrow function creates a promise, pushes it on [#promises] and
    returns its resolve function. *)
Fixpoint array_from (len : nat) (promises : list val) : M (list val * list fn) :=
  match len with
  | O => ret (promises, [])
  | S n =>
      do (p, k) <- new_promise;
      do (ps, fs) <- array_from n (promises ++ [VPromise p]);
      ret (ps, FResolve k :: fs)
  end.

(** [new Barrier(length)].  [Array.from] builds its result with
    [new Array(len)], which throws a RangeError above 2^32 - 1, before the
    arrow function is called at all. *)
Definition constructor (length : val) (st : state) : option (result t * state) :=
  invalid ← invalid_number length;
  if (invalid : bool) then Some (Thrown (RangeError "Invalid length"), st)
  else
    len ← ToLength length;
    if 2 ^ 32 - 1 <? len
    then Some (Thrown (RangeError "Invalid array length"), st)
    else
      let '((ps, fs), st') := array_from (Z.to_nat len) [] st in
      Some (Ok (mk length ps fs), st').

(** [resolve(index, value)] *)
Definition resolve (b : t) (index value : val) (st : state)
    : option (completion * state) :=
  invalid ← invalid_number index;
  if (invalid : bool) then Some (Throw (RangeError "Invalid index"), st)
  else
    f ← array_get (resolveFunctions b) index;
    match f with
    | Some f => let (_, st') := call f value st in Some (Normal VUndef, st')
    | None =>
        Some (Throw (TypeError "this.#resolveFunctions[index] is not a function"), st)
    end.

Definition all (b : t) : M ref := Promise_all (promises b).

Definition race (b : t) : M ref := Promise_race (promises b).

End Barrier.

(** ** class PromiseSynch *)

Module PromiseSynch.

(** [new PromiseSynch()]: the object is mutable and lives in the state;
    the result is its position there. *)
Definition constructor : M nat := fun st =>
  (length (synchs st), set_synchs (fun l => l ++ [mkSynch 0 []]) st).

(** [promise.finally(cb)], by the kind of value [promise] is: a native
    promise inherits Promise.prototype.finally, a DeferredPromise has its
    own bound [finally]; no other value of the model has a callable
    [finally], so the call throws a TypeError. *)
Definition invoke_finally (promise : val) (cb : fn) : M (result ref) :=
  match promise with
  | VPromise q | VDeferred q =>
      do d <- promise_finally q (Some cb); ret (Ok d)
  | _ => ret (Thrown (TypeError "promise.finally is not a function"))
  end.

(** [add(promise)] *)
Definition add (s : nat) (promise : val) : M completion := fun st =>
  match synchs st !! s with
  | Some sy =>
      let index := s_index sy in
      let st1 :=
        set_synchs (fun l => <[s := mkSynch (S index) (s_promises sy)]> l) st in
      match invoke_finally promise (FDelete s index) st1 with
      | (Ok d, st2) =>
          (Normal VUndef,
           set_synchs (fun l =>
             match l !! s with
             | Some sy2 =>
                 <[s := mkSynch (s_index sy2)
                          (map_set index (VPromise d) (s_promises sy2))]> l
             | None => l
             end) st2)
      | (Thrown e, st2) => (Throw e, st2)
      end
  | None => (Throw (TypeError "not a PromiseSynch"), st)
  end.

(** [allSettled(onsettled)]; [None] stands for a missing [onsettled]. *)
Definition allSettled (s : nat) (onsettled : option fn) : M ref := fun st =>
  let values :=
    match synchs st !! s with
    | Some sy => snd <$> s_promises sy
    | None => []
    end in
  let (promise, st1) := Promise_allSettled values st in
  match onsettled with
  | Some f => promise_then promise (Some f) None st1
  | None => (promise, st1)
  end.

End PromiseSynch.

(** * Bookkeeping *)

Arguments set_heap _ _ /.
Arguments set_cells _ _ /.
Arguments set_aggs _ _ /.
Arguments set_queue _ _ /.
Arguments set_log _ _ /.
Arguments set_synchs _ _ /.

(** Fresh promises and cells are appended, so that positions read
    [length l + i]; the lemmas below bring lookups and updates at such
    positions to the part of the list they concern. *)
Lemma lookup_app_add {A : Type} (l1 l2 : list A) (i : nat) :
  (l1 ++ l2) !! (length l1 + i)%nat = l2 !! i.
Proof. rewrite lookup_app_r by lia. f_equal. lia. Qed.

Lemma lookup_app_len {A : Type} (l1 l2 : list A) :
  (l1 ++ l2) !! length l1 = l2 !! 0%nat.
Proof. rewrite lookup_app_r by lia. f_equal. lia. Qed.

Lemma insert_app_len {A : Type} (l1 l2 : list A) (x : A) :
  <[length l1 := x]> (l1 ++ l2) = l1 ++ <[0%nat := x]> l2.
Proof. rewrite insert_app_r_alt by lia. by rewrite Nat.sub_diag. Qed.

Lemma app_snoc_assoc {A : Type} (l l' : list A) (x : A) :
  (l ++ l') ++ [x] = l ++ (l' ++ [x]).
Proof. by rewrite <- app_assoc. Qed.

Lemma add_add_assoc (n a b : nat) : (n + a + b = n + (a + b))%nat.
Proof. lia. Qed.

Create Rewrite HintDb heapdb.
#[local] Hint Rewrite @lookup_app_add @lookup_app_len @insert_app_len @insert_app_r
  @length_app @app_snoc_assoc add_add_assoc : heapdb.

Ltac hsimp := repeat (progress (autorewrite with heapdb; cbn)).

(** * Properties *)

(** ** Argument validation of [Barrier] *)

(** The lengths and indices the check [x !== 0 && !x || x < 0] rejects,
    among the values of the modelled fragment. *)
Definition rejected_number (x : val) : bool :=
  match x with
  | VUndef | VNull | VBool false | VNum NaN | VNum NegInf => true
  | VNum (Fin z) => z <? 0
  | VStr s => String.eqb s ""
  | _ => false
  end.

(** Values for which the model defines the check. *)
Definition modelled_number (x : val) : bool :=
  match invalid_number x with Some _ => true | None => false end.

Lemma invalid_number_rejected (x : val) (b : bool) :
  invalid_number x = Some b -> rejected_number x = b.
Proof.
  unfold invalid_number, lt_zero.
  destruct x as [| |[]|[| | |z]|s| | | | |]; cbn; try congruence.
  - destruct z; cbn; congruence.
  - destruct (String.eqb s ""); cbn; [congruence|].
    destruct (canonical_index s) as [z|] eqn:E; cbn; [|congruence].
    intros [= <-]. symmetry. apply Z.ltb_ge.
    revert E. unfold canonical_index. destruct s as [|a s]; [discriminate|].
    assert (G : forall s acc z, 0 <= acc -> digits_val acc s = Some z -> 0 <= z).
    { clear. induction s as [|a s IH]; cbn; intros acc z Hacc.
      - intros [= <-]. exact Hacc.
      - unfold digit_of.
        destruct ((48 <=? Z.of_nat (nat_of_ascii a)) && (Z.of_nat (nat_of_ascii a) <=? 57))
          eqn:D; [|discriminate].
        apply andb_prop in D as [D1 D2]. apply Z.leb_le in D1. apply IH. lia. }
    destruct (digit_of a) as [[|d|d]|]; try discriminate.
    + destruct s; [intros [= <-]; lia|discriminate].
    + apply G. lia.
    + apply G. lia.
Qed.

Lemma invalid_number_nonneg (n : Z) :
  0 <= n -> invalid_number (VNum (Fin n)) = Some false.
Proof.
  intros Hn. unfold invalid_number, lt_zero. cbn.
  replace (n <? 0) with false by (symmetry; apply Z.ltb_ge; lia).
  destruct n; reflexivity.
Qed.

Lemma ToLength_small (n : Z) :
  0 <= n <= 2 ^ 53 - 1 -> ToLength (VNum (Fin n)) = Some n.
Proof. intros Hn. unfold ToLength. cbn [ToNumber mbind option_bind]. f_equal. lia. Qed.

(** The state after [n] promises have been allocated one after the other:
    slot [i] is promise [length heap + i] and its resolving functions share
    cell [length cells + i]. *)
Definition alloc_promises (n : nat) (st : state) : state :=
  mkState (heap st ++ replicate n (mkPromise Pending [] []))
          (cells st ++ ((fun p => (p, false)) <$> seq (length (heap st)) n))
          (aggs st) (queue st) (log st) (synchs st).

Lemma array_from_eq (n : nat) (ps : list val) (st : state) :
  Barrier.array_from n ps st =
  ((ps ++ (VPromise <$> seq (length (heap st)) n),
    FResolve <$> seq (length (cells st)) n),
   alloc_promises n st).
Proof.
  revert ps st. induction n as [|n IH]; intros ps st.
  - destruct st. unfold alloc_promises. cbn. by rewrite !app_nil_r.
  - cbn [Barrier.array_from]. unfold bind at 1. unfold new_promise at 1.
    unfold bind at 1. rewrite IH. destruct st as [h c a q l s].
    unfold alloc_promises, ret. cbn.
    rewrite !length_app. cbn. rewrite !Nat.add_1_r, <- !app_assoc. done.
Qed.

(** *** Settling through a resolving function *)

Lemma resolve_fn_fulfill (k : nat) (p : ref) (v : val) (pr : promise) (st : state) :
  cells st !! k = Some (p, false) ->
  heap st !! p = Some pr ->
  get_then v = None ->
  resolve_fn k v st =
  (Normal VUndef,
   mkState (<[p := mkPromise (Fulfilled v) [] []]> (heap st))
           (<[k := (p, true)]> (cells st)) (aggs st)
           (queue st ++ ((fun r => ReactionJob r v) <$> p_fulfillReactions pr))
           (log st) (synchs st)).
Proof.
  intros Hk Hp Hv. unfold resolve_fn. rewrite Hk.
  destruct v; try discriminate Hv;
    unfold FulfillPromise; cbn; rewrite Hp; reflexivity.
Qed.

Lemma reject_fn_reject (k : nat) (p : ref) (e : val) (pr : promise) (st : state) :
  cells st !! k = Some (p, false) ->
  heap st !! p = Some pr ->
  reject_fn k e st =
  (Normal VUndef,
   mkState (<[p := mkPromise (Rejected e) [] []]> (heap st))
           (<[k := (p, true)]> (cells st)) (aggs st)
           (queue st ++ ((fun r => ReactionJob r e) <$> p_rejectReactions pr))
           (log st) (synchs st)).
Proof.
  intros Hk Hp. unfold reject_fn. rewrite Hk.
  unfold RejectPromise; cbn; rewrite Hp; reflexivity.
Qed.

(** A resolving function whose cell is already set does nothing. *)
Lemma resolve_fn_dead (k : nat) (p : ref) (v : val) (st : state) :
  cells st !! k = Some (p, true) -> resolve_fn k v st = (Normal VUndef, st).
Proof. intros Hk. unfold resolve_fn. by rewrite Hk. Qed.

Lemma reject_fn_dead (k : nat) (p : ref) (e : val) (st : state) :
  cells st !! k = Some (p, true) -> reject_fn k e st = (Normal VUndef, st).
Proof. intros Hk. unfold reject_fn. by rewrite Hk. Qed.

Lemma alloc_promises_cell (n i : nat) (st : state) :
  (i < n)%nat ->
  cells (alloc_promises n st) !! (length (cells st) + i)%nat =
  Some ((length (heap st) + i)%nat, false).
Proof.
  intros Hi. cbn. rewrite lookup_app_r by lia.
  replace (length (cells st) + i - length (cells st))%nat with i by lia.
  rewrite list_lookup_fmap, lookup_seq_lt by done. done.
Qed.

Lemma alloc_promises_slot (n i : nat) (st : state) :
  (i < n)%nat ->
  heap (alloc_promises n st) !! (length (heap st) + i)%nat =
  Some (mkPromise Pending [] []).
Proof.
  intros Hi. cbn. rewrite lookup_app_r by lia.
  replace (length (heap st) + i - length (heap st))%nat with i by lia.
  by apply lookup_replicate_2.
Qed.

(** Fulfilling one slot of freshly allocated promises leaves the others
    pending. *)
Lemma alloc_promises_resolve_slot (st : state) (n i : nat) (v : val) :
  (i < n)%nat -> get_then v = None ->
  let st' :=
    snd (call (FResolve (length (cells st) + i)) v (alloc_promises n st)) in
  state_of st' (length (heap st) + i) = Some (Fulfilled v)
  /\ forall j : nat, (j < n)%nat -> j <> i ->
       state_of st' (length (heap st) + j) = Some Pending.
Proof.
  intros Hi Hv st'. subst st'. cbn [call].
  rewrite (resolve_fn_fulfill _ _ _ _ _ (alloc_promises_cell n i st Hi)
             (alloc_promises_slot n i st Hi) Hv).
  unfold state_of. cbn. split.
  - rewrite list_lookup_insert_eq; [done|]. rewrite length_app, length_replicate. lia.
  - intros j Hj Hne. rewrite list_lookup_insert_ne by lia.
    rewrite lookup_app_r by lia.
    replace (length (heap st) + j - length (heap st))%nat with j by lia.
    by rewrite lookup_replicate_2.
Qed.

(** C3, as the code has it. [new Barrier(n)] for an integer
    [0 <= n <= 2^32 - 1] returns normally, with [n] fresh pending promises
    and their [n] resolve functions; the slots are independent (fulfilling
    slot [i] leaves every other slot pending).  Among the modelled values
    the constructor throws RangeError("Invalid length") exactly on
    undefined, null, false, NaN, -Infinity, the empty string and the negative
    numbers; the throw is synchronous and leaves the state as it was, so no
    promise carries the error. *)
Theorem Barrier_constructor_validation (st : state) :
  (forall n : Z, 0 <= n <= 2 ^ 32 - 1 ->
     Barrier.constructor (VNum (Fin n)) st =
     Some (Ok (Barrier.mk (VNum (Fin n))
                 (VPromise <$> seq (length (heap st)) (Z.to_nat n))
                 (FResolve <$> seq (length (cells st)) (Z.to_nat n))),
           alloc_promises (Z.to_nat n) st))
  /\ (forall (n i : nat) (v : val), (i < n)%nat -> get_then v = None ->
        let st' :=
          snd (call (FResolve (length (cells st) + i)) v (alloc_promises n st)) in
        state_of st' (length (heap st) + i) = Some (Fulfilled v)
        /\ forall j : nat, (j < n)%nat -> j <> i ->
             state_of st' (length (heap st) + j) = Some Pending)
  /\ (forall x : val, modelled_number x = true ->
        (Barrier.constructor x st = Some (Thrown (RangeError "Invalid length"), st)
         <-> rejected_number x = true)).
Proof.
  split; [|split].
  - intros n Hn. unfold Barrier.constructor.
    rewrite (invalid_number_nonneg n) by lia. cbn [mbind option_bind].
    rewrite (ToLength_small n) by lia. cbn [mbind option_bind].
    replace (2 ^ 32 - 1 <? n) with false by (symmetry; apply Z.ltb_ge; lia).
    rewrite array_from_eq. reflexivity.
  - intros n i v Hi Hv. by apply alloc_promises_resolve_slot.
  - intros x Hx. unfold modelled_number in Hx.
    destruct (invalid_number x) as [b|] eqn:E; [|discriminate].
    apply invalid_number_rejected in E as R.
    unfold Barrier.constructor. rewrite E. cbn. destruct b.
    + split; [intros _; exact R|reflexivity].
    + split; [|congruence].
      destruct (ToLength x) as [len|]; cbn; [|discriminate].
      destruct (_ <? len); [unfold RangeError; intros [=]|].
      destruct (Barrier.array_from _ _ _) as [[? ?] ?]. discriminate.
Qed.

Lemma Barrier_constructor_validation_witness :
  Barrier.constructor (VNum (Fin 3)) init =
    Some (Ok (Barrier.mk (VNum (Fin 3)) [VPromise 0; VPromise 1; VPromise 2]%nat
                [FResolve 0; FResolve 1; FResolve 2]%nat),
          alloc_promises 3 init)
  /\ state_of (snd (call (FResolve 1) (VStr "b") (alloc_promises 3 init))) 1
     = Some (Fulfilled (VStr "b"))
  /\ state_of (snd (call (FResolve 1) (VStr "b") (alloc_promises 3 init))) 2
     = Some Pending
  /\ Barrier.constructor (VNum (Fin (-1))) init
     = Some (Thrown (RangeError "Invalid length"), init).
Proof.
  destruct (Barrier_constructor_validation init) as (H1 & H2 & H3).
  split; [|split; [|split]].
  - apply (H1 3). lia.
  - apply (H2 3%nat 1%nat (VStr "b")); [lia|reflexivity].
  - apply (H2 3%nat 1%nat (VStr "b")); [lia|reflexivity| |]; lia.
  - apply (H3 (VNum (Fin (-1)))); reflexivity.
Defined.

(** C3 as the spec words it fails twice: [true] is not a number and yet
    [new Barrier(true)] returns a barrier (with one slot), and the
    non-negative integer 2^32 makes [Array.from] throw. *)
Lemma Barrier_constructor_counterexample :
  (exists b st', Barrier.constructor (VBool true) init = Some (Ok b, st')
                 /\ length (Barrier.promises b) = 1%nat)
  /\ Barrier.constructor (VNum (Fin (2 ^ 32))) init
     = Some (Thrown (RangeError "Invalid array length"), init).
Proof.
  split; [|reflexivity].
  eexists _, _. split; reflexivity.
Qed.

(** The barrier [new Barrier(n)] returns when called in state [st]. *)
Definition fresh_barrier (n : nat) (st : state) : Barrier.t :=
  Barrier.mk (VNum (Fin (Z.of_nat n)))
    (VPromise <$> seq (length (heap st)) n)
    (FResolve <$> seq (length (cells st)) n).

Lemma fresh_barrier_resolveFunction (n i : nat) (st : state) :
  (i < n)%nat ->
  Barrier.resolveFunctions (fresh_barrier n st) !! i
  = Some (FResolve (length (cells st) + i)).
Proof. intros Hi. cbn. by rewrite list_lookup_fmap, lookup_seq_lt. Qed.

(** An integer index below the length: the function stored there is called. *)
Lemma Barrier_resolve_calls (b : Barrier.t) (value : val) (st : state) (i : Z) (f : fn) :
  0 <= i ->
  Barrier.resolveFunctions b !! Z.to_nat i = Some f ->
  Barrier.resolve b (VNum (Fin i)) value st
  = Some (Normal VUndef, snd (call f value st)).
Proof.
  intros Hi Hf. unfold Barrier.resolve.
  rewrite invalid_number_nonneg by done. cbn [mbind option_bind array_get].
  replace (0 <=? i) with true by (symmetry; apply Z.leb_le; lia).
  rewrite Hf. by destruct (call f value st).
Qed.

(** C6, as the code has it. Among the modelled indices, [resolve] throws
    RangeError("Invalid index") exactly on undefined, null, false, NaN,
    -Infinity, the empty string and the negative numbers.  An integer index
    below the length calls the resolve function stored at that position and
    returns normally; on a barrier just built, with a value that is not a
    thenable, this fulfils that slot and leaves the others pending.  An
    integer index at or beyond the length throws a TypeError (calling
    [undefined]).  Both throws are synchronous and leave the state as it
    was. *)
Theorem Barrier_resolve_validation (b : Barrier.t) (value : val) (st : state) :
  (forall x : val, modelled_number x = true ->
     (Barrier.resolve b x value st = Some (Throw (RangeError "Invalid index"), st)
      <-> rejected_number x = true))
  /\ (forall (i : Z) (f : fn), 0 <= i ->
        Barrier.resolveFunctions b !! Z.to_nat i = Some f ->
        Barrier.resolve b (VNum (Fin i)) value st
        = Some (Normal VUndef, snd (call f value st)))
  /\ (forall i : Z, Z.of_nat (length (Barrier.resolveFunctions b)) <= i ->
        Barrier.resolve b (VNum (Fin i)) value st
        = Some (Throw (TypeError "this.#resolveFunctions[index] is not a function"), st))
  /\ (forall n i : nat, (i < n)%nat -> get_then value = None ->
        exists st',
          Barrier.resolve (fresh_barrier n st) (VNum (Fin (Z.of_nat i))) value
            (alloc_promises n st) = Some (Normal VUndef, st')
          /\ state_of st' (length (heap st) + i) = Some (Fulfilled value)
          /\ forall j : nat, (j < n)%nat -> j <> i ->
               state_of st' (length (heap st) + j) = Some Pending).
Proof.
  split; [|split; [intros i f; apply Barrier_resolve_calls|split]].
  - intros x Hx. unfold modelled_number in Hx.
    destruct (invalid_number x) as [r|] eqn:E; [|discriminate].
    apply invalid_number_rejected in E as R.
    unfold Barrier.resolve. rewrite E. cbn [mbind option_bind]. destruct r.
    + split; [intros _; exact R|reflexivity].
    + split; [|congruence].
      destruct (array_get _ x) as [[f|]|]; cbn [mbind option_bind].
      * destruct (call f value st). discriminate.
      * unfold RangeError, TypeError. intros [=].
      * discriminate.
  - intros i Hi. unfold Barrier.resolve.
    rewrite invalid_number_nonneg by lia. cbn [mbind option_bind array_get].
    replace (0 <=? i) with true by (symmetry; apply Z.leb_le; lia).
    rewrite (proj2 (lookup_ge_None _ _)) by lia. reflexivity.
  - intros n i Hi Hv.
    exists (snd (call (FResolve (length (cells st) + i)) value (alloc_promises n st))).
    split.
    + unfold Barrier.resolve.
      rewrite invalid_number_nonneg by lia. cbn [mbind option_bind array_get].
      replace (0 <=? Z.of_nat i) with true by (symmetry; apply Z.leb_le; lia).
      rewrite Nat2Z.id, fresh_barrier_resolveFunction by done.
      by destruct (call _ value _).
    + by apply alloc_promises_resolve_slot.
Qed.

Lemma Barrier_resolve_validation_witness :
  Barrier.resolve (fresh_barrier 2 init) VUndef (VStr "a") (alloc_promises 2 init)
    = Some (Throw (RangeError "Invalid index"), alloc_promises 2 init)
  /\ Barrier.resolve (fresh_barrier 2 init) (VNum (Fin 0)) (VStr "a") (alloc_promises 2 init)
     = Some (Normal VUndef, snd (call (FResolve 0) (VStr "a") (alloc_promises 2 init)))
  /\ Barrier.resolve (fresh_barrier 2 init) (VNum (Fin 2)) (VStr "a") (alloc_promises 2 init)
     = Some (Throw (TypeError "this.#resolveFunctions[index] is not a function"),
             alloc_promises 2 init)
  /\ exists st',
       Barrier.resolve (fresh_barrier 2 init) (VNum (Fin 1)) (VStr "a")
         (alloc_promises 2 init) = Some (Normal VUndef, st')
       /\ state_of st' 1 = Some (Fulfilled (VStr "a"))
       /\ state_of st' 0 = Some Pending.
Proof.
  split; [|split; [|split]].
  - apply (Barrier_resolve_validation (fresh_barrier 2 init) (VStr "a")
             (alloc_promises 2 init)); reflexivity.
  - apply (Barrier_resolve_validation (fresh_barrier 2 init) (VStr "a")
             (alloc_promises 2 init)); [lia|reflexivity].
  - apply (Barrier_resolve_validation (fresh_barrier 2 init) (VStr "a")
             (alloc_promises 2 init)). cbn. lia.
  - destruct (Barrier_resolve_validation (fresh_barrier 2 init) (VStr "a") init)
      as (_ & _ & _ & H).
    destruct (H 2%nat 1%nat) as (st' & H1 & H2 & H3); [lia|reflexivity|].
    exists st'. split; [exact H1|split; [exact H2|]].
    apply (H3 0%nat); lia.
Defined.

(** C6 as the spec words it fails on indices that are not numbers and yet
    are not rejected: the string "0" names element 0 of the array, so the
    call fulfils slot 0 and returns normally; [true] passes the check and
    fails only later, with the TypeError of calling [undefined]. *)
Lemma Barrier_resolve_counterexample :
  (exists st',
     Barrier.resolve (fresh_barrier 1 init) (VStr "0") (VStr "a") (alloc_promises 1 init)
       = Some (Normal VUndef, st')
     /\ state_of st' 0 = Some (Fulfilled (VStr "a")))
  /\ Barrier.resolve (fresh_barrier 1 init) (VBool true) (VStr "a") (alloc_promises 1 init)
     = Some (Throw (TypeError "this.#resolveFunctions[index] is not a function"),
             alloc_promises 1 init).
Proof.
  split; [|reflexivity].
  eexists. split; reflexivity.
Qed.

(** ** Continuations run in jobs only *)

(** The log records the calls the callers' callbacks receive.  No operation
    that settles a promise or registers a reaction writes to it. *)
Lemma log_resolve_fn (k : nat) (v : val) (st : state) :
  log (snd (resolve_fn k v st)) = log st.
Proof.
  unfold resolve_fn. destruct (cells st !! k) as [[p []]|]; [done| |done].
  unfold RejectPromise, FulfillPromise.
  destruct v; cbn; try destruct (Nat.eqb _ _); cbn;
    try destruct (heap st !! p); reflexivity.
Qed.

Lemma log_reject_fn (k : nat) (e : val) (st : state) :
  log (snd (reject_fn k e st)) = log st.
Proof.
  unfold reject_fn. destruct (cells st !! k) as [[p []]|]; [done| |done].
  unfold RejectPromise. cbn. destruct (heap st !! p); reflexivity.
Qed.

Lemma log_promise_then (p : ref) (onFulfilled onRejected : option fn) (st : state) :
  log (snd (promise_then p onFulfilled onRejected st)) = log st.
Proof.
  unfold promise_then, bind, new_promise, PerformPromiseThen. cbn.
  destruct (_ !! p) as [pr|]; [|done]. destruct (p_state pr); reflexivity.
Qed.

(** Settling only appends to the job queue. *)
Lemma queue_resolve_fn (k : nat) (v : val) (st : state) :
  exists extra, queue (snd (resolve_fn k v st)) = queue st ++ extra.
Proof.
  unfold resolve_fn. destruct (cells st !! k) as [[p []]|];
    [exists []; by rewrite app_nil_r| |exists []; by rewrite app_nil_r].
  unfold RejectPromise, FulfillPromise.
  destruct v; cbn; try destruct (Nat.eqb _ _); cbn;
    try destruct (heap st !! p); cbn; eauto; exists []; by rewrite app_nil_r.
Qed.

Lemma queue_reject_fn (k : nat) (e : val) (st : state) :
  exists extra, queue (snd (reject_fn k e st)) = queue st ++ extra.
Proof.
  unfold reject_fn. destruct (cells st !! k) as [[p []]|];
    [exists []; by rewrite app_nil_r| |exists []; by rewrite app_nil_r].
  unfold RejectPromise. cbn.
  destruct (heap st !! p); cbn; eauto. exists []; by rewrite app_nil_r.
Qed.

(** A job that hands [x] to the caller's callback [tag]. *)
Definition delivers (j : job) (entry : nat * val) : Prop :=
  exists cap ty body,
    j = ReactionJob (mkReaction cap ty (Some (FUser (fst entry) body))) (snd entry).

Lemma run_job_delivers (j : job) (entry : nat * val) (st : state) :
  delivers j entry ->
  log (snd (run_job j st)) = log st ++ [entry]
  /\ exists extra, queue (snd (run_job j st)) = queue st ++ extra.
Proof.
  intros (cap & ty & body & ->). destruct entry as [tag x].
  unfold run_job, bind. cbn.
  destruct (body x) as [v|e]; unfold bind, ret.
  - destruct (resolve_fn cap v _) as [c st'] eqn:E.
    apply (f_equal snd) in E. cbn in E. subst st'. cbn. split.
    + by rewrite log_resolve_fn.
    + apply (queue_resolve_fn cap v
               (mkState (heap st) (cells st) (aggs st) (queue st)
                        (log st ++ [(tag, x)]) (synchs st))).
  - destruct (reject_fn cap e _) as [c st'] eqn:E.
    apply (f_equal snd) in E. cbn in E. subst st'. cbn. split.
    + by rewrite log_reject_fn.
    + apply (queue_reject_fn cap e
               (mkState (heap st) (cells st) (aggs st) (queue st)
                        (log st ++ [(tag, x)]) (synchs st))).
Qed.

(** When the queue starts with delivery jobs, as many turns hand the
    entries over, in queue order. *)
Lemma run_deliveries (js : list job) (entries : list (nat * val)) :
  Forall2 delivers js entries ->
  forall (rest : list job) (st : state),
    queue st = js ++ rest ->
    log (run (length js) st) = log st ++ entries
    /\ exists extra, queue (run (length js) st) = rest ++ extra.
Proof.
  induction 1 as [|j entry js entries Hj _ IH]; intros rest st Hq.
  - cbn. rewrite !app_nil_r. split; [done|]. exists []. by rewrite app_nil_r.
  - cbn [length run].
    assert (Ht : log (tick st) = log st ++ [entry]
                 /\ exists extra, queue (tick st) = js ++ rest ++ extra).
    { unfold tick. rewrite Hq. cbn.
      destruct (run_job_delivers j entry
                  (mkState (heap st) (cells st) (aggs st) (js ++ rest) (log st) (synchs st))
                  Hj) as (Hl & extra & Hx).
      split; [exact Hl|]. exists extra. cbn in Hx. by rewrite Hx, <- app_assoc. }
    destruct Ht as (Hl & extra & Hx).
    destruct (IH (rest ++ extra) (tick st) Hx) as (Hl' & extra' & Hx').
    rewrite Hl', Hl, <- app_assoc. split; [done|].
    exists (extra ++ extra'). by rewrite Hx', <- app_assoc.
Qed.

(** ** DeferredPromise *)

(** C7. A continuation attached with [then] to a DeferredPromise is never
    called inside [then] or inside [resolve]: neither call writes to the log,
    whether the continuation is attached before [resolve(42)] or after it.
    What the two calls leave behind is one reaction job at the end of the
    queue, and the continuation receives 42 when a later turn of the
    scheduler runs that job. *)
Theorem DeferredPromise_continuation_runs_later
    (st : state) (tag : nat) (body : val -> completion) :
  let d := fst (DeferredPromise.constructor st) in
  let st0 := snd (DeferredPromise.constructor st) in
  let onFulfilled := Some (FUser tag body) in
  let v := VNum (Fin 42) in
  let J := ReactionJob (mkReaction (length (cells st) + 1) Fulfill onFulfilled) v in
  (* attached first, settled second *)
  let st1 := snd (DeferredPromise.call_bound (DeferredPromise.then_ d) onFulfilled None st0) in
  let st2 := snd (call (DeferredPromise.resolve d) v st1) in
  (* settled first, attached second *)
  let st1' := snd (call (DeferredPromise.resolve d) v st0) in
  let st2' := snd (DeferredPromise.call_bound (DeferredPromise.then_ d) onFulfilled None st1') in
  (log st1 = log st /\ log st2 = log st /\ queue st2 = queue st ++ [J])
  /\ (log st1' = log st /\ log st2' = log st /\ queue st2' = queue st ++ [J])
  /\ (queue st = [] ->
      log (tick st2) = log st ++ [(tag, v)]
      /\ log (tick st2') = log st ++ [(tag, v)]).
Proof.
  destruct st as [h c a q l s]. cbn zeta.
  assert (E2 : forall st2 : state,
            queue st2 = q ++ [ReactionJob
              (mkReaction (length c + 1) Fulfill (Some (FUser tag body))) (VNum (Fin 42))] ->
            log st2 = l -> q = [] -> log (tick st2) = l ++ [(tag, VNum (Fin 42))]).
  { intros st2 Hq Hl ->. cbn in Hq.
    destruct (run_deliveries
                [ReactionJob (mkReaction (length c + 1) Fulfill (Some (FUser tag body)))
                   (VNum (Fin 42))] [(tag, VNum (Fin 42))]) with (rest := @nil job) (st := st2)
      as (Hlog & _).
    - constructor; [|constructor]. by exists (length c + 1)%nat, Fulfill, body.
    - exact Hq.
    - cbn in Hlog. by rewrite Hlog, Hl. }
  cbn. unfold PerformPromiseThen, resolve_fn, FulfillPromise, bind. hsimp.
  unfold PerformPromiseThen, resolve_fn, FulfillPromise, bind. hsimp.
  repeat split; try reflexivity.
  - by apply E2.
  - by apply E2.
Qed.

Lemma DeferredPromise_continuation_runs_later_witness :
  let st2 :=
    snd (call (FResolve 0) (VNum (Fin 42))
           (snd (promise_then 0 (Some (FUser 7 Normal)) None
                   (snd (DeferredPromise.constructor init))))) in
  log st2 = [] /\ log (tick st2) = [(7%nat, VNum (Fin 42))].
Proof.
  destruct (DeferredPromise_continuation_runs_later init 7 Normal)
    as ((_ & H2 & _) & _ & H3).
  split; [exact H2|]. apply H3. reflexivity.
Defined.



(** ** Reading the outcome of a settled promise *)

(** [p.then(onFulfilled, onRejected)] for each pair of handlers in turn. *)
Fixpoint attach (p : ref) (hs : list (option fn * option fn)) : M unit :=
  match hs with
  | [] => ret tt
  | (onFulfilled, onRejected) :: rest =>
      promise_then p onFulfilled onRejected ;; attach p rest
  end.

(** The pair of reactions [then] registers for a pair of handlers. *)
Definition registers (rs : reaction * reaction) (h : option fn * option fn) : Prop :=
  exists cap, rs = (mkReaction cap Fulfill (fst h), mkReaction cap Reject (snd h)).

(** While the promise is pending, [then] only records reactions. *)
Lemma attach_pending (hs : list (option fn * option fn)) :
  forall (st : state) (p : ref) (frs rrs : list reaction),
    heap st !! p = Some (mkPromise Pending frs rrs) ->
    exists (new : list (reaction * reaction)) (hx : list promise) (cx : list (nat * bool)),
      Forall2 registers new hs
      /\ snd (attach p hs st) =
         mkState (<[p := mkPromise Pending (frs ++ (fst <$> new)) (rrs ++ (snd <$> new))]>
                    (heap st) ++ hx)
                 (cells st ++ cx) (aggs st) (queue st) (log st) (synchs st).
Proof.
  induction hs as [|[onF onR] hs IH]; intros st p frs rrs Hp.
  - exists [], [], []. split; [constructor|]. destruct st as [h c a q l s]. cbn in *.
    rewrite !app_nil_r, list_insert_id by done. done.
  - cbn [attach]. unfold bind at 1.
    destruct (promise_then p onF onR st) as [d st1] eqn:E.
    assert (Hlt : (p < length (heap st))%nat) by (by eapply lookup_lt_Some).
    assert (E1 : st1 = mkState
                   (<[p := mkPromise Pending
                             (frs ++ [mkReaction (length (cells st)) Fulfill onF])
                             (rrs ++ [mkReaction (length (cells st)) Reject onR])]> (heap st)
                    ++ [mkPromise Pending [] []])
                   (cells st ++ [(length (heap st), false)])
                   (aggs st) (queue st) (log st) (synchs st)).
    { apply (f_equal snd) in E. cbn in E. subst st1.
      destruct st as [h c a q l s]. cbn in *.
      unfold promise_then, bind, new_promise, PerformPromiseThen. cbn.
      rewrite lookup_app_l by done. rewrite Hp. cbn.
      by rewrite insert_app_l by done. }
    destruct (IH st1 p (frs ++ [mkReaction (length (cells st)) Fulfill onF])
                (rrs ++ [mkReaction (length (cells st)) Reject onR]))
      as (new & hx & cx & Hnew & Hst).
    { subst st1. cbn. rewrite lookup_app_l by (by rewrite length_insert).
      by rewrite list_lookup_insert_eq. }
    exists ((mkReaction (length (cells st)) Fulfill onF,
             mkReaction (length (cells st)) Reject onR) :: new),
           (mkPromise Pending [] [] :: hx), ((length (heap st), false) :: cx).
    split.
    + constructor; [by exists (length (cells st))|exact Hnew].
    + rewrite Hst. subst st1. cbn.
      rewrite insert_app_l by (by rewrite length_insert).
      rewrite list_insert_insert_eq. rewrite <- !app_assoc. done.
Qed.

(** Once the promise is fulfilled, [then] schedules a job at once. *)
Lemma attach_fulfilled (hs : list (option fn * option fn)) :
  forall (st : state) (p : ref) (pr : promise) (v : val),
    heap st !! p = Some pr -> p_state pr = Fulfilled v ->
    exists (new : list (reaction * reaction)) (hx : list promise) (cx : list (nat * bool)),
      Forall2 registers new hs
      /\ snd (attach p hs st) =
         mkState (heap st ++ hx) (cells st ++ cx) (aggs st)
                 (queue st ++ ((fun rs => ReactionJob (fst rs) v) <$> new))
                 (log st) (synchs st).
Proof.
  induction hs as [|[onF onR] hs IH]; intros st p pr v Hp Hv.
  - exists [], [], []. split; [constructor|]. destruct st. cbn. by rewrite !app_nil_r.
  - cbn [attach]. unfold bind at 1.
    destruct (promise_then p onF onR st) as [d st1] eqn:E.
    assert (Hlt : (p < length (heap st))%nat) by (by eapply lookup_lt_Some).
    assert (E1 : st1 = mkState (heap st ++ [mkPromise Pending [] []])
                   (cells st ++ [(length (heap st), false)]) (aggs st)
                   (queue st ++ [ReactionJob (mkReaction (length (cells st)) Fulfill onF) v])
                   (log st) (synchs st)).
    { apply (f_equal snd) in E. cbn in E. subst st1.
      destruct st as [h c a q l s]. cbn in *.
      unfold promise_then, bind, new_promise, PerformPromiseThen. cbn.
      rewrite lookup_app_l by done. rewrite Hp. cbn. by rewrite Hv. }
    destruct (IH st1 p pr v) as (new & hx & cx & Hnew & Hst); [|exact Hv|].
    { subst st1. cbn. by rewrite lookup_app_l. }
    exists ((mkReaction (length (cells st)) Fulfill onF,
             mkReaction (length (cells st)) Reject onR) :: new),
           (mkPromise Pending [] [] :: hx), ((length (heap st), false) :: cx).
    split.
    + constructor; [by exists (length (cells st))|exact Hnew].
    + rewrite Hst. subst st1. cbn. rewrite <- !app_assoc. done.
Qed.

Lemma attach_rejected (hs : list (option fn * option fn)) :
  forall (st : state) (p : ref) (pr : promise) (e : val),
    heap st !! p = Some pr -> p_state pr = Rejected e ->
    exists (new : list (reaction * reaction)) (hx : list promise) (cx : list (nat * bool)),
      Forall2 registers new hs
      /\ snd (attach p hs st) =
         mkState (heap st ++ hx) (cells st ++ cx) (aggs st)
                 (queue st ++ ((fun rs => ReactionJob (snd rs) e) <$> new))
                 (log st) (synchs st).
Proof.
  induction hs as [|[onF onR] hs IH]; intros st p pr e Hp He.
  - exists [], [], []. split; [constructor|]. destruct st. cbn. by rewrite !app_nil_r.
  - cbn [attach]. unfold bind at 1.
    destruct (promise_then p onF onR st) as [d st1] eqn:E.
    assert (Hlt : (p < length (heap st))%nat) by (by eapply lookup_lt_Some).
    assert (E1 : st1 = mkState (heap st ++ [mkPromise Pending [] []])
                   (cells st ++ [(length (heap st), false)]) (aggs st)
                   (queue st ++ [ReactionJob (mkReaction (length (cells st)) Reject onR) e])
                   (log st) (synchs st)).
    { apply (f_equal snd) in E. cbn in E. subst st1.
      destruct st as [h c a q l s]. cbn in *.
      unfold promise_then, bind, new_promise, PerformPromiseThen. cbn.
      rewrite lookup_app_l by done. rewrite Hp. cbn. by rewrite He. }
    destruct (IH st1 p pr e) as (new & hx & cx & Hnew & Hst); [|exact He|].
    { subst st1. cbn. by rewrite lookup_app_l. }
    exists ((mkReaction (length (cells st)) Fulfill onF,
             mkReaction (length (cells st)) Reject onR) :: new),
           (mkPromise Pending [] [] :: hx), ((length (heap st), false) :: cx).
    split.
    + constructor; [by exists (length (cells st))|exact Hnew].
    + rewrite Hst. subst st1. cbn. rewrite <- !app_assoc. done.
Qed.

(** Observers: callbacks of the caller, told apart by their tag. *)
Definition observer : Type := nat * (val -> completion).

Definition on_success (obs : list observer) : list (option fn * option fn) :=
  (fun ob => (Some (FUser (fst ob) (snd ob)), None)) <$> obs.

Definition on_failure (obs : list observer) : list (option fn * option fn) :=
  (fun ob => (None, Some (FUser (fst ob) (snd ob)))) <$> obs.

Definition received (x : val) (obs : list observer) : list (nat * val) :=
  (fun ob => (fst ob, x)) <$> obs.

Lemma success_jobs_deliver (x : val) (obs : list observer) :
  forall new : list (reaction * reaction),
    Forall2 registers new (on_success obs) ->
    Forall2 delivers ((fun rs => ReactionJob (fst rs) x) <$> new) (received x obs).
Proof.
  induction obs as [|[tag body] obs IH]; intros new Hnew; inversion Hnew; subst.
  - constructor.
  - cbn. constructor; [|by apply IH].
    match goal with H : registers _ _ |- _ => destruct H as [cap ->] end.
    by exists cap, Fulfill, body.
Qed.

Lemma failure_jobs_deliver (x : val) (obs : list observer) :
  forall new : list (reaction * reaction),
    Forall2 registers new (on_failure obs) ->
    Forall2 delivers ((fun rs => ReactionJob (snd rs) x) <$> new) (received x obs).
Proof.
  induction obs as [|[tag body] obs IH]; intros new Hnew; inversion Hnew; subst.
  - constructor.
  - cbn. constructor; [|by apply IH].
    match goal with H : registers _ _ |- _ => destruct H as [cap ->] end.
    by exists cap, Reject, body.
Qed.

Lemma registers_length (new : list (reaction * reaction)) (obs : list observer)
    (f : observer -> option fn * option fn) :
  Forall2 registers new (f <$> obs) -> length new = length obs.
Proof. intros H. apply Forall2_length in H. by rewrite length_fmap in H. Qed.

(** C9, as the code has it. A DeferredPromise is settled with [x]: by
    [resolve(x)] for an [x] that is not a thenable, or by [reject(x)] for any
    [x].  Then every continuation, whether attached before the settlement or
    after it, and however many there are, receives exactly [x], in attachment
    order, one per turn of the scheduler; the stored outcome is [x]. *)
Theorem DeferredPromise_outcome_round_trip
    (st : state) (before after : list observer) (x : val) :
  queue st = [] ->
  let d := fst (DeferredPromise.constructor st) in
  let st0 := snd (DeferredPromise.constructor st) in
  let p := DeferredPromise.promise d in
  let turns := (length before + length after)%nat in
  (get_then x = None ->
   let st3 :=
     snd (attach p (on_success after)
            (snd (call (DeferredPromise.resolve d) x
                    (snd (attach p (on_success before) st0))))) in
   state_of st3 p = Some (Fulfilled x)
   /\ log (run turns st3) = log st ++ received x (before ++ after))
  /\ (let st3 :=
        snd (attach p (on_failure after)
               (snd (call (DeferredPromise.reject d) x
                       (snd (attach p (on_failure before) st0))))) in
      state_of st3 p = Some (Rejected x)
      /\ log (run turns st3) = log st ++ received x (before ++ after)).
Proof.
  destruct st as [h c a q l s]. cbn [queue]. intros ->. cbn zeta.
  cbn [DeferredPromise.constructor bind new_promise ret fst snd heap cells
       DeferredPromise.promise DeferredPromise.resolve DeferredPromise.reject
       set_heap set_cells aggs queue log synchs call].
  assert (Hp0 : (h ++ [mkPromise Pending [] []]) !! length h
                = Some (mkPromise Pending [] [])) by (by hsimp).
  split.
  - intros Hx.
    destruct (attach_pending (on_success before)
                (mkState (h ++ [mkPromise Pending [] []]) (c ++ [(length h, false)]) a [] l s)
                (length h) [] [] Hp0) as (n1 & hx1 & cx1 & Hn1 & ->).
    cbn [heap cells aggs queue log synchs app].
    rewrite (resolve_fn_fulfill (length c) (length h) x
               (mkPromise Pending (fst <$> n1) (snd <$> n1))); cbn [heap cells]; [| | |exact Hx].
    2:{ rewrite <- app_assoc. by hsimp. }
    2:{ rewrite lookup_app_l by (rewrite length_insert, length_app; cbn; lia).
        apply list_lookup_insert_eq. rewrite length_app. cbn. lia. }
    cbn [snd heap cells aggs queue log synchs app p_fulfillReactions].
    match goal with
    | |- context [attach ?p ?hs ?s0] =>
        destruct (attach_fulfilled hs s0 p (mkPromise (Fulfilled x) [] []) x)
          as (n2 & hx2 & cx2 & Hn2 & ->); [|reflexivity|]
    end.
    { cbn [heap]. apply list_lookup_insert_eq.
      rewrite length_app, length_insert, length_app. cbn. lia. }
    cbn [heap cells aggs queue log synchs]. split.
    + unfold state_of. cbn [heap].
      rewrite lookup_app_l
        by (rewrite length_insert, length_app, length_insert, length_app; cbn; lia).
      rewrite list_lookup_insert_eq
        by (rewrite length_app, length_insert, length_app; cbn; lia).
      done.
    + match goal with
      | |- log (run _ ?s3) = _ =>
          destruct (run_deliveries
                      (((fun r => ReactionJob r x) <$> (fst <$> n1))
                       ++ ((fun rs => ReactionJob (fst rs) x) <$> n2))
                      (received x (before ++ after))) with (rest := @nil job) (st := s3)
            as (Hlog & _)
      end.
      * unfold received. rewrite fmap_app. apply Forall2_app.
        -- rewrite <- list_fmap_compose. exact (success_jobs_deliver x before n1 Hn1).
        -- exact (success_jobs_deliver x after n2 Hn2).
      * cbn [queue]. by rewrite app_nil_r.
      * rewrite length_app, !length_fmap in Hlog.
        rewrite (registers_length _ _ _ Hn1), (registers_length _ _ _ Hn2) in Hlog.
        exact Hlog.
  - destruct (attach_pending (on_failure before)
                (mkState (h ++ [mkPromise Pending [] []]) (c ++ [(length h, false)]) a [] l s)
                (length h) [] [] Hp0) as (n1 & hx1 & cx1 & Hn1 & ->).
    cbn [heap cells aggs queue log synchs app].
    rewrite (reject_fn_reject (length c) (length h) x
               (mkPromise Pending (fst <$> n1) (snd <$> n1))); cbn [heap cells].
    2:{ rewrite <- app_assoc. by hsimp. }
    2:{ rewrite lookup_app_l by (rewrite length_insert, length_app; cbn; lia).
        apply list_lookup_insert_eq. rewrite length_app. cbn. lia. }
    cbn [snd heap cells aggs queue log synchs app p_rejectReactions].
    match goal with
    | |- context [attach ?p ?hs ?s0] =>
        destruct (attach_rejected hs s0 p (mkPromise (Rejected x) [] []) x)
          as (n2 & hx2 & cx2 & Hn2 & ->); [|reflexivity|]
    end.
    { cbn [heap]. apply list_lookup_insert_eq.
      rewrite length_app, length_insert, length_app. cbn. lia. }
    cbn [heap cells aggs queue log synchs]. split.
    + unfold state_of. cbn [heap].
      rewrite lookup_app_l
        by (rewrite length_insert, length_app, length_insert, length_app; cbn; lia).
      rewrite list_lookup_insert_eq
        by (rewrite length_app, length_insert, length_app; cbn; lia).
      done.
    + match goal with
      | |- log (run _ ?s3) = _ =>
          destruct (run_deliveries
                      (((fun r => ReactionJob r x) <$> (snd <$> n1))
                       ++ ((fun rs => ReactionJob (snd rs) x) <$> n2))
                      (received x (before ++ after))) with (rest := @nil job) (st := s3)
            as (Hlog & _)
      end.
      * unfold received. rewrite fmap_app. apply Forall2_app.
        -- rewrite <- list_fmap_compose. exact (failure_jobs_deliver x before n1 Hn1).
        -- exact (failure_jobs_deliver x after n2 Hn2).
      * cbn [queue]. by rewrite app_nil_r.
      * rewrite length_app, !length_fmap in Hlog.
        rewrite (registers_length _ _ _ Hn1), (registers_length _ _ _ Hn2) in Hlog.
        exact Hlog.
Qed.

Lemma DeferredPromise_outcome_round_trip_witness :
  let st3 :=
    snd (attach 0 (on_success [(2%nat, Normal)])
           (snd (call (FResolve 0) (VStr "v")
                   (snd (attach 0 (on_success [(1%nat, Normal)])
                           (snd (DeferredPromise.constructor init))))))) in
  state_of st3 0 = Some (Fulfilled (VStr "v"))
  /\ log (run 2 st3) = [(1%nat, VStr "v"); (2%nat, VStr "v")].
Proof.
  destruct (DeferredPromise_outcome_round_trip init [(1%nat, Normal)] [(2%nat, Normal)]
              (VStr "v") eq_refl) as [H _].
  apply H. reflexivity.
Defined.

(** C9 as the spec words it, for every value, fails when the value is a
    thenable: [d.resolve(e)], with [e] another DeferredPromise already
    fulfilled with 7, makes [d] follow [e]; the continuation receives 7, not
    the object [e]. *)
Lemma DeferredPromise_outcome_counterexample :
  let (e, s1) := DeferredPromise.constructor init in
  let s2 := snd (call (DeferredPromise.resolve e) (VNum (Fin 7)) s1) in
  let (d, s3) := DeferredPromise.constructor s2 in
  let x := DeferredPromise.to_val e in
  let s4 := snd (call (DeferredPromise.resolve d) x s3) in
  let s5 := snd (attach (DeferredPromise.promise d) (on_success [(1%nat, Normal)]) s4) in
  state_of (run 3 s5) (DeferredPromise.promise d) = Some (Fulfilled (VNum (Fin 7)))
  /\ log (run 3 s5) = [(1%nat, VNum (Fin 7))]
  /\ queue (run 3 s5) = []
  /\ log (run 3 s5) <> received x [(1%nat, Normal)].
Proof. cbn. repeat split; try reflexivity. discriminate. Qed.

(** ** Resolving a slot twice *)

(** Whatever the resolution is, the first call of a resolve function sets
    its [[AlreadyResolved]] record. *)
Lemma resolve_fn_sets_cell (k : nat) (p : ref) (v : val) (st : state) :
  cells st !! k = Some (p, false) ->
  cells (snd (resolve_fn k v st)) !! k = Some (p, true).
Proof.
  intros Hk. assert (Hlt : (k < length (cells st))%nat) by (by eapply lookup_lt_Some).
  unfold resolve_fn. rewrite Hk. unfold RejectPromise, FulfillPromise.
  destruct v; cbn; try destruct (Nat.eqb _ _); cbn;
    try destruct (heap st !! p); cbn; by apply list_lookup_insert_eq.
Qed.

(** C10, as the code has it. On a slot whose resolve function has not been
    called yet, [resolve(index, v1)] followed by [resolve(index, v2)]: both
    calls return normally and the second one changes nothing at all, so that
    whatever reads the slot later ([all], [race]) reads what the first call
    left.  When [v1] is not a thenable, what it left is the slot fulfilled
    with [v1]. *)
Theorem Barrier_resolve_twice
    (b : Barrier.t) (st : state) (i : Z) (k : nat) (p : ref) (pr : promise)
    (v1 v2 : val) :
  0 <= i ->
  Barrier.resolveFunctions b !! Z.to_nat i = Some (FResolve k) ->
  cells st !! k = Some (p, false) ->
  heap st !! p = Some pr ->
  let st1 := snd (call (FResolve k) v1 st) in
  Barrier.resolve b (VNum (Fin i)) v1 st = Some (Normal VUndef, st1)
  /\ Barrier.resolve b (VNum (Fin i)) v2 st1 = Some (Normal VUndef, st1)
  /\ (get_then v1 = None -> state_of st1 p = Some (Fulfilled v1)).
Proof.
  intros Hi Hf Hk Hp st1. subst st1.
  split; [by apply Barrier_resolve_calls|split].
  - rewrite (Barrier_resolve_calls b v2 _ i (FResolve k) Hi Hf). cbn [call].
    by rewrite (resolve_fn_dead k p v2 _ (resolve_fn_sets_cell k p v1 st Hk)).
  - intros Hv. cbn [call]. rewrite (resolve_fn_fulfill k p v1 pr st Hk Hp Hv).
    unfold state_of. cbn.
    rewrite list_lookup_insert_eq by (by eapply lookup_lt_Some). done.
Qed.

Lemma Barrier_resolve_twice_witness :
  exists st1,
    Barrier.resolve (fresh_barrier 2 init) (VNum (Fin 1)) (VStr "first")
      (alloc_promises 2 init) = Some (Normal VUndef, st1)
    /\ Barrier.resolve (fresh_barrier 2 init) (VNum (Fin 1)) (VStr "second") st1
       = Some (Normal VUndef, st1)
    /\ state_of st1 1 = Some (Fulfilled (VStr "first")).
Proof.
  destruct (Barrier_resolve_twice (fresh_barrier 2 init) (alloc_promises 2 init) 1 1 1
              (mkPromise Pending [] []) (VStr "first") (VStr "second"))
    as (H1 & H2 & H3); [lia|reflexivity..|].
  eexists. split; [exact H1|split; [exact H2|]]. apply H3. reflexivity.
Defined.

(** C10 as the spec words it fails when [v1] is a thenable: the slot then
    follows [v1] instead of being fulfilled with it.  Here [v1] is a
    DeferredPromise rejected with "boom"; after both calls and two turns of
    the scheduler the slot is rejected with "boom". *)
Lemma Barrier_resolve_twice_counterexample :
  let (e, s1) := DeferredPromise.constructor init in
  let s2 := snd (call (DeferredPromise.reject e) (VStr "boom") s1) in
  let v1 := DeferredPromise.to_val e in
  match Barrier.constructor (VNum (Fin 1)) s2 with
  | Some (Ok b, s3) =>
      match Barrier.resolve b (VNum (Fin 0)) v1 s3 with
      | Some (Normal _, s4) =>
          match Barrier.resolve b (VNum (Fin 0)) (VNum (Fin 2)) s4 with
          | Some (Normal _, s5) =>
              Barrier.promises b = [VPromise 1]
              /\ s5 = s4
              /\ state_of s5 1 = Some Pending
              /\ state_of (run 2 s5) 1 = Some (Rejected (VStr "boom"))
              /\ queue (run 2 s5) = []
              /\ state_of (run 2 s5) 1 <> Some (Fulfilled v1)
          | _ => False
          end
      | _ => False
      end
  | _ => False
  end.
Proof. cbn. repeat split; try reflexivity. discriminate. Qed.

(** ** The aggregates on a barrier, step by step *)

Lemma imap_insert {A B : Type} (f : nat -> A -> B) (l : list A) (i : nat) (x : A) :
  imap f (<[i := x]> l) = <[i := f i x]> (imap f l).
Proof.
  apply list_eq. intros j. rewrite list_lookup_imap.
  destruct (decide (i = j)) as [->|Hne].
  - destruct (decide (j < length l)%nat) as [Hlt|Hge].
    + rewrite !list_lookup_insert_eq by (by rewrite ?length_imap). done.
    + rewrite !list_insert_ge by (rewrite ?length_imap; lia).
      by rewrite list_lookup_imap.
  - rewrite !list_lookup_insert_ne by done. by rewrite list_lookup_imap.
Qed.

(** A list laid out as a left part of known length, one element, and a
    right part. *)
Section Layout.
Context {A : Type}.
Implicit Types (x y : A) (n j : nat).

Lemma lookup_left (l1 : list A) x (l2 : list A) n j :
  length l1 = n -> (j < n)%nat -> (l1 ++ x :: l2) !! j = l1 !! j.
Proof. intros <- Hj. by rewrite lookup_app_l. Qed.

Lemma lookup_mid (l1 : list A) x (l2 : list A) n :
  length l1 = n -> (l1 ++ x :: l2) !! n = Some x.
Proof. intros <-. by apply list_lookup_middle. Qed.

Lemma lookup_right (l1 : list A) x (l2 : list A) n j :
  length l1 = n -> (l1 ++ x :: l2) !! (n + S j)%nat = l2 !! j.
Proof. intros <-. rewrite lookup_app_add. done. Qed.

Lemma insert_left (l1 : list A) x (l2 : list A) n j y :
  length l1 = n -> (j < n)%nat ->
  <[j := y]> (l1 ++ x :: l2) = <[j := y]> l1 ++ x :: l2.
Proof. intros <- Hj. by rewrite insert_app_l. Qed.

Lemma insert_mid (l1 : list A) x (l2 : list A) n y :
  length l1 = n -> <[n := y]> (l1 ++ x :: l2) = l1 ++ y :: l2.
Proof. intros <-. by rewrite insert_app_len. Qed.

Lemma insert_right (l1 : list A) x (l2 : list A) n j y :
  length l1 = n ->
  <[(n + S j)%nat := y]> (l1 ++ x :: l2) = l1 ++ x :: <[j := y]> l2.
Proof. intros <-. by rewrite insert_app_r. Qed.
End Layout.

(** Number of [false] entries: the elements not yet called. *)
Fixpoint pending_count (l : list bool) : Z :=
  match l with
  | [] => 0
  | b :: r => (if b then 0 else 1) + pending_count r
  end.

Lemma pending_count_nonneg (l : list bool) : 0 <= pending_count l.
Proof. induction l as [|[] l IH]; cbn [pending_count]; lia. Qed.

Lemma pending_count_insert (l : list bool) :
  forall j : nat, l !! j = Some false ->
    pending_count (<[j := true]> l) = pending_count l - 1.
Proof.
  induction l as [|b l IH]; intros [|j] Hj; try discriminate.
  - injection Hj as ->. cbn. lia.
  - cbn in Hj. cbn [pending_count]. change (<[S j := true]> (b :: l)) with (b :: <[j := true]> l).
    cbn [pending_count]. rewrite (IH j Hj). lia.
Qed.

Lemma pending_count_zero (l : list bool) :
  pending_count l = 0 -> forall (j : nat) (b : bool), l !! j = Some b -> b = true.
Proof.
  induction l as [|b l IH]; intros Hz [|j] b' Hj; try discriminate.
  - injection Hj as <-. pose proof (pending_count_nonneg l).
    destruct b; [done|]. cbn [pending_count] in Hz. lia.
  - cbn in Hj. apply (IH ltac:(pose proof (pending_count_nonneg l);
      destruct b; cbn [pending_count] in Hz; lia) j b' Hj).
Qed.

Lemma pending_count_replicate (n : nat) :
  pending_count (replicate n false) = Z.of_nat n.
Proof. induction n as [|n IH]; cbn [replicate pending_count]; lia. Qed.

Section BarrierMachine.
Variables (h : list promise) (c : list (nat * bool)) (g : list agg)
          (l : list (nat * val)) (s : list synch).
Variable n : nat.
Variable all : bool.

Local Abbreviation hlen := (length h).
Local Abbreviation clen := (length c).
Local Abbreviation glen := (length g).

Record local := mkLocal {
  outs : list pstate;
  pend : list nat;
  vals : list val;
  called : list bool;
  remaining : Z;
  fired : list bool;
  rst : pstate;
  kflag : bool
}.

Definition fr (j : nat) : reaction :=
  mkReaction (clen + n + S j) Fulfill
    (Some (if all then FAllElem glen j else FResolve (clen + n))).
Definition rr (j : nat) : reaction :=
  mkReaction (clen + n + S j) Reject (Some (FReject (clen + n))).

Definition settled (o : pstate) : bool :=
  match o with Pending => false | _ => true end.

Definition bare (o : pstate) : promise := mkPromise o [] [].
Definition slot_promise (j : nat) (o : pstate) : promise :=
  match o with
  | Pending => mkPromise Pending [fr j] [rr j]
  | _ => bare o
  end.
Definition slot_cell (j : nat) (o : pstate) : nat * bool := ((hlen + j)%nat, settled o).
Definition d_promise (f : bool) : promise :=
  bare (if f then Fulfilled VUndef else Pending).
Definition d_cell (j : nat) (f : bool) : nat * bool := ((hlen + n + S j)%nat, f).

Definition job_of (os : list pstate) (j : nat) : job :=
  match os !! j with
  | Some (Rejected e) => ReactionJob (rr j) e
  | Some (Fulfilled v) => ReactionJob (fr j) v
  | _ => ReactionJob (fr j) VUndef
  end.

Definition before (os : list pstate) : state :=
  mkState (h ++ (bare <$> os)) (c ++ imap slot_cell os) g [] l s.

Definition concrete (x : local) : state :=
  mkState (h ++ imap slot_promise (outs x) ++ bare (rst x) :: (d_promise <$> fired x))
          (c ++ imap slot_cell (outs x) ++ ((hlen + n)%nat, kflag x) :: imap d_cell (fired x))
          (if all then g ++ [mkAgg (vals x) (called x) (remaining x) (clen + n)] else g)
          (job_of (outs x) <$> pend x) l s.

Inductive event :=
| Resolve (j : nat) (v : val)
| RejectSlot (j : nat) (e : val)
| Tick.

Definition exec_event (ev : event) (st : state) : state :=
  match ev with
  | Resolve j v => snd (resolve_fn (clen + j) v st)
  | RejectSlot j e => snd (reject_fn (clen + j) e st)
  | Tick => tick st
  end.

Definition valid_event (ev : event) : Prop :=
  match ev with
  | Resolve j v => (j < n)%nat /\ get_then v = None
  | RejectSlot j e => (j < n)%nat
  | Tick => True
  end.

(** The same events on the description. *)
Definition settle_slot (j : nat) (o : pstate) (os : list pstate) : list pstate :=
  match os !! j with
  | Some Pending => <[j := o]> os
  | _ => os
  end.

Definition a_settle (j : nat) (o : pstate) (x : local) : local :=
  match outs x !! j with
  | Some Pending =>
      mkLocal (<[j := o]> (outs x)) (pend x ++ [j]) (vals x) (called x)
              (remaining x) (fired x) (rst x) (kflag x)
  | _ => x
  end.

(** The result capability is resolved or rejected once. *)
Definition a_result (o : pstate) (x : local) : local :=
  if kflag x then x
  else mkLocal (outs x) (pend x) (vals x) (called x) (remaining x) (fired x) o true.

Definition a_handler (j : nat) (x : local) : local :=
  match outs x !! j with
  | Some (Fulfilled v) =>
      if all then
        match called x !! j with
        | Some false =>
            let x1 := mkLocal (outs x) (pend x) (<[j := v]> (vals x))
                        (<[j := true]> (called x)) (remaining x - 1) (fired x)
                        (rst x) (kflag x) in
            if remaining x - 1 =? 0 then a_result (Fulfilled (VArr (vals x1))) x1 else x1
        | _ => x
        end
      else a_result (Fulfilled v) x
  | Some (Rejected e) => a_result (Rejected e) x
  | _ => x
  end.

Definition a_derived (j : nat) (x : local) : local :=
  match fired x !! j with
  | Some false =>
      mkLocal (outs x) (pend x) (vals x) (called x) (remaining x)
              (<[j := true]> (fired x)) (rst x) (kflag x)
  | _ => x
  end.

Definition a_tick (x : local) : local :=
  match pend x with
  | [] => x
  | j :: rest =>
      a_derived j
        (a_handler j
           (mkLocal (outs x) rest (vals x) (called x) (remaining x) (fired x)
                    (rst x) (kflag x)))
  end.

Definition a_event (ev : event) (x : local) : local :=
  match ev with
  | Resolve j v => a_settle j (Fulfilled v) x
  | RejectSlot j e => a_settle j (Rejected e) x
  | Tick => a_tick x
  end.

(** Shape of a description. *)
Record shape (x : local) : Prop := mkShape {
  sh_outs : length (outs x) = n;
  sh_fired : length (fired x) = n;
  sh_vals : length (vals x) = n;
  sh_called : length (called x) = n;
  sh_pend : Forall (fun j => exists o, outs x !! j = Some o /\ settled o = true) (pend x);
  sh_values : Forall (fun o => match o with Fulfilled v => get_then v = None | _ => True end)
                (outs x)
}.

Lemma concrete_slot x j :
  shape x -> (j < n)%nat ->
  heap (concrete x) !! (hlen + j)%nat = slot_promise j <$> outs x !! j.
Proof.
  intros Sh Hj. cbn. rewrite lookup_app_add.
  rewrite (lookup_left _ _ _ n) by (rewrite ?length_imap; by destruct Sh).
  apply list_lookup_imap.
Qed.

Lemma concrete_slot_cell x j :
  shape x -> (j < n)%nat ->
  cells (concrete x) !! (clen + j)%nat = slot_cell j <$> outs x !! j.
Proof.
  intros Sh Hj. cbn. rewrite lookup_app_add.
  rewrite (lookup_left _ _ _ n) by (rewrite ?length_imap; by destruct Sh).
  apply list_lookup_imap.
Qed.

Lemma settle_sim x j o :
  shape x -> (j < n)%nat -> settled o = true ->
  match o with Fulfilled v => get_then v = None | _ => True end ->
  (match o with
   | Fulfilled v => snd (resolve_fn (clen + j) v (concrete x))
   | Rejected e => snd (reject_fn (clen + j) e (concrete x))
   | Pending => concrete x
   end) = concrete (a_settle j o x).
Proof.
  intros Sh Hj Ho Hv.
  assert (Hlen := sh_outs _ Sh).
  destruct (outs x !! j) as [oj|] eqn:Ej.
  2:{ apply lookup_ge_None in Ej. lia. }
  destruct o as [|v|e]; [done| |].
  - destruct oj as [|w|w].
    + rewrite (resolve_fn_fulfill (clen + j) (hlen + j) v (slot_promise j Pending));
        [| by rewrite concrete_slot_cell, Ej | by rewrite concrete_slot, Ej | done].
      unfold a_settle. rewrite Ej. unfold concrete. cbn.
      rewrite !insert_app_r.
      rewrite !(insert_left _ _ _ n) by (rewrite ?length_imap; done).
      rewrite !imap_insert. rewrite fmap_app. cbn.
      unfold job_of at 3. rewrite list_lookup_insert_eq by lia.
      f_equal. f_equal.
      apply list_fmap_ext. intros i j' Hj'. unfold job_of.
      destruct (decide (j = j')) as [<-|Hne]; [|by rewrite list_lookup_insert_ne].
      destruct Sh as [_ _ _ _ Hp _].
      rewrite Forall_forall in Hp. destruct (Hp j) as (o' & Ho' & Hs).
      { eapply list_elem_of_lookup_2. exact Hj'. }
      rewrite Ej in Ho'. injection Ho' as <-. discriminate.
    + rewrite (resolve_fn_dead (clen + j) (hlen + j)); [|by rewrite concrete_slot_cell, Ej].
      unfold a_settle. by rewrite Ej.
    + rewrite (resolve_fn_dead (clen + j) (hlen + j)); [|by rewrite concrete_slot_cell, Ej].
      unfold a_settle. by rewrite Ej.
  - destruct oj as [|w|w].
    + rewrite (reject_fn_reject (clen + j) (hlen + j) e (slot_promise j Pending));
        [| by rewrite concrete_slot_cell, Ej | by rewrite concrete_slot, Ej].
      unfold a_settle. rewrite Ej. unfold concrete. cbn.
      rewrite !insert_app_r.
      rewrite !(insert_left _ _ _ n) by (rewrite ?length_imap; done).
      rewrite !imap_insert. rewrite fmap_app. cbn.
      unfold job_of at 3. rewrite list_lookup_insert_eq by lia.
      f_equal. f_equal.
      apply list_fmap_ext. intros i j' Hj'. unfold job_of.
      destruct (decide (j = j')) as [<-|Hne]; [|by rewrite list_lookup_insert_ne].
      destruct Sh as [_ _ _ _ Hp _].
      rewrite Forall_forall in Hp. destruct (Hp j) as (o' & Ho' & Hs).
      { eapply list_elem_of_lookup_2. exact Hj'. }
      rewrite Ej in Ho'. injection Ho' as <-. discriminate.
    + rewrite (reject_fn_dead (clen + j) (hlen + j)); [|by rewrite concrete_slot_cell, Ej].
      unfold a_settle. by rewrite Ej.
    + rewrite (reject_fn_dead (clen + j) (hlen + j)); [|by rewrite concrete_slot_cell, Ej].
      unfold a_settle. by rewrite Ej.
Qed.

Lemma concrete_result_cell x :
  shape x -> cells (concrete x) !! (clen + n)%nat = Some ((hlen + n)%nat, kflag x).
Proof.
  intros Sh. cbn. rewrite lookup_app_add.
  apply lookup_mid. rewrite length_imap. by destruct Sh.
Qed.

Lemma concrete_result x :
  shape x -> heap (concrete x) !! (hlen + n)%nat = Some (bare (rst x)).
Proof.
  intros Sh. cbn. rewrite lookup_app_add.
  apply lookup_mid. rewrite length_imap. by destruct Sh.
Qed.

Lemma concrete_d_cell x j :
  shape x ->
  cells (concrete x) !! (clen + n + S j)%nat = d_cell j <$> fired x !! j.
Proof.
  intros Sh. cbn. rewrite <- Nat.add_assoc, lookup_app_add.
  rewrite (lookup_right _ _ _ n) by (rewrite length_imap; by destruct Sh).
  apply list_lookup_imap.
Qed.

Lemma concrete_d x j :
  shape x ->
  heap (concrete x) !! (hlen + n + S j)%nat = d_promise <$> fired x !! j.
Proof.
  intros Sh. cbn. rewrite <- Nat.add_assoc, lookup_app_add.
  rewrite (lookup_right _ _ _ n) by (rewrite length_imap; by destruct Sh).
  apply list_lookup_fmap.
Qed.

Lemma result_resolve_sim x v :
  shape x -> get_then v = None ->
  resolve_fn (clen + n) v (concrete x)
  = (Normal VUndef, concrete (a_result (Fulfilled v) x)).
Proof.
  intros Sh Hv. unfold a_result. destruct (kflag x) eqn:Ek.
  - apply (resolve_fn_dead _ (hlen + n)). by rewrite concrete_result_cell, Ek.
  - rewrite (resolve_fn_fulfill (clen + n) (hlen + n) v (bare (rst x)));
      [| by rewrite concrete_result_cell, Ek | by apply concrete_result | done].
    unfold concrete. cbn. rewrite !insert_app_r.
    rewrite !(insert_mid _ _ _ n) by (rewrite length_imap; by destruct Sh).
    by rewrite app_nil_r.
Qed.

Lemma result_reject_sim x e :
  shape x ->
  reject_fn (clen + n) e (concrete x)
  = (Normal VUndef, concrete (a_result (Rejected e) x)).
Proof.
  intros Sh. unfold a_result. destruct (kflag x) eqn:Ek.
  - apply (reject_fn_dead _ (hlen + n)). by rewrite concrete_result_cell, Ek.
  - rewrite (reject_fn_reject (clen + n) (hlen + n) e (bare (rst x)));
      [| by rewrite concrete_result_cell, Ek | by apply concrete_result].
    unfold concrete. cbn. rewrite !insert_app_r.
    rewrite !(insert_mid _ _ _ n) by (rewrite length_imap; by destruct Sh).
    by rewrite app_nil_r.
Qed.

Lemma derived_sim x j :
  shape x -> (j < n)%nat ->
  resolve_fn (clen + n + S j) VUndef (concrete x)
  = (Normal VUndef, concrete (a_derived j x)).
Proof.
  intros Sh Hj. unfold a_derived.
  destruct (fired x !! j) as [f|] eqn:Ef.
  2:{ apply lookup_ge_None in Ef. destruct Sh. lia. }
  destruct f.
  - apply (resolve_fn_dead _ (hlen + n + S j)). by rewrite concrete_d_cell, Ef.
  - rewrite (resolve_fn_fulfill _ (hlen + n + S j) VUndef (d_promise false));
      [| by rewrite concrete_d_cell, Ef | by rewrite concrete_d, Ef | done].
    unfold concrete. cbn. rewrite <- !Nat.add_assoc, !insert_app_r.
    rewrite !(insert_right _ _ _ n) by (rewrite length_imap; by destruct Sh).
    rewrite imap_insert, list_fmap_insert, app_nil_r.
    replace (hlen + (n + S j))%nat with (hlen + n + S j)%nat by lia. done.
Qed.

Lemma shape_result x o : shape x -> shape (a_result o x).
Proof. intros []. unfold a_result. destruct (kflag x); by constructor. Qed.

Lemma shape_derived x j : shape x -> shape (a_derived j x).
Proof.
  intros []. unfold a_derived. destruct (fired x !! j) as [[]|]; constructor; cbn;
    rewrite ?length_insert; done.
Qed.

Lemma shape_handler x j : shape x -> shape (a_handler j x).
Proof.
  intros Sh. unfold a_handler.
  destruct (outs x !! j) as [[|v|e]|]; try done; [|by apply shape_result].
  destruct all; [|by apply shape_result].
  destruct (called x !! j) as [[]|]; try done.
  assert (Sh1 : shape (mkLocal (outs x) (pend x) (<[j := v]> (vals x))
                         (<[j := true]> (called x)) (remaining x - 1) (fired x)
                         (rst x) (kflag x))).
  { destruct Sh. constructor; cbn; rewrite ?length_insert; done. }
  destruct (_ =? 0); [by apply shape_result|done].
Qed.

Lemma shape_settle x j o :
  shape x -> settled o = true ->
  match o with Fulfilled v => get_then v = None | _ => True end ->
  shape (a_settle j o x).
Proof.
  intros Sh Ho Hv. unfold a_settle.
  destruct (outs x !! j) as [[| |]|] eqn:Ej; try done.
  destruct Sh as [H1 H2 H3 H4 H5 H6].
  constructor; cbn; rewrite ?length_insert; try done.
  - apply Forall_app. split.
    + eapply Forall_impl; [exact H5|]. cbn. intros i (o' & Ho' & Hs).
      destruct (decide (j = i)) as [<-|Hne].
      * exists o. split; [|done]. apply list_lookup_insert_eq. by eapply lookup_lt_Some.
      * exists o'. by rewrite list_lookup_insert_ne.
    + constructor; [|constructor]. exists o. split; [|done].
      apply list_lookup_insert_eq. by eapply lookup_lt_Some.
  - apply Forall_insert; [done|]. by destruct o.
Qed.

Lemma shape_tick x : shape x -> shape (a_tick x).
Proof.
  intros Sh. unfold a_tick. destruct (pend x) as [|j rest] eqn:Ep; [done|].
  apply shape_derived, shape_handler.
  destruct Sh as [H1 H2 H3 H4 H5 H6]. constructor; cbn; try done.
  rewrite Ep in H5. by inversion H5.
Qed.

Lemma handler_sim x j o :
  shape x -> (j < n)%nat -> outs x !! j = Some o -> settled o = true ->
  match o with
  | Fulfilled v => call (if all then FAllElem glen j else FResolve (clen + n)) v (concrete x)
  | Rejected e => call (FReject (clen + n)) e (concrete x)
  | Pending => (Normal VUndef, concrete x)
  end = (Normal VUndef, concrete (a_handler j x)).
Proof.
  intros Sh Hj Ej Ho. unfold a_handler. rewrite Ej.
  destruct o as [|v|e]; [done| |by apply result_reject_sim].
  assert (Hv : get_then v = None).
  { destruct Sh as [_ _ _ _ _ H6]. rewrite Forall_forall in H6.
    apply (H6 (Fulfilled v)). by eapply list_elem_of_lookup_2. }
  destruct all eqn:Eall; [|by apply result_resolve_sim].
  cbn [call]. unfold element_fn.
  assert (Ea : aggs (concrete x) !! glen
               = Some (mkAgg (vals x) (called x) (remaining x) (clen + n))).
  { unfold concrete. cbn. rewrite Eall. by rewrite lookup_app_len. }
  rewrite Ea. cbn [a_called a_values a_remaining a_cap].
  destruct (called x !! j) as [[]|] eqn:Ec; [done| |done].
  set (x1 := mkLocal (outs x) (pend x) (<[j := v]> (vals x))
               (<[j := true]> (called x)) (remaining x - 1) (fired x)
               (rst x) (kflag x)).
  assert (E1 : set_aggs (fun l0 : list agg =>
                 <[glen := mkAgg (<[j := v]> (vals x)) (<[j := true]> (called x))
                          (remaining x - 1) (clen + n)]> l0) (concrete x)
               = concrete x1).
  { unfold concrete, set_aggs. cbn. rewrite Eall. by rewrite insert_app_len. }
  rewrite E1.
  assert (Sh1 : shape x1).
  { destruct Sh. constructor; cbn; rewrite ?length_insert; done. }
  destruct (remaining x - 1 =? 0); [|done].
  by apply result_resolve_sim.
Qed.

Lemma tick_sim x : shape x -> tick (concrete x) = concrete (a_tick x).
Proof.
  intros Sh. unfold tick, a_tick.
  destruct (pend x) as [|j rest] eqn:Ep.
  { unfold concrete at 1. cbn. by rewrite Ep. }
  unfold concrete at 1. cbn [queue]. rewrite Ep. cbn [fmap list_fmap].
  set (x0 := mkLocal (outs x) rest (vals x) (called x) (remaining x) (fired x)
               (rst x) (kflag x)).
  assert (E0 : set_queue (fun _ => job_of (outs x) <$> rest) (concrete x) = concrete x0).
  { reflexivity. }
  fold (job_of (outs x) <$> rest). cbn [list_fmap] in E0.
  change (list_fmap _ _ (job_of (outs x)) rest) with (job_of (outs x) <$> rest).
  rewrite E0.
  assert (Sh0 : shape x0).
  { destruct Sh as [H1 H2 H3 H4 H5 H6]. constructor; cbn; try done.
    rewrite Ep in H5. by inversion H5. }
  assert (Hjo : exists o, outs x !! j = Some o /\ settled o = true).
  { destruct Sh as [_ _ _ _ H5 _]. rewrite Ep in H5. by inversion H5. }
  destruct Hjo as (o & Ej & Ho).
  assert (Hj : (j < n)%nat).
  { rewrite <- (sh_outs _ Sh). by eapply lookup_lt_Some. }
  pose proof (handler_sim x0 j o Sh0 Hj Ej Ho) as Hh.
  unfold job_of. rewrite Ej. unfold run_job, bind.
  destruct o as [|v|e]; [done| |].
  - cbn [r_handler fr]. rewrite Hh. unfold fr. cbn [r_cap].
    rewrite derived_sim by (done || by apply shape_handler). done.
  - cbn [r_handler rr]. rewrite Hh. unfold rr. cbn [r_cap].
    rewrite derived_sim by (done || by apply shape_handler). done.
Qed.

(** *** Calling [all] or [race] *)

(** Slots already settled, in index order, counted from [j]. *)
Fixpoint settled_from (j : nat) (os : list pstate) : list nat :=
  match os with
  | [] => []
  | o :: rest => (if settled o then [j] else []) ++ settled_from (S j) rest
  end.

Lemma settled_from_snoc (os : list pstate) (o : pstate) :
  forall j, settled_from j (os ++ [o])
            = settled_from j os ++ (if settled o then [(j + length os)%nat] else []).
Proof.
  induction os as [|o' os IH]; intros j; cbn.
  - by rewrite Nat.add_0_r, app_nil_r.
  - rewrite IH, <- app_assoc. do 3 f_equal. destruct (settled o); [|done].
    f_equal. lia.
Qed.

(** The state inside the loop, when the first [m] slots have been visited. *)
Definition loop_state (m : nat) (os : list pstate) (ags : list agg) : state :=
  mkState (h ++ (imap slot_promise (take m os) ++ (bare <$> drop m os))
             ++ bare Pending :: replicate m (bare Pending))
          (c ++ imap slot_cell os ++ ((hlen + n)%nat, false) :: imap d_cell (replicate m false))
          ags
          (job_of os <$> settled_from 0 (take m os)) l s.

Lemma then_step (m : nat) (os : list pstate) (o : pstate) (ags : list agg) :
  length os = n -> os !! m = Some o ->
  promise_then (hlen + m) (r_handler (fr m)) (r_handler (rr m)) (loop_state m os ags)
  = ((hlen + n + S m)%nat, loop_state (S m) os ags).
Proof.
  intros Hlen Hm.
  assert (Hlt : (m < n)%nat) by (rewrite <- Hlen; by eapply lookup_lt_Some).
  assert (Ltake : length (take m os) = m) by (rewrite length_take; lia).
  assert (Hmid : (imap slot_promise (take m os) ++ (bare <$> drop m os)) !! m
                 = Some (bare o)).
  { rewrite lookup_app_r by (rewrite length_imap; lia).
    rewrite length_imap, Ltake, Nat.sub_diag, list_lookup_fmap, lookup_drop.
    by rewrite Nat.add_0_r, Hm. }
  assert (Lmid : length (imap slot_promise (take m os) ++ (bare <$> drop m os)) = n).
  { rewrite length_app, length_imap, length_fmap, length_take, length_drop. lia. }
  assert (Etake : take (S m) os = take m os ++ [o]) by (by apply take_S_r).
  assert (Edrop : drop m os = o :: drop (S m) os) by (by apply drop_S).
  assert (Enew : imap slot_promise (take (S m) os) ++ (bare <$> drop (S m) os)
                 = <[m := slot_promise m o]>
                     (imap slot_promise (take m os) ++ (bare <$> drop m os))).
  { rewrite Etake, imap_app, Edrop. cbn. rewrite Ltake, Nat.add_0_r.
    rewrite insert_app_r_alt by (rewrite length_imap; lia).
    rewrite length_imap, Ltake, Nat.sub_diag. cbn. by rewrite <- app_assoc. }
  unfold promise_then, bind, new_promise, loop_state. cbn [heap cells set_heap set_cells
    aggs queue log synchs fst snd].
  assert (Lh : length (h ++ (imap slot_promise (take m os) ++ (bare <$> drop m os))
                         ++ bare Pending :: replicate m (bare Pending))
               = (hlen + n + S m)%nat).
  { rewrite length_app, (length_app (_ ++ _)), Lmid. cbn. rewrite length_replicate. lia. }
  assert (Lc : length (c ++ imap slot_cell os
                         ++ ((hlen + n)%nat, false) :: imap d_cell (replicate m false))
               = (clen + n + S m)%nat).
  { rewrite !length_app, length_imap. cbn. rewrite length_imap, length_replicate. lia. }
  rewrite Lh, Lc. unfold PerformPromiseThen. cbn [heap].
  assert (Elook : ((h ++ (imap slot_promise (take m os) ++ (bare <$> drop m os))
                      ++ bare Pending :: replicate m (bare Pending))
                   ++ [mkPromise Pending [] []]) !! (hlen + m)%nat = Some (bare o)).
  { rewrite <- app_assoc, lookup_app_add, <- app_assoc.
    rewrite lookup_app_l by (rewrite Lmid; lia). exact Hmid. }
  rewrite Elook.
  assert (Ecells : (c ++ imap slot_cell os
                      ++ ((hlen + n)%nat, false) :: imap d_cell (replicate m false))
                   ++ [((hlen + n + S m)%nat, false)]
                   = c ++ imap slot_cell os
                       ++ ((hlen + n)%nat, false) :: imap d_cell (replicate (S m) false)).
  { rewrite replicate_S_end, imap_app. cbn. rewrite length_replicate, Nat.add_0_r.
    rewrite <- !app_assoc. cbn. done. }
  destruct o as [|v|e]; cbn [bare p_state p_fulfillReactions p_rejectReactions app].
  - cbn. rewrite Ecells. f_equal. f_equal.
    + rewrite <- app_assoc, insert_app_r, <- app_assoc.
      rewrite insert_app_l by (rewrite Lmid; lia). rewrite Enew. cbn.
      rewrite <- replicate_S_end. done.
    + rewrite Etake, settled_from_snoc. cbn. by rewrite app_nil_r.
  - cbn. rewrite Ecells. f_equal. f_equal.
    + rewrite Enew, list_insert_id by done.
      rewrite <- !app_assoc. cbn. by rewrite <- replicate_S_end.
    + rewrite Etake, settled_from_snoc, fmap_app. cbn. rewrite Ltake.
      unfold job_of at 3. by rewrite Hm.
  - cbn. rewrite Ecells. f_equal. f_equal.
    + rewrite Enew, list_insert_id by done.
      rewrite <- !app_assoc. cbn. by rewrite <- replicate_S_end.
    + rewrite Etake, settled_from_snoc, fmap_app. cbn. rewrite Ltake.
      unfold job_of at 3. by rewrite Hm.
Qed.

Definition loop_agg (m : nat) : agg :=
  mkAgg (replicate m VUndef) (replicate m false) (1 + Z.of_nat m) (clen + n).

Lemma all_loop (os : list pstate) :
  all = true -> length os = n ->
  forall k m : nat, (m + k = n)%nat ->
    aggregate_loop (fun i => (FAllElem glen i, FReject (clen + n))) glen
      (VPromise <$> seq (hlen + m) k) m (loop_state m os (g ++ [loop_agg m]))
    = (tt, loop_state n os (g ++ [loop_agg n])).
Proof.
  intros Hall Hlen. induction k as [|k IH]; intros m Hm.
  - cbn. replace m with n by lia. done.
  - destruct (os !! m) as [o|] eqn:Eo.
    2:{ apply lookup_ge_None in Eo. lia. }
    cbn [seq fmap list_fmap aggregate_loop]. unfold bind at 1.
    assert (Epush : agg_push glen (loop_state m os (g ++ [loop_agg m]))
                    = (tt, loop_state m os (g ++ [loop_agg (S m)]))).
    { unfold agg_push, modify, loop_state. cbn.
      rewrite lookup_app_len. cbn. rewrite insert_app_len. cbn.
      unfold loop_agg. rewrite <- !replicate_S_end.
      replace (1 + Z.of_nat m + 1) with (1 + Z.of_nat (S m)) by lia. done. }
    rewrite Epush. unfold bind at 1. cbn [PromiseResolve]. unfold ret at 1.
    unfold bind at 1.
    pose proof (then_step m os o (g ++ [loop_agg (S m)]) Hlen Eo) as Hstep.
    unfold fr, rr in Hstep. cbn [r_handler] in Hstep. rewrite Hall in Hstep.
    cbn [fst snd]. rewrite Hstep.
    replace (S (hlen + m)) with (hlen + S m)%nat by lia.
    apply (IH (S m)). lia.
Qed.

Lemma race_loop_spec (os : list pstate) :
  all = false -> length os = n ->
  forall k m : nat, (m + k = n)%nat ->
    race_loop (clen + n) (VPromise <$> seq (hlen + m) k) (loop_state m os g)
    = (tt, loop_state n os g).
Proof.
  intros Hall Hlen. induction k as [|k IH]; intros m Hm.
  - cbn. replace m with n by lia. done.
  - destruct (os !! m) as [o|] eqn:Eo.
    2:{ apply lookup_ge_None in Eo. lia. }
    cbn [seq fmap list_fmap race_loop]. unfold bind at 1.
    cbn [PromiseResolve]. unfold ret at 1. unfold bind at 1.
    pose proof (then_step m os o g Hlen Eo) as Hstep.
    unfold fr, rr in Hstep. cbn [r_handler] in Hstep. rewrite Hall in Hstep.
    rewrite Hstep.
    replace (S (hlen + m)) with (hlen + S m)%nat by lia.
    apply (IH (S m)). lia.
Qed.

(** The description right after the call. *)
Definition init_local (os : list pstate) : local :=
  let x0 := mkLocal os (settled_from 0 os) (replicate n VUndef) (replicate n false)
              (Z.of_nat n) (replicate n false) Pending false in
  if all && (n =? 0)%nat then a_result (Fulfilled (VArr [])) x0 else x0.

Lemma loop_state_done (os : list pstate) (ags : list agg) :
  length os = n ->
  loop_state n os ags =
  mkState (h ++ imap slot_promise os ++ bare Pending :: (d_promise <$> replicate n false))
          (c ++ imap slot_cell os ++ ((hlen + n)%nat, false) :: imap d_cell (replicate n false))
          ags (job_of os <$> settled_from 0 os) l s.
Proof.
  intros Hlen. unfold loop_state.
  rewrite firstn_all2, skipn_all2 by lia. cbn.
  rewrite app_nil_r, fmap_replicate. done.
Qed.

Lemma settled_from_elem (os : list pstate) :
  forall j0 j : nat, j ∈ settled_from j0 os ->
    (j0 <= j)%nat /\ exists o, os !! (j - j0)%nat = Some o /\ settled o = true.
Proof.
  induction os as [|o os IH]; intros j0 j Hj; cbn in Hj.
  - by apply elem_of_nil in Hj.
  - apply elem_of_app in Hj as [Hj|Hj].
    + destruct (settled o) eqn:Es; [|by apply elem_of_nil in Hj].
      apply list_elem_of_singleton in Hj as ->. split; [lia|].
      exists o. by rewrite Nat.sub_diag.
    + apply IH in Hj as (Hle & o' & Ho' & Hs). split; [lia|].
      exists o'. split; [|done].
      replace (j - j0)%nat with (S (j - S j0)) by lia. done.
Qed.

Lemma shape_init (os : list pstate) :
  length os = n ->
  Forall (fun o => match o with Fulfilled v => get_then v = None | _ => True end) os ->
  shape (init_local os).
Proof.
  intros Hlen Hv. unfold init_local.
  assert (Sh0 : shape (mkLocal os (settled_from 0 os) (replicate n VUndef)
                         (replicate n false) (Z.of_nat n) (replicate n false)
                         Pending false)).
  { constructor; cbn; rewrite ?length_replicate; try done.
    apply Forall_forall. intros j Hj.
    apply settled_from_elem in Hj as (_ & o & Ho & Hs).
    rewrite Nat.sub_0_r in Ho. by exists o. }
  destruct (all && (n =? 0)%nat); [by apply shape_result|done].
Qed.

Lemma Promise_all_spec (os : list pstate) :
  all = true -> length os = n ->
  Forall (fun o => match o with Fulfilled v => get_then v = None | _ => True end) os ->
  Promise_all (VPromise <$> seq hlen n) (before os)
  = ((hlen + n)%nat, concrete (init_local os)).
Proof.
  intros Hall Hlen Hv.
  assert (Lh : length (h ++ (bare <$> os)) = (hlen + n)%nat)
    by (by rewrite length_app, length_fmap, Hlen).
  assert (Lc : length (c ++ imap slot_cell os) = (clen + n)%nat)
    by (by rewrite length_app, length_imap, Hlen).
  unfold Promise_all, before. unfold bind at 1. unfold new_promise at 1.
  cbn [heap cells set_heap set_cells aggs queue log synchs]. rewrite Lh, Lc.
  unfold bind at 1. unfold new_agg at 1. cbn [aggs set_aggs heap cells queue log synchs].
  unfold bind at 1.
  assert (E0 : mkState ((h ++ (bare <$> os)) ++ [mkPromise Pending [] []])
                 ((c ++ imap slot_cell os) ++ [((hlen + n)%nat, false)])
                 (g ++ [mkAgg [] [] 1 (clen + n)]) [] l s
               = loop_state 0 os (g ++ [loop_agg 0])).
  { unfold loop_state. cbn. rewrite drop_0, <- !app_assoc. done. }
  rewrite E0.
  pose proof (all_loop os Hall Hlen n 0%nat (Nat.add_0_l n)) as Hloop.
  rewrite Nat.add_0_r in Hloop. rewrite Hloop.
  unfold bind at 1. rewrite loop_state_done by done.
  unfold agg_finish. cbn [aggs]. rewrite lookup_app_len. cbn [lookup list_lookup].
  cbn [loop_agg a_remaining a_values a_called a_cap].
  unfold ret, init_local. rewrite Hall. cbn [andb].
  replace (1 + Z.of_nat n - 1) with (Z.of_nat n) by lia.
  set (x0 := mkLocal os (settled_from 0 os) (replicate n VUndef) (replicate n false)
               (Z.of_nat n) (replicate n false) Pending false).
  assert (E1 : set_aggs (fun l0 : list agg =>
                 <[glen := mkAgg (replicate n VUndef) (replicate n false) (Z.of_nat n)
                          (clen + n)]> l0)
                 (mkState (h ++ imap slot_promise os
                            ++ bare Pending :: (d_promise <$> replicate n false))
                          (c ++ imap slot_cell os
                            ++ ((hlen + n)%nat, false) :: imap d_cell (replicate n false))
                          (g ++ [loop_agg n]) (job_of os <$> settled_from 0 os) l s)
               = concrete x0).
  { unfold concrete. rewrite Hall. cbn. by rewrite insert_app_len. }
  rewrite E1.
  assert (Sh0 : shape x0).
  { constructor; cbn; rewrite ?length_replicate; try done.
    apply Forall_forall. intros j Hj.
    apply settled_from_elem in Hj as (_ & o & Ho & Hs).
    rewrite Nat.sub_0_r in Ho. by exists o. }
  destruct (Nat.eqb_spec n 0) as [Hn|Hn].
  - replace (Z.of_nat n =? 0) with true by (symmetry; apply Z.eqb_eq; lia).
    rewrite (result_resolve_sim x0 (VArr (replicate n VUndef))) by done.
    subst x0. rewrite Hn. done.
  - replace (Z.of_nat n =? 0) with false by (symmetry; apply Z.eqb_neq; lia).
    done.
Qed.

Lemma Promise_race_spec (os : list pstate) :
  all = false -> length os = n ->
  Promise_race (VPromise <$> seq hlen n) (before os)
  = ((hlen + n)%nat, concrete (init_local os)).
Proof.
  intros Hall Hlen.
  assert (Lh : length (h ++ (bare <$> os)) = (hlen + n)%nat)
    by (by rewrite length_app, length_fmap, Hlen).
  assert (Lc : length (c ++ imap slot_cell os) = (clen + n)%nat)
    by (by rewrite length_app, length_imap, Hlen).
  unfold Promise_race, before. unfold bind at 1. unfold new_promise at 1.
  cbn [heap cells set_heap set_cells aggs queue log synchs]. rewrite Lh, Lc.
  unfold bind at 1.
  assert (E0 : mkState ((h ++ (bare <$> os)) ++ [mkPromise Pending [] []])
                 ((c ++ imap slot_cell os) ++ [((hlen + n)%nat, false)]) g [] l s
               = loop_state 0 os g).
  { unfold loop_state. cbn. rewrite drop_0, <- !app_assoc. done. }
  rewrite E0.
  pose proof (race_loop_spec os Hall Hlen n 0%nat (Nat.add_0_l n)) as Hloop.
  rewrite Nat.add_0_r in Hloop. rewrite Hloop.
  rewrite loop_state_done by done.
  unfold ret, init_local, concrete. rewrite Hall. done.
Qed.

(** *** What holds of every description reached *)

Definition is_fulfilled (o : pstate) : bool :=
  match o with Fulfilled _ => true | _ => false end.

(** Queue discipline: a settled slot has its job queued or already run. *)
Record inv_queue (x : local) : Prop := mkInvQueue {
  inv_queued : forall j o, outs x !! j = Some o -> settled o = true ->
                 j ∈ pend x \/ fired x !! j = Some true;
  inv_pend : forall j, j ∈ pend x -> fired x !! j = Some false;
  inv_nodup : NoDup (pend x);
  inv_fired : forall j, fired x !! j = Some true ->
                exists o, outs x !! j = Some o /\ settled o = true
}.

(** What the result promise and the shared element state record. *)
Record inv_result (x : local) : Prop := mkInvResult {
  inv_flag : kflag x = settled (rst x);
  inv_called : all = true -> forall j b f o,
                 called x !! j = Some b -> fired x !! j = Some f -> outs x !! j = Some o ->
                 b = f && is_fulfilled o;
  inv_vals : all = true -> forall j v,
               fired x !! j = Some true -> outs x !! j = Some (Fulfilled v) ->
               vals x !! j = Some v;
  inv_remaining : all = true -> remaining x = pending_count (called x);
  inv_open : rst x = Pending ->
               (forall j e, fired x !! j = Some true -> outs x !! j <> Some (Rejected e))
               /\ (all = true -> 0 < remaining x)
               /\ (all = false -> forall j, fired x !! j <> Some true);
  inv_rejected : forall e, rst x = Rejected e -> exists j, outs x !! j = Some (Rejected e);
  inv_fulfilled : forall w, rst x = Fulfilled w ->
                    (all = true -> w = VArr (vals x) /\ remaining x = 0)
                    /\ (all = false -> exists j, outs x !! j = Some (Fulfilled w))
}.

Definition inv (x : local) : Prop := inv_queue x /\ inv_result x.

Lemma settled_from_lookup (os : list pstate) :
  forall (j0 j : nat) (o : pstate),
    os !! j = Some o -> settled o = true -> (j0 + j)%nat ∈ settled_from j0 os.
Proof.
  induction os as [|o1 os IH]; intros j0 [|j] o Hj Ho; try discriminate.
  - injection Hj as ->. cbn. rewrite Ho, Nat.add_0_r. apply elem_of_app. left.
    by apply list_elem_of_singleton.
  - cbn. apply elem_of_app. right.
    replace (j0 + S j)%nat with (S j0 + j)%nat by lia. by eapply IH.
Qed.

Lemma settled_from_nodup (os : list pstate) :
  forall j0 : nat, NoDup (settled_from j0 os).
Proof.
  induction os as [|o1 os IH]; intros j0; cbn; [constructor|].
  destruct (settled o1); cbn; [|done]. constructor; [|done].
  intros Hin. apply settled_from_elem in Hin as [Hle _]. lia.
Qed.

Lemma inv_init (os : list pstate) :
  length os = n -> inv (init_local os).
Proof.
  intros Hlen. unfold init_local.
  destruct (all && (n =? 0)%nat) eqn:E.
  - apply andb_prop in E as [Hall Hn]. apply Nat.eqb_eq in Hn.
    rewrite Hn in *. destruct os; [|discriminate]. unfold a_result. cbn.
    split; constructor; cbn; try done.
    + intros j Hj. by apply elem_of_nil in Hj.
    + constructor.
    + intros w [= <-]. split; [done|]. intros Hf. congruence.
  - assert (Hn : all = true -> 0 < Z.of_nat n).
    { intros ->. cbn in E. apply Nat.eqb_neq in E. lia. }
    split; constructor; cbn.
    + intros j o Hj Ho. left. apply (settled_from_lookup os 0%nat j o Hj Ho).
    + intros j Hj. apply settled_from_elem in Hj as (_ & o & Ho & _).
      apply lookup_replicate_2. rewrite <- Hlen. rewrite Nat.sub_0_r in Ho.
      by eapply lookup_lt_Some.
    + apply settled_from_nodup.
    + intros j Hj. apply lookup_replicate in Hj as [[=] _].
    + done.
    + intros _ j b f o Hb Hf Ho. apply lookup_replicate in Hb as [-> _].
      apply lookup_replicate in Hf as [-> _]. done.
    + intros _ j v Hj. apply lookup_replicate in Hj as [[=] _].
    + intros _. by rewrite pending_count_replicate.
    + intros _. split; [|split; [done|]].
      * intros j e Hj. apply lookup_replicate in Hj as [[=] _].
      * intros _ j Hj. apply lookup_replicate in Hj as [[=] _].
    + done.
    + done.
Qed.

Lemma inv_settle (x : local) (j : nat) (o : pstate) :
  shape x -> inv x -> settled o = true -> inv (a_settle j o x).
Proof.
  intros Sh I Ho. unfold a_settle.
  destruct (outs x !! j) as [[| |]|] eqn:Ej; try done.
  destruct I as [[I1 I2 I3 I4] [I5 I6 I7 I8 I9 I10 I11]].
  assert (Hjf : fired x !! j <> Some true).
  { intros Hf. destruct (I4 j Hf) as (o' & Ho' & Hs).
    rewrite Ej in Ho'. injection Ho' as <-. discriminate. }
  assert (Hjp : j ∉ pend x).
  { intros Hin. destruct Sh as [_ _ _ _ Hp _]. rewrite Forall_forall in Hp.
    destruct (Hp j Hin) as (o' & Ho' & Hs). rewrite Ej in Ho'.
    injection Ho' as <-. discriminate. }
  assert (Hlt : (j < length (outs x))%nat) by (by eapply lookup_lt_Some).
  assert (Hff : fired x !! j = Some false).
  { destruct (fired x !! j) as [[]|] eqn:Ef; [done|done|].
    apply lookup_ge_None in Ef. destruct Sh. lia. }
  split; constructor; cbn.
  - intros j' o' Hj' Ho'. destruct (decide (j = j')) as [<-|Hne].
    + left. apply elem_of_app. right. by apply list_elem_of_singleton.
    + rewrite list_lookup_insert_ne in Hj' by done.
      destruct (I1 j' o' Hj' Ho'); [left|by right]. apply elem_of_app. by left.
  - intros j' Hj'. apply elem_of_app in Hj' as [Hj'|Hj']; [by apply I2|].
    apply list_elem_of_singleton in Hj' as ->. done.
  - apply NoDup_app. split; [done|]. split; [|apply NoDup_singleton].
    intros j' Hj' Hin. apply list_elem_of_singleton in Hin as ->. done.
  - intros j' Hj'. destruct (decide (j = j')) as [<-|Hne]; [done|].
    rewrite list_lookup_insert_ne by done. by apply I4.
  - done.
  - intros Hall j' b f o' Hb Hf Ho'. destruct (decide (j = j')) as [<-|Hne].
    + rewrite Hff in Hf. injection Hf as <-.
      specialize (I6 Hall j b false Pending Hb Hff Ej). by rewrite I6.
    + rewrite list_lookup_insert_ne in Ho' by done. by eapply I6.
  - intros Hall j' v Hf Hv. destruct (decide (j = j')) as [<-|Hne]; [done|].
    rewrite list_lookup_insert_ne in Hv by done. by eapply I7.
  - done.
  - intros Hr. destruct (I9 Hr) as (P1 & P2 & P3). split; [|done].
    intros j' e Hf. destruct (decide (j = j')) as [<-|Hne]; [done|].
    rewrite list_lookup_insert_ne by done. by apply P1.
  - intros e Hr. destruct (I10 e Hr) as [j' Hj']. exists j'.
    destruct (decide (j = j')) as [<-|Hne]; [by rewrite Ej in Hj'|].
    by rewrite list_lookup_insert_ne.
  - intros w Hr. destruct (I11 w Hr) as [P1 P2]. split; [done|].
    intros Hall. destruct (P2 Hall) as [j' Hj']. exists j'.
    destruct (decide (j = j')) as [<-|Hne]; [by rewrite Ej in Hj'|].
    by rewrite list_lookup_insert_ne.
Qed.

Lemma inv_tick (x : local) : shape x -> inv x -> inv (a_tick x).
Proof.
  intros Sh I. unfold a_tick.
  destruct (pend x) as [|j rest] eqn:Ep; [done|].
  destruct I as [[I1 I2 I3 I4] [I5 I6 I7 I8 I9 I10 I11]].
  rewrite Ep in I1, I2, I3.
  assert (Hjo : exists o, outs x !! j = Some o /\ settled o = true).
  { destruct Sh as [_ _ _ _ H5 _]. rewrite Ep in H5. by inversion H5. }
  destruct Hjo as (o & Ej & Ho).
  assert (Ef : fired x !! j = Some false) by (apply I2; left).
  assert (Hnin : j ∉ rest) by (by inversion I3).
  assert (Hnd : NoDup rest) by (by inversion I3).
  assert (Lf : (j < length (fired x))%nat) by (by eapply lookup_lt_Some).
  (* the queue discipline does not depend on what the handler did *)
  assert (Q : forall vs cs rm r k,
             inv_queue (mkLocal (outs x) rest vs cs rm (<[j := true]> (fired x)) r k)).
  { intros. constructor; cbn.
    - intros j' o' Hj' Ho'. destruct (decide (j = j')) as [<-|Hne].
      + right. by apply list_lookup_insert_eq.
      + rewrite list_lookup_insert_ne by done.
        destruct (I1 j' o' Hj' Ho') as [Hin|Hf]; [|by right].
        left. inversion Hin; by subst.
    - intros j' Hj'. rewrite list_lookup_insert_ne by (intros ->; done).
      apply I2. by right.
    - done.
    - intros j' Hj'. destruct (decide (j = j')) as [<-|Hne]; [by exists o|].
      rewrite list_lookup_insert_ne in Hj' by done. by apply I4. }
  assert (Ec : all = true -> called x !! j = Some false).
  { intros Hall. destruct (called x !! j) as [b|] eqn:Eb.
    - by rewrite (I6 Hall j b false o Eb Ef Ej).
    - apply lookup_ge_None in Eb. destruct Sh. lia. }
  unfold a_handler, a_derived, a_result. cbn [outs called kflag fired pend vals
    remaining rst]. rewrite Ej.
  destruct o as [|v|e]; [done| |].
  - (* the slot was fulfilled *)
    destruct (Bool.bool_dec all true) as [Eall|Eall];
      [|apply not_true_is_false in Eall]; rewrite Eall.
    + rewrite (Ec Eall).
      assert (Hpos : 0 < remaining x).
      { rewrite (I8 Eall). pose proof (pending_count_insert _ j (Ec Eall)).
        pose proof (pending_count_nonneg (<[j := true]> (called x))). lia. }
      assert (Hrem : remaining x - 1 = pending_count (<[j := true]> (called x))).
      { rewrite (I8 Eall). symmetry. apply pending_count_insert, (Ec Eall). }
      assert (Lv : (j < length (vals x))%nat) by (destruct Sh; lia).
      assert (R0 : forall r k,
                 k = settled r ->
                 (r = Pending -> rst x = Pending /\ remaining x - 1 <> 0) ->
                 (forall e, r = Rejected e -> rst x = Rejected e) ->
                 (forall w, r = Fulfilled w ->
                    w = VArr (<[j := v]> (vals x)) /\ remaining x - 1 = 0) ->
                 inv_result (mkLocal (outs x) rest (<[j := v]> (vals x))
                               (<[j := true]> (called x)) (remaining x - 1)
                               (<[j := true]> (fired x)) r k)).
      { intros r k Hk Hp Hr Hf. constructor; cbn.
        - done.
        - intros _ j' b f o' Hb Hf' Ho'. destruct (decide (j = j')) as [<-|Hne].
          + rewrite list_lookup_insert_eq in Hb by (destruct Sh; lia).
            rewrite list_lookup_insert_eq in Hf' by done.
            rewrite Ej in Ho'. by simplify_eq.
          + rewrite list_lookup_insert_ne in Hb, Hf' by done. by eapply I6.
        - intros _ j' v' Hf' Ho'. destruct (decide (j = j')) as [<-|Hne].
          + rewrite Ej in Ho'. injection Ho' as <-. by apply list_lookup_insert_eq.
          + rewrite list_lookup_insert_ne in Hf' by done.
            rewrite list_lookup_insert_ne by done. by eapply I7.
        - done.
        - intros Hr'. destruct (Hp Hr') as [Hr0 Hne]. destruct (I9 Hr0) as (P1 & P2 & P3).
          split; [|split].
          + intros j' e Hf'. destruct (decide (j = j')) as [<-|Hne'].
            * rewrite Ej. discriminate.
            * rewrite list_lookup_insert_ne in Hf' by done. by apply P1.
          + intros _. pose proof (pending_count_nonneg (<[j := true]> (called x))). lia.
          + intros Hx. congruence.
        - intros e Hr'. by apply I10, Hr.
        - intros w Hr'. split; [intros _; by apply Hf|intros Hx; congruence]. }
      destruct (remaining x - 1 =? 0) eqn:Ez;
        cbn [outs pend vals called remaining fired rst kflag].
      * apply Z.eqb_eq in Ez.
        destruct (kflag x) eqn:Ek;
          cbn [outs pend vals called remaining fired rst kflag]; rewrite Ef;
          cbn [outs pend vals called remaining fired rst kflag]; split; try apply Q.
        -- apply R0; [done| | |].
           ++ intros Hr. rewrite Hr in I5. cbn in I5. congruence.
           ++ done.
           ++ intros w Hr. destruct (I11 w Hr) as [P1 _]. destruct (P1 Eall). lia.
        -- apply R0; [done|discriminate|discriminate|].
           intros w [= <-]. done.
      * apply Z.eqb_neq in Ez. rewrite Ef.
        cbn [outs pend vals called remaining fired rst kflag]. split; [apply Q|].
        apply R0; [done|done|done|].
        intros w Hr. destruct (I11 w Hr) as [P1 _]. destruct (P1 Eall). lia.
    + (* race: the result is resolved with the slot's value *)
      destruct (kflag x) eqn:Ek;
        cbn [outs pend vals called remaining fired rst kflag]; rewrite Ef;
        cbn [outs pend vals called remaining fired rst kflag]; (split; [apply Q|]).
      * constructor; cbn; try done; try (intros Hx; congruence);
          try exact I10; try exact I11.
        intros Hr. rewrite Hr in I5. cbn in I5. congruence.
      * constructor; cbn; try done; try (intros Hx; congruence);
          try exact I10; try exact I11.
        intros w [= <-]. split; [intros Hx; congruence|]. intros _. by exists j.
  - (* the slot was rejected *)
    destruct (kflag x) eqn:Ek;
        cbn [outs pend vals called remaining fired rst kflag]; rewrite Ef;
        cbn [outs pend vals called remaining fired rst kflag]; (split; [apply Q|]).
    + constructor; cbn; try done; try exact I10; try exact I11.
      * intros Hall j' b f o' Hb Hf' Ho'. destruct (decide (j = j')) as [<-|Hne].
        -- rewrite list_lookup_insert_eq in Hf' by done. rewrite Ej in Ho'.
           rewrite (Ec Hall) in Hb. by simplify_eq.
        -- rewrite list_lookup_insert_ne in Hf' by done. by eapply I6.
      * intros Hall j' v' Hf' Ho'. destruct (decide (j = j')) as [<-|Hne].
        -- rewrite Ej in Ho'. discriminate.
        -- rewrite list_lookup_insert_ne in Hf' by done. by eapply I7.
      * intros Hr. rewrite Hr in I5. cbn in I5. congruence.
    + constructor; cbn; try done; try exact I10; try exact I11.
      * intros Hall j' b f o' Hb Hf' Ho'. destruct (decide (j = j')) as [<-|Hne].
        -- rewrite list_lookup_insert_eq in Hf' by done. rewrite Ej in Ho'.
           rewrite (Ec Hall) in Hb. by simplify_eq.
        -- rewrite list_lookup_insert_ne in Hf' by done. by eapply I6.
      * intros Hall j' v' Hf' Ho'. destruct (decide (j = j')) as [<-|Hne].
        -- rewrite Ej in Ho'. discriminate.
        -- rewrite list_lookup_insert_ne in Hf' by done. by eapply I7.
      * intros e' [= <-]. by exists j.
Qed.

(** *** Reading the result *)

(** [all]: every slot fulfilled and nothing left to run. *)
Lemma quiet_all_fulfilled (x : local) (vs : list val) :
  all = true -> shape x -> inv x -> pend x = [] ->
  outs x = Fulfilled <$> vs ->
  rst x = Fulfilled (VArr vs).
Proof.
  intros Hall Sh [[I1 I2 I3 I4] [I5 I6 I7 I8 I9 I10 I11]] Hp Ho.
  assert (Lvs : length vs = n).
  { rewrite <- (sh_outs _ Sh), Ho. by rewrite length_fmap. }
  assert (Hfired : forall j, (j < n)%nat -> fired x !! j = Some true).
  { intros j Hj. destruct (vs !! j) as [v|] eqn:Ev.
    2:{ apply lookup_ge_None in Ev. lia. }
    destruct (I1 j (Fulfilled v)) as [Hin|Hf]; [|done| |done].
    - by rewrite Ho, list_lookup_fmap, Ev.
    - rewrite Hp in Hin. by apply elem_of_nil in Hin. }
  assert (Hvals : vals x = vs).
  { apply list_eq. intros j. destruct (decide (j < n)%nat) as [Hj|Hj].
    - destruct (vs !! j) as [v|] eqn:Ev.
      2:{ apply lookup_ge_None in Ev. lia. }
      apply (I7 Hall j v (Hfired j Hj)). by rewrite Ho, list_lookup_fmap, Ev.
    - rewrite !(proj2 (lookup_ge_None _ _)); [done|lia|destruct Sh; lia]. }
  assert (Hrem : remaining x = 0).
  { rewrite (I8 Hall).
    assert (Hc : forall j b, called x !! j = Some b -> b = true).
    { intros j b Hb.
      assert (Hj : (j < n)%nat).
      { rewrite <- (sh_called _ Sh). by eapply lookup_lt_Some. }
      destruct (vs !! j) as [v|] eqn:Ev.
      2:{ apply lookup_ge_None in Ev. lia. }
      rewrite (I6 Hall j b true (Fulfilled v) Hb (Hfired j Hj)); [done|].
      by rewrite Ho, list_lookup_fmap, Ev. }
    clear -Hc. induction (called x) as [|b cs IH]; [done|].
    cbn [pending_count]. rewrite IH.
    - by rewrite (Hc 0%nat b eq_refl).
    - intros j b' Hb'. apply (Hc (S j) b' Hb'). }
  destruct (rst x) as [|w|e] eqn:Er.
  - destruct (I9 eq_refl) as (_ & P2 & _). specialize (P2 Hall). lia.
  - destruct (I11 w eq_refl) as [P1 _]. destruct (P1 Hall) as [-> _]. by rewrite Hvals.
  - destruct (I10 e eq_refl) as [j Hj]. rewrite Ho, list_lookup_fmap in Hj.
    destruct (vs !! j); discriminate.
Qed.

(** [all]: a rejected slot, and nothing left to run. *)
Lemma quiet_all_rejected (x : local) (j : nat) (e : val) :
  all = true -> shape x -> inv x -> pend x = [] ->
  outs x !! j = Some (Rejected e) ->
  exists j' e', outs x !! j' = Some (Rejected e') /\ rst x = Rejected e'.
Proof.
  intros Hall Sh [[I1 I2 I3 I4] [I5 I6 I7 I8 I9 I10 I11]] Hp Hj.
  assert (Hf : fired x !! j = Some true).
  { destruct (I1 j (Rejected e) Hj eq_refl) as [Hin|Hf]; [|done].
    rewrite Hp in Hin. by apply elem_of_nil in Hin. }
  destruct (rst x) as [|w|e'] eqn:Er.
  - destruct (I9 eq_refl) as (P1 & _). by destruct (P1 j e Hf).
  - destruct (I11 w eq_refl) as [P1 _]. destruct (P1 Hall) as [_ Hrem].
    rewrite (I8 Hall) in Hrem.
    destruct (called x !! j) as [b|] eqn:Eb.
    + pose proof (pending_count_zero _ Hrem j b Eb) as ->.
      by specialize (I6 Hall j true true (Rejected e) Eb Hf Hj).
    + apply lookup_ge_None in Eb. apply lookup_lt_Some in Hf. destruct Sh. lia.
  - destruct (I10 e' eq_refl) as [j' Hj']. by exists j', e'.
Qed.

(** [race]: some slot settled, and nothing left to run. *)
Lemma quiet_race_settled (x : local) (j : nat) (o : pstate) :
  all = false -> inv x -> pend x = [] ->
  outs x !! j = Some o -> settled o = true ->
  exists j' o', outs x !! j' = Some o' /\ settled o' = true /\ rst x = o'.
Proof.
  intros Hall [[I1 I2 I3 I4] [I5 I6 I7 I8 I9 I10 I11]] Hp Hj Ho.
  assert (Hf : fired x !! j = Some true).
  { destruct (I1 j o Hj Ho) as [Hin|Hf]; [|done].
    rewrite Hp in Hin. by apply elem_of_nil in Hin. }
  destruct (rst x) as [|w|e'] eqn:Er.
  - destruct (I9 eq_refl) as (_ & _ & P3). by destruct (P3 Hall j).
  - destruct (I11 w eq_refl) as [_ P2]. destruct (P2 Hall) as [j' Hj'].
    by exists j', (Fulfilled w).
  - destruct (I10 e' eq_refl) as [j' Hj']. by exists j', (Rejected e').
Qed.

(** While the result is pending and the queue is empty, the next slot to
    settle decides it: a rejection always, a fulfilment for [race]. *)
Lemma next_settles (x : local) (m : nat) (o : pstate) :
  inv x -> rst x = Pending -> pend x = [] ->
  outs x !! m = Some Pending -> settled o = true ->
  (is_fulfilled o = true -> all = false) ->
  rst (a_tick (a_settle m o x)) = o.
Proof.
  intros [_ [I5 _ _ _ _ _ _]] Hr Hp Hm Ho Hrace.
  assert (Hk : kflag x = false) by (by rewrite I5, Hr).
  assert (Hlt : (m < length (outs x))%nat) by (by eapply lookup_lt_Some).
  unfold a_settle. rewrite Hm. unfold a_tick. cbn [pend]. rewrite Hp. cbn [app].
  unfold a_handler. cbn [outs]. rewrite list_lookup_insert_eq by done.
  destruct o as [|v|e]; [done| |].
  - rewrite (Hrace eq_refl). unfold a_result, a_derived. cbn [kflag]. rewrite Hk.
    cbn [fired]. by destruct (fired x !! m) as [[]|].
  - unfold a_result, a_derived. cbn [kflag]. rewrite Hk.
    cbn [fired]. by destruct (fired x !! m) as [[]|].
Qed.

(** A settled result never changes. *)
Lemma settled_result_stays (ev : event) (x : local) :
  inv x -> settled (rst x) = true -> rst (a_event ev x) = rst x.
Proof.
  intros [_ [I5 _ _ _ _ _ _]] Hs.
  assert (Hk : kflag x = true) by (by rewrite I5).
  assert (Hres : forall o y, kflag y = true -> rst (a_result o y) = rst y).
  { intros o y Hy. unfold a_result. by rewrite Hy. }
  assert (Hder : forall j y, rst (a_derived j y) = rst y).
  { intros j y. unfold a_derived. by destruct (fired y !! j) as [[]|]. }
  destruct ev as [j v|j e|]; cbn [a_event].
  - unfold a_settle. by destruct (outs x !! j) as [[| |]|].
  - unfold a_settle. by destruct (outs x !! j) as [[| |]|].
  - unfold a_tick. destruct (pend x) as [|j rest]; [done|].
    rewrite Hder. unfold a_handler. cbn [outs called].
    destruct (outs x !! j) as [[|v|e]|]; try done.
    + destruct all.
      * destruct (called x !! j) as [[]|]; try done.
        destruct (_ =? 0); [|done]. by rewrite Hres.
      * by rewrite Hres.
    + by rewrite Hres.
Qed.

(** Called when slots have already settled, [race] takes the one of
    lowest index. *)
Lemma race_late (os : list pstate) (m : nat) (o : pstate) :
  all = false ->
  (forall j, (j < m)%nat -> os !! j = Some Pending) ->
  os !! m = Some o -> settled o = true ->
  rst (a_tick (init_local os)) = o.
Proof.
  intros Hall Hlow Hm Ho. unfold init_local. rewrite Hall. cbn [andb].
  assert (Hs : exists rest, settled_from 0 os = m :: rest).
  { assert (G0 : forall (os' : list pstate) (j0 m' : nat),
               (forall j, (j < m')%nat -> os' !! j = Some Pending) ->
               os' !! m' = Some o ->
               exists rest, settled_from j0 os' = (j0 + m')%nat :: rest).
    { clear -Ho. induction os' as [|o1 os' IH]; intros j0 [|m'] Hlow Hm; try discriminate.
      - injection Hm as ->. cbn. rewrite Ho, Nat.add_0_r. by eexists.
      - cbn. pose proof (Hlow 0%nat ltac:(lia)) as H0. injection H0 as ->. cbn.
        destruct (IH (S j0) m') as [rest Hrest]; [|done|].
        + intros j Hj. apply (Hlow (S j)). lia.
        + exists rest. rewrite Hrest. f_equal. lia. }
    apply (G0 os 0%nat m Hlow Hm). }
  destruct Hs as [rest Hs]. unfold a_tick. cbn [pend]. rewrite Hs.
  unfold a_handler. cbn [outs]. rewrite Hm, Hall.
  destruct o as [|v|e]; [done| |]; unfold a_result, a_derived; cbn [kflag fired];
    by destruct (replicate n false !! m) as [[]|].
Qed.

(** *** Sequences of events *)

Definition exec (evs : list event) (st : state) : state :=
  foldl (fun st ev => exec_event ev st) st evs.

Definition a_run (evs : list event) (x : local) : local :=
  foldl (fun x ev => a_event ev x) x evs.

Definition settle_event (ev : event) (os : list pstate) : list pstate :=
  match ev with
  | Resolve j v => settle_slot j (Fulfilled v) os
  | RejectSlot j e => settle_slot j (Rejected e) os
  | Tick => os
  end.

Definition settle_events (evs : list event) (os : list pstate) : list pstate :=
  foldl (fun os ev => settle_event ev os) os evs.

Definition plain_values (os : list pstate) : Prop :=
  Forall (fun o => match o with Fulfilled v => get_then v = None | _ => True end) os.

Lemma event_sim (ev : event) (x : local) :
  valid_event ev -> shape x -> inv x ->
  exec_event ev (concrete x) = concrete (a_event ev x)
  /\ shape (a_event ev x) /\ inv (a_event ev x).
Proof.
  intros Hv Sh I. destruct ev as [j v|j e|]; cbn [exec_event a_event].
  - destruct Hv as [Hj Hv]. split; [|split].
    + by apply (settle_sim x j (Fulfilled v)).
    + by apply shape_settle.
    + by apply inv_settle.
  - split; [|split].
    + by apply (settle_sim x j (Rejected e)).
    + by apply shape_settle.
    + by apply inv_settle.
  - split; [|split].
    + by apply tick_sim.
    + by apply shape_tick.
    + by apply inv_tick.
Qed.

Lemma run_sim (evs : list event) :
  forall x : local,
    Forall valid_event evs -> shape x -> inv x ->
    exec evs (concrete x) = concrete (a_run evs x)
    /\ shape (a_run evs x) /\ inv (a_run evs x).
Proof.
  induction evs as [|ev evs IH]; intros x Hv Sh I; [done|].
  inversion Hv as [|? ? Hev Hevs]; subst.
  destruct (event_sim ev x Hev Sh I) as (E & Sh' & I').
  cbn [exec a_run foldl]. rewrite E. by apply IH.
Qed.

Lemma before_sim (ev : event) (os : list pstate) :
  valid_event ev -> length os = n -> plain_values os ->
  exec_event ev (before os) = before (settle_event ev os)
  /\ length (settle_event ev os) = n /\ plain_values (settle_event ev os).
Proof.
  intros Hv Hlen Hp.
  assert (Hcell : forall j, (j < n)%nat ->
             cells (before os) !! (clen + j)%nat = slot_cell j <$> os !! j).
  { intros j Hj. cbn. rewrite lookup_app_add. apply list_lookup_imap. }
  assert (Hslot : forall j, (j < n)%nat ->
             heap (before os) !! (hlen + j)%nat = bare <$> os !! j).
  { intros j Hj. cbn. rewrite lookup_app_add. apply list_lookup_fmap. }
  assert (Hset : forall j o, (j < n)%nat -> settled o = true ->
             match o with Fulfilled v => get_then v = None | _ => True end ->
             match o with
             | Fulfilled v => snd (resolve_fn (clen + j) v (before os))
             | Rejected e => snd (reject_fn (clen + j) e (before os))
             | Pending => before os
             end = before (settle_slot j o os)
             /\ length (settle_slot j o os) = n /\ plain_values (settle_slot j o os)).
  { intros j o Hj Ho Hval. unfold settle_slot.
    destruct (os !! j) as [oj|] eqn:Ej.
    2:{ apply lookup_ge_None in Ej. lia. }
    destruct oj as [|w|w].
    - split; [|split; [by rewrite length_insert|by apply Forall_insert]].
      destruct o as [|v|e]; [done| |].
      + rewrite (resolve_fn_fulfill (clen + j) (hlen + j) v (bare Pending));
          [| by rewrite Hcell, Ej | by rewrite Hslot, Ej | done].
        unfold before. cbn. rewrite !insert_app_r, imap_insert, list_fmap_insert. done.
      + rewrite (reject_fn_reject (clen + j) (hlen + j) e (bare Pending));
          [| by rewrite Hcell, Ej | by rewrite Hslot, Ej].
        unfold before. cbn. rewrite !insert_app_r, imap_insert, list_fmap_insert. done.
    - split; [|done]. destruct o as [|v|e]; [done| |].
      + by rewrite (resolve_fn_dead (clen + j) (hlen + j)) by (by rewrite Hcell, Ej).
      + by rewrite (reject_fn_dead (clen + j) (hlen + j)) by (by rewrite Hcell, Ej).
    - split; [|done]. destruct o as [|v|e]; [done| |].
      + by rewrite (resolve_fn_dead (clen + j) (hlen + j)) by (by rewrite Hcell, Ej).
      + by rewrite (reject_fn_dead (clen + j) (hlen + j)) by (by rewrite Hcell, Ej). }
  destruct ev as [j v|j e|]; cbn [exec_event settle_event].
  - destruct Hv as [Hj Hv]. by apply (Hset j (Fulfilled v)).
  - by apply (Hset j (Rejected e)).
  - done.
Qed.

Lemma before_run (evs : list event) :
  forall os : list pstate,
    Forall valid_event evs -> length os = n -> plain_values os ->
    exec evs (before os) = before (settle_events evs os)
    /\ length (settle_events evs os) = n /\ plain_values (settle_events evs os).
Proof.
  induction evs as [|ev evs IH]; intros os Hv Hlen Hp; [done|].
  inversion Hv as [|? ? Hev Hevs]; subst.
  destruct (before_sim ev os Hev Hlen Hp) as (E & Hlen' & Hp').
  cbn [exec settle_events foldl]. rewrite E. by apply IH.
Qed.

Lemma alloc_promises_before :
  alloc_promises n (mkState h c g [] l s) = before (replicate n Pending).
Proof.
  unfold alloc_promises, before. cbn. f_equal.
  - by rewrite fmap_replicate.
  - f_equal. apply list_eq. intros j.
    rewrite list_lookup_fmap, list_lookup_imap.
    destruct (decide (j < n)%nat) as [Hj|Hj].
    + by rewrite lookup_seq_lt, lookup_replicate_2.
    + rewrite lookup_seq_ge by lia.
      by rewrite (proj1 (lookup_replicate_None n Pending j)) by lia.
Qed.

(** What the state shows of a description. *)
Lemma concrete_slot_state (x : local) (j : nat) :
  shape x -> (j < n)%nat -> state_of (concrete x) (hlen + j) = outs x !! j.
Proof.
  intros Sh Hj. unfold state_of. rewrite concrete_slot by done.
  destruct (outs x !! j) as [[| |]|]; done.
Qed.

Lemma concrete_result_state (x : local) :
  shape x -> state_of (concrete x) (hlen + n) = Some (rst x).
Proof. intros Sh. unfold state_of. by rewrite concrete_result. Qed.

Lemma concrete_quiet (x : local) : queue (concrete x) = [] -> pend x = [].
Proof. cbn. by destruct (pend x). Qed.

Lemma settled_run_stays (evs : list event) :
  forall x : local,
    Forall valid_event evs -> shape x -> inv x -> settled (rst x) = true ->
    rst (a_run evs x) = rst x.
Proof.
  induction evs as [|ev evs IH]; intros x Hv Sh I Hs; [done|].
  inversion Hv as [|? ? Hev Hevs]; subst.
  destruct (event_sim ev x Hev Sh I) as (_ & Sh' & I').
  cbn [a_run foldl].
  pose proof (settled_result_stays ev x I Hs) as E.
  change (foldl (fun x ev => a_event ev x) (a_event ev x) evs) with (a_run evs (a_event ev x)).
  rewrite IH; [done..|]. by rewrite E.
Qed.
End BarrierMachine.

(** *** The events, through the barrier *)

(** [Resolve j v] is the call [b.resolve(j, v)]; [RejectSlot j e] calls the
    reject function that was created with slot [j] (the twin of the resolve
    function the barrier keeps); [Tick] is a turn of the scheduler. *)
Definition barrier_step (b : Barrier.t) (ev : event) (st : state) : state :=
  match ev with
  | Resolve j v =>
      match Barrier.resolve b (VNum (Fin (Z.of_nat j))) v st with
      | Some (_, st') => st'
      | None => st
      end
  | RejectSlot j e =>
      match Barrier.resolveFunctions b !! j with
      | Some (FResolve k) => snd (call (FReject k) e st)
      | _ => st
      end
  | Tick => tick st
  end.

Definition barrier_run (b : Barrier.t) (evs : list event) (st : state) : state :=
  foldl (fun st ev => barrier_step b ev st) st evs.

Lemma barrier_step_exec (st0 : state) (n : nat) (ev : event) (st : state) :
  valid_event n ev ->
  barrier_step (fresh_barrier n st0) ev st = exec_event (cells st0) ev st.
Proof.
  intros Hv. destruct ev as [j v|j e|]; cbn [barrier_step exec_event]; [| |done].
  - destruct Hv as [Hj _].
    rewrite (Barrier_resolve_calls _ v st (Z.of_nat j) (FResolve (length (cells st0) + j)));
      [done|lia|].
    rewrite Nat2Z.id. by apply fresh_barrier_resolveFunction.
  - cbn in Hv. by rewrite fresh_barrier_resolveFunction.
Qed.

Lemma barrier_run_exec (st0 : state) (n : nat) (evs : list event) :
  forall st : state,
    Forall (valid_event n) evs ->
    barrier_run (fresh_barrier n st0) evs st = exec (cells st0) evs st.
Proof.
  induction evs as [|ev evs IH]; intros st Hv; [done|].
  inversion Hv as [|? ? Hev Hevs]; subst.
  cbn [barrier_run exec foldl]. rewrite barrier_step_exec by done. by apply IH.
Qed.

(** Everything a run of events on a fresh barrier of size [n] shows, once [all]
    or [race] has been called in between. *)
Lemma barrier_run_described (kind : bool) (st : state) (n : nat)
    (earlier later : list event) :
  queue st = [] ->
  Forall (valid_event n) earlier -> Forall (valid_event n) later ->
  let b := fresh_barrier n st in
  let st1 := barrier_run b earlier (alloc_promises n st) in
  let os := settle_events earlier (replicate n Pending) in
  let x := a_run kind later (init_local n kind os) in
  st1 = before (heap st) (cells st) (aggs st) (log st) (synchs st) os
  /\ length os = n /\ plain_values os
  /\ (if kind then Barrier.all b st1 else Barrier.race b st1)
     = ((length (heap st) + n)%nat,
        concrete (heap st) (cells st) (aggs st) (log st) (synchs st) n kind
          (init_local n kind os))
  /\ barrier_run b later
       (concrete (heap st) (cells st) (aggs st) (log st) (synchs st) n kind
          (init_local n kind os))
     = concrete (heap st) (cells st) (aggs st) (log st) (synchs st) n kind x
  /\ shape n x /\ inv kind x.
Proof.
  destruct st as [h c g q l s]. cbn [queue]. intros -> He Hl. cbn zeta.
  cbn [heap cells aggs log synchs].
  destruct (before_run h c g l s n earlier (replicate n Pending) He)
    as (E1 & Hlen & Hp).
  { apply length_replicate. }
  { apply Forall_forall. intros o Ho. apply elem_of_replicate in Ho as [-> _]. done. }
  rewrite (barrier_run_exec _ n) by done. cbn [cells].
  rewrite alloc_promises_before, E1.
  split; [done|]. split; [done|]. split; [done|].
  assert (Sh0 := shape_init n kind _ Hlen Hp).
  assert (I0 := inv_init n kind _ Hlen).
  destruct (run_sim h c g l s n kind later _ Hl Sh0 I0) as (E3 & Sh3 & I3).
  split; [|split; [|done]].
  - unfold Barrier.all, Barrier.race. cbn [fresh_barrier Barrier.promises heap].
    destruct kind.
    + by apply Promise_all_spec.
    + by apply Promise_race_spec.
  - rewrite (barrier_run_exec _ n) by done. cbn [cells]. exact E3.
Qed.


Lemma before_slot_state (h : list promise) (c : list (nat * bool)) (g : list agg)
    (l : list (nat * val)) (s : list synch) (os : list pstate) (j : nat) :
  state_of (before h c g l s os) (length h + j) = os !! j.
Proof.
  unfold state_of, before. cbn. rewrite lookup_app_add, list_lookup_fmap.
  by destruct (os !! j).
Qed.



(** The second example of the spec, with the rejection coming the way the
    library allows it: slot 1 is resolved with a DeferredPromise that is then
    rejected.  [all()] rejects with the same error while slots 0 and 2 are
    still pending. *)
Example Barrier_all_rejects_early :
  let (d, s1) := DeferredPromise.constructor init in
  match Barrier.constructor (VNum (Fin 3)) s1 with
  | Some (Ok b, s2) =>
      let (r, s3) := Barrier.all b s2 in
      match Barrier.resolve b (VNum (Fin 1)) (DeferredPromise.to_val d) s3 with
      | Some (_, s4) =>
          let s5 := snd (call (DeferredPromise.reject d) (VStr "boom") (tick s4)) in
          let s6 := run 2 s5 in
          state_of s6 r = Some (Rejected (VStr "boom"))
          /\ queue (tick s6) = []
          /\ Barrier.promises b = [VPromise 1; VPromise 2; VPromise 3]%nat
          /\ state_of s6 1 = Some Pending
          /\ state_of s6 2 = Some (Rejected (VStr "boom"))
          /\ state_of s6 3 = Some Pending
      | None => False
      end
  | _ => False
  end.
Proof. vm_compute. repeat split; reflexivity. Qed.



(** * The registry of a PromiseSynch *)

Section Registry.
Variable s : nat.

Definition futures (ds : list DeferredPromise.t) : list nat :=
  DeferredPromise.promise <$> ds.

(** A cell whose promise is not one of the caller's futures. *)
Definition ok_cell (st : state) (fs : list nat) (k : nat) : Prop :=
  exists p b, cells st !! k = Some (p, b) /\ p ∉ fs.

Fixpoint fn_ok (st : state) (fs : list nat) (f : fn) : Prop :=
  match f with
  | FResolve k | FReject k => ok_cell st fs k
  | FThenFinally g | FCatchFinally g => fn_ok st fs g
  | _ => True
  end.

(** The tickets of this registry a function may delete. *)
Fixpoint fn_dels (f : fn) : list nat :=
  match f with
  | FDelete s' t => if Nat.eqb s' s then [t] else []
  | FThenFinally g | FCatchFinally g => fn_dels g
  | _ => []
  end.

Definition handler_ok (st : state) (fs : list nat) (h : option fn) : Prop :=
  match h with Some f => fn_ok st fs f | None => True end.

Definition handler_dels (h : option fn) : list nat :=
  match h with Some f => fn_dels f | None => [] end.

Definition reaction_ok (st : state) (fs : list nat) (r : reaction) : Prop :=
  ok_cell st fs (r_cap r) /\ handler_ok st fs (r_handler r).

Definition job_ok (st : state) (fs : list nat) (j : job) : Prop :=
  match j with
  | ReactionJob r _ => reaction_ok st fs r
  | ThenableJob p _ => (p < length (heap st))%nat /\ p ∉ fs
  end.

Definition job_dels (j : job) : list nat :=
  match j with
  | ReactionJob r _ => handler_dels (r_handler r)
  | ThenableJob _ _ => []
  end.

(** The future of a ticket. *)
Definition ticket_future (ds : list DeferredPromise.t) (tk : list nat) (t : nat)
    : option nat :=
  i ← tk !! t; DeferredPromise.promise <$> ds !! i.

Definition pending_in (st : state) (p : nat) : Prop :=
  exists pr, heap st !! p = Some pr /\ p_state pr = Pending.

Definition settled_in (st : state) (p : nat) : Prop :=
  exists pr, heap st !! p = Some pr /\ p_state pr <> Pending.

(** The reaction pair [add] registers for ticket [t], and the jobs made of
    it. *)
Definition evicts (f : fn) (t : nat) : Prop :=
  f = FThenFinally (FDelete s t) \/ f = FCatchFinally (FDelete s t).

Definition job_evicts (j : job) (t : nat) : Prop :=
  exists r x f, j = ReactionJob r x /\ r_handler r = Some f /\ evicts f t.

Definition registered (pr : promise) (t : nat) : Prop :=
  (exists r, r ∈ p_fulfillReactions pr
             /\ r_handler r = Some (FThenFinally (FDelete s t)))
  /\ (exists r, r ∈ p_rejectReactions pr
                /\ r_handler r = Some (FCatchFinally (FDelete s t))).

Definition present (st : state) (t : nat) : bool :=
  match synchs st !! s with
  | Some sy => map_has t (s_promises sy)
  | None => false
  end.

Definition flag_of (o : pstate) : bool :=
  match o with Pending => false | _ => true end.

Record rinv (E : nat -> Prop) (ds : list DeferredPromise.t) (tk : list nat)
    (st : state) : Prop := mkRinv {
  (* cells point into the heap *)
  ri_cells : forall k p b, cells st !! k = Some (p, b) -> (p < length (heap st))%nat;
  (* the caller's objects *)
  ri_deferred : forall i d, ds !! i = Some d ->
      exists kf pr,
        DeferredPromise.resolve d = FResolve kf /\ DeferredPromise.reject d = FReject kf
        /\ heap st !! DeferredPromise.promise d = Some pr
        /\ cells st !! kf = Some (DeferredPromise.promise d, flag_of (p_state pr));
  ri_distinct : NoDup (futures ds);
  ri_tickets : forall t i, tk !! t = Some i -> (i < length ds)%nat;
  (* nothing in the runtime can settle a future of the caller *)
  ri_aggs : forall a g, aggs st !! a = Some g -> ok_cell st (futures ds) (a_cap g);
  ri_heap : forall p pr r, heap st !! p = Some pr ->
      r ∈ p_fulfillReactions pr ++ p_rejectReactions pr ->
      reaction_ok st (futures ds) r
      /\ forall t, t ∈ handler_dels (r_handler r) -> ticket_future ds tk t = Some p;
  ri_queue : forall j, j ∈ queue st ->
      job_ok st (futures ds) j
      /\ forall t, t ∈ job_dels j ->
           exists p, ticket_future ds tk t = Some p /\ settled_in st p;
  (* the registry *)
  ri_registry : exists sy, synchs st !! s = Some sy
      /\ s_index sy = length tk
      /\ forall t, map_has t (s_promises sy) = true -> (t < length tk)%nat;
  (* a ticket stays while its future is pending; once the future has
     settled, a job that removes the ticket is waiting *)
  ri_pending : forall t p, ticket_future ds tk t = Some p -> pending_in st p ->
      (present st t = true /\ exists pr, heap st !! p = Some pr /\ registered pr t)
      \/ E t;
  ri_settled : forall t p, ticket_future ds tk t = Some p -> settled_in st p ->
      present st t = true ->
      (exists j, j ∈ queue st /\ job_evicts j t) \/ E t
}.

(** What a step of the runtime keeps. *)
Record mono (fs : list nat) (st st' : state) : Prop := mkMono {
  mono_cells : forall k p b, cells st !! k = Some (p, b) ->
                 exists b', cells st' !! k = Some (p, b');
  mono_heap : (length (heap st) <= length (heap st'))%nat;
  mono_settled : forall p, p ∈ fs -> settled_in st p -> settled_in st' p;
  mono_present : forall t, present st' t = true -> present st t = true;
  mono_queue : exists extra, queue st' = queue st ++ extra
}.

Lemma mono_refl fs st : mono fs st st.
Proof. split; eauto. exists []. rewrite app_nil_r. reflexivity. Qed.

Lemma mono_trans fs st1 st2 st3 : mono fs st1 st2 -> mono fs st2 st3 -> mono fs st1 st3.
Proof.
  intros [A1 A2 A3 A4 [e1 A5]] [B1 B2 B3 B4 [e2 B5]]. split; eauto.
  - intros k p b H. destruct (A1 _ _ _ H) as [b' H']. eauto.
  - lia.
  - exists (e1 ++ e2). rewrite B5, A5, app_assoc. reflexivity.
Qed.

(** The predicates above only read the promises of the cells and the size
    of the heap. *)
Definition grows (st st' : state) : Prop :=
  (forall k p b, cells st !! k = Some (p, b) -> exists b', cells st' !! k = Some (p, b'))
  /\ (length (heap st) <= length (heap st'))%nat.

Lemma mono_grows fs st st' : mono fs st st' -> grows st st'.
Proof. intros [A B _ _ _]. split; auto. Qed.

Lemma grows_same st st' :
  cells st' = cells st -> heap st' = heap st -> grows st st'.
Proof. intros Ec Eh. split; rewrite ?Ec, ?Eh; eauto. Qed.

Lemma ok_cell_grows fs st st' k : grows st st' -> ok_cell st fs k -> ok_cell st' fs k.
Proof.
  intros [Hm _] (p & b & H & Hp). destruct (Hm _ _ _ H) as [b' H'].
  exists p, b'. auto.
Qed.

Lemma fn_ok_grows fs st st' f : grows st st' -> fn_ok st fs f -> fn_ok st' fs f.
Proof. intros Hm. induction f; simpl; eauto using ok_cell_grows. Qed.

Lemma handler_ok_grows fs st st' h :
  grows st st' -> handler_ok st fs h -> handler_ok st' fs h.
Proof. destruct h; simpl; eauto using fn_ok_grows. Qed.

Lemma reaction_ok_grows fs st st' r :
  grows st st' -> reaction_ok st fs r -> reaction_ok st' fs r.
Proof.
  intros Hm [H1 H2]. split; eauto using ok_cell_grows, handler_ok_grows.
Qed.

Lemma job_ok_grows fs st st' j : grows st st' -> job_ok st fs j -> job_ok st' fs j.
Proof.
  intros Hm. destruct j; simpl.
  - eauto using reaction_ok_grows.
  - intros [H1 H2]. split; auto. destruct Hm as [_ Hm]. lia.
Qed.

Lemma ok_cell_mono fs st st' k : mono fs st st' -> ok_cell st fs k -> ok_cell st' fs k.
Proof. eauto using ok_cell_grows, mono_grows. Qed.

Lemma fn_ok_mono fs st st' f : mono fs st st' -> fn_ok st fs f -> fn_ok st' fs f.
Proof. eauto using fn_ok_grows, mono_grows. Qed.

Lemma handler_ok_mono fs st st' h :
  mono fs st st' -> handler_ok st fs h -> handler_ok st' fs h.
Proof. eauto using handler_ok_grows, mono_grows. Qed.

Lemma reaction_ok_mono fs st st' r :
  mono fs st st' -> reaction_ok st fs r -> reaction_ok st' fs r.
Proof. eauto using reaction_ok_grows, mono_grows. Qed.

Lemma job_ok_mono fs st st' j : mono fs st st' -> job_ok st fs j -> job_ok st' fs j.
Proof. eauto using job_ok_grows, mono_grows. Qed.

Lemma ticket_future_elem ds tk t p :
  ticket_future ds tk t = Some p -> p ∈ futures ds.
Proof.
  unfold ticket_future, futures. intros H.
  destruct (tk !! t) as [i|]; simpl in H; [|discriminate].
  destruct (ds !! i) as [d|] eqn:Ed; simpl in H; [|discriminate].
  injection H as <-. apply list_elem_of_fmap. exists d. split; auto.
  eapply list_elem_of_lookup_2; eauto.
Qed.

Lemma future_in_heap E ds tk st p :
  rinv E ds tk st -> p ∈ futures ds -> exists pr, heap st !! p = Some pr.
Proof.
  intros Hi Hp. apply list_elem_of_fmap in Hp as (d & -> & Hd).
  apply list_elem_of_lookup_1 in Hd as [i Hd].
  destruct (ri_deferred _ _ _ _ Hi _ _ Hd) as (kf & pr & _ & _ & H & _). eauto.
Qed.

Lemma fresh_not_future E ds tk st :
  rinv E ds tk st -> length (heap st) ∉ futures ds.
Proof.
  intros Hi Hp. destruct (future_in_heap _ _ _ _ _ Hi Hp) as [pr H].
  apply lookup_lt_Some in H. lia.
Qed.

Definition step (E : nat -> Prop) ds tk (st st' : state) : Prop :=
  rinv E ds tk st' /\ mono (futures ds) st st'.

Lemma step_trans E ds tk st1 st2 st3 :
  step E ds tk st1 st2 -> step E ds tk st2 st3 -> step E ds tk st1 st3.
Proof. intros [_ A] [B C]. split; eauto using mono_trans. Qed.


(** The part of the state a step may change, and how. *)
Record frame (ds : list DeferredPromise.t) (tk : list nat) (st st' : state)
    : Prop := mkFrame {
  fr_cells : forall k p b, cells st !! k = Some (p, b) ->
      exists b', cells st' !! k = Some (p, b') /\ (p ∈ futures ds -> b' = b);
  fr_cells_new : forall k p b, cells st' !! k = Some (p, b) ->
      (exists b0, cells st !! k = Some (p, b0))
      \/ ((p < length (heap st'))%nat /\ p ∉ futures ds);
  fr_len : (length (heap st) <= length (heap st'))%nat;
  fr_futures : forall p pr, p ∈ futures ds -> heap st !! p = Some pr ->
      exists pr', heap st' !! p = Some pr' /\ p_state pr' = p_state pr
        /\ (forall r, r ∈ p_fulfillReactions pr -> r ∈ p_fulfillReactions pr')
        /\ (forall r, r ∈ p_rejectReactions pr -> r ∈ p_rejectReactions pr');
  fr_aggs : forall a g', aggs st' !! a = Some g' ->
      (exists g, aggs st !! a = Some g /\ a_cap g = a_cap g')
      \/ ok_cell st' (futures ds) (a_cap g');
  fr_heap : forall p pr' r, heap st' !! p = Some pr' ->
      r ∈ p_fulfillReactions pr' ++ p_rejectReactions pr' ->
      (exists pr, heap st !! p = Some pr
                  /\ r ∈ p_fulfillReactions pr ++ p_rejectReactions pr)
      \/ (reaction_ok st' (futures ds) r
          /\ forall t, t ∈ handler_dels (r_handler r) ->
               ticket_future ds tk t = Some p);
  fr_queue : forall j, j ∈ queue st' ->
      j ∈ queue st
      \/ (job_ok st' (futures ds) j
          /\ forall t, t ∈ job_dels j ->
               exists p, ticket_future ds tk t = Some p /\ settled_in st' p);
  fr_queue_app : exists extra, queue st' = queue st ++ extra;
  fr_registry : forall sy, synchs st !! s = Some sy ->
      exists sy', synchs st' !! s = Some sy' /\ s_index sy' = s_index sy;
  fr_present : forall t, present st' t = true -> present st t = true;
  fr_present_pending : forall t p, ticket_future ds tk t = Some p ->
      pending_in st p -> present st t = true -> present st' t = true
}.

Lemma frame_mono E ds tk st st' :
  rinv E ds tk st -> frame ds tk st st' -> mono (futures ds) st st'.
Proof.
  intros Hi Hf. split.
  - intros k p b H. destruct (fr_cells _ _ _ _ Hf _ _ _ H) as (b' & H' & _). eauto.
  - apply (fr_len _ _ _ _ Hf).
  - intros p Hp (pr & H & Hs).
    destruct (fr_futures _ _ _ _ Hf _ _ Hp H) as (pr' & H' & Es & _).
    exists pr'. split; auto. congruence.
  - apply (fr_present _ _ _ _ Hf).
  - apply (fr_queue_app _ _ _ _ Hf).
Qed.

Lemma frame_rinv E ds tk st st' :
  rinv E ds tk st -> frame ds tk st st' -> step E ds tk st st'.
Proof.
  intros Hi Hf. pose proof (frame_mono _ _ _ _ _ Hi Hf) as Hm.
  split; [|exact Hm]. split.
  - intros k p b H. destruct (fr_cells_new _ _ _ _ Hf _ _ _ H) as [[b0 H0]|[H0 _]]; auto.
    pose proof (ri_cells _ _ _ _ Hi _ _ _ H0). pose proof (fr_len _ _ _ _ Hf). lia.
  - intros i d Hd.
    destruct (ri_deferred _ _ _ _ Hi _ _ Hd) as (kf & pr & E1 & E2 & H & Hc).
    assert (Hp : DeferredPromise.promise d ∈ futures ds).
    { apply list_elem_of_fmap. exists d. split; auto.
      eapply list_elem_of_lookup_2; eauto. }
    destruct (fr_futures _ _ _ _ Hf _ _ Hp H) as (pr' & H' & Es & _).
    destruct (fr_cells _ _ _ _ Hf _ _ _ Hc) as (b' & Hc' & Eb).
    exists kf, pr'. repeat split; auto. rewrite Hc', Es, (Eb Hp). reflexivity.
  - apply (ri_distinct _ _ _ _ Hi).
  - apply (ri_tickets _ _ _ _ Hi).
  - intros a g' H. destruct (fr_aggs _ _ _ _ Hf _ _ H) as [(g & H0 & Ec)|H0]; auto.
    rewrite <- Ec. eapply ok_cell_mono; eauto. eapply ri_aggs; eauto.
  - intros p pr' r H Hr.
    destruct (fr_heap _ _ _ _ Hf _ _ _ H Hr) as [(pr & H0 & Hr0)|H0]; auto.
    destruct (ri_heap _ _ _ _ Hi _ _ _ H0 Hr0) as [A B].
    split; auto. eapply reaction_ok_mono; eauto.
  - intros j Hj. destruct (fr_queue _ _ _ _ Hf _ Hj) as [H0|H0]; auto.
    destruct (ri_queue _ _ _ _ Hi _ H0) as [A B]. split.
    + eapply job_ok_mono; eauto.
    + intros t Ht. destruct (B t Ht) as (p & Hp & Hs). exists p. split; auto.
      eapply mono_settled; eauto. eapply ticket_future_elem; eauto.
  - destruct (ri_registry _ _ _ _ Hi) as (sy & H & Ei & Hk).
    destruct (fr_registry _ _ _ _ Hf _ H) as (sy' & H' & Ei').
    exists sy'. repeat split; auto; [congruence|].
    intros t Ht. apply Hk. pose proof (fr_present _ _ _ _ Hf t) as Hp.
    unfold present in Hp. rewrite H, H' in Hp. auto.
  - intros t p Ht (pr' & H' & Es').
    assert (Hp : p ∈ futures ds) by (eapply ticket_future_elem; eauto).
    destruct (future_in_heap _ _ _ _ _ Hi Hp) as [pr H].
    destruct (fr_futures _ _ _ _ Hf _ _ Hp H) as (pr2 & H2 & Es & R1 & R2).
    assert (pr2 = pr') by congruence. subst pr2.
    assert (Hpend : pending_in st p) by (exists pr; split; [auto|congruence]).
    destruct (ri_pending _ _ _ _ Hi _ _ Ht Hpend) as [(Hpr & pr0 & H0 & Hreg)|He];
      [|right; exact He].
    assert (pr0 = pr) by congruence. subst pr0. left.
    split; [eapply fr_present_pending; eauto|].
    exists pr'. split; auto.
    destruct Hreg as [(r1 & Hr1 & Eh1) (r2 & Hr2 & Eh2)]. split; eauto.
  - intros t p Ht (pr' & H' & Es') Hpr.
    assert (Hp : p ∈ futures ds) by (eapply ticket_future_elem; eauto).
    destruct (future_in_heap _ _ _ _ _ Hi Hp) as [pr H].
    destruct (fr_futures _ _ _ _ Hf _ _ Hp H) as (pr2 & H2 & Es & _).
    assert (pr2 = pr') by congruence. subst pr2.
    assert (Hset : settled_in st p) by (exists pr; split; [auto|congruence]).
    destruct (ri_settled _ _ _ _ Hi _ _ Ht Hset (fr_present _ _ _ _ Hf _ Hpr))
      as [(j & Hj & Hev)|He]; auto.
    left. exists j. split; auto. destruct (fr_queue_app _ _ _ _ Hf) as [extra ->].
    apply elem_of_app. auto.
Qed.


Lemma present_same st st' t : synchs st' = synchs st -> present st' t = present st t.
Proof. unfold present. intros ->. reflexivity. Qed.

Ltac frame_auto :=
  match goal with
  | |- forall k p b, cells _ !! k = Some (p, b) -> exists b', _ /\ _ =>
      intros ? ? ? ?; eexists; split; [eassumption|reflexivity]
  | |- forall k p b, cells _ !! k = Some (p, b) -> _ \/ _ =>
      intros ? ? ? ?; left; eexists; eassumption
  | |- (_ <= _)%nat => simpl; try rewrite length_app; try rewrite length_insert; lia
  | |- forall p pr, p ∈ _ -> heap _ !! p = Some pr -> _ =>
      intros ? ? ? ?; eexists; split; [eassumption|]; split; [reflexivity|]; split; auto
  | |- forall a g', aggs _ !! a = Some g' -> _ =>
      intros ? ? ?; left; eexists; split; [eassumption|reflexivity]
  | |- forall p pr' r, heap _ !! p = Some pr' -> _ =>
      intros ? ? ? ? ?; left; eexists; split; eassumption
  | |- forall j, j ∈ _ -> _ \/ _ => intros ? ?; left; assumption
  | |- exists extra, _ = _ ++ extra =>
      first [exists []; rewrite app_nil_r; reflexivity | eexists; reflexivity]
  | |- forall sy, synchs _ !! _ = Some sy -> _ =>
      intros ? ?; eexists; split; [eassumption|reflexivity]
  | |- forall t, present _ t = true -> present _ t = true => intros ? ?; assumption
  | |- forall t p, ticket_future _ _ t = Some p -> _ => intros ? ? ? ? ?; assumption
  end.

Section Steps.
Variables (E : nat -> Prop) (ds : list DeferredPromise.t) (tk : list nat).
Local Abbreviation fs := (futures ds).

Lemma new_promise_frame st :
  rinv E ds tk st -> frame ds tk st (snd (new_promise st)).
Proof.
  intros Hi. pose proof (fresh_not_future _ _ _ _ Hi) as Hfresh.
  split; simpl; try frame_auto.
  - intros k p b H. exists b. split; auto. apply lookup_app_l_Some. exact H.
  - intros k p b H. apply lookup_app_Some in H as [H|[_ H]]; [left; eauto|].
    right. destruct (k - length (cells st))%nat; simpl in H; [|discriminate].
    injection H as <- <-. rewrite length_app. simpl. split; [lia|auto].
  - intros p pr Hp H. exists pr. split; [apply lookup_app_l_Some; exact H|]. auto.
  - intros p pr' r H Hr. apply lookup_app_Some in H as [H|[_ H]]; [left; eauto|].
    destruct (p - length (heap st))%nat; simpl in H; [|discriminate].
    injection H as <-. simpl in Hr. apply elem_of_nil in Hr. contradiction.
Qed.

Lemma new_promise_cell st :
  rinv E ds tk st -> ok_cell (snd (new_promise st)) fs (length (cells st)).
Proof.
  intros Hi. exists (length (heap st)), false. split.
  - simpl. rewrite lookup_app_len. reflexivity.
  - eapply fresh_not_future; eauto.
Qed.

Lemma new_cell_frame st p :
  rinv E ds tk st -> (p < length (heap st))%nat -> p ∉ fs ->
  frame ds tk st (snd (new_cell p st)).
Proof.
  intros Hi Hp Hn. split; simpl; try frame_auto.
  - intros k q b H. exists b. split; auto. apply lookup_app_l_Some. exact H.
  - intros k q b H. apply lookup_app_Some in H as [H|[_ H]]; [left; eauto|].
    right. destruct (k - length (cells st))%nat; simpl in H; [|discriminate].
    injection H as <- <-. auto.
Qed.

Lemma enqueue_frame st j :
  rinv E ds tk st -> job_ok st fs j ->
  (forall t, t ∈ job_dels j -> exists p, ticket_future ds tk t = Some p /\ settled_in st p) ->
  frame ds tk st (snd (enqueue j st)).
Proof.
  intros Hi Hj Hd. split; simpl; try frame_auto.
  intros j' H. apply elem_of_app in H as [H|H]; [left; auto|].
  apply list_elem_of_singleton in H as ->. right. split; [|exact Hd].
  eapply job_ok_grows; [|exact Hj]. apply grows_same; reflexivity.
Qed.


Lemma frame_refl st : frame ds tk st st.
Proof. split; try frame_auto. Qed.

Lemma step_refl st : rinv E ds tk st -> step E ds tk st st.
Proof. intros Hi. split; [exact Hi|apply mono_refl]. Qed.

(** Settling a promise that is not one of the caller's futures. *)
Lemma settle_frame st p pr o (reactions : list reaction) (x : val) :
  rinv E ds tk st -> p ∉ fs -> heap st !! p = Some pr ->
  (forall r, r ∈ reactions -> r ∈ p_fulfillReactions pr ++ p_rejectReactions pr) ->
  frame ds tk st
    (snd (trigger reactions x (set_heap (fun h => <[p := mkPromise o [] []]> h) st))).
Proof.
  intros Hi Hn Hp Hsub.
  assert (Hg : grows st
    (snd (trigger reactions x (set_heap (fun h => <[p := mkPromise o [] []]> h) st)))).
  { split; simpl; [eauto|]. rewrite length_insert. lia. }
  split; simpl; try frame_auto.
  - intros q prq Hq H. exists prq. rewrite list_lookup_insert_ne by congruence. auto.
  - intros q pr' r H Hr. destruct (decide (q = p)) as [->|Hne].
    + rewrite list_lookup_insert_eq in H by (eapply lookup_lt_Some; eauto).
      injection H as <-. simpl in Hr. apply elem_of_nil in Hr. contradiction.
    + rewrite list_lookup_insert_ne in H by congruence. left. eauto.
  - intros j H. apply elem_of_app in H as [H|H]; [left; auto|]. right.
    apply list_elem_of_fmap in H as (r & -> & Hr).
    destruct (ri_heap _ _ _ _ Hi _ _ _ Hp (Hsub _ Hr)) as [A B]. split.
    + simpl. eapply reaction_ok_grows; [exact Hg|exact A].
    + intros t Ht. specialize (B t Ht). apply ticket_future_elem in B. contradiction.
Qed.

Lemma FulfillPromise_frame st p v :
  rinv E ds tk st -> p ∉ fs -> frame ds tk st (snd (FulfillPromise p v st)).
Proof.
  intros Hi Hn. unfold FulfillPromise. destruct (heap st !! p) as [pr|] eqn:Hp.
  - eapply settle_frame; eauto. intros r Hr. apply elem_of_app. auto.
  - apply frame_refl.
Qed.

Lemma RejectPromise_frame st p e :
  rinv E ds tk st -> p ∉ fs -> frame ds tk st (snd (RejectPromise p e st)).
Proof.
  intros Hi Hn. unfold RejectPromise. destruct (heap st !! p) as [pr|] eqn:Hp.
  - eapply settle_frame; eauto. intros r Hr. apply elem_of_app. auto.
  - apply frame_refl.
Qed.

(** Marking a cell as used. *)
Lemma cell_frame st k p b0 :
  rinv E ds tk st -> cells st !! k = Some (p, b0) -> p ∉ fs ->
  frame ds tk st (set_cells (fun c => <[k := (p, true)]> c) st).
Proof.
  intros Hi Hk Hn. split; simpl; try frame_auto.
  - intros k' q b H. destruct (decide (k' = k)) as [->|Hne].
    + rewrite list_lookup_insert_eq by (eapply lookup_lt_Some; eauto).
      assert (q = p) by congruence. subst q. exists true. split; auto.
      intros; contradiction.
    + rewrite list_lookup_insert_ne by congruence. eauto.
  - intros k' q b H. left. destruct (decide (k' = k)) as [->|Hne].
    + rewrite list_lookup_insert_eq in H by (eapply lookup_lt_Some; eauto).
      injection H as <- <-. eauto.
    + rewrite list_lookup_insert_ne in H by congruence. eauto.
Qed.

(** Registering a pair of reactions, or scheduling one of them. *)
Lemma PerformPromiseThen_frame st p h1 h2 cap :
  rinv E ds tk st -> ok_cell st fs cap ->
  handler_ok st fs h1 -> handler_ok st fs h2 ->
  (forall t, t ∈ handler_dels h1 ++ handler_dels h2 -> ticket_future ds tk t = Some p) ->
  frame ds tk st (snd (PerformPromiseThen p h1 h2 cap st)).
Proof.
  intros Hi Hc H1 H2 Hd. unfold PerformPromiseThen.
  destruct (heap st !! p) as [pr|] eqn:Hp; [|apply frame_refl].
  destruct (p_state pr) eqn:Es.
  - assert (Hg : grows st (set_heap (fun h =>
        <[p := mkPromise Pending
                 (p_fulfillReactions pr ++ [mkReaction cap Fulfill h1])
                 (p_rejectReactions pr ++ [mkReaction cap Reject h2])]> h) st)).
    { split; simpl; [eauto|]. rewrite length_insert. lia. }
    split; simpl; try frame_auto.
    + intros q prq Hq H. destruct (decide (q = p)) as [->|Hne].
      * rewrite list_lookup_insert_eq by (eapply lookup_lt_Some; eauto).
        assert (prq = pr) by congruence. subst prq.
        eexists. split; [reflexivity|]. simpl. split; [auto|].
        split; intros r Hr; apply elem_of_app; auto.
      * exists prq. rewrite list_lookup_insert_ne by congruence. auto.
    + intros q pr' r H Hr. destruct (decide (q = p)) as [->|Hne].
      * rewrite list_lookup_insert_eq in H by (eapply lookup_lt_Some; eauto).
        injection H as <-. simpl in Hr.
        rewrite !elem_of_app, !list_elem_of_singleton in Hr.
        destruct Hr as [[Hr| ->]|[Hr| ->]].
        -- left. exists pr. split; auto. apply elem_of_app. auto.
        -- right. split.
           ++ split; simpl; eauto using ok_cell_grows, handler_ok_grows.
           ++ simpl. intros t Ht. apply Hd. apply elem_of_app. auto.
        -- left. exists pr. split; auto. apply elem_of_app. auto.
        -- right. split.
           ++ split; simpl; eauto using ok_cell_grows, handler_ok_grows.
           ++ simpl. intros t Ht. apply Hd. apply elem_of_app. auto.
      * rewrite list_lookup_insert_ne in H by congruence. left. eauto.
  - apply enqueue_frame; auto.
    + split; simpl; auto.
    + simpl. intros t Ht. exists p. split.
      * apply Hd. apply elem_of_app. auto.
      * exists pr. split; auto. congruence.
  - apply enqueue_frame; auto.
    + split; simpl; auto.
    + simpl. intros t Ht. exists p. split.
      * apply Hd. apply elem_of_app. auto.
      * exists pr. split; auto. congruence.
Qed.

(** Updates of the aggregates, of the log and of the registry. *)
Lemma agg_frame st a g g' :
  rinv E ds tk st -> aggs st !! a = Some g -> a_cap g' = a_cap g ->
  frame ds tk st (set_aggs (fun l => <[a := g']> l) st).
Proof.
  intros Hi Ha Ec. split; simpl; try frame_auto.
  intros a' g2 H. left. destruct (decide (a' = a)) as [->|Hne].
  - rewrite list_lookup_insert_eq in H by (eapply lookup_lt_Some; eauto).
    injection H as <-. eauto.
  - rewrite list_lookup_insert_ne in H by congruence. eauto.
Qed.

Lemma new_agg_frame st cap :
  rinv E ds tk st -> ok_cell st fs cap -> frame ds tk st (snd (new_agg cap st)).
Proof.
  intros Hi Hc. split; simpl; try frame_auto.
  intros a g' H. apply lookup_app_Some in H as [H|[_ H]]; [left; eauto|].
  right. destruct (a - length (aggs st))%nat; simpl in H; [|discriminate].
  injection H as <-. simpl. eapply ok_cell_grows; [|exact Hc].
  apply grows_same; reflexivity.
Qed.

Lemma log_frame st f : frame ds tk st (set_log f st).
Proof. split; simpl; try frame_auto. Qed.


Lemma map_has_delete t0 t m :
  map_has t0 (map_delete t m) = map_has t0 m && negb (Nat.eqb t t0).
Proof.
  induction m as [|[i w] m IH]; simpl; [reflexivity|].
  destruct (Nat.eqb i t) eqn:Eit.
  - apply Nat.eqb_eq in Eit. subst i. rewrite IH.
    destruct (Nat.eqb t t0); simpl; [rewrite andb_false_r|]; reflexivity.
  - simpl. rewrite IH. destruct (Nat.eqb i t0) eqn:Ei0; simpl; [|reflexivity].
    apply Nat.eqb_eq in Ei0. subst i. rewrite (Nat.eqb_sym t t0), Eit. reflexivity.
Qed.

Lemma delete_fn_frame st s' t :
  rinv E ds tk st ->
  (s' = s -> exists p, ticket_future ds tk t = Some p /\ settled_in st p) ->
  frame ds tk st (snd (delete_fn s' t st)).
Proof.
  intros Hi Hd. unfold delete_fn.
  destruct (synchs st !! s') as [sy|] eqn:Hs; [|apply frame_refl].
  split; simpl; try frame_auto.
  - intros sy0 H. destruct (decide (s = s')) as [->|Hne].
    + rewrite list_lookup_insert_eq by (eapply lookup_lt_Some; eauto).
      eexists. split; [reflexivity|]. simpl. congruence.
    + rewrite list_lookup_insert_ne by congruence. eauto.
  - intros t0. unfold present. simpl. destruct (decide (s = s')) as [->|Hne].
    + rewrite list_lookup_insert_eq by (eapply lookup_lt_Some; eauto).
      rewrite Hs. simpl. rewrite map_has_delete. intros H.
      apply andb_true_iff in H as [H _]. exact H.
    + rewrite list_lookup_insert_ne by congruence. auto.
  - intros t0 p Ht (pr & Hp & Es). unfold present. simpl.
    destruct (decide (s = s')) as [->|Hne].
    + rewrite list_lookup_insert_eq by (eapply lookup_lt_Some; eauto).
      rewrite Hs. simpl. rewrite map_has_delete. intros ->. simpl.
      destruct (Nat.eqb t t0) eqn:Et; [|reflexivity].
      apply Nat.eqb_eq in Et. subst t0.
      destruct (Hd eq_refl) as (p' & Ht' & pr' & Hp' & Es').
      assert (p' = p) by congruence. subst p'. congruence.
    + rewrite list_lookup_insert_ne by congruence. auto.
Qed.

Lemma delete_fn_absent st t : present (snd (delete_fn s t st)) t = false.
Proof.
  unfold delete_fn, present. destruct (synchs st !! s) as [sy|] eqn:Hs; simpl.
  - rewrite list_lookup_insert_eq by (eapply lookup_lt_Some; eauto). simpl.
    rewrite map_has_delete, Nat.eqb_refl. apply andb_false_r.
  - rewrite Hs. reflexivity.
Qed.

(** *** The functions of the runtime *)

Lemma snd_bind {A B : Type} (m : M A) (k : A -> M B) st :
  snd (bind m k st) = snd (k (fst (m st)) (snd (m st))).
Proof. unfold bind. destruct (m st). reflexivity. Qed.

Lemma fst_bind {A B : Type} (m : M A) (k : A -> M B) st :
  fst (bind m k st) = fst (k (fst (m st)) (snd (m st))).
Proof. unfold bind. destruct (m st). reflexivity. Qed.

Lemma snd_promise_then p h1 h2 st :
  snd (promise_then p h1 h2 st)
  = snd (PerformPromiseThen p h1 h2 (length (cells st)) (snd (new_promise st))).
Proof.
  unfold promise_then, bind. simpl.
  destruct (PerformPromiseThen _ _ _ _ _). reflexivity.
Qed.

Lemma fst_promise_then p h1 h2 st :
  fst (promise_then p h1 h2 st) = length (heap st).
Proof.
  unfold promise_then, bind. simpl.
  destruct (PerformPromiseThen _ _ _ _ _). reflexivity.
Qed.

Lemma resolve_fn_step st k v :
  rinv E ds tk st -> ok_cell st fs k -> step E ds tk st (snd (resolve_fn k v st)).
Proof.
  intros Hi (p & b & Hk & Hn). unfold resolve_fn. rewrite Hk.
  destruct b; [apply step_refl; exact Hi|].
  pose proof (frame_rinv _ _ _ _ _ Hi (cell_frame _ _ _ _ Hi Hk Hn)) as S1.
  assert (Hp : (p < length (heap st))%nat) by (eapply ri_cells; eauto).
  assert (Hthen : step E ds tk st
            (snd (enqueue (ThenableJob p v)
                    (set_cells (fun c => <[k := (p, true)]> c) st)))).
  { eapply step_trans; [exact S1|]. apply frame_rinv; [apply S1|].
    apply enqueue_frame; [apply S1| |].
    - simpl. auto.
    - simpl. intros t Ht. apply elem_of_nil in Ht. contradiction. }
  assert (Hrej : forall e, step E ds tk st
            (snd (RejectPromise p e (set_cells (fun c => <[k := (p, true)]> c) st)))).
  { intros e. eapply step_trans; [exact S1|]. apply frame_rinv; [apply S1|].
    apply RejectPromise_frame; [apply S1|exact Hn]. }
  assert (Hful : step E ds tk st
            (snd (FulfillPromise p v (set_cells (fun c => <[k := (p, true)]> c) st)))).
  { eapply step_trans; [exact S1|]. apply frame_rinv; [apply S1|].
    apply FulfillPromise_frame; [apply S1|exact Hn]. }
  destruct v; simpl; try exact Hful; try exact Hthen.
  destruct (Nat.eqb p0 p); simpl; [apply Hrej|exact Hthen].
Qed.

Lemma reject_fn_step st k e :
  rinv E ds tk st -> ok_cell st fs k -> step E ds tk st (snd (reject_fn k e st)).
Proof.
  intros Hi (p & b & Hk & Hn). unfold reject_fn. rewrite Hk.
  destruct b; [apply step_refl; exact Hi|]. simpl.
  pose proof (frame_rinv _ _ _ _ _ Hi (cell_frame _ _ _ _ Hi Hk Hn)) as S1.
  eapply step_trans; [exact S1|]. apply frame_rinv; [apply S1|].
  apply RejectPromise_frame; [apply S1|exact Hn].
Qed.

Lemma promise_then_step st p h1 h2 :
  rinv E ds tk st -> handler_ok st fs h1 -> handler_ok st fs h2 ->
  (forall t, t ∈ handler_dels h1 ++ handler_dels h2 -> ticket_future ds tk t = Some p) ->
  step E ds tk st (snd (promise_then p h1 h2 st)).
Proof.
  intros Hi H1 H2 Hd. rewrite snd_promise_then.
  pose proof (frame_rinv _ _ _ _ _ Hi (new_promise_frame _ Hi)) as S1.
  eapply step_trans; [exact S1|]. apply frame_rinv; [apply S1|].
  apply PerformPromiseThen_frame; [apply S1| | | |exact Hd].
  - apply new_promise_cell. exact Hi.
  - eapply handler_ok_mono; [apply S1|exact H1].
  - eapply handler_ok_mono; [apply S1|exact H2].
Qed.

Lemma PromiseResolve_step st x :
  rinv E ds tk st -> step E ds tk st (snd (PromiseResolve x st)).
Proof.
  intros Hi.
  assert (Hnew : step E ds tk st
            (snd ((do (p, k) <- new_promise; resolve_fn k x ;; ret p) st))).
  { replace (snd ((do (p, k) <- new_promise; resolve_fn k x ;; ret p) st))
      with (snd (resolve_fn (length (cells st)) x (snd (new_promise st))))
      by (unfold bind; simpl; destruct (resolve_fn _ _ _); reflexivity).
    pose proof (frame_rinv _ _ _ _ _ Hi (new_promise_frame _ Hi)) as S1.
    eapply step_trans; [exact S1|]. apply resolve_fn_step; [apply S1|].
    apply new_promise_cell. exact Hi. }
  destruct x; try exact Hnew. simpl. apply step_refl. exact Hi.
Qed.

Lemma element_fn_step st a i x :
  rinv E ds tk st -> step E ds tk st (snd (element_fn a i x st)).
Proof.
  intros Hi. unfold element_fn.
  destruct (aggs st !! a) as [g|] eqn:Ha; [|apply step_refl; exact Hi].
  destruct (a_called g !! i) as [[|]|]; try (apply step_refl; exact Hi).
  set (g' := mkAgg (<[i := x]> (a_values g)) (<[i := true]> (a_called g))
               (a_remaining g - 1) (a_cap g)).
  pose proof (frame_rinv _ _ _ _ _ Hi (agg_frame _ _ _ g' Hi Ha eq_refl)) as S1.
  destruct (a_remaining g - 1 =? 0); [|exact S1].
  eapply step_trans; [exact S1|]. apply resolve_fn_step; [apply S1|].
  eapply ok_cell_mono; [apply S1|]. eapply ri_aggs; eauto.
Qed.


Lemma finally_step st1 (thunk : fn) c :
  rinv E ds tk st1 -> fn_ok st1 fs thunk -> fn_dels thunk = [] ->
  step E ds tk st1
    (snd (match c with
          | Throw e => ret (Throw e)
          | Normal r =>
              do p <- PromiseResolve r;
              do d <- promise_then p (Some thunk) None;
              ret (Normal (VPromise d))
          end st1)).
Proof.
  intros Hi Hok Hdel. destruct c as [r|e]; [|apply step_refl; exact Hi].
  rewrite snd_bind, snd_bind. simpl snd at 1.
  pose proof (PromiseResolve_step st1 r Hi) as S2.
  eapply step_trans; [exact S2|].
  apply promise_then_step; [apply S2| |exact I|].
  - simpl. eapply fn_ok_mono; [apply S2|exact Hok].
  - simpl. rewrite Hdel. intros t Ht. apply elem_of_nil in Ht. contradiction.
Qed.

Lemma step_absent st st' t :
  step E ds tk st st' -> present st t = false -> present st' t = false.
Proof.
  intros S1 Hp. destruct (present st' t) eqn:Ep; [|reflexivity].
  apply (mono_present _ _ _ (proj2 S1)) in Ep. congruence.
Qed.

Lemma call_step f : forall x st,
  rinv E ds tk st -> fn_ok st fs f ->
  (forall t, t ∈ fn_dels f -> exists p, ticket_future ds tk t = Some p /\ settled_in st p) ->
  step E ds tk st (snd (call f x st))
  /\ forall t, evicts f t -> present (snd (call f x st)) t = false.
Proof.
  induction f as [k|k|a i|a i|a i|g IH|g IH|v|e|s' t'|tag body]; intros x st Hi Hok Hd; simpl.
  - split; [apply resolve_fn_step; auto|]. intros t [H|H]; discriminate.
  - split; [apply reject_fn_step; auto|]. intros t [H|H]; discriminate.
  - split; [apply element_fn_step; auto|]. intros t [H|H]; discriminate.
  - split; [apply element_fn_step; auto|]. intros t [H|H]; discriminate.
  - split; [apply element_fn_step; auto|]. intros t [H|H]; discriminate.
  - rewrite snd_bind. destruct (IH VUndef st Hi Hok Hd) as [S1 Hev]. split.
    + eapply step_trans; [exact S1|]. apply finally_step; [apply S1|exact I|reflexivity].
    + intros t [H|H]; [|discriminate]. injection H as ->.
      eapply step_absent; [apply finally_step; [apply S1|exact I|reflexivity]|].
      simpl. apply delete_fn_absent.
  - rewrite snd_bind. destruct (IH VUndef st Hi Hok Hd) as [S1 Hev]. split.
    + eapply step_trans; [exact S1|]. apply finally_step; [apply S1|exact I|reflexivity].
    + intros t [H|H]; [discriminate|]. injection H as ->.
      eapply step_absent; [apply finally_step; [apply S1|exact I|reflexivity]|].
      simpl. apply delete_fn_absent.
  - split; [apply step_refl; auto|]. intros t [H|H]; discriminate.
  - split; [apply step_refl; auto|]. intros t [H|H]; discriminate.
  - split; [|intros t [H|H]; discriminate].
    apply frame_rinv; [exact Hi|]. apply delete_fn_frame; [exact Hi|].
    intros ->. apply Hd. simpl. rewrite Nat.eqb_refl. apply list_elem_of_singleton. reflexivity.
  - split; [|intros t [H|H]; discriminate].
    apply frame_rinv; [exact Hi|].
    apply (log_frame st (fun l => l ++ [(tag, x)])).
Qed.


Lemma settle_cap_step st (r : reaction) c :
  rinv E ds tk st -> ok_cell st fs (r_cap r) ->
  step E ds tk st
    (snd (match c with
          | Throw e => reject_fn (r_cap r) e ;; ret tt
          | Normal v => resolve_fn (r_cap r) v ;; ret tt
          end st)).
Proof.
  intros Hi Hc. destruct c as [v|e]; rewrite snd_bind; simpl snd at 1.
  - apply resolve_fn_step; auto.
  - apply reject_fn_step; auto.
Qed.

Lemma run_job_step st j :
  rinv E ds tk st -> job_ok st fs j ->
  (forall t, t ∈ job_dels j -> exists p, ticket_future ds tk t = Some p /\ settled_in st p) ->
  step E ds tk st (snd (run_job j st))
  /\ forall t, job_evicts j t -> present (snd (run_job j st)) t = false.
Proof.
  intros Hi Hok Hd. destruct j as [r x|p v]; simpl.
  - destruct Hok as [Hcap Hh]. rewrite snd_bind.
    destruct (r_handler r) as [h|] eqn:Eh; simpl in Hh, Hd.
    + rewrite Eh in Hd. simpl in Hd.
      destruct (call_step h x st Hi Hh Hd) as [S1 Hev]. split.
      * eapply step_trans; [exact S1|]. apply settle_cap_step; [apply S1|].
        eapply ok_cell_mono; [apply S1|exact Hcap].
      * intros t (r' & x' & f & Ej & Ef & Hf). injection Ej as <- <-.
        assert (f = h) by congruence. subst f.
        eapply step_absent; [|apply Hev; exact Hf].
        apply settle_cap_step; [apply S1|].
        eapply ok_cell_mono; [apply S1|exact Hcap].
    + split.
      * simpl. apply settle_cap_step; auto.
      * intros t (r' & x' & f & Ej & Ef & Hf). injection Ej as <- <-. congruence.
  - destruct Hok as [Hp Hn]. split.
    + rewrite snd_bind. simpl fst. simpl snd at 2.
      pose proof (frame_rinv _ _ _ _ _ Hi (new_cell_frame _ _ Hi Hp Hn)) as S1.
      change (set_cells _ st) with (snd (new_cell p st)).
      destruct (get_then v) as [q|]; [|exact S1].
      rewrite snd_bind. simpl snd at 1.
      eapply step_trans; [exact S1|].
      assert (Hk : ok_cell (snd (new_cell p st)) fs (length (cells st))).
      { exists p, false. split; [|exact Hn]. simpl. rewrite lookup_app_len. reflexivity. }
      apply promise_then_step; [apply S1|exact Hk|exact Hk|].
      simpl. intros t Ht. apply elem_of_nil in Ht. contradiction.
    + intros t (r' & x' & f & Ej & _). discriminate.
Qed.

End Steps.

(** The oldest job leaves the queue, then runs. *)
Lemma pop_rinv ds tk st j q :
  rinv (fun _ => False) ds tk st -> queue st = j :: q ->
  rinv (job_evicts j) ds tk (set_queue (fun _ => q) st).
Proof.
  intros Hi Eq.
  assert (Hg : grows st (set_queue (fun _ => q) st)) by (apply grows_same; reflexivity).
  destruct Hi as [I1 I2 I3 I3' I4 I5 I6 I7 I8 I9]. split; simpl.
  - exact I1.
  - exact I2.
  - exact I3.
  - exact I3'.
  - intros a g H. eapply ok_cell_grows; [exact Hg|]. eauto.
  - intros p pr r H Hr. destruct (I5 _ _ _ H Hr) as [A B]. split; auto.
    eapply reaction_ok_grows; [exact Hg|exact A].
  - intros j' Hj. assert (Hin : j' ∈ queue st) by (rewrite Eq; apply elem_of_cons; auto).
    destruct (I6 _ Hin) as [A B]. split; auto.
    eapply job_ok_grows; [exact Hg|exact A].
  - exact I7.
  - intros t p Ht Hs. destruct (I8 _ _ Ht Hs) as [H|[]]. left. exact H.
  - intros t p Ht Hs Hp. destruct (I9 _ _ Ht Hs Hp) as [(j' & Hj & Hev)|[]].
    rewrite Eq in Hj. apply elem_of_cons in Hj as [->|Hj]; [right; exact Hev|].
    left. eauto.
Qed.

Lemma rinv_close (E : nat -> Prop) ds tk st :
  rinv E ds tk st ->
  (forall t, E t -> present st t = false
                    /\ exists p, ticket_future ds tk t = Some p /\ settled_in st p) ->
  rinv (fun _ => False) ds tk st.
Proof.
  intros [I1 I2 I3 I3' I4 I5 I6 I7 I8 I9] He. split; auto.
  - intros t p Ht Hs. destruct (I8 _ _ Ht Hs) as [H|H]; [left; exact H|].
    destruct (He _ H) as (_ & p' & Ht' & pr' & Hp' & Es').
    destruct Hs as (pr & Hp & Es). assert (p' = p) by congruence. subst p'.
    congruence.
  - intros t p Ht Hs Hp. destruct (I9 _ _ Ht Hs Hp) as [H|H]; [left; exact H|].
    rewrite (proj1 (He _ H)) in Hp. discriminate.
Qed.

Lemma evicts_dels j t : job_evicts j t -> t ∈ job_dels j.
Proof.
  intros (r & x & f & -> & Ef & [->| ->]); simpl; rewrite Ef; simpl;
    rewrite Nat.eqb_refl; apply list_elem_of_singleton; reflexivity.
Qed.

Lemma tick_step ds tk st j q :
  rinv (fun _ => False) ds tk st -> queue st = j :: q ->
  rinv (fun _ => False) ds tk (tick st)
  /\ mono (futures ds) (set_queue (fun _ => q) st) (tick st)
  /\ forall t, job_evicts j t -> present (tick st) t = false.
Proof.
  intros Hi Eq. unfold tick. rewrite Eq.
  pose proof (pop_rinv _ _ _ _ _ Hi Eq) as H1.
  assert (Hin : j ∈ queue st) by (rewrite Eq; apply list_elem_of_here).
  destruct (ri_queue _ _ _ _ Hi _ Hin) as [A B].
  assert (Hg : grows st (set_queue (fun _ => q) st)) by (apply grows_same; reflexivity).
  destruct (run_job_step _ _ _ _ j H1 (job_ok_grows _ _ _ _ Hg A) B) as [S1 Hev].
  split; [|split; [apply S1|exact Hev]].
  eapply rinv_close; [apply S1|]. intros t Ht. split; [apply Hev; exact Ht|].
  destruct (B t (evicts_dels _ _ Ht)) as (p & Hp & Hs). exists p. split; auto.
  eapply (mono_settled _ _ _ (proj2 S1)); [eapply ticket_future_elem; eauto|exact Hs].
Qed.

Lemma tick_rinv ds tk st :
  rinv (fun _ => False) ds tk st -> rinv (fun _ => False) ds tk (tick st).
Proof.
  intros Hi. destruct (queue st) as [|j q] eqn:Eq.
  - unfold tick. rewrite Eq. exact Hi.
  - apply (tick_step _ _ _ _ _ Hi Eq).
Qed.

Lemma run_rinv ds tk n : forall st,
  rinv (fun _ => False) ds tk st -> rinv (fun _ => False) ds tk (run n st).
Proof. induction n as [|n IH]; intros st Hi; simpl; auto using tick_rinv. Qed.

(** A ticket that has left the registry does not come back by itself, and a
    queued job that removes a ticket does so when its turn comes. *)
Lemma tick_absent ds tk st t :
  rinv (fun _ => False) ds tk st -> present st t = false -> present (tick st) t = false.
Proof.
  intros Hi Hp. destruct (queue st) as [|j q] eqn:Eq.
  - unfold tick. rewrite Eq. exact Hp.
  - destruct (tick_step _ _ _ _ _ Hi Eq) as (_ & Hm & _).
    destruct (present (tick st) t) eqn:Ep; [|reflexivity].
    apply (mono_present _ _ _ Hm) in Ep. unfold present in Ep, Hp. simpl in Ep. congruence.
Qed.

Lemma run_absent ds tk n : forall st t,
  rinv (fun _ => False) ds tk st -> present st t = false -> present (run n st) t = false.
Proof.
  induction n as [|n IH]; intros st t Hi Hp; simpl; auto.
  apply IH; [apply tick_rinv; exact Hi|eapply tick_absent; eauto].
Qed.

Lemma evicted_in_turn ds tk t j before : forall st after,
  rinv (fun _ => False) ds tk st -> queue st = before ++ j :: after ->
  job_evicts j t ->
  present (run (S (length before)) st) t = false.
Proof.
  induction before as [|j0 before IH]; intros st after Hi Eq Hev.
  - simpl in *. destruct (tick_step _ _ _ _ _ Hi Eq) as (_ & _ & H). auto.
  - simpl in Eq. destruct (tick_step _ _ _ _ _ Hi Eq) as (H1 & Hm & _).
    destruct (mono_queue _ _ _ Hm) as [extra Hq]. simpl in Hq.
    change (run (S (length (j0 :: before))) st)
      with (run (S (length before)) (tick st)).
    apply (IH (tick st) (after ++ extra)); auto.
    rewrite Hq, <- app_assoc. reflexivity.
Qed.

(** *** The caller's moves *)

Lemma ticket_future_deferred ds tk d t p :
  (forall t i, tk !! t = Some i -> (i < length ds)%nat) ->
  ticket_future (ds ++ [d]) tk t = Some p <-> ticket_future ds tk t = Some p.
Proof.
  intros Hs. unfold ticket_future. destruct (tk !! t) as [i|] eqn:Et; simpl; [|tauto].
  rewrite lookup_app_l by eauto. tauto.
Qed.

Lemma ticket_future_old ds tk i t p :
  ticket_future ds tk t = Some p -> ticket_future ds (tk ++ [i]) t = Some p.
Proof.
  unfold ticket_future. destruct (tk !! t) as [i'|] eqn:Et; simpl; [|discriminate].
  rewrite lookup_app_l by (eapply lookup_lt_Some; eauto). rewrite Et. auto.
Qed.

Lemma ticket_future_new ds tk i t p :
  ticket_future ds (tk ++ [i]) t = Some p ->
  ticket_future ds tk t = Some p
  \/ (t = length tk /\ DeferredPromise.promise <$> ds !! i = Some p).
Proof.
  unfold ticket_future. intros H.
  destruct (tk !! t) as [i'|] eqn:Et.
  - left. rewrite lookup_app_l in H by (eapply lookup_lt_Some; eauto).
    rewrite Et in H. exact H.
  - right. apply lookup_ge_None in Et.
    destruct ((tk ++ [i]) !! t) as [i'|] eqn:Et'; simpl in H; [|discriminate].
    apply lookup_app_Some in Et' as [Et'|[_ Et']].
    + apply lookup_lt_Some in Et'. lia.
    + destruct (t - length tk)%nat eqn:Ed; simpl in Et'; [|discriminate].
      injection Et' as <-. split; [lia|exact H].
Qed.

Lemma ok_cell_fresh fs st st' k :
  (forall k p b, cells st !! k = Some (p, b) -> (p < length (heap st))%nat) ->
  grows st st' -> ok_cell st fs k -> ok_cell st' (fs ++ [length (heap st)]) k.
Proof.
  intros Hc [Hm _] (p & b & H & Hp). destruct (Hm _ _ _ H) as [b' H'].
  exists p, b'. split; auto. intros Hin. apply elem_of_app in Hin as [Hin|Hin]; auto.
  apply list_elem_of_singleton in Hin. apply Hc in H. lia.
Qed.

Lemma fn_ok_fresh fs st st' f :
  (forall k p b, cells st !! k = Some (p, b) -> (p < length (heap st))%nat) ->
  grows st st' -> fn_ok st fs f -> fn_ok st' (fs ++ [length (heap st)]) f.
Proof. intros Hc Hm. induction f; simpl; eauto using ok_cell_fresh. Qed.

Lemma reaction_ok_fresh fs st st' r :
  (forall k p b, cells st !! k = Some (p, b) -> (p < length (heap st))%nat) ->
  grows st st' -> reaction_ok st fs r -> reaction_ok st' (fs ++ [length (heap st)]) r.
Proof.
  intros Hc Hm [H1 H2]. split; [eauto using ok_cell_fresh|].
  destruct (r_handler r); simpl in *; eauto using fn_ok_fresh.
Qed.

Lemma job_ok_fresh fs st st' j :
  (forall k p b, cells st !! k = Some (p, b) -> (p < length (heap st))%nat) ->
  grows st st' -> job_ok st fs j -> job_ok st' (fs ++ [length (heap st)]) j.
Proof.
  intros Hc Hm. destruct j; simpl.
  - eauto using reaction_ok_fresh.
  - intros [H1 H2]. destruct Hm as [_ Hm]. split; [lia|].
    intros Hin. apply elem_of_app in Hin as [Hin|Hin]; auto.
    apply list_elem_of_singleton in Hin. lia.
Qed.

(** [new DeferredPromise()] *)
Lemma constructor_rinv ds tk st :
  rinv (fun _ => False) ds tk st ->
  rinv (fun _ => False) (ds ++ [fst (DeferredPromise.constructor st)]) tk
       (snd (DeferredPromise.constructor st)).
Proof.
  intros Hi.
  destruct (frame_rinv _ _ _ _ _ Hi (new_promise_frame _ _ _ _ Hi)) as [H1 Hm].
  pose proof (mono_grows _ _ _ Hm) as Hg.
  pose proof (ri_cells _ _ _ _ Hi) as Hc.
  pose proof (ri_tickets _ _ _ _ Hi) as Hs.
  change (snd (DeferredPromise.constructor st)) with (snd (new_promise st)) in *.
  set (d := fst (DeferredPromise.constructor st)).
  assert (Efs : futures (ds ++ [d]) = futures ds ++ [length (heap st)]).
  { unfold futures. rewrite fmap_app. reflexivity. }
  split; rewrite ?Efs.
  - apply (ri_cells _ _ _ _ H1).
  - intros i d' Hd. apply lookup_app_Some in Hd as [Hd|[Hge Hd]].
    + apply (ri_deferred _ _ _ _ H1 _ _ Hd).
    + destruct (i - length ds)%nat; simpl in Hd; [|discriminate]. injection Hd as <-.
      exists (length (cells st)), (mkPromise Pending [] []). simpl.
      rewrite !lookup_app_len. auto.
  - apply NoDup_app. split; [apply (ri_distinct _ _ _ _ Hi)|].
    split; [|apply NoDup_singleton].
    intros x Hx Hx'. apply list_elem_of_singleton in Hx'. subst x.
    exact (fresh_not_future _ _ _ _ Hi Hx).
  - intros t i Ht. rewrite length_app. simpl. specialize (Hs _ _ Ht). lia.
  - intros a g H. eapply ok_cell_fresh; eauto. eapply ri_aggs; eauto.
  - intros p pr r H Hr. apply lookup_app_Some in H as [H|[_ H]].
    + destruct (ri_heap _ _ _ _ Hi _ _ _ H Hr) as [A B]. split.
      * eapply reaction_ok_fresh; eauto.
      * intros t Ht. apply ticket_future_deferred; auto.
    + destruct (p - length (heap st))%nat; simpl in H; [|discriminate].
      injection H as <-. simpl in Hr. apply elem_of_nil in Hr. contradiction.
  - intros j Hj. simpl in Hj. destruct (ri_queue _ _ _ _ Hi _ Hj) as [A B]. split.
    + eapply job_ok_fresh; eauto.
    + intros t Ht. destruct (B t Ht) as (p & Hp & Hset). exists p. split.
      * apply ticket_future_deferred; auto.
      * eapply mono_settled; eauto. eapply ticket_future_elem; eauto.
  - apply (ri_registry _ _ _ _ H1).
  - intros t p Ht. apply ticket_future_deferred in Ht; auto.
    apply (ri_pending _ _ _ _ H1 _ _ Ht).
  - intros t p Ht. apply ticket_future_deferred in Ht; auto.
    apply (ri_settled _ _ _ _ H1 _ _ Ht).
Qed.


(** Settling one of the caller's futures through its own function. *)
Lemma settle_future_rinv ds tk st i d kf pr o x (reactions : list reaction) :
  rinv (fun _ => False) ds tk st -> ds !! i = Some d ->
  DeferredPromise.resolve d = FResolve kf ->
  heap st !! DeferredPromise.promise d = Some pr -> p_state pr = Pending ->
  cells st !! kf = Some (DeferredPromise.promise d, false) ->
  (o = Fulfilled x /\ reactions = p_fulfillReactions pr)
  \/ (o = Rejected x /\ reactions = p_rejectReactions pr) ->
  rinv (fun _ => False) ds tk
    (mkState (<[DeferredPromise.promise d := mkPromise o [] []]> (heap st))
             (<[kf := (DeferredPromise.promise d, true)]> (cells st)) (aggs st)
             (queue st ++ ((fun r => ReactionJob r x) <$> reactions))
             (log st) (synchs st)).
Proof.
  intros Hi Hd Hres Hp Es Hk Ho. set (p := DeferredPromise.promise d) in *.
  set (st' := mkState _ _ _ _ _ _).
  assert (Hplt : (p < length (heap st))%nat) by (eapply lookup_lt_Some; eauto).
  assert (Hklt : (kf < length (cells st))%nat) by (eapply lookup_lt_Some; eauto).
  assert (Hg : grows st st').
  { split; simpl; [|rewrite length_insert; lia]. intros k q b H.
    destruct (decide (k = kf)) as [->|Hne].
    - rewrite list_lookup_insert_eq by auto. assert (q = p) by congruence. subst q. eauto.
    - rewrite list_lookup_insert_ne by congruence. eauto. }
  assert (Hflag : flag_of o = true) by (destruct Ho as [[-> _]|[-> _]]; reflexivity).
  assert (Hsub : forall r, r ∈ reactions ->
            r ∈ p_fulfillReactions pr ++ p_rejectReactions pr).
  { intros r Hr. apply elem_of_app. destruct Ho as [[_ ->]|[_ ->]]; auto. }
  assert (Hset : forall q, settled_in st q -> settled_in st' q).
  { intros q (prq & Hq & Esq). destruct (decide (q = p)) as [->|Hne].
    - exists (mkPromise o [] []). simpl. rewrite list_lookup_insert_eq by auto.
      split; auto. destruct Ho as [[-> _]|[-> _]]; discriminate.
    - exists prq. simpl. rewrite list_lookup_insert_ne by congruence. auto. }
  assert (Hnow : settled_in st' p).
  { exists (mkPromise o [] []). simpl. rewrite list_lookup_insert_eq by auto.
    split; auto. destruct Ho as [[-> _]|[-> _]]; discriminate. }
  split.
  - intros k q b H. simpl in *. rewrite length_insert.
    destruct (decide (k = kf)) as [->|Hne].
    + rewrite list_lookup_insert_eq in H by auto. injection H as <- <-. auto.
    + rewrite list_lookup_insert_ne in H by congruence. eapply ri_cells; eauto.
  - intros i' d' Hd'.
    destruct (ri_deferred _ _ _ _ Hi _ _ Hd') as (kf' & pr' & E1 & E2 & H & Hc).
    destruct (decide (DeferredPromise.promise d' = p)) as [Ep|Hne].
    + exists kf', (mkPromise o [] []). rewrite Ep in *. simpl.
      assert (pr' = pr) by congruence. subst pr'. rewrite Es in Hc. simpl in Hc.
      rewrite list_lookup_insert_eq by auto. repeat split; auto.
      destruct (decide (kf' = kf)) as [->|Hk'].
      * rewrite list_lookup_insert_eq by auto. rewrite Hflag. reflexivity.
      * exfalso. assert (Hii : i' = i).
        { eapply (NoDup_lookup (futures ds)); [apply (ri_distinct _ _ _ _ Hi)| |].
          - unfold futures. rewrite list_lookup_fmap, Hd'. simpl. rewrite Ep. reflexivity.
          - unfold futures. rewrite list_lookup_fmap, Hd. reflexivity. }
        subst i'. assert (d' = d) by congruence. subst d'. congruence.
    + exists kf', pr'. simpl. rewrite list_lookup_insert_ne by congruence.
      repeat split; auto. rewrite list_lookup_insert_ne; auto.
      intros ->. rewrite Hk in Hc. injection Hc as Hc _. congruence.
  - apply (ri_distinct _ _ _ _ Hi).
  - apply (ri_tickets _ _ _ _ Hi).
  - intros a g H. eapply ok_cell_grows; [exact Hg|]. eapply ri_aggs; eauto.
  - intros q prq r H Hr. simpl in H. destruct (decide (q = p)) as [->|Hne].
    + rewrite list_lookup_insert_eq in H by auto. injection H as <-.
      simpl in Hr. apply elem_of_nil in Hr. contradiction.
    + rewrite list_lookup_insert_ne in H by congruence.
      destruct (ri_heap _ _ _ _ Hi _ _ _ H Hr) as [A B]. split; auto.
      eapply reaction_ok_grows; eauto.
  - intros j Hj. simpl in Hj. apply elem_of_app in Hj as [Hj|Hj].
    + destruct (ri_queue _ _ _ _ Hi _ Hj) as [A B]. split.
      * eapply job_ok_grows; eauto.
      * intros t Ht. destruct (B t Ht) as (q & Hq & Hs). eauto.
    + apply list_elem_of_fmap in Hj as (r & -> & Hr).
      destruct (ri_heap _ _ _ _ Hi _ _ _ Hp (Hsub _ Hr)) as [A B]. split.
      * simpl. eapply reaction_ok_grows; eauto.
      * simpl. intros t Ht. exists p. split; auto.
  - apply (ri_registry _ _ _ _ Hi).
  - intros t q Ht (prq & Hq & Esq). simpl in Hq.
    destruct (decide (q = p)) as [->|Hne].
    + rewrite list_lookup_insert_eq in Hq by auto. injection Hq as <-. simpl in Esq.
      destruct Ho as [[-> _]|[-> _]]; discriminate.
    + rewrite list_lookup_insert_ne in Hq by congruence.
      assert (Hpend : pending_in st q) by (exists prq; auto).
      destruct (ri_pending _ _ _ _ Hi _ _ Ht Hpend) as [(A & pr2 & B & C)|[]].
      left. split; [exact A|]. exists pr2. simpl.
      rewrite list_lookup_insert_ne by congruence. auto.
  - intros t q Ht (prq & Hq & Esq) Hpr. simpl in Hq. left.
    destruct (decide (q = p)) as [->|Hne].
    + assert (Hpend : pending_in st p) by (exists pr; auto).
      destruct (ri_pending _ _ _ _ Hi _ _ Ht Hpend) as [(A & pr2 & B & C)|[]].
      assert (pr2 = pr) by congruence. subst pr2.
      destruct C as [(r1 & Hr1 & Eh1) (r2 & Hr2 & Eh2)].
      destruct Ho as [[-> ->]|[-> ->]].
      * exists (ReactionJob r1 x). split.
        -- simpl. apply elem_of_app. right. apply list_elem_of_fmap. eauto.
        -- exists r1, x, (FThenFinally (FDelete s t)). repeat split; auto. left. auto.
      * exists (ReactionJob r2 x). split.
        -- simpl. apply elem_of_app. right. apply list_elem_of_fmap. eauto.
        -- exists r2, x, (FCatchFinally (FDelete s t)). repeat split; auto. right. auto.
    + rewrite list_lookup_insert_ne in Hq by congruence.
      assert (Hs : settled_in st q) by (exists prq; auto).
      destruct (ri_settled _ _ _ _ Hi _ _ Ht Hs Hpr) as [(j & Hj & Hev)|[]].
      exists j. split; auto. simpl. apply elem_of_app. auto.
Qed.


Lemma map_has_set t' t v m :
  map_has t' (map_set t v m) = Nat.eqb t t' || map_has t' m.
Proof.
  induction m as [|[i w] m IH]; simpl.
  - rewrite orb_false_r. reflexivity.
  - destruct (Nat.eqb i t) eqn:Eit; simpl.
    + apply Nat.eqb_eq in Eit. subst i.
      destruct (Nat.eqb t t'); reflexivity.
    + rewrite IH. destruct (Nat.eqb i t'), (Nat.eqb t t'); reflexivity.
Qed.

(** [add] on a DeferredPromise: the counter and the Map only concern the
    registry, the call of [finally] only the promises. *)
Lemma add_deferred st sy p :
  synchs st !! s = Some sy ->
  PromiseSynch.add s (VDeferred p) st
  = (Normal VUndef,
     snd (promise_then p (Some (FThenFinally (FDelete s (s_index sy))))
            (Some (FCatchFinally (FDelete s (s_index sy))))
            (set_synchs (fun l =>
               <[s := mkSynch (S (s_index sy))
                        (map_set (s_index sy) (VPromise (length (heap st)))
                           (s_promises sy))]> l) st))).
Proof.
  intros Hs. assert (Hlt : (s < length (synchs st))%nat) by (eapply lookup_lt_Some; eauto).
  unfold PromiseSynch.add. rewrite Hs.
  unfold PromiseSynch.invoke_finally, promise_finally, bind, promise_then, bind,
    PerformPromiseThen, new_promise, enqueue, modify, ret. simpl.
  destruct ((heap st ++ [mkPromise Pending [] []]) !! p) as [pr|]; simpl.
  - destruct (p_state pr); simpl;
      rewrite list_lookup_insert_eq by auto; simpl;
      rewrite list_insert_insert_eq; reflexivity.
  - rewrite list_lookup_insert_eq by auto; simpl.
    rewrite list_insert_insert_eq. reflexivity.
Qed.


Lemma rinv_settle_exempt (E : nat -> Prop) ds tk st :
  rinv E ds tk st ->
  (forall t p, E t -> ticket_future ds tk t = Some p -> pending_in st p ->
     present st t = true /\ exists pr, heap st !! p = Some pr /\ registered pr t) ->
  (forall t p, E t -> ticket_future ds tk t = Some p -> settled_in st p ->
     exists j, j ∈ queue st /\ job_evicts j t) ->
  rinv (fun _ => False) ds tk st.
Proof.
  intros [I1 I2 I3 I3' I4 I5 I6 I7 I8 I9] Hp Hs. split; auto.
  - intros t p Ht Hpend. destruct (I8 _ _ Ht Hpend) as [H|H]; [left; exact H|].
    left. eauto.
  - intros t p Ht Hset Hpr. destruct (I9 _ _ Ht Hset Hpr) as [H|H]; [left; exact H|].
    left. eauto.
Qed.

(** The registry after the two updates [add] makes to it. *)
Lemma registry_update_rinv ds tk st sy i v :
  rinv (fun _ => False) ds tk st -> synchs st !! s = Some sy ->
  (i < length ds)%nat ->
  rinv (fun t => t = length tk) ds (tk ++ [i])
    (set_synchs (fun l =>
       <[s := mkSynch (S (s_index sy)) (map_set (s_index sy) v (s_promises sy))]> l) st).
Proof.
  intros Hi Hs Hlt. set (st' := set_synchs _ st).
  assert (Hslt : (s < length (synchs st))%nat) by (eapply lookup_lt_Some; eauto).
  assert (Hg : grows st st') by (apply grows_same; reflexivity).
  destruct (ri_registry _ _ _ _ Hi) as (sy0 & Hs0 & Ei & Hkeys).
  assert (sy0 = sy) by congruence. subst sy0.
  assert (Hpres : forall t, t <> length tk -> present st' t = present st t).
  { intros t Hne. unfold present, st'. simpl. rewrite list_lookup_insert_eq by auto.
    rewrite Hs. simpl. rewrite map_has_set, Ei.
    destruct (Nat.eqb (length tk) t) eqn:Et; [|reflexivity].
    apply Nat.eqb_eq in Et. congruence. }
  split.
  - apply (ri_cells _ _ _ _ Hi).
  - apply (ri_deferred _ _ _ _ Hi).
  - apply (ri_distinct _ _ _ _ Hi).
  - intros t i' Ht. apply lookup_app_Some in Ht as [Ht|[_ Ht]].
    + eapply ri_tickets; eauto.
    + destruct (t - length tk)%nat; simpl in Ht; [|discriminate]. congruence.
  - intros a g H. eapply ok_cell_grows; [exact Hg|]. eapply ri_aggs; eauto.
  - intros p pr r H Hr. destruct (ri_heap _ _ _ _ Hi _ _ _ H Hr) as [A B]. split.
    + eapply reaction_ok_grows; eauto.
    + intros t Ht. apply ticket_future_old. auto.
  - intros j Hj. destruct (ri_queue _ _ _ _ Hi _ Hj) as [A B]. split.
    + eapply job_ok_grows; eauto.
    + intros t Ht. destruct (B t Ht) as (p & Hp & Hset). exists p. split; auto.
      apply ticket_future_old. auto.
  - eexists. split; [simpl; apply list_lookup_insert_eq; auto|]. simpl. split.
    + rewrite length_app, Ei. simpl. lia.
    + intros t Ht. rewrite map_has_set in Ht. rewrite length_app. simpl.
      apply orb_true_iff in Ht as [Ht|Ht].
      * apply Nat.eqb_eq in Ht. lia.
      * apply Hkeys in Ht. lia.
  - intros t p Ht Hpend. apply ticket_future_new in Ht as [Ht|[-> _]]; [|right; reflexivity].
    destruct (ri_pending _ _ _ _ Hi _ _ Ht Hpend) as [(A & B)|[]]. left. split; auto.
    rewrite Hpres; auto. intros ->. unfold ticket_future in Ht.
    rewrite (lookup_ge_None_2 tk (length tk)) in Ht by lia. discriminate.
  - intros t p Ht Hset Hpr. apply ticket_future_new in Ht as [Ht|[-> _]]; [|right; reflexivity].
    left. assert (Hne : t <> length tk).
    { intros ->. unfold ticket_future in Ht.
      rewrite (lookup_ge_None_2 tk (length tk)) in Ht by lia. discriminate. }
    rewrite Hpres in Hpr by auto.
    destruct (ri_settled _ _ _ _ Hi _ _ Ht Hset Hpr) as [H|[]]. exact H.
Qed.

(** [synch.add(d)] *)
Lemma add_rinv ds tk st i d :
  rinv (fun _ => False) ds tk st -> ds !! i = Some d ->
  rinv (fun _ => False) ds (tk ++ [i])
       (snd (PromiseSynch.add s (DeferredPromise.to_val d) st)).
Proof.
  intros Hi Hd. destruct (ri_registry _ _ _ _ Hi) as (sy & Hs & Ei & Hkeys).
  assert (Hslt : (s < length (synchs st))%nat) by (eapply lookup_lt_Some; eauto).
  unfold DeferredPromise.to_val. rewrite (add_deferred _ _ _ Hs).
  match goal with
  | |- context [snd (Normal VUndef, ?x)] => change (snd (Normal VUndef, x)) with x
  end.
  set (p := DeferredPromise.promise d). set (t := s_index sy).
  set (st1 := set_synchs _ st).
  assert (Hilt : (i < length ds)%nat) by (eapply lookup_lt_Some; eauto).
  pose proof (registry_update_rinv ds tk st sy i (VPromise (length (heap st))) Hi Hs Hilt)
    as H1. fold t st1 in H1.
  assert (Htf : ticket_future ds (tk ++ [i]) t = Some p).
  { unfold ticket_future, t. rewrite Ei, lookup_app_len. simpl. rewrite Hd. reflexivity. }
  assert (Hdels : forall t', t' ∈ fn_dels (FDelete s t) ++ fn_dels (FDelete s t) ->
                    ticket_future ds (tk ++ [i]) t' = Some p).
  { simpl. rewrite Nat.eqb_refl. intros t' Ht'.
    apply elem_of_app in Ht' as [Ht'|Ht']; apply list_elem_of_singleton in Ht'; congruence. }
  pose proof (promise_then_step _ _ _ st1 p (Some (FThenFinally (FDelete s t)))
                (Some (FCatchFinally (FDelete s t))) H1 I I Hdels) as [H2 Hm].
  destruct (ri_deferred _ _ _ _ Hi _ _ Hd) as (kf & pr & _ & _ & Hp & _). fold p in Hp.
  assert (Hpres : forall st2, synchs st2 = synchs st1 -> present st2 t = true).
  { intros st2 E2. unfold present. rewrite E2. unfold st1. simpl.
    rewrite list_lookup_insert_eq by auto. simpl. rewrite map_has_set, Nat.eqb_refl.
    reflexivity. }
  apply (rinv_settle_exempt _ _ _ _ H2).
  - intros t' p' -> Ht' (pr' & Hp' & Es'). rewrite <- Ei in Ht' |- *. fold t in Ht' |- *.
    assert (p' = p) by congruence. subst p'.
    rewrite snd_promise_then in Hp' |- *. unfold PerformPromiseThen in Hp' |- *.
    simpl heap in Hp' |- *. rewrite (lookup_app_l_Some _ _ _ _ Hp) in Hp' |- *.
    destruct (p_state pr) eqn:Es.
    + split; [apply Hpres; reflexivity|]. simpl in Hp' |- *.
      rewrite list_lookup_insert_eq in Hp' |- *
        by (rewrite length_app; apply lookup_lt_Some in Hp; lia).
      eexists. split; [reflexivity|]. split; simpl.
      * eexists. split; [apply elem_of_app; right; apply list_elem_of_here|]. reflexivity.
      * eexists. split; [apply elem_of_app; right; apply list_elem_of_here|]. reflexivity.
    + simpl in Hp'. rewrite (lookup_app_l_Some _ _ _ _ Hp) in Hp'. congruence.
    + simpl in Hp'. rewrite (lookup_app_l_Some _ _ _ _ Hp) in Hp'. congruence.
  - intros t' p' -> Ht' (pr' & Hp' & Es'). rewrite <- Ei in Ht' |- *. fold t in Ht' |- *.
    assert (p' = p) by congruence. subst p'.
    rewrite snd_promise_then in Hp' |- *. unfold PerformPromiseThen in Hp' |- *.
    simpl heap in Hp' |- *. rewrite (lookup_app_l_Some _ _ _ _ Hp) in Hp' |- *.
    destruct (p_state pr) eqn:Es.
    + simpl in Hp'.
      rewrite list_lookup_insert_eq in Hp'
        by (rewrite length_app; apply lookup_lt_Some in Hp; lia).
      injection Hp' as <-. simpl in Es'. congruence.
    + eexists. split; [simpl; apply elem_of_app; right; apply list_elem_of_here|].
      eexists _, _, _. split; [reflexivity|]. split; [reflexivity|]. left. reflexivity.
    + eexists. split; [simpl; apply elem_of_app; right; apply list_elem_of_here|].
      eexists _, _, _. split; [reflexivity|]. split; [reflexivity|]. right. reflexivity.
Qed.


(** [synch.allSettled(onsettled)] *)
Lemma agg_push_step E ds tk st a :
  rinv E ds tk st -> step E ds tk st (snd (agg_push a st)).
Proof.
  intros Hi. unfold agg_push, modify. simpl.
  destruct (aggs st !! a) as [g|] eqn:Ha.
  - apply frame_rinv; [exact Hi|].
    apply (agg_frame E ds tk st a g
             (mkAgg (a_values g ++ [VUndef]) (a_called g ++ [false])
                (a_remaining g + 1) (a_cap g)) Hi Ha eq_refl).
  - apply frame_rinv; [exact Hi|]. split; simpl; try frame_auto.
Qed.

Lemma agg_finish_step E ds tk st a :
  rinv E ds tk st -> step E ds tk st (snd (agg_finish a st)).
Proof.
  intros Hi. unfold agg_finish.
  destruct (aggs st !! a) as [g|] eqn:Ha; [|apply step_refl; exact Hi].
  set (g' := mkAgg (a_values g) (a_called g) (a_remaining g - 1) (a_cap g)).
  pose proof (frame_rinv _ _ _ _ _ Hi (agg_frame _ _ _ _ _ _ g' Hi Ha eq_refl)) as S1.
  destruct (a_remaining g - 1 =? 0); [|exact S1]. simpl.
  eapply step_trans; [exact S1|]. apply resolve_fn_step; [apply S1|].
  eapply ok_cell_mono; [apply S1|]. eapply ri_aggs; eauto.
Qed.

Lemma aggregate_loop_step E ds tk (mk : nat -> fn * fn) a items :
  (forall i, fn_dels (fst (mk i)) = [] /\ fn_dels (snd (mk i)) = []) ->
  (forall i st, fn_ok st (futures ds) (fst (mk i)) /\ fn_ok st (futures ds) (snd (mk i))) ->
  forall index st, rinv E ds tk st ->
    step E ds tk st (snd (aggregate_loop mk a items index st)).
Proof.
  intros Hdel Hok. induction items as [|next rest IH]; intros index st Hi; simpl.
  - apply step_refl. exact Hi.
  - rewrite snd_bind. pose proof (agg_push_step _ _ _ _ a Hi) as S1.
    eapply step_trans; [exact S1|].
    rewrite snd_bind. pose proof (PromiseResolve_step _ _ _ _ next (proj1 S1)) as S2.
    eapply step_trans; [exact S2|].
    rewrite snd_bind.
    assert (S3 : step E ds tk (snd (PromiseResolve next (snd (agg_push a st))))
              (snd (promise_then (fst (PromiseResolve next (snd (agg_push a st))))
                      (Some (fst (mk index))) (Some (snd (mk index)))
                      (snd (PromiseResolve next (snd (agg_push a st))))))).
    { apply promise_then_step; [apply S2|apply Hok|apply Hok|].
      simpl. destruct (Hdel index) as [-> ->]. intros t Ht.
      apply elem_of_nil in Ht. contradiction. }
    eapply step_trans; [exact S3|]. apply IH. apply S3.
Qed.

Lemma snd_Promise_allSettled items st :
  snd (Promise_allSettled items st)
  = snd (agg_finish (length (aggs st))
           (snd (aggregate_loop
                   (fun i => (FSettledOk (length (aggs st)) i,
                              FSettledErr (length (aggs st)) i))
                   (length (aggs st)) items 0%nat
                   (snd (new_agg (length (cells st)) (snd (new_promise st))))))).
Proof.
  unfold Promise_allSettled, bind. simpl.
  destruct (aggregate_loop _ _ items 0%nat _) as [u st1]. simpl.
  destruct (agg_finish _ st1). reflexivity.
Qed.

Lemma Promise_allSettled_step E ds tk st items :
  rinv E ds tk st -> step E ds tk st (snd (Promise_allSettled items st)).
Proof.
  intros Hi. rewrite snd_Promise_allSettled.
  pose proof (frame_rinv _ _ _ _ _ Hi (new_promise_frame _ _ _ _ Hi)) as S1.
  assert (S2 : step E ds tk (snd (new_promise st))
            (snd (new_agg (length (cells st)) (snd (new_promise st))))).
  { apply frame_rinv; [apply S1|]. apply (new_agg_frame E ds tk); [apply S1|].
    apply new_promise_cell with (E := E) (tk := tk). exact Hi. }
  pose proof (aggregate_loop_step E ds tk
                (fun i => (FSettledOk (length (aggs st)) i,
                           FSettledErr (length (aggs st)) i))
                (length (aggs st)) items
                (fun i => conj eq_refl eq_refl)
                (fun i st => conj I I) 0%nat _ (proj1 S2)) as S3.
  eapply step_trans; [exact S1|]. eapply step_trans; [exact S2|].
  eapply step_trans; [exact S3|]. apply agg_finish_step. apply S3.
Qed.

Lemma allSettled_rinv ds tk st (cb : option observer) :
  rinv (fun _ => False) ds tk st ->
  rinv (fun _ => False) ds tk
    (snd (PromiseSynch.allSettled s
            (match cb with Some (tag, body) => Some (FUser tag body) | None => None end)
            st)).
Proof.
  intros Hi. unfold PromiseSynch.allSettled.
  match goal with
  | |- context [Promise_allSettled ?items st] =>
      pose proof (Promise_allSettled_step _ _ _ _ items Hi) as S1;
      destruct (Promise_allSettled items st) as [r st1]
  end.
  simpl in S1. destruct cb as [[tag body]|]; [|apply S1].
  eapply proj1. apply promise_then_step with (st := st1); [apply S1|exact I|exact I|].
  simpl. intros t Ht. apply elem_of_nil in Ht. contradiction.
Qed.


(** *** Worlds *)

(** A world is the runtime together with what the caller holds: the
    DeferredPromise objects it created and, for every ticket issued by
    [add], the object that was added. *)
Record world := mkWorld {
  w_state : state;
  w_deferred : list DeferredPromise.t;
  w_tickets : list nat
}.

Inductive action :=
  | NewDeferred                               (* d = new DeferredPromise() *)
  | AddDeferred (i : nat)                     (* synch.add(d_i) *)
  | SettleDeferred (i : nat) (o : pstate)     (* d_i.resolve(v), d_i.reject(e) *)
  | CallAllSettled (cb : option observer)     (* synch.allSettled(cb) *)
  | Turn.                                     (* the oldest job runs *)

Definition act (a : action) (w : world) : world :=
  match a with
  | NewDeferred =>
      let (d, st) := DeferredPromise.constructor (w_state w) in
      mkWorld st (w_deferred w ++ [d]) (w_tickets w)
  | AddDeferred i =>
      match w_deferred w !! i with
      | Some d =>
          mkWorld (snd (PromiseSynch.add s (DeferredPromise.to_val d) (w_state w)))
                  (w_deferred w) (w_tickets w ++ [i])
      | None => w
      end
  | SettleDeferred i o =>
      match w_deferred w !! i, o with
      | Some d, Fulfilled v =>
          mkWorld (snd (call (DeferredPromise.resolve d) v (w_state w)))
                  (w_deferred w) (w_tickets w)
      | Some d, Rejected e =>
          mkWorld (snd (call (DeferredPromise.reject d) e (w_state w)))
                  (w_deferred w) (w_tickets w)
      | _, _ => w
      end
  | CallAllSettled cb =>
      mkWorld (snd (PromiseSynch.allSettled s
                      (match cb with
                       | Some (tag, body) => Some (FUser tag body)
                       | None => None
                       end) (w_state w)))
              (w_deferred w) (w_tickets w)
  | Turn => mkWorld (tick (w_state w)) (w_deferred w) (w_tickets w)
  end.

Definition acts (l : list action) (w : world) : world :=
  foldl (fun w a => act a w) w l.

(** A future is fulfilled with a plain value. *)
Definition allowed (a : action) : Prop :=
  match a with
  | SettleDeferred _ (Fulfilled v) => get_then v = None
  | _ => True
  end.

Definition winv (w : world) : Prop :=
  rinv (fun _ => False) (w_deferred w) (w_tickets w) (w_state w).

Lemma act_winv a w : winv w -> allowed a -> winv (act a w).
Proof.
  unfold winv. intros Hi Ha. destruct a as [|i|i o|cb|]; unfold act.
  - pose proof (constructor_rinv _ _ _ Hi) as H.
    destruct (DeferredPromise.constructor (w_state w)) as [d st]. exact H.
  - destruct (w_deferred w !! i) as [d|] eqn:Hd; [|exact Hi]. simpl.
    apply add_rinv; auto.
  - simpl in Ha. destruct (w_deferred w !! i) as [d|] eqn:Hd; [|exact Hi].
    destruct (ri_deferred _ _ _ _ Hi _ _ Hd) as (kf & pr & E1 & E2 & Hp & Hk).
    destruct o as [|v|e]; [exact Hi| |]; simpl.
    + rewrite E1. simpl. destruct (p_state pr) eqn:Es; simpl in Hk.
      * rewrite (resolve_fn_fulfill _ _ _ _ _ Hk Hp Ha). simpl.
        eapply settle_future_rinv; eauto.
      * rewrite (resolve_fn_dead _ _ _ _ Hk). exact Hi.
      * rewrite (resolve_fn_dead _ _ _ _ Hk). exact Hi.
    + rewrite E2. simpl. destruct (p_state pr) eqn:Es; simpl in Hk.
      * rewrite (reject_fn_reject _ _ _ _ _ Hk Hp). simpl.
        eapply settle_future_rinv; eauto.
      * rewrite (reject_fn_dead _ _ _ _ Hk). exact Hi.
      * rewrite (reject_fn_dead _ _ _ _ Hk). exact Hi.
  - apply allSettled_rinv. exact Hi.
  - apply tick_rinv. exact Hi.
Qed.

Lemma acts_winv l : forall w, winv w -> Forall allowed l -> winv (acts l w).
Proof.
  induction l as [|a l IH]; intros w Hi Hl; simpl; [exact Hi|].
  inversion Hl; subst. apply IH; auto. apply act_winv; auto.
Qed.

End Registry.

(** A registry that has issued no ticket yet, in a runtime whose pending
    work does not concern it. *)
Definition registry_ready (s : nat) (st : state) : Prop :=
  rinv s (fun _ => False) [] [] st.

Lemma registry_ready_new : registry_ready 0 (snd (PromiseSynch.constructor init)).
Proof.
  split; simpl.
  - intros k p b H. discriminate.
  - intros i d H. discriminate.
  - apply NoDup_nil_2.
  - intros t i H. discriminate.
  - intros a g H. discriminate.
  - intros p pr r H. discriminate.
  - intros j H. apply elem_of_nil in H. contradiction.
  - exists (mkSynch 0 []). repeat split. intros t H. discriminate.
  - intros t p H. discriminate.
  - intros t p H. discriminate.
Qed.

Lemma run_add (n m : nat) : forall st, run (n + m) st = run m (run n st).
Proof. induction n as [|n IH]; intros st; simpl; auto. Qed.

(** What holds of a registry [s] in a world [w]:
    - the counter is the number of tickets issued so far, and [add] files
      its entry under that number;
    - every ticket in the registry was issued earlier;
    - every ticket issued belongs to a future, whose ticket is in the
      registry as long as the future is pending;
    - if the future has settled and its ticket is still there, a job that
      removes the ticket is in the queue: the ticket is gone after at most
      [length queue] turns, and stays away;
    - hence, whenever the queue is empty, the tickets in the registry are
      exactly those of the pending futures. *)
Definition registry_facts (s : nat) (w : world) : Prop :=
  s_index <$> synchs (w_state w) !! s = Some (length (w_tickets w))
  /\ (forall i d, w_deferred w !! i = Some d ->
        present s (w_state (act s (AddDeferred i) w)) (length (w_tickets w)) = true)
  /\ (forall t, present s (w_state w) t = true -> (t < length (w_tickets w))%nat)
  /\ (forall t, (t < length (w_tickets w))%nat ->
        exists p, ticket_future (w_deferred w) (w_tickets w) t = Some p
                  /\ (pending_in (w_state w) p \/ settled_in (w_state w) p))
  /\ (forall t p, ticket_future (w_deferred w) (w_tickets w) t = Some p ->
        (pending_in (w_state w) p -> present s (w_state w) t = true)
        /\ (settled_in (w_state w) p -> present s (w_state w) t = true ->
            exists n, (n <= length (queue (w_state w)))%nat
                      /\ forall m, (n <= m)%nat ->
                           present s (run m (w_state w)) t = false)
        /\ (queue (w_state w) = [] ->
            (present s (w_state w) t = true <-> pending_in (w_state w) p))).

Lemma winv_facts (s : nat) (w : world) : winv s w -> registry_facts s w.
Proof.
  unfold winv. intros Hi.
  destruct (ri_registry _ _ _ _ _ Hi) as (sy & Hs & Ei & Hkeys).
  assert (Hslt : (s < length (synchs (w_state w)))%nat) by (eapply lookup_lt_Some; eauto).
  split; [rewrite Hs; simpl; congruence|].
  split.
  { intros i d Hd. simpl. rewrite Hd. simpl.
    unfold DeferredPromise.to_val. rewrite (add_deferred _ _ _ _ Hs).
    match goal with
    | |- context [snd (Normal VUndef, ?x)] => change (snd (Normal VUndef, x)) with x
    end.
    rewrite snd_promise_then. unfold PerformPromiseThen, present.
    destruct (heap _ !! _) as [pr|]; [destruct (p_state pr)|]; simpl;
      rewrite list_lookup_insert_eq by auto; simpl;
      rewrite map_has_set, Ei, Nat.eqb_refl; reflexivity. }
  split.
  { intros t Ht. apply Hkeys. unfold present in Ht. rewrite Hs in Ht. exact Ht. }
  split.
  { intros t Ht. destruct (lookup_lt_is_Some_2 _ _ Ht) as [i Hi'].
    pose proof (ri_tickets _ _ _ _ _ Hi _ _ Hi') as Hlt.
    destruct (lookup_lt_is_Some_2 _ _ Hlt) as [d Hd].
    destruct (ri_deferred _ _ _ _ _ Hi _ _ Hd) as (kf & pr & _ & _ & Hp & _).
    exists (DeferredPromise.promise d). split.
    - unfold ticket_future. rewrite Hi'. simpl. rewrite Hd. reflexivity.
    - destruct (p_state pr) eqn:Es.
      + left. exists pr. auto.
      + right. exists pr. split; auto. congruence.
      + right. exists pr. split; auto. congruence. }
  intros t p Ht.
  assert (Hpend : pending_in (w_state w) p -> present s (w_state w) t = true).
  { intros Hp. destruct (ri_pending _ _ _ _ _ Hi _ _ Ht Hp) as [[A _]|[]]. exact A. }
  assert (Hset : settled_in (w_state w) p -> present s (w_state w) t = true ->
            exists j, j ∈ queue (w_state w) /\ job_evicts s j t).
  { intros Hp Hpr. destruct (ri_settled _ _ _ _ _ Hi _ _ Ht Hp Hpr) as [H|[]]. exact H. }
  split; [exact Hpend|]. split.
  - intros Hp Hpr. destruct (Hset Hp Hpr) as (j & Hj & Hev).
    apply list_elem_of_split in Hj as (before & after & Eq).
    exists (S (length before)). split.
    + rewrite Eq, length_app. simpl. lia.
    + intros m Hm. replace m with (S (length before) + (m - S (length before)))%nat by lia.
      rewrite run_add. eapply run_absent.
      * apply run_rinv. exact Hi.
      * eapply evicted_in_turn; eauto.
  - intros Hq. split; [|exact Hpend].
    intros Hpr. assert (Hin : p ∈ futures (w_deferred w))
      by (eapply ticket_future_elem; eauto).
    destruct (future_in_heap _ _ _ _ _ _ Hi Hin) as [pr Hp].
    destruct (p_state pr) eqn:Es; [exists pr; auto| |].
    + assert (Hs' : settled_in (w_state w) p) by (exists pr; split; [auto|congruence]).
      destruct (Hset Hs' Hpr) as (j & Hj & _). rewrite Hq in Hj.
      apply elem_of_nil in Hj. contradiction.
    + assert (Hs' : settled_in (w_state w) p) by (exists pr; split; [auto|congruence]).
      destruct (Hset Hs' Hpr) as (j & Hj & _). rewrite Hq in Hj.
      apply elem_of_nil in Hj. contradiction.
Qed.

(** C4, as amended.  A registry is followed from the moment it has issued
    no ticket, through any sequence of the caller's moves (creating a
    DeferredPromise, adding one to the registry, settling one, calling
    [allSettled], letting the oldest job run).  At every point the facts
    of [registry_facts] hold: the counter is the number of [add] calls made
    and is the ticket of the next one, no ticket of the Map is at or above
    it, the ticket of a pending future is in the Map, the ticket of a
    settled future is either gone or about to be removed by a job in the
    queue (which runs within [length queue] turns), and whenever the queue
    is empty a ticket is in the Map exactly when its future is pending. *)
Theorem PromiseSynch_registry_invariant (s : nat) (st0 : state) (l : list action) :
  registry_ready s st0 -> Forall allowed l ->
  registry_facts s (acts s l (mkWorld st0 [] [])).
Proof.
  intros H0 Hl. apply winv_facts. apply acts_winv; auto.
Qed.

Lemma PromiseSynch_registry_invariant_witness :
  let st0 := snd (PromiseSynch.constructor init) in
  let l := [NewDeferred; NewDeferred; AddDeferred 0; AddDeferred 1;
            SettleDeferred 0 (Fulfilled (VStr "a")); Turn]%nat in
  registry_ready 0 st0 /\ Forall allowed l
  /\ registry_facts 0 (acts 0 l (mkWorld st0 [] [])).
Proof.
  split; [apply registry_ready_new|].
  split; [repeat constructor|].
  apply PromiseSynch_registry_invariant; [apply registry_ready_new|repeat constructor].
Defined.

(** The example of the spec: after [add(f1)], [add(f2)] and the settlement
    of [f1], the job that [f1]'s settlement scheduled removes ticket 0, and
    the ticket of [f2] is the only one left; a third [add] gets ticket 2. *)
Example PromiseSynch_registry_example :
  let w0 := mkWorld (snd (PromiseSynch.constructor init)) [] [] in
  let w := acts 0 [NewDeferred; NewDeferred; AddDeferred 0; AddDeferred 1;
                   SettleDeferred 0 (Fulfilled (VStr "a")); Turn]%nat w0 in
  (s_promises <$> synchs (w_state w) !! 0%nat) = Some [(1%nat, VPromise 3)]
  /\ (s_index <$> synchs (w_state w) !! 0%nat) = Some 2%nat
  /\ ((fun sy => fst <$> s_promises sy)
        <$> synchs (w_state (acts 0 [NewDeferred; AddDeferred 2]%nat w)) !! 0%nat)
     = Some [1; 2]%nat.
Proof. vm_compute. repeat split; reflexivity. Qed.

(** C4 as the spec words it fails between the settlement of a future and
    the turn of the job that removes its ticket.  Right after
    [d.resolve("done")] the future is fulfilled and ticket 0 is still in the
    Map; [allSettled()] called at that point reports the entry, while
    [allSettled()] called one turn later reports none. *)
Lemma PromiseSynch_registry_counterexample :
  let w0 := mkWorld (snd (PromiseSynch.constructor init)) [] [] in
  let w := acts 0 [NewDeferred; AddDeferred 0;
                   SettleDeferred 0 (Fulfilled (VStr "done"))]%nat w0 in
  let (r, st1) := PromiseSynch.allSettled 0 None (w_state w) in
  let (r', st2) := PromiseSynch.allSettled 0 None (tick (w_state w)) in
  ticket_future (w_deferred w) (w_tickets w) 0 = Some 0%nat
  /\ state_of (w_state w) 0 = Some (Fulfilled (VStr "done"))
  /\ present 0 (w_state w) 0 = true
  /\ present 0 (tick (w_state w)) 0 = false
  /\ state_of (run 6 st1) r = Some (Fulfilled (VArr [VSettled "fulfilled" (VStr "done")]))
  /\ state_of (run 6 st2) r' = Some (Fulfilled (VArr [])).
Proof. vm_compute. repeat split; reflexivity. Qed.

(** * allSettled on a registry *)

(** ** The jobs of a [finally] chain, one turn each *)


Definition plain (o : pstate) : Prop :=
  match o with
  | Pending => False
  | Fulfilled v => get_then v = None
  | Rejected _ => True
  end.

Definition outcome_arg (o : pstate) : val :=
  match o with Fulfilled v => v | Rejected e => e | Pending => VUndef end.

Definition outcome_type (o : pstate) : rtype :=
  match o with Rejected _ => Reject | _ => Fulfill end.

(** The reaction that [p.finally(f)] makes run when [p] settles as [o]. *)
Definition finally_handler (o : pstate) (f : fn) : fn :=
  match o with Rejected _ => FCatchFinally f | _ => FThenFinally f end.

(** The function [finally] passes to [then] to restore the outcome. *)
Definition restore (o : pstate) : fn :=
  match o with Rejected e => FThrower e | _ => FValueThunk (outcome_arg o) end.


Lemma lookup_fresh {A : Type} (l l2 : list A) (i j : nat) :
  i = (length l + j)%nat -> (l ++ l2) !! i = l2 !! j.
Proof. intros ->. apply lookup_app_add. Qed.

Ltac len := repeat (rewrite length_app || rewrite length_insert); cbn [length].

(** Positions are compared by [congruence] when the context says so and by
    [lia] on the bounds otherwise. *)
Ltac few_apart :=
  match goal with
  | _ : _ <> _, _ : _ <> _, _ : _ <> _, _ : _ <> _, _ : _ <> _, _ : _ <> _ |- _ => fail 1
  | _ => idtac
  end.

Ltac apart :=
  first [ assumption | congruence
        | few_apart; lia
        | repeat match goal with H : _ <> _ |- _ => clear H end; lia ].

Ltac lk :=
  cbn;
  repeat first
    [ rewrite list_lookup_insert_ne by apart
    | rewrite list_lookup_insert_eq by (len; apart)
    | rewrite lookup_app_l by (len; apart)
    | rewrite (lookup_fresh _ _ _ 0) by (len; apart)
    | rewrite (lookup_fresh _ _ _ 1) by (len; apart)
    | rewrite (lookup_fresh _ _ _ 2) by (len; apart)
    | rewrite (lookup_fresh _ _ _ 3) by (len; apart) ];
  cbn; try eassumption; try reflexivity.

(** [then] on a promise, by its state. *)
Lemma then_pending hp cl ag q lg sy p frs rrs h1 h2 :
  hp !! p = Some (mkPromise Pending frs rrs) ->
  promise_then p h1 h2 (mkState hp cl ag q lg sy)
  = (length hp,
     mkState (<[p := mkPromise Pending (frs ++ [mkReaction (length cl) Fulfill h1])
                       (rrs ++ [mkReaction (length cl) Reject h2])]>
                (hp ++ [bare Pending]))
             (cl ++ [(length hp, false)]) ag q lg sy).
Proof.
  intros Hp. unfold promise_then, bind, PerformPromiseThen. cbn.
  rewrite (lookup_app_l_Some _ _ _ _ Hp). reflexivity.
Qed.

Lemma then_settled hp cl ag q lg sy p o h1 h2 :
  hp !! p = Some (bare o) -> o <> Pending ->
  promise_then p h1 h2 (mkState hp cl ag q lg sy)
  = (length hp,
     mkState (hp ++ [bare Pending]) (cl ++ [(length hp, false)]) ag
             (q ++ [ReactionJob
                      (mkReaction (length cl) (outcome_type o)
                         (match o with Rejected _ => h2 | _ => h1 end))
                      (outcome_arg o)])
             lg sy).
Proof.
  intros Hp Ho. unfold promise_then, bind, PerformPromiseThen. cbn.
  rewrite (lookup_app_l_Some _ _ _ _ Hp). destruct o; [congruence| |]; reflexivity.
Qed.

(** Settling through a cell. *)
Lemma settle_cell hp cl ag q lg sy k p frs rrs o :
  cl !! k = Some (p, false) -> hp !! p = Some (mkPromise Pending frs rrs) -> plain o ->
  match o with
  | Rejected e => reject_fn k e
  | _ => resolve_fn k (outcome_arg o)
  end (mkState hp cl ag q lg sy)
  = (Normal VUndef,
     mkState (<[p := bare o]> hp) (<[k := (p, true)]> cl) ag
             (q ++ ((fun r => ReactionJob r (outcome_arg o))
                      <$> match o with Rejected _ => rrs | _ => frs end))
             lg sy).
Proof.
  intros Hk Hp Ho. destruct o as [|v|e]; [destruct Ho| |];
    cbv beta iota delta [outcome_arg].
  - rewrite (resolve_fn_fulfill k p v _ (mkState hp cl ag q lg sy) Hk Hp Ho). reflexivity.
  - rewrite (reject_fn_reject k p e _ (mkState hp cl ag q lg sy) Hk Hp). reflexivity.
Qed.

Lemma resolve_with_promise hp cl ag q lg sy k p d :
  cl !! k = Some (p, false) -> d <> p ->
  resolve_fn k (VPromise d) (mkState hp cl ag q lg sy)
  = (Normal VUndef,
     mkState hp (<[k := (p, true)]> cl) ag (q ++ [ThenableJob p (VPromise d)]) lg sy).
Proof.
  intros Hk Hd. unfold resolve_fn. cbn. rewrite Hk.
  destruct (Nat.eqb d p) eqn:E; [apply Nat.eqb_eq in E; congruence|]. reflexivity.
Qed.

(** First job of the chain: the callback of [add] deletes the ticket, then
    [finally] waits for the promise of its result before it passes the
    outcome on. *)
Lemma eviction_turn hp cl ag q lg sy (s t KD D : nat) (o : pstate) idx mp :
  plain o ->
  cl !! KD = Some (D, false) -> (D < length hp)%nat ->
  sy !! s = Some (mkSynch idx mp) ->
  tick (mkState hp cl ag
          (ReactionJob (mkReaction KD (outcome_type o)
                          (Some (finally_handler o (FDelete s t))))
             (outcome_arg o) :: q) lg sy)
  = mkState (<[length hp := bare (Fulfilled (VBool (map_has t mp)))]>
               (hp ++ [bare Pending]) ++ [bare Pending])
            (<[KD := (D, true)]>
               (<[length cl := (length hp, true)]> (cl ++ [(length hp, false)])
                  ++ [((length hp + 1)%nat, false)]))
            ag
            ((q ++ [ReactionJob (mkReaction (length cl + 1) Fulfill (Some (restore o)))
                     (VBool (map_has t mp))])
               ++ [ThenableJob D (VPromise (length hp + 1))])
            lg (<[s := mkSynch idx (map_delete t mp)]> sy).
Proof.
  intros Hpl HKD HD Hs. pose proof (lookup_lt_Some _ _ _ HKD) as HKDlt.
  assert (Hcall : forall thunk,
    (do result <- delete_fn s t;
     match result with
     | Normal r =>
         do p <- PromiseResolve r;
         do d <- promise_then p (Some thunk) None;
         ret (Normal (VPromise d))
     | Throw e => ret (Throw e)
     end) (mkState hp cl ag q lg sy)
    = (Normal (VPromise (length hp + 1)),
       mkState (<[length hp := bare (Fulfilled (VBool (map_has t mp)))]>
                  (hp ++ [bare Pending]) ++ [bare Pending])
         (<[length cl := (length hp, true)]> (cl ++ [(length hp, false)])
            ++ [((length hp + 1)%nat, false)]) ag
         (q ++ [ReactionJob (mkReaction (length cl + 1) Fulfill (Some thunk))
                  (VBool (map_has t mp))])
         lg (<[s := mkSynch idx (map_delete t mp)]> sy))).
  { intros thunk. unfold bind at 1. unfold delete_fn. cbn [synchs]. rewrite Hs.
    cbn [set_synchs heap cells aggs queue log synchs s_index s_promises].
    unfold bind at 1. unfold PromiseResolve, bind at 1.
    unfold new_promise. cbn [set_heap set_cells heap cells aggs queue log synchs].
    unfold bind at 1.
    rewrite (resolve_fn_fulfill (length cl) (length hp) (VBool (map_has t mp))
               (bare Pending)) by (lk || reflexivity).
    cbn [ret heap cells aggs queue log synchs p_fulfillReactions bare fmap list_fmap].
    rewrite app_nil_r.
    unfold bind at 1.
    rewrite (then_settled _ _ _ _ _ _ (length hp) (Fulfilled (VBool (map_has t mp))))
      by (lk || discriminate).
    cbn [outcome_type outcome_arg]. len. unfold ret. reflexivity. }
  unfold tick. cbn [queue]. unfold run_job. cbn [r_handler r_cap set_queue
    heap cells aggs queue log synchs].
  unfold bind at 1.
  destruct o as [|v|e]; [destruct Hpl| |]; cbn [finally_handler call outcome_arg restore] in *;
    rewrite Hcall; unfold bind;
    rewrite resolve_with_promise with (p := D) by (lk || lia); reflexivity.
Qed.

(** Second job: the outcome is restored on the promise [finally] made. *)
Lemma restore_turn hp cl ag q lg sy (K3 P3 : nat) (o : pstate) (x : val) :
  plain o ->
  cl !! K3 = Some (P3, false) -> hp !! P3 = Some (bare Pending) ->
  tick (mkState hp cl ag
          (ReactionJob (mkReaction K3 Fulfill (Some (restore o))) x :: q) lg sy)
  = mkState (<[P3 := bare o]> hp) (<[K3 := (P3, true)]> cl) ag q lg sy.
Proof.
  intros Hpl HK HP. unfold tick. cbn [queue]. unfold run_job.
  cbn [r_handler r_cap set_queue heap cells aggs queue log synchs].
  pose proof (settle_cell hp cl ag q lg sy K3 P3 [] [] o HK HP Hpl) as Hs.
  destruct o as [|v|e]; [destruct Hpl| |]; cbn [restore call outcome_arg] in *;
    unfold bind, ret; rewrite Hs; cbn; rewrite app_nil_r; reflexivity.
Qed.

(** The record an outcome leaves in the result of [allSettled]. *)
Definition record (o : pstate) : val :=
  match o with
  | Rejected e => VSettled "rejected" e
  | _ => VSettled "fulfilled" (outcome_arg o)
  end.

Definition settle_with (o : pstate) (k : nat) : fn :=
  match o with Rejected _ => FReject k | _ => FResolve k end.

Definition element_with (o : pstate) (a i : nat) : fn :=
  match o with Rejected _ => FSettledErr a i | _ => FSettledOk a i end.

(** Third job: the promise stored in the registry was resolved with the
    promise [finally] made, and now calls its [then]. *)
Lemma thenable_turn hp cl ag q lg sy (D P3 : nat) (o : pstate) :
  o <> Pending -> hp !! P3 = Some (bare o) ->
  tick (mkState hp cl ag (ThenableJob D (VPromise P3) :: q) lg sy)
  = mkState (hp ++ [bare Pending])
            ((cl ++ [(D, false)]) ++ [(length hp, false)]) ag
            (q ++ [ReactionJob
                     (mkReaction (length cl + 1) (outcome_type o)
                        (Some (settle_with o (length cl))))
                     (outcome_arg o)])
            lg sy.
Proof.
  intros Ho HP. unfold tick. cbn [queue]. unfold run_job, bind, new_cell.
  cbn [get_then set_queue set_cells heap cells aggs queue log synchs].
  rewrite (then_settled _ _ _ _ _ _ P3 o) by (exact HP || exact Ho).
  len. destruct o; [congruence| |]; reflexivity.
Qed.

(** Fourth job: the stored promise takes the outcome. *)
Lemma adopt_turn hp cl ag q lg sy (K4 K5 D P5 : nat) (o : pstate) frs rrs :
  plain o ->
  cl !! K4 = Some (D, false) -> hp !! D = Some (mkPromise Pending frs rrs) ->
  cl !! K5 = Some (P5, false) -> hp !! P5 = Some (bare Pending) ->
  P5 <> D -> K5 <> K4 ->
  tick (mkState hp cl ag
          (ReactionJob (mkReaction K5 (outcome_type o) (Some (settle_with o K4)))
             (outcome_arg o) :: q) lg sy)
  = mkState (<[P5 := bare (Fulfilled VUndef)]> (<[D := bare o]> hp))
            (<[K5 := (P5, true)]> (<[K4 := (D, true)]> cl)) ag
            (q ++ ((fun r => ReactionJob r (outcome_arg o))
                     <$> match o with Rejected _ => rrs | _ => frs end))
            lg sy.
Proof.
  intros Hpl HK4 HD HK5 HP5 Hne Hne'.
  pose proof (lookup_lt_Some _ _ _ HK4). pose proof (lookup_lt_Some _ _ _ HK5).
  pose proof (lookup_lt_Some _ _ _ HD). pose proof (lookup_lt_Some _ _ _ HP5).
  unfold tick. cbn [queue]. unfold run_job.
  cbn [r_handler r_cap set_queue heap cells aggs queue log synchs].
  pose proof (settle_cell hp cl ag q lg sy K4 D frs rrs o HK4 HD Hpl) as Hs.
  destruct o as [|v|e]; [destruct Hpl| |]; cbn [settle_with call outcome_arg] in *;
    unfold bind, ret; rewrite Hs;
    rewrite (resolve_fn_fulfill K5 P5 VUndef (bare Pending)) by (lk || reflexivity);
    cbn; rewrite app_nil_r; reflexivity.
Qed.

(** Fifth job: the element function of [allSettled] files the record; the
    last one to do so resolves the result. *)
Lemma element_turn hp cl ag q lg sy (KE E a i : nat) (o : pstate) g :
  plain o ->
  ag !! a = Some g -> a_called g !! i = Some false ->
  cl !! KE = Some (E, false) -> hp !! E = Some (bare Pending) ->
  a_remaining g - 1 <> 0 ->
  tick (mkState hp cl ag
          (ReactionJob (mkReaction KE (outcome_type o) (Some (element_with o a i)))
             (outcome_arg o) :: q) lg sy)
  = mkState (<[E := bare (Fulfilled VUndef)]> hp) (<[KE := (E, true)]> cl)
            (<[a := mkAgg (<[i := record o]> (a_values g)) (<[i := true]> (a_called g))
                      (a_remaining g - 1) (a_cap g)]> ag)
            q lg sy.
Proof.
  intros Hpl Ha Hc HKE HE Hrem.
  unfold tick. cbn [queue]. unfold run_job.
  cbn [r_handler r_cap set_queue heap cells aggs queue log synchs].
  apply Z.eqb_neq in Hrem.
  destruct o as [|v|e]; [destruct Hpl| |]; cbn [element_with call outcome_arg record] in *;
    unfold bind, ret, element_fn; cbn [aggs]; rewrite Ha, Hc, Hrem;
    cbn [set_aggs heap cells aggs queue log synchs];
    rewrite (resolve_fn_fulfill KE E VUndef (bare Pending)) by (lk || reflexivity);
    cbn; rewrite app_nil_r; reflexivity.
Qed.

Lemma element_turn_last hp cl ag q lg sy (KE E a i r : nat) (o : pstate) g rf rr :
  plain o ->
  ag !! a = Some g -> a_called g !! i = Some false ->
  cl !! KE = Some (E, false) -> hp !! E = Some (bare Pending) ->
  a_remaining g - 1 = 0 ->
  cl !! a_cap g = Some (r, false) -> hp !! r = Some (mkPromise Pending rf rr) ->
  r <> E -> a_cap g <> KE ->
  tick (mkState hp cl ag
          (ReactionJob (mkReaction KE (outcome_type o) (Some (element_with o a i)))
             (outcome_arg o) :: q) lg sy)
  = mkState (<[E := bare (Fulfilled VUndef)]>
               (<[r := bare (Fulfilled (VArr (<[i := record o]> (a_values g))))]> hp))
            (<[KE := (E, true)]> (<[a_cap g := (r, true)]> cl))
            (<[a := mkAgg (<[i := record o]> (a_values g)) (<[i := true]> (a_called g))
                      (a_remaining g - 1) (a_cap g)]> ag)
            (q ++ ((fun x => ReactionJob x (VArr (<[i := record o]> (a_values g)))) <$> rf))
            lg sy.
Proof.
  intros Hpl Ha Hc HKE HE Hrem Hk Hr Hne Hne'.
  pose proof (lookup_lt_Some _ _ _ HKE). pose proof (lookup_lt_Some _ _ _ HE).
  pose proof (lookup_lt_Some _ _ _ Hk). pose proof (lookup_lt_Some _ _ _ Hr).
  unfold tick. cbn [queue]. unfold run_job.
  cbn [r_handler r_cap set_queue heap cells aggs queue log synchs].
  apply Z.eqb_eq in Hrem.
  destruct o as [|v|e]; [destruct Hpl| |]; cbn [element_with call outcome_arg record] in *;
    unfold bind, ret, element_fn; cbn [aggs]; rewrite Ha, Hc, Hrem;
    cbn [set_aggs heap cells aggs queue log synchs a_cap a_values];
    rewrite (resolve_fn_fulfill (a_cap g) r (VArr _) (mkPromise Pending rf rr))
      by (lk || reflexivity);
    cbn [p_fulfillReactions];
    rewrite (resolve_fn_fulfill KE E VUndef (bare Pending)) by (lk || reflexivity);
    cbn; rewrite app_nil_r; reflexivity.
Qed.

(** ** A settlement and the five turns it causes *)

Section Chain.
Variables (hp : list promise) (cl : list (nat * bool)) (ag : list agg)
  (lg : list (nat * val)) (sy : list synch).
Variables (f kf D KD E KE a i s t idx : nat) (mp : list (nat * val)) (g : agg)
  (o : pstate).
Hypothesis Hpl : plain o.
Hypothesis Hkf : cl !! kf = Some (f, false).
Hypothesis Hf :
  hp !! f = Some (mkPromise Pending
                    [mkReaction KD Fulfill (Some (FThenFinally (FDelete s t)))]
                    [mkReaction KD Reject (Some (FCatchFinally (FDelete s t)))]).
Hypothesis HKD : cl !! KD = Some (D, false).
Hypothesis HD :
  hp !! D = Some (mkPromise Pending
                    [mkReaction KE Fulfill (Some (FSettledOk a i))]
                    [mkReaction KE Reject (Some (FSettledErr a i))]).
Hypothesis HKE : cl !! KE = Some (E, false).
Hypothesis HE : hp !! E = Some (bare Pending).
Hypothesis Ha : ag !! a = Some g.
Hypothesis Hc : a_called g !! i = Some false.
Hypothesis Hs : sy !! s = Some (mkSynch idx mp).
Hypothesis Nh : f <> D /\ f <> E /\ D <> E.
Hypothesis Nc : kf <> KD /\ kf <> KE /\ KD <> KE.

(** The future [f] is settled through its own function. *)
Definition settled_state : state :=
  snd (match o with
       | Rejected e => reject_fn kf e
       | _ => resolve_fn kf (outcome_arg o)
       end (mkState hp cl ag [] lg sy)).

Definition filed : agg :=
  mkAgg (<[i := record o]> (a_values g)) (<[i := true]> (a_called g))
        (a_remaining g - 1) (a_cap g).

Lemma chain_four :
  run 4 settled_state
  = mkState
      (<[(length hp + 1 + 1)%nat := bare (Fulfilled VUndef)]>
         (<[D := bare o]>
            (<[(length hp + 1)%nat := bare o]>
               (<[length hp := bare (Fulfilled (VBool (map_has t mp)))]>
                  (<[f := bare o]> hp ++ [bare Pending]) ++ [bare Pending])
             ++ [bare Pending])))
      (<[(length cl + 1 + 1 + 1)%nat := ((length hp + 1 + 1)%nat, true)]>
         (<[(length cl + 1 + 1)%nat := (D, true)]>
            ((<[(length cl + 1)%nat := ((length hp + 1)%nat, true)]>
                (<[KD := (D, true)]>
                   (<[length cl := (length hp, true)]>
                      (<[kf := (f, true)]> cl ++ [(length hp, false)])
                    ++ [((length hp + 1)%nat, false)]))
              ++ [(D, false)])
             ++ [((length hp + 1 + 1)%nat, false)])))
      ag
      [ReactionJob (mkReaction KE (outcome_type o) (Some (element_with o a i)))
         (outcome_arg o)]
      lg (<[s := mkSynch idx (map_delete t mp)]> sy).
Proof.
  destruct Nh as (N1 & N2 & N3). destruct Nc as (N4 & N5 & N6).
  pose proof (lookup_lt_Some _ _ _ Hkf). pose proof (lookup_lt_Some _ _ _ Hf).
  pose proof (lookup_lt_Some _ _ _ HKD). pose proof (lookup_lt_Some _ _ _ HD).
  pose proof (lookup_lt_Some _ _ _ HKE). pose proof (lookup_lt_Some _ _ _ HE).
  unfold settled_state.
  rewrite (settle_cell _ _ _ _ _ _ kf f _ _ o Hkf Hf Hpl).
  cbn [snd app].
  assert (Ejob : (fun r => ReactionJob r (outcome_arg o)) <$>
            match o with
            | Rejected _ => [mkReaction KD Reject (Some (FCatchFinally (FDelete s t)))]
            | _ => [mkReaction KD Fulfill (Some (FThenFinally (FDelete s t)))]
            end
          = [ReactionJob (mkReaction KD (outcome_type o)
                            (Some (finally_handler o (FDelete s t)))) (outcome_arg o)]).
  { destruct o; reflexivity. }
  rewrite Ejob.
  change (run 4 ?x) with (run 3 (tick x)).
  rewrite (eviction_turn _ _ _ _ _ _ s t KD D o idx mp) by (lk || (len; lia)).
  len. cbn [app].
  change (run 3 ?x) with (run 2 (tick x)).
  rewrite (restore_turn _ _ _ _ _ _ (length cl + 1) (length hp + 1) o) by (len; lk).
  change (run 2 ?x) with (run 1 (tick x)).
  rewrite (thenable_turn _ _ _ _ _ _ D (length hp + 1) o)
    by (lk || (destruct o; [destruct Hpl|discriminate|discriminate])).
  len. cbn [app].
  change (run 1 ?x) with (tick x).
  rewrite (adopt_turn _ _ _ _ _ _ (length cl + 1 + 1) (length cl + 1 + 1 + 1) D
             (length hp + 1 + 1) o
             [mkReaction KE Fulfill (Some (FSettledOk a i))]
             [mkReaction KE Reject (Some (FSettledErr a i))])
    by (first [exact Hpl | lia | lk]).
  cbn [app]. destruct o; reflexivity.
Qed.

(** What the settlement of [f] has changed once its jobs have run, when
    other entries of the aggregate are still missing. *)
Lemma chain_turns :
  a_remaining g - 1 <> 0 ->
  let st' := run 5 settled_state in
  length (heap st') = (length hp + 3)%nat
  /\ length (cells st') = (length cl + 4)%nat
  /\ (forall p, (p < length hp)%nat -> p <> f -> p <> D -> p <> E ->
        heap st' !! p = hp !! p)
  /\ (forall k, (k < length cl)%nat -> k <> kf -> k <> KD -> k <> KE ->
        cells st' !! k = cl !! k)
  /\ heap st' !! f = Some (bare o) /\ heap st' !! D = Some (bare o)
  /\ aggs st' = <[a := filed]> ag
  /\ queue st' = [] /\ log st' = lg
  /\ synchs st' = <[s := mkSynch idx (map_delete t mp)]> sy.
Proof.
  intros Hrem. destruct Nh as (N1 & N2 & N3). destruct Nc as (N4 & N5 & N6).
  pose proof (lookup_lt_Some _ _ _ Hkf). pose proof (lookup_lt_Some _ _ _ Hf).
  pose proof (lookup_lt_Some _ _ _ HKD). pose proof (lookup_lt_Some _ _ _ HD).
  pose proof (lookup_lt_Some _ _ _ HKE). pose proof (lookup_lt_Some _ _ _ HE).
  change (run 5 settled_state) with (tick (run 4 settled_state)).
  rewrite chain_four.
  rewrite (element_turn _ _ _ _ _ _ KE E a i o g) by (first [exact Hpl | assumption | lk]).
  cbn [heap cells aggs queue log synchs].
  repeat split.
  - len. lia.
  - len. lia.
  - intros p Hp Hp1 Hp2 Hp3. lk.
  - intros k Hk Hk1 Hk2 Hk3. lk.
  - lk.
  - lk.
Qed.

(** The same for the last entry of the aggregate: the result [r] is
    fulfilled with the records. *)
Lemma chain_turns_last (r : nat) (rf rr : list reaction) :
  a_remaining g - 1 = 0 ->
  cl !! a_cap g = Some (r, false) -> hp !! r = Some (mkPromise Pending rf rr) ->
  r <> f /\ r <> D /\ r <> E -> a_cap g <> kf /\ a_cap g <> KD /\ a_cap g <> KE ->
  let st' := run 5 settled_state in
  length (heap st') = (length hp + 3)%nat
  /\ length (cells st') = (length cl + 4)%nat
  /\ (forall p, (p < length hp)%nat -> p <> f -> p <> D -> p <> E -> p <> r ->
        heap st' !! p = hp !! p)
  /\ (forall k, (k < length cl)%nat -> k <> kf -> k <> KD -> k <> KE -> k <> a_cap g ->
        cells st' !! k = cl !! k)
  /\ heap st' !! f = Some (bare o) /\ heap st' !! D = Some (bare o)
  /\ heap st' !! r = Some (bare (Fulfilled (VArr (a_values filed))))
  /\ aggs st' = <[a := filed]> ag
  /\ queue st' = (fun x => ReactionJob x (VArr (a_values filed))) <$> rf
  /\ log st' = lg
  /\ synchs st' = <[s := mkSynch idx (map_delete t mp)]> sy.
Proof.
  intros Hrem Hk Hr (M1 & M2 & M3) (M4 & M5 & M6).
  destruct Nh as (N1 & N2 & N3). destruct Nc as (N4 & N5 & N6).
  pose proof (lookup_lt_Some _ _ _ Hkf). pose proof (lookup_lt_Some _ _ _ Hf).
  pose proof (lookup_lt_Some _ _ _ HKD). pose proof (lookup_lt_Some _ _ _ HD).
  pose proof (lookup_lt_Some _ _ _ HKE). pose proof (lookup_lt_Some _ _ _ HE).
  pose proof (lookup_lt_Some _ _ _ Hk). pose proof (lookup_lt_Some _ _ _ Hr).
  change (run 5 settled_state) with (tick (run 4 settled_state)).
  rewrite chain_four.
  rewrite (element_turn_last _ _ _ _ _ _ KE E a i r o g rf rr)
    by (first [exact Hpl | assumption | lia | lk]).
  cbn [heap cells aggs queue log synchs app].
  repeat split.
  - len. lia.
  - len. lia.
  - intros p Hp Hp1 Hp2 Hp3 Hp4. lk.
  - intros k Hk' Hk1 Hk2 Hk3 Hk4. lk.
  - lk.
  - lk.
  - lk.
Qed.

End Chain.

(** ** Futures enrolled in a registry *)

(** [d = new DeferredPromise(); synch.add(d)], for the [n] objects numbered
    from [from]. *)
Definition enroll (from n : nat) : list action :=
  flat_map (fun t => [NewDeferred; AddDeferred t]) (seq from n).

Lemma enroll_snoc from n :
  enroll from (S n) = enroll from n ++ [NewDeferred; AddDeferred (from + n)].
Proof.
  unfold enroll. rewrite seq_S, flat_map_app. cbn. reflexivity.
Qed.

Lemma acts_app s l1 l2 w : acts s (l1 ++ l2) w = acts s l2 (acts s l1 w).
Proof. unfold acts. apply foldl_app. Qed.

Lemma map_set_fresh t v m :
  map_has t m = false -> map_set t v m = m ++ [(t, v)].
Proof.
  induction m as [|[k w] m IH]; cbn; [reflexivity|].
  destruct (Nat.eqb k t); cbn; [discriminate|]. intros H. rewrite IH; auto.
Qed.

(** One more future: what [new DeferredPromise()] and [add] change. *)
Lemma enroll_one s hp cl ag q lg sy ds tk idx mp :
  sy !! s = Some (mkSynch idx mp) -> map_has idx mp = false ->
  acts s [NewDeferred; AddDeferred (length ds)] (mkWorld (mkState hp cl ag q lg sy) ds tk)
  = mkWorld
      (mkState
         (<[length hp := mkPromise Pending
              [mkReaction (length cl + 1) Fulfill (Some (FThenFinally (FDelete s idx)))]
              [mkReaction (length cl + 1) Reject (Some (FCatchFinally (FDelete s idx)))]]>
            ((hp ++ [bare Pending]) ++ [bare Pending]))
         ((cl ++ [(length hp, false)]) ++ [((length hp + 1)%nat, false)])
         ag q lg
         (<[s := mkSynch (S idx) (mp ++ [(idx, VPromise (length hp + 1))])]> sy))
      (ds ++ [DeferredPromise.mk (length hp) (FResolve (length cl)) (FReject (length cl))
                (DeferredPromise.bind_ DeferredPromise.PromiseThen (length hp))
                (DeferredPromise.bind_ DeferredPromise.PromiseCatch (length hp))
                (DeferredPromise.bind_ DeferredPromise.PromiseFinally (length hp))
                "Promise"])
      (tk ++ [length ds]).
Proof.
  intros Hs Hfresh. unfold acts. cbn [foldl act w_state w_deferred w_tickets].
  unfold DeferredPromise.constructor, bind, new_promise, ret.
  cbn [set_heap set_cells heap cells aggs queue log synchs w_state w_deferred w_tickets].
  rewrite lookup_app_len. cbn [lookup list_lookup].
  unfold DeferredPromise.to_val. cbn [DeferredPromise.promise].
  rewrite (add_deferred s _ (mkSynch idx mp)) by exact Hs.
  cbn [snd set_synchs heap cells aggs queue log synchs s_index s_promises].
  rewrite (then_pending _ _ _ _ _ _ (length hp) [] []) by lk.
  cbn [snd app]. len. rewrite (map_set_fresh _ _ _ Hfresh).
  replace (length hp + 1)%nat with (S (length hp)) by lia.
  reflexivity.
Qed.

(** ** The objects of a call of allSettled *)

(** A registry [s] receives [m] futures, created one after the other in a
    runtime whose heap, cells and aggregates have sizes [H], [C] and [G];
    [allSettled] is called then.  The positions of all objects follow. *)
Section Scene.
Variables (s m H C G : nat) (cb : option observer) (lg0 : list (nat * val)).

Definition fut (t : nat) : nat := (H + 2 * t)%nat.       (* the future of ticket t *)
Definition fcell (t : nat) : nat := (C + 2 * t)%nat.
Definition sto (t : nat) : nat := (H + 2 * t + 1)%nat.   (* the promise stored for it *)
Definition scell (t : nat) : nat := (C + 2 * t + 1)%nat.
Definition res : nat := (H + 2 * m)%nat.                 (* the result of Promise.allSettled *)
Definition rcell : nat := (C + 2 * m)%nat.
Definition elt (t : nat) : nat := (H + 2 * m + 1 + t)%nat. (* derived by its [then] on entry t *)
Definition ecell (t : nat) : nat := (C + 2 * m + 1 + t)%nat.
Definition out : nat := (H + 3 * m + 1)%nat.             (* derived by [then(onsettled)] *)
Definition ocell : nat := (C + 3 * m + 1)%nat.

Definition evict_reactions (t : nat) : list reaction * list reaction :=
  ([mkReaction (scell t) Fulfill (Some (FThenFinally (FDelete s t)))],
   [mkReaction (scell t) Reject (Some (FCatchFinally (FDelete s t)))]).

Definition watch_reactions (t : nat) : list reaction * list reaction :=
  ([mkReaction (ecell t) Fulfill (Some (FSettledOk G t))],
   [mkReaction (ecell t) Reject (Some (FSettledErr G t))]).

(** Ticket [t] with its future pending; [watched] tells whether
    [allSettled] has attached its element functions. *)
Definition armed (st : state) (t : nat) (watched : bool) : Prop :=
  cells st !! fcell t = Some (fut t, false)
  /\ heap st !! fut t
     = Some (mkPromise Pending (fst (evict_reactions t)) (snd (evict_reactions t)))
  /\ cells st !! scell t = Some (sto t, false)
  /\ heap st !! sto t
     = Some (if watched
             then mkPromise Pending (fst (watch_reactions t)) (snd (watch_reactions t))
             else bare Pending)
  /\ (watched = true ->
      cells st !! ecell t = Some (elt t, false) /\ heap st !! elt t = Some (bare Pending)).

Definition entries (n : nat) : list (nat * val) :=
  (fun t => (t, VPromise (sto t))) <$> seq 0 n.

Definition held (w : world) (n : nat) : Prop :=
  forall t, (t < n)%nat ->
    exists d, w_deferred w !! t = Some d
              /\ DeferredPromise.resolve d = FResolve (fcell t)
              /\ DeferredPromise.reject d = FReject (fcell t).

Record enrolled (n : nat) (w : world) : Prop := mkEnrolled {
  en_heap : length (heap (w_state w)) = (H + 2 * n)%nat;
  en_cells : length (cells (w_state w)) = (C + 2 * n)%nat;
  en_aggs : length (aggs (w_state w)) = G;
  en_armed : forall t, (t < n)%nat -> armed (w_state w) t false;
  en_queue : queue (w_state w) = [];
  en_log : log (w_state w) = lg0;
  en_synch : synchs (w_state w) !! s = Some (mkSynch n (entries n));
  en_count : length (w_deferred w) = n;
  en_held : held w n
}.

Lemma map_has_entries n t : map_has t (entries n) = true -> (t < n)%nat.
Proof.
  unfold entries. induction n as [|n IH].
  - cbn. discriminate.
  - rewrite seq_S, fmap_app. cbn.
    assert (Happ : forall l1 l2, map_has t (l1 ++ l2) = map_has t l1 || map_has t l2).
    { induction l1 as [|[k v] l1 IH1]; intros l2; cbn; [reflexivity|].
      rewrite IH1. apply orb_assoc. }
    rewrite Happ. cbn. rewrite orb_false_r. intros Ht.
    apply orb_true_iff in Ht as [Ht|Ht]; [apply IH in Ht; lia|].
    apply Nat.eqb_eq in Ht. lia.
Qed.

Lemma entries_fresh n : map_has n (entries n) = false.
Proof.
  destruct (map_has n (entries n)) eqn:E; [|reflexivity].
  apply map_has_entries in E. lia.
Qed.

Lemma enrolled_step n w :
  enrolled n w -> enrolled (S n) (acts s [NewDeferred; AddDeferred n] w).
Proof.
  intros [E1 E2 E3 E4 E5 E6 E7 E8 E9].
  destruct w as [[hp cl ag q lg sy] ds tk].
  cbn [w_state w_deferred heap cells aggs queue log synchs] in *. subst q n.
  rewrite (enroll_one s hp cl ag [] lg sy ds tk (length ds) (entries (length ds))) by
    (exact E7 || apply entries_fresh).
  assert (Hslt : (s < length sy)%nat) by (eapply lookup_lt_Some; eauto).
  split; cbn [w_state w_deferred heap cells aggs queue log synchs].
  - len. lia.
  - len. lia.
  - exact E3.
  - intros t Ht. destruct (decide (t = length ds)) as [->|Hne].
    + unfold armed, fut, fcell, sto, scell, evict_reactions. cbn [fst snd].
      rewrite <- E1, <- E2.
      repeat split; try discriminate; lk.
      unfold scell. rewrite <- E2. reflexivity.
    + assert (Ht' : (t < length ds)%nat) by lia.
      destruct (E4 t Ht') as (A1 & A2 & A3 & A4 & _).
      cbn [heap cells] in A1, A2, A3, A4.
      pose proof (lookup_lt_Some _ _ _ A1). pose proof (lookup_lt_Some _ _ _ A2).
      pose proof (lookup_lt_Some _ _ _ A3). pose proof (lookup_lt_Some _ _ _ A4).
      unfold armed. repeat split; try discriminate; lk.
  - reflexivity.
  - exact E6.
  - rewrite list_lookup_insert_eq by exact Hslt. unfold entries.
    rewrite seq_S, fmap_app. cbn. unfold sto. rewrite E1. reflexivity.
  - len. lia.
  - intros t Ht. destruct (decide (t = length ds)) as [->|Hne].
    + eexists. split; [cbn; rewrite lookup_app_len; reflexivity|]. cbn.
      unfold fcell. rewrite E2. auto.
    + destruct (E9 t ltac:(lia)) as (d & Hd & R1 & R2). exists d.
      split; [cbn; apply lookup_app_l_Some; exact Hd|auto].
Qed.

Lemma enrolled_all w n k :
  enrolled n w -> enrolled (n + k) (acts s (enroll n k) w).
Proof.
  induction k as [|k IH]; intros Hn.
  - rewrite Nat.add_0_r. exact Hn.
  - rewrite enroll_snoc, acts_app. replace (n + S k)%nat with (S (n + k)) by lia.
    apply enrolled_step. auto.
Qed.


(** *** The loop of Promise.allSettled over the entries *)

Record watched (i : nat) (st : state) : Prop := mkWatched {
  wa_heap : length (heap st) = (H + 2 * m + 1 + i)%nat;
  wa_cells : length (cells st) = (C + 2 * m + 1 + i)%nat;
  wa_lo : forall t, (t < i)%nat -> armed st t true;
  wa_hi : forall t, (i <= t < m)%nat -> armed st t false;
  wa_res : cells st !! rcell = Some (res, false) /\ heap st !! res = Some (bare Pending);
  wa_agg : aggs st !! G
           = Some (mkAgg (replicate i VUndef) (replicate i false) (1 + Z.of_nat i) rcell);
  wa_queue : queue st = [];
  wa_log : log st = lg0;
  wa_synch : synchs st !! s = Some (mkSynch m (entries m))
}.

Definition element_fns (i : nat) : fn * fn := (FSettledOk G i, FSettledErr G i).

Lemma watched_step i st :
  watched i st -> (i < m)%nat ->
  watched (S i)
    (snd ((agg_push G ;;
           do nextPromise <- PromiseResolve (VPromise (sto i));
           promise_then nextPromise (Some (fst (element_fns i)))
             (Some (snd (element_fns i))) ;; ret tt) st)).
Proof.
  intros [W1 W2 W3 W4 [W5 W5'] W6 W7 W8 W9] Hi.
  destruct st as [hp cl ag q lg sy].
  cbn [heap cells aggs queue log synchs] in *.
  unfold bind at 1. unfold agg_push, modify.
  cbn [set_aggs heap cells aggs queue log synchs]. rewrite W6.
  unfold bind at 1. cbn [PromiseResolve ret]. unfold bind at 1.
  destruct (W4 i ltac:(lia)) as (A1 & A2 & A3 & A4 & _).
  cbn [heap cells] in A1, A2, A3, A4.
  rewrite (then_pending _ _ _ _ _ _ (sto i) [] []) by exact A4.
  cbn [snd ret app fst element_fns].
  pose proof (lookup_lt_Some _ _ _ W6) as HG.
  pose proof (lookup_lt_Some _ _ _ W5) as Hr1. pose proof (lookup_lt_Some _ _ _ W5') as Hr2.
  unfold rcell, res in *.
  split; cbn [heap cells aggs queue log synchs].
  - len. lia.
  - len. lia.
  - intros t Ht. destruct (decide (t = i)) as [->|Hne].
    + unfold armed, fut, fcell, sto, scell, elt, ecell, watch_reactions, evict_reactions
        in *. cbn [fst snd].
      pose proof (lookup_lt_Some _ _ _ A1). pose proof (lookup_lt_Some _ _ _ A2).
      pose proof (lookup_lt_Some _ _ _ A3). pose proof (lookup_lt_Some _ _ _ A4).
      repeat split; lk; unfold ecell; repeat f_equal; lia.
    + destruct (W3 t ltac:(lia)) as (B1 & B2 & B3 & B4 & B5).
      destruct (B5 eq_refl) as [B6 B7].
      unfold armed, fut, fcell, sto, scell, elt, ecell, watch_reactions, evict_reactions
        in *. cbn [fst snd heap cells] in *.
      pose proof (lookup_lt_Some _ _ _ B1). pose proof (lookup_lt_Some _ _ _ B2).
      pose proof (lookup_lt_Some _ _ _ B3). pose proof (lookup_lt_Some _ _ _ B4).
      pose proof (lookup_lt_Some _ _ _ B6). pose proof (lookup_lt_Some _ _ _ B7).
      repeat split; lk.
  - intros t Ht. destruct (W4 t ltac:(lia)) as (B1 & B2 & B3 & B4 & _).
    unfold armed, fut, fcell, sto, scell, elt, ecell, watch_reactions, evict_reactions
      in *. cbn [fst snd heap cells] in *.
    pose proof (lookup_lt_Some _ _ _ B1). pose proof (lookup_lt_Some _ _ _ B2).
    pose proof (lookup_lt_Some _ _ _ B3). pose proof (lookup_lt_Some _ _ _ B4).
    repeat split; try discriminate; lk.
  - unfold rcell, res, sto in *. split; lk.
  - rewrite list_lookup_insert_eq by exact HG. cbn. unfold rcell.
    rewrite <- !replicate_S_end. do 2 f_equal. lia.
  - exact W7.
  - exact W8.
  - exact W9.
Qed.

Lemma watched_loop k : forall i st,
  watched i st -> (i + k = m)%nat ->
  watched m
    (snd (aggregate_loop element_fns G ((fun t => VPromise (sto t)) <$> seq i k) i st)).
Proof.
  induction k as [|k IH]; intros i st Hw Hk.
  - cbn. replace m with i by lia. exact Hw.
  - cbn [seq fmap list_fmap aggregate_loop].
    pose proof (watched_step i st Hw ltac:(lia)) as Hs.
    assert (E : forall (st0 : state),
      snd ((agg_push G;;
            do nextPromise <- PromiseResolve (VPromise (sto i));
            promise_then nextPromise (Some (element_fns i).1) (Some (element_fns i).2);;
            aggregate_loop element_fns G
              (list_fmap nat val (fun t => VPromise (sto t)) (seq (S i) k)) (S i)) st0)
      = snd (aggregate_loop element_fns G
               ((fun t => VPromise (sto t)) <$> seq (S i) k) (S i)
               (snd ((agg_push G ;;
                      do nextPromise <- PromiseResolve (VPromise (sto i));
                      promise_then nextPromise (Some (fst (element_fns i)))
                        (Some (snd (element_fns i))) ;; ret tt) st0)))).
    { intros st0. cbn [PromiseResolve]. unfold bind, ret.
      destruct (agg_push G st0) as [u st1].
      destruct (promise_then (sto i) (Some (fst (element_fns i)))
                  (Some (snd (element_fns i))) st1) as [d st2]. reflexivity. }
    rewrite E. apply IH; [exact Hs|lia].
Qed.


(** *** After the call *)

(** The records filed so far, for the settlements [past] in the order they
    happened. *)
Definition file (vs : list val) (x : nat * pstate) : list val :=
  <[fst x := record (snd x)]> vs.
Definition mark (fs : list bool) (x : nat * pstate) : list bool :=
  <[fst x := true]> fs.
Definition records (past : list (nat * pstate)) : list val := foldl file (replicate m VUndef) past.
Definition flags (past : list (nat * pstate)) : list bool := foldl mark (replicate m false) past.

Definition onsettled : option fn :=
  match cb with Some (tag, body) => Some (FUser tag body) | None => None end.

(** The reactions on the result of Promise.allSettled, and the promise
    [allSettled] returns. *)
Definition result_reactions : list reaction * list reaction :=
  match onsettled with
  | Some f => ([mkReaction ocell Fulfill (Some f)], [mkReaction ocell Reject None])
  | None => ([], [])
  end.

Definition returned : nat := match onsettled with Some _ => out | None => res end.

Definition extra : nat := match onsettled with Some _ => 1%nat | None => 0%nat end.

Record scene (past : list (nat * pstate)) (st : state) : Prop := mkScene {
  sc_heap : (H + 3 * m + 1 + extra <= length (heap st))%nat;
  sc_cells : (C + 3 * m + 1 + extra <= length (cells st))%nat;
  sc_armed : forall t, (t < m)%nat -> t ∉ fst <$> past -> armed st t true;
  sc_agg : aggs st !! G
           = Some (mkAgg (records past) (flags past) (Z.of_nat m - Z.of_nat (length past)) rcell);
  sc_pending : (length past < m)%nat ->
      cells st !! rcell = Some (res, false)
      /\ heap st !! res
         = Some (mkPromise Pending (fst result_reactions) (snd result_reactions))
      /\ queue st = [];
  sc_done : length past = m ->
      heap st !! res = Some (bare (Fulfilled (VArr (records past))))
      /\ queue st = (fun r => ReactionJob r (VArr (records past))) <$> fst result_reactions;
  sc_out : extra = 1%nat ->
      cells st !! ocell = Some (out, false) /\ heap st !! out = Some (bare Pending);
  sc_synch : exists idx mp, synchs st !! s = Some (mkSynch idx mp)
                            /\ forall t, map_has t mp = true -> (t < idx)%nat;
  sc_log : log st = lg0
}.

Lemma Promise_allSettled_eq items st :
  Promise_allSettled items st
  = (length (heap st),
     snd (agg_finish (length (aggs st))
            (snd (aggregate_loop
                    (fun i => (FSettledOk (length (aggs st)) i,
                               FSettledErr (length (aggs st)) i))
                    (length (aggs st)) items 0%nat
                    (snd (new_agg (length (cells st)) (snd (new_promise st)))))))).
Proof.
  unfold Promise_allSettled, bind. cbn.
  destruct (aggregate_loop _ _ items 0%nat _) as [u st1]. cbn.
  destruct (agg_finish _ st1). reflexivity.
Qed.

Lemma watched_start w :
  enrolled m w ->
  watched 0 (snd (new_agg (length (cells (w_state w))) (snd (new_promise (w_state w))))).
Proof.
  intros [E1 E2 E3 E4 E5 E6 E7 E8 E9].
  destruct w as [[hp cl ag q lg sy] ds tk].
  cbn [w_state w_deferred heap cells aggs queue log synchs] in *.
  cbn [new_agg new_promise snd set_aggs set_heap set_cells heap cells aggs queue log synchs].
  split; cbn [heap cells aggs queue log synchs].
  - len. lia.
  - len. lia.
  - intros t Ht. lia.
  - intros t Ht. destruct (E4 t ltac:(lia)) as (B1 & B2 & B3 & B4 & _).
    unfold armed, fut, fcell, sto, scell, elt, ecell, watch_reactions, evict_reactions
      in *. cbn [fst snd heap cells] in *.
    pose proof (lookup_lt_Some _ _ _ B1). pose proof (lookup_lt_Some _ _ _ B2).
    pose proof (lookup_lt_Some _ _ _ B3). pose proof (lookup_lt_Some _ _ _ B4).
    repeat split; try discriminate; lk.
  - unfold rcell, res. rewrite <- E1, <- E2. split; lk.
  - rewrite <- E3. rewrite lookup_app_len. cbn. unfold rcell. rewrite E2. reflexivity.
  - exact E5.
  - exact E6.
  - exact E7.
Qed.


Lemma vals_nil : records [] = replicate m VUndef.
Proof. reflexivity. Qed.

Lemma finish_state hp cl ag q lg sy :
  watched m (mkState hp cl ag q lg sy) ->
  agg_finish G (mkState hp cl ag q lg sy)
  = (tt,
     if (m =? 0)%nat
     then mkState (<[res := bare (Fulfilled (VArr []))]> hp) (<[rcell := (res, true)]> cl)
            (<[G := mkAgg (replicate m VUndef) (replicate m false) (Z.of_nat m) rcell]> ag)
            q lg sy
     else mkState hp cl
            (<[G := mkAgg (replicate m VUndef) (replicate m false) (Z.of_nat m) rcell]> ag)
            q lg sy).
Proof.
  intros [W1 W2 W3 W4 [W5 W5'] W6 W7 W8 W9].
  cbn [heap cells aggs queue log synchs] in *.
  unfold agg_finish. cbn [aggs]. rewrite W6. cbn [a_remaining a_values a_called a_cap].
  replace (1 + Z.of_nat m - 1) with (Z.of_nat m) by lia.
  destruct m as [|m'] eqn:Em.
  - cbn [Z.of_nat Z.eqb Nat.eqb replicate].
    cbn [set_aggs heap cells aggs queue log synchs].
    rewrite (resolve_fn_fulfill rcell res (VArr []) (bare Pending)) by (lk || reflexivity).
    cbn. rewrite app_nil_r. reflexivity.
  - replace (Z.of_nat (S m') =? 0) with false by (symmetry; apply Z.eqb_neq; lia).
    reflexivity.
Qed.

(** [synch.allSettled(onsettled)] once the [m] futures are enrolled. *)
Lemma allSettled_scene w :
  enrolled m w ->
  fst (PromiseSynch.allSettled s onsettled (w_state w)) = returned
  /\ scene [] (snd (PromiseSynch.allSettled s onsettled (w_state w))).
Proof.
  intros He. pose proof (watched_start w He) as W0.
  pose proof (watched_loop m 0 _ W0 ltac:(lia)) as Wm.
  destruct He as [E1 E2 E3 E4 E5 E6 E7 E8 E9].
  unfold PromiseSynch.allSettled. rewrite E7. cbn [s_promises].
  assert (Ev : snd <$> entries m = (fun t => VPromise (sto t)) <$> seq 0 m).
  { unfold entries. rewrite <- list_fmap_compose. reflexivity. }
  rewrite Ev, Promise_allSettled_eq, E3, E1.
  change (H + 2 * m)%nat with res.
  change (fun i => (FSettledOk G i, FSettledErr G i)) with element_fns.
  destruct (snd (aggregate_loop element_fns G _ 0%nat _)) as [hp cl ag q lg sy].
  rewrite (finish_state _ _ _ _ _ _ Wm). cbn [snd].
  destruct Wm as [W1 W2 W3 W4 [W5 W5'] W6 W7 W8 W9].
  cbn [heap cells aggs queue log synchs] in *. subst q.
  pose proof (lookup_lt_Some _ _ _ W6) as HG.
  pose proof (lookup_lt_Some _ _ _ W5) as Hr1. pose proof (lookup_lt_Some _ _ _ W5') as Hr2.
  assert (Harmed : forall (hp' : list promise) (cl' : list (nat * bool)) ag' q' lg' sy',
            (forall p, (p < H + 3 * m + 1)%nat -> p <> res -> hp' !! p = hp !! p) ->
            (forall k, (k < C + 3 * m + 1)%nat -> k <> rcell -> cl' !! k = cl !! k) ->
            forall t, (t < m)%nat -> armed (mkState hp' cl' ag' q' lg' sy') t true).
  { intros hp' cl' ag' q' lg' sy' Fh Fc t Ht.
    destruct (W3 t Ht) as (B1 & B2 & B3 & B4 & B5). destruct (B5 eq_refl) as [B6 B7].
    unfold armed, fut, fcell, sto, scell, elt, ecell, res, rcell in *.
    cbn [heap cells] in *. rewrite !Fh, !Fc by lia. auto. }
  assert (Hsyn : exists idx mp, sy !! s = Some (mkSynch idx mp)
                   /\ forall t, map_has t mp = true -> (t < idx)%nat).
  { exists m, (entries m). split; [exact W9|]. apply map_has_entries. }
  destruct onsettled as [f|] eqn:Ecb.
  - (* with a callback *)
    assert (Hex : extra = 1%nat) by (unfold extra; rewrite Ecb; reflexivity).
    assert (Hrr : result_reactions
                  = ([mkReaction ocell Fulfill (Some f)], [mkReaction ocell Reject None]))
      by (unfold result_reactions; rewrite Ecb; reflexivity).
    assert (Hret : returned = out) by (unfold returned; rewrite Ecb; reflexivity).
    rewrite Hret.
    destruct (m =? 0)%nat eqn:Em.
    + apply Nat.eqb_eq in Em.
      rewrite (then_settled _ _ _ _ _ _ res (Fulfilled (VArr []))) by (lk || discriminate).
      cbn [fst snd outcome_type outcome_arg app]. split.
      * unfold out, res. len. rewrite W1. lia.
      * split; cbn [heap cells aggs queue log synchs fst snd]; rewrite ?Hex, ?Hrr.
        -- len. lia.
        -- len. lia.
        -- intros t Ht. lia.
        -- rewrite list_lookup_insert_eq by exact HG. rewrite vals_nil. unfold flags.
           cbn [foldl length]. do 2 f_equal. lia.
        -- cbn [length]. lia.
        -- intros _. rewrite vals_nil.
           replace (replicate m VUndef) with (@nil val) by (rewrite Em; reflexivity).
           cbn [fst]. split; [lk|].
           unfold res, ocell, rcell in *. len. cbn [fmap list_fmap].
           do 3 f_equal. lia.
        -- intros _. unfold ocell, out, res, rcell in *. split; lk; repeat f_equal; len; lia.
        -- exact Hsyn.
        -- exact W8.
    + apply Nat.eqb_neq in Em.
      rewrite (then_pending _ _ _ _ _ _ res [] []) by exact W5'.
      cbn [fst snd app]. split.
      * unfold out, res. rewrite W1. lia.
      * split; cbn [heap cells aggs queue log synchs fst snd]; rewrite ?Hex, ?Hrr.
        -- len. lia.
        -- len. lia.
        -- intros t Ht _. apply Harmed; auto.
           ++ intros p Hp Hp'. unfold res in *. lk.
           ++ intros k Hk Hk'. unfold rcell in *. lk.
        -- rewrite list_lookup_insert_eq by exact HG. rewrite vals_nil. unfold flags.
           cbn [foldl length]. do 2 f_equal. lia.
        -- intros _. unfold res, rcell, ocell in *. cbn [fst snd]. repeat split; lk.
           repeat f_equal; lia.
        -- cbn [length]. lia.
        -- intros _. unfold ocell, out, res, rcell in *. split; lk; repeat f_equal; len; lia.
        -- exact Hsyn.
        -- exact W8.
  - (* without *)
    assert (Hex : extra = 0%nat) by (unfold extra; rewrite Ecb; reflexivity).
    assert (Hrr : result_reactions = ([], []))
      by (unfold result_reactions; rewrite Ecb; reflexivity).
    assert (Hret : returned = res) by (unfold returned; rewrite Ecb; reflexivity).
    rewrite Hret. cbn [fst snd]. split; [reflexivity|].
    destruct (m =? 0)%nat eqn:Em.
    + apply Nat.eqb_eq in Em.
      split; cbn [heap cells aggs queue log synchs fst snd]; rewrite ?Hex, ?Hrr.
      * len. lia.
      * len. lia.
      * intros t Ht. lia.
      * rewrite list_lookup_insert_eq by exact HG. rewrite vals_nil. unfold flags.
        cbn [foldl length]. do 2 f_equal. lia.
      * cbn [length]. lia.
      * intros _. rewrite vals_nil.
        replace (replicate m VUndef) with (@nil val) by (rewrite Em; reflexivity).
        cbn [fst]. split; [lk|reflexivity].
      * discriminate.
      * exact Hsyn.
      * exact W8.
    + apply Nat.eqb_neq in Em.
      split; cbn [heap cells aggs queue log synchs fst snd]; rewrite ?Hex, ?Hrr.
      * lia.
      * lia.
      * intros t Ht _. apply Harmed; auto.
      * rewrite list_lookup_insert_eq by exact HG. rewrite vals_nil. unfold flags.
        cbn [foldl length]. do 2 f_equal. lia.
      * intros _. cbn [fst snd]. auto.
      * cbn [length]. lia.
      * discriminate.
      * exact Hsyn.
      * exact W8.
Qed.


(** *** Futures enrolled after the call *)

Lemma map_has_app t m1 m2 : map_has t (m1 ++ m2) = map_has t m1 || map_has t m2.
Proof.
  induction m1 as [|[k v] m1 IH]; cbn; [reflexivity|]. rewrite IH. apply orb_assoc.
Qed.

Lemma scene_enroll past w :
  scene past (w_state w) ->
  scene past (w_state (acts s [NewDeferred; AddDeferred (length (w_deferred w))] w))
  /\ w_deferred w
     `prefix_of` w_deferred (acts s [NewDeferred; AddDeferred (length (w_deferred w))] w)
  /\ length (w_deferred (acts s [NewDeferred; AddDeferred (length (w_deferred w))] w))
     = S (length (w_deferred w)).
Proof.
  intros [S1 S2 S3 S4 S5 S6 S7 (idx & mp & S8 & S8') S9].
  destruct w as [[hp cl ag q lg sy] ds tk].
  cbn [w_state w_deferred heap cells aggs queue log synchs] in *.
  assert (Hfresh : map_has idx mp = false).
  { destruct (map_has idx mp) eqn:E; [|reflexivity]. apply S8' in E. lia. }
  rewrite (enroll_one s hp cl ag q lg sy ds tk idx mp S8 Hfresh).
  cbn [w_state w_deferred]. split; [|split; [apply prefix_app_r; reflexivity|len; lia]].
  pose proof (lookup_lt_Some _ _ _ S8) as Hslt.
  split; cbn [heap cells aggs queue log synchs].
  - len. lia.
  - len. lia.
  - intros t Ht Hn. destruct (S3 t Ht Hn) as (B1 & B2 & B3 & B4 & B5).
    destruct (B5 eq_refl) as [B6 B7].
    unfold armed in *. cbn [heap cells] in *.
    pose proof (lookup_lt_Some _ _ _ B1). pose proof (lookup_lt_Some _ _ _ B2).
    pose proof (lookup_lt_Some _ _ _ B3). pose proof (lookup_lt_Some _ _ _ B4).
    pose proof (lookup_lt_Some _ _ _ B6). pose proof (lookup_lt_Some _ _ _ B7).
    repeat split; lk.
  - exact S4.
  - intros Hl. destruct (S5 Hl) as (P1 & P2 & P3).
    pose proof (lookup_lt_Some _ _ _ P1). pose proof (lookup_lt_Some _ _ _ P2).
    repeat split; [lk|lk|exact P3].
  - intros Hl. destruct (S6 Hl) as (P1 & P2).
    pose proof (lookup_lt_Some _ _ _ P1). split; [lk|exact P2].
  - intros Hx. destruct (S7 Hx) as (P1 & P2).
    pose proof (lookup_lt_Some _ _ _ P1). pose proof (lookup_lt_Some _ _ _ P2).
    split; lk.
  - eexists _, _. split; [apply list_lookup_insert_eq; exact Hslt|].
    intros t Ht. rewrite map_has_app in Ht. cbn in Ht. rewrite orb_false_r in Ht.
    apply orb_true_iff in Ht as [Ht|Ht]; [apply S8' in Ht; lia|].
    apply Nat.eqb_eq in Ht. lia.
  - exact S9.
Qed.

Lemma scene_late past k : forall w n,
  scene past (w_state w) -> held w m -> length (w_deferred w) = n ->
  scene past (w_state (acts s (enroll n k) w)) /\ held (acts s (enroll n k) w) m.
Proof.
  induction k as [|k IH]; intros w n Hs Hh Hn.
  - cbn. auto.
  - unfold enroll. cbn [seq flat_map]. change (flat_map _ (seq (S n) k)) with (enroll (S n) k).
    change ([NewDeferred; AddDeferred n] ++ enroll (S n) k)
      with ([NewDeferred; AddDeferred n] ++ enroll (S n) k).
    rewrite acts_app. rewrite <- Hn.
    destruct (scene_enroll past w Hs) as (Hs' & Hpre & Hlen).
    apply IH; [exact Hs'| |rewrite Hlen; reflexivity].
    intros t Ht. destruct (Hh t Ht) as (d & Hd & R).
    exists d. split; [|exact R]. eapply prefix_lookup_Some; eauto.
Qed.


(** *** A future of the snapshot settles *)

Lemma vals_snoc past x : records (past ++ [x]) = file (records past) x.
Proof. unfold records. rewrite foldl_app. reflexivity. Qed.

Lemma flags_snoc past x : flags (past ++ [x]) = mark (flags past) x.
Proof. unfold flags. rewrite foldl_app. reflexivity. Qed.

Lemma flags_unset past t :
  (t < m)%nat -> t ∉ fst <$> past -> flags past !! t = Some false.
Proof.
  intros Ht. unfold flags.
  assert (Hgen : forall fs, fs !! t = Some false -> t ∉ fst <$> past ->
            foldl mark fs past !! t = Some false).
  { induction past as [|x past' IH]; intros fs Hfs Hn; cbn; [exact Hfs|].
    apply IH.
    - unfold mark. rewrite list_lookup_insert_ne; [exact Hfs|].
      intros E. apply Hn. cbn. rewrite E. apply list_elem_of_here.
    - intros Hin. apply Hn. cbn. apply list_elem_of_further. exact Hin. }
  apply Hgen. apply lookup_replicate_2. exact Ht.
Qed.

Lemma acts_turns n : forall w,
  acts s (replicate n Turn) w
  = mkWorld (run n (w_state w)) (w_deferred w) (w_tickets w).
Proof.
  induction n as [|n IH]; intros w; [destruct w; reflexivity|].
  cbn [replicate]. change (acts s (Turn :: replicate n Turn) w)
    with (acts s (replicate n Turn) (act s Turn w)).
  rewrite IH. reflexivity.
Qed.

Definition settle_and_drain (t : nat) (o : pstate) : list action :=
  SettleDeferred t o :: replicate 5 Turn.

Lemma settle_state w t o d :
  w_deferred w !! t = Some d ->
  DeferredPromise.resolve d = FResolve (fcell t) ->
  DeferredPromise.reject d = FReject (fcell t) ->
  plain o ->
  w_state (act s (SettleDeferred t o) w)
  = snd (match o with
         | Rejected e => reject_fn (fcell t) e
         | _ => resolve_fn (fcell t) (outcome_arg o)
         end (w_state w)).
Proof.
  intros Hd R1 R2 Ho. cbn [act]. rewrite Hd.
  destruct o as [|v|e]; [destruct Ho| |]; cbn [w_state outcome_arg].
  - rewrite R1. reflexivity.
  - rewrite R2. reflexivity.
Qed.

Lemma scene_settle past w t o :
  scene past (w_state w) -> held w m ->
  (t < m)%nat -> t ∉ fst <$> past -> plain o -> (length past < m)%nat ->
  scene (past ++ [(t, o)]) (w_state (acts s (settle_and_drain t o) w))
  /\ w_deferred (acts s (settle_and_drain t o) w) = w_deferred w.
Proof.
  intros [S1 S2 S3 S4 S5 S6 S7 (idx & mp & S8 & S8') S9] Hh Ht Hn Ho Hl.
  destruct (Hh t Ht) as (d & Hd & R1 & R2).
  unfold settle_and_drain.
  change (acts s (SettleDeferred t o :: replicate 5 Turn) w)
    with (acts s (replicate 5 Turn) (act s (SettleDeferred t o) w)).
  rewrite acts_turns. cbn [w_state w_deferred].
  assert (Hds : w_deferred (act s (SettleDeferred t o) w) = w_deferred w).
  { cbn [act]. rewrite Hd. destruct o; reflexivity. }
  split; [|exact Hds].
  rewrite (settle_state w t o d Hd R1 R2 Ho).
  destruct (S5 Hl) as (P1 & P2 & P3).
  destruct (S3 t Ht Hn) as (B1 & B2 & B3 & B4 & B5). destruct (B5 eq_refl) as [B6 B7].
  destruct (w_state w) as [hp cl ag q lg sy].
  cbn [heap cells aggs queue log synchs] in *. subst q.
  change (snd (match o with
               | Rejected e => reject_fn (fcell t) e
               | _ => resolve_fn (fcell t) (outcome_arg o)
               end (mkState hp cl ag [] lg sy)))
    with (settled_state hp cl ag lg sy (fcell t) o).
  assert (Hc : flags past !! t = Some false) by (apply flags_unset; auto).
  pose proof (lookup_lt_Some _ _ _ S8) as Hslt.
  pose proof (lookup_lt_Some _ _ _ S4) as HG.
  set (g := mkAgg (records past) (flags past) (Z.of_nat m - Z.of_nat (length past)) rcell).
  assert (Nh : fut t <> sto t /\ fut t <> elt t /\ sto t <> elt t)
    by (unfold fut, sto, elt; lia).
  assert (Nc : fcell t <> scell t /\ fcell t <> ecell t /\ scell t <> ecell t)
    by (unfold fcell, scell, ecell; lia).
  assert (Hother : forall (st' : state),
            (forall p, (p < length hp)%nat -> p <> fut t -> p <> sto t -> p <> elt t ->
               p <> res -> heap st' !! p = hp !! p) ->
            (forall k, (k < length cl)%nat -> k <> fcell t -> k <> scell t ->
               k <> ecell t -> k <> rcell -> cells st' !! k = cl !! k) ->
            forall t', (t' < m)%nat -> t' ∉ fst <$> (past ++ [(t, o)]) ->
              armed st' t' true).
  { intros st' Fh Fc t' Ht' Hn'. rewrite fmap_app in Hn'. cbn in Hn'.
    assert (t' <> t).
    { intros ->. apply Hn'. apply elem_of_app. right. apply list_elem_of_here. }
    assert (Hn2 : t' ∉ fst <$> past).
    { intros Hin. apply Hn'. apply elem_of_app. left. exact Hin. }
    destruct (S3 t' Ht' Hn2) as (C1 & C2 & C3 & C4 & C5). destruct (C5 eq_refl) as [C6 C7].
    cbn [heap cells] in *.
    pose proof (lookup_lt_Some _ _ _ C1). pose proof (lookup_lt_Some _ _ _ C2).
    pose proof (lookup_lt_Some _ _ _ C3). pose proof (lookup_lt_Some _ _ _ C4).
    pose proof (lookup_lt_Some _ _ _ C6). pose proof (lookup_lt_Some _ _ _ C7).
    unfold armed. unfold fut, fcell, sto, scell, elt, ecell, res, rcell in *.
    rewrite !Fh, !Fc by lia. auto. }
  assert (Hsyn : exists idx' mp',
            <[s := mkSynch idx (map_delete t mp)]> sy !! s = Some (mkSynch idx' mp')
            /\ forall t', map_has t' mp' = true -> (t' < idx')%nat).
  { exists idx, (map_delete t mp). split; [apply list_lookup_insert_eq; exact Hslt|].
    intros t' Ht'. rewrite (map_has_delete t' t mp) in Ht'.
    apply andb_true_iff in Ht' as [Ht' _]. auto. }
  assert (Hagg : <[G := filed t g o]> ag !! G
                 = Some (mkAgg (records (past ++ [(t, o)])) (flags (past ++ [(t, o)]))
                           (Z.of_nat m - Z.of_nat (length (past ++ [(t, o)]))) rcell)).
  { rewrite list_lookup_insert_eq by exact HG. rewrite vals_snoc, flags_snoc.
    unfold filed, file, mark, g. cbn. len. do 2 f_equal. lia. }
  destruct (decide (length past + 1 = m)%nat) as [Elast|Nlast].
  - (* the last one *)
    pose proof (chain_turns_last hp cl ag lg sy (fut t) (fcell t) (sto t) (scell t)
                  (elt t) (ecell t) G t s t idx mp g o Ho B1 B2 B3 B4 B6 B7 S4 Hc S8 Nh Nc
                  res (fst result_reactions) (snd result_reactions)) as Hch.
    cbn [a_remaining a_cap g] in Hch.
    destruct Hch as (L1 & L2 & Fh & Fc & Hf & HD & Hr & Ha & Hq & Hlog & Hsy);
      [lia|exact P1|exact P2|unfold res, fut, sto, elt; lia
      |unfold rcell, fcell, scell, ecell; lia|].
    fold g in Ha.
    split.
    + rewrite L1. lia.
    + rewrite L2. lia.
    + apply Hother.
      * intros p Hp X1 X2 X3 X4. apply Fh; auto.
      * intros k Hk X1 X2 X3 X4. apply Fc; auto.
    + rewrite Ha. exact Hagg.
    + len. lia.
    + intros _. rewrite vals_snoc. split; [exact Hr|exact Hq].
    + intros Hx. destruct (S7 Hx) as (O1 & O2).
      pose proof (lookup_lt_Some _ _ _ O1). pose proof (lookup_lt_Some _ _ _ O2).
      split.
      * rewrite Fc; [exact O1|lia| | | |];
          unfold ocell, fcell, scell, ecell, rcell; lia.
      * rewrite Fh; [exact O2|lia| | | |];
          unfold out, fut, sto, elt, res; lia.
    + rewrite Hsy. exact Hsyn.
    + rewrite Hlog. exact S9.
  - (* others are still pending *)
    pose proof (chain_turns hp cl ag lg sy (fut t) (fcell t) (sto t) (scell t)
                  (elt t) (ecell t) G t s t idx mp g o Ho B1 B2 B3 B4 B6 B7 S4 Hc S8 Nh Nc)
      as Hch.
    cbn [a_remaining g] in Hch.
    destruct Hch as (L1 & L2 & Fh & Fc & Hf & HD & Ha & Hq & Hlog & Hsy); [lia|].
    fold g in Ha.
    pose proof (lookup_lt_Some _ _ _ P1). pose proof (lookup_lt_Some _ _ _ P2).
    split.
    + rewrite L1. lia.
    + rewrite L2. lia.
    + apply Hother.
      * intros p Hp X1 X2 X3 X4. apply Fh; auto.
      * intros k Hk X1 X2 X3 X4. apply Fc; auto.
    + rewrite Ha. exact Hagg.
    + intros _. repeat split.
      * rewrite Fc; [exact P1|lia| | |]; unfold rcell, fcell, scell, ecell; lia.
      * rewrite Fh; [exact P2|lia| | |]; unfold res, fut, sto, elt; lia.
      * exact Hq.
    + len. lia.
    + intros Hx. destruct (S7 Hx) as (O1 & O2).
      pose proof (lookup_lt_Some _ _ _ O1). pose proof (lookup_lt_Some _ _ _ O2).
      split.
      * rewrite Fc; [exact O1|lia| | |]; unfold ocell, fcell, scell, ecell; lia.
      * rewrite Fh; [exact O2|lia| | |]; unfold out, fut, sto, elt; lia.
    + rewrite Hsy. exact Hsyn.
    + rewrite Hlog. exact S9.
Qed.


(** *** All the settlements *)

Definition settlements (order : list (nat * pstate)) : list action :=
  flat_map (fun x => settle_and_drain (fst x) (snd x)) order.

Lemma tickets_bounded (l : list nat) :
  NoDup l -> (forall t, t ∈ l -> (t < m)%nat) -> (length l <= m)%nat.
Proof.
  intros Hn Hb. assert (Hle : (length l <= length (seq 0 m))%nat).
  { apply submseteq_length. apply NoDup_submseteq; [exact Hn|].
    intros t Ht. apply elem_of_seq. specialize (Hb t Ht). lia. }
  rewrite length_seq in Hle. exact Hle.
Qed.

Lemma scene_settlements order : forall past w,
  scene past (w_state w) -> held w m ->
  Forall (fun x => (fst x < m)%nat /\ plain (snd x)) (past ++ order) ->
  NoDup (fst <$> (past ++ order)) ->
  scene (past ++ order) (w_state (acts s (settlements order) w)).
Proof.
  induction order as [|[t o] order IH]; intros past w Hs Hh Hall Hnd.
  - rewrite app_nil_r. exact Hs.
  - unfold settlements. cbn [flat_map fst snd].
    change (flat_map _ order) with (settlements order).
    rewrite acts_app.
    assert (Hlen : (length (past ++ (t, o) :: order) <= m)%nat).
    { rewrite <- (length_fmap fst). apply tickets_bounded; [exact Hnd|].
      intros t' Ht'. apply list_elem_of_fmap in Ht' as (x & -> & Hx).
      rewrite Forall_forall in Hall. apply (Hall x Hx). }
    rewrite length_app in Hlen. cbn in Hlen.
    assert (Hto : (t < m)%nat /\ plain o).
    { rewrite Forall_forall in Hall. apply (Hall (t, o)).
      apply elem_of_app. right. apply list_elem_of_here. }
    assert (Hnew : t ∉ fst <$> past).
    { rewrite fmap_app in Hnd. cbn in Hnd. apply NoDup_app in Hnd as (_ & Hd & _).
      intros Hin. apply (Hd t Hin). apply list_elem_of_here. }
    destruct (scene_settle past w t o Hs Hh (proj1 Hto) Hnew (proj2 Hto) ltac:(lia))
      as [Hs' Hds].
    replace (past ++ (t, o) :: order) with ((past ++ [(t, o)]) ++ order)
      in * by (rewrite <- app_assoc; reflexivity).
    apply IH; auto.
    intros t' Ht'. destruct (Hh t' Ht') as (d & Hd & R). exists d. rewrite Hds. auto.
Qed.

Lemma length_vals past : length (records past) = m.
Proof.
  unfold records. induction past as [|x past IH] using rev_ind; cbn.
  - apply length_replicate.
  - rewrite foldl_app. cbn. unfold file. rewrite length_insert. exact IH.
Qed.

Lemma vals_lookup past t o :
  NoDup (fst <$> past) -> (t, o) ∈ past -> (t < m)%nat ->
  records past !! t = Some (record o).
Proof.
  intros Hnd Hin Ht. induction past as [|x past IH] using rev_ind.
  - apply elem_of_nil in Hin. contradiction.
  - rewrite vals_snoc. unfold file. rewrite fmap_app in Hnd. cbn in Hnd.
    apply NoDup_app in Hnd as (Hnd1 & Hnd2 & _).
    apply elem_of_app in Hin as [Hin|Hin].
    + rewrite list_lookup_insert_ne; [apply IH; auto|].
      intros E. apply (Hnd2 t); [|rewrite E; apply list_elem_of_here].
      apply list_elem_of_fmap. exists (t, o). auto.
    + apply list_elem_of_singleton in Hin. subst x. cbn.
      apply list_lookup_insert_eq. rewrite length_vals. exact Ht.
Qed.

(** The job of [onsettled]. *)
Lemma callback_turn hp cl ag lg sy K tag body x :
  tick (mkState hp cl ag [ReactionJob (mkReaction K Fulfill (Some (FUser tag body))) x] lg sy)
  = snd (match body x with
         | Normal v => resolve_fn K v
         | Throw e => reject_fn K e
         end (mkState hp cl ag [] (lg ++ [(tag, x)]) sy)).
Proof.
  unfold tick. cbn [queue]. unfold run_job, bind, modify, ret.
  cbn [r_handler r_cap call set_queue set_log heap cells aggs queue log synchs].
  unfold bind, modify, ret. cbn [set_log heap cells aggs queue log synchs].
  destruct (body x) as [v|e].
  - destruct (resolve_fn K v _); reflexivity.
  - destruct (reject_fn K e _); reflexivity.
Qed.

End Scene.

(** What is claimed of [allSettled] on a registry [s] that holds [m]
    futures, all pending, when it is called: [late] more futures are added
    after the call, then the futures of [order] settle, each followed by
    the five turns its jobs take.
    - While a future of the snapshot is unsettled, the returned promise is
      pending.
    - Once all [m] have settled, and whether or not the later futures have,
      the records [recs] are those of the [m] outcomes by ticket.  Without
      [onsettled] the returned promise is fulfilled with them.  With
      [onsettled], its job is called once with them in the next turn, and
      the returned promise is fulfilled with what it returns, rejected
      with what it throws, or, when it returns a promise that is already
      settled, takes that outcome two turns later. *)
Definition allSettled_facts (st0 : state) (s m late : nat) (cb : option observer)
    (order : list (nat * pstate)) : Prop :=
  let w1 := acts s (enroll 0 m) (mkWorld st0 [] []) in
  let r := fst (PromiseSynch.allSettled s (onsettled cb) (w_state w1)) in
  let w4 := acts s (enroll m late ++ settlements order) (act s (CallAllSettled cb) w1) in
  ((length order < m)%nat -> state_of (w_state w4) r = Some Pending)
  /\ (length order = m ->
      exists recs,
        length recs = m
        /\ (forall t o, (t, o) ∈ order -> recs !! t = Some (record o))
        /\ match cb with
           | None =>
               state_of (w_state w4) r = Some (Fulfilled (VArr recs))
               /\ queue (w_state w4) = []
           | Some (tag, body) =>
               log (tick (w_state w4)) = log st0 ++ [(tag, VArr recs)]
               /\ match body (VArr recs) with
                  | Throw e => state_of (tick (w_state w4)) r = Some (Rejected e)
                  | Normal v =>
                      (get_then v = None ->
                       state_of (tick (w_state w4)) r = Some (Fulfilled v))
                      /\ (forall q oq,
                            v = VPromise q -> q <> r ->
                            heap (w_state w4) !! q = Some (bare oq) -> plain oq ->
                            state_of (run 3 (w_state w4)) r = Some oq)
                  end
           end).



(** The example of the spec, one future rejecting and two fulfilling, run;
    a later future stays pending and is not waited on.  The same records
    come out when the three futures settle in one go before any job runs,
    and when [onsettled] is given it receives them. *)
Example PromiseSynch_allSettled_example :
  let w1 := acts 0 (enroll 0 3) (mkWorld (snd (PromiseSynch.constructor init)) [] []) in
  let recs := VArr [VSettled "fulfilled" (VStr "a"); VSettled "rejected" (VStr "boom");
                    VSettled "fulfilled" (VStr "c")] in
  let order := [(1, Rejected (VStr "boom")); (0, Fulfilled (VStr "a"));
                (2, Fulfilled (VStr "c"))]%nat in
  let r := fst (PromiseSynch.allSettled 0 None (w_state w1)) in
  let w4 := acts 0 (enroll 3 1 ++ settlements order) (act 0 (CallAllSettled None) w1) in
  let w5 := acts 0 ([SettleDeferred 1 (Rejected (VStr "boom"));
                     SettleDeferred 0 (Fulfilled (VStr "a"));
                     SettleDeferred 2 (Fulfilled (VStr "c"))]%nat ++ replicate 15 Turn)
              (act 0 (CallAllSettled None) w1) in
  let cb : option observer := Some (7%nat, fun v => Normal (VArr [v])) in
  let r' := fst (PromiseSynch.allSettled 0 (onsettled cb) (w_state w1)) in
  let w6 := acts 0 (settlements order ++ [Turn]) (act 0 (CallAllSettled cb) w1) in
  state_of (w_state w4) r = Some (Fulfilled recs)
  /\ state_of (w_state w4) 10 = Some Pending
  /\ state_of (w_state w5) r = Some (Fulfilled recs)
  /\ queue (w_state w5) = []
  /\ state_of (w_state w6) r' = Some (Fulfilled (VArr [recs]))
  /\ log (w_state w6) = [(7%nat, recs)].
Proof. vm_compute. repeat split; reflexivity. Qed.

(** * Further properties of the barrier *)

(** A fulfilled result of [all] means that every element function has been
    called, each for a fulfilled slot whose value it filed. *)
Lemma all_fulfilled_slots (n : nat) (x : local) (w : val) :
  shape n x -> inv true x -> rst x = Fulfilled w ->
  w = VArr (vals x) /\ length (vals x) = n
  /\ forall j v, vals x !! j = Some v -> outs x !! j = Some (Fulfilled v).
Proof.
  intros Sh [[I1 I2 I3 I4] [I5 I6 I7 I8 I9 I10 I11]] Hr.
  destruct (I11 w Hr) as [P1 _]. destruct (P1 eq_refl) as [-> Hrem].
  split; [done|]. split; [by destruct Sh|].
  intros j v Hv.
  assert (Hj : (j < n)%nat).
  { rewrite <- (sh_vals _ _ Sh). by eapply lookup_lt_Some. }
  destruct (called x !! j) as [b|] eqn:Eb.
  2:{ apply lookup_ge_None in Eb. rewrite (sh_called _ _ Sh) in Eb. lia. }
  destruct (fired x !! j) as [f|] eqn:Ef.
  2:{ apply lookup_ge_None in Ef. rewrite (sh_fired _ _ Sh) in Ef. lia. }
  destruct (outs x !! j) as [o|] eqn:Eo.
  2:{ apply lookup_ge_None in Eo. rewrite (sh_outs _ _ Sh) in Eo. lia. }
  rewrite (I8 eq_refl) in Hrem.
  pose proof (pending_count_zero _ Hrem j b Eb) as ->.
  pose proof (I6 eq_refl j true f o Eb Ef Eo) as Hb.
  symmetry in Hb. apply andb_prop in Hb as [-> Ho].
  destruct o as [|v'|e]; try discriminate.
  pose proof (I7 eq_refl j v' Ef Eo) as Hv'. congruence.
Qed.





Lemma Promise_all_nil h c a q l s :
  Promise_all [] (mkState h c a q l s)
  = (length h,
     mkState (h ++ [bare (Fulfilled (VArr []))]) (c ++ [(length h, true)])
             (a ++ [mkAgg [] [] 0 (length c)]) q l s).
Proof.
  unfold Promise_all, bind, new_promise, new_agg, aggregate_loop, agg_finish, ret.
  cbn. hsimp. change (1 - 1) with 0. cbn.
  unfold resolve_fn, FulfillPromise. cbn. hsimp. by rewrite app_nil_r.
Qed.

(** X3. A barrier of length 0.  [new Barrier(0)] is accepted and allocates
    nothing; every [resolve] call on it, whatever the index among the
    modelled ones, throws and changes nothing, as there is no slot; the
    promise [all()] returns is fulfilled with the empty array already when
    [all()] returns, without any job being queued. *)
Theorem Barrier_empty (st : state) :
  let b := fresh_barrier 0 st in
  Barrier.constructor (VNum (Fin 0)) st = Some (Ok b, st)
  /\ (forall (index value : val) (c : completion) (st' : state),
        Barrier.resolve b index value st = Some (c, st') ->
        st' = st /\ exists e, c = Throw e)
  /\ state_of (snd (Barrier.all b st)) (fst (Barrier.all b st)) = Some (Fulfilled (VArr []))
  /\ queue (snd (Barrier.all b st)) = queue st.
Proof.
  destruct st as [h c a q l s]. cbn zeta. unfold Barrier.all.
  change (Barrier.promises _) with (@nil val).
  split; [|split; [|split]].
  - unfold Barrier.constructor. cbn [invalid_number strict_neq_zero andb mbind option_bind].
    unfold lt_zero, ToLength. cbn [ToNumber mbind option_bind Z.ltb Z.compare].
    change ((0 `max` 0) `min` (2 ^ 53 - 1)) with 0.
    change (2 ^ 32 - 1 <? 0) with false. cbn. reflexivity.
  - intros index value co st'. unfold Barrier.resolve.
    destruct (invalid_number index) as [[]|]; cbn; [intros [= <- <-]; eauto| |done].
    assert (Hget : forall o, array_get (@nil fn) index = Some o -> o = None).
    { unfold array_get. destruct index as [| | |[| | |z]|str| | | | |]; cbn;
        try (intros o [= <-]; reflexivity); try discriminate.
      - intros o [= <-]. by destruct (0 <=? z).
      - destruct (canonical_index str); cbn; [|discriminate]. by intros o [= <-]. }
    destruct (array_get _ index) as [o|] eqn:E; cbn; [|done].
    rewrite (Hget o eq_refl). intros [= <- <-]. eauto.
  - rewrite Promise_all_nil. unfold state_of. cbn. by hsimp.
  - by rewrite Promise_all_nil.
Qed.

Lemma Barrier_empty_witness :
  let c := Throw (TypeError "this.#resolveFunctions[index] is not a function") in
  Barrier.resolve (fresh_barrier 0 init) (VNum (Fin 0)) (VStr "v") init = Some (c, init)
  /\ init = init /\ exists e, c = Throw e.
Proof.
  split; [reflexivity|].
  exact (proj1 (proj2 (Barrier_empty init)) (VNum (Fin 0)) (VStr "v") _ init eq_refl).
Defined.

(** * Further properties of DeferredPromise *)

(** ** A used resolving function stays used

    No operation of the runtime ever clears an [[AlreadyResolved]] record:
    records are appended, or set from [false] to [true]. *)
Definition keeps (st st' : state) : Prop :=
  forall k p, cells st !! k = Some (p, true) -> cells st' !! k = Some (p, true).

Lemma keeps_refl st : keeps st st.
Proof. by intros k p. Qed.

Lemma keeps_trans st1 st2 st3 : keeps st1 st2 -> keeps st2 st3 -> keeps st1 st3.
Proof. intros H1 H2 k p Hk. by apply H2, H1. Qed.

Lemma keeps_cells st st' : cells st' = cells st -> keeps st st'.
Proof. intros E k p. by rewrite E. Qed.

Lemma keeps_set st st' k' p' :
  cells st !! k' = Some (p', false) -> cells st' = <[k' := (p', true)]> (cells st) ->
  keeps st st'.
Proof.
  intros Hk' E k p Hk. rewrite E. rewrite list_lookup_insert_ne; [done|].
  intros ->. congruence.
Qed.

Lemma keeps_app st st' x : cells st' = cells st ++ x -> keeps st st'.
Proof. intros E k p Hk. rewrite E. by apply lookup_app_l_Some. Qed.

Lemma FulfillPromise_cells p v st : cells (snd (FulfillPromise p v st)) = cells st.
Proof. unfold FulfillPromise. by destruct (heap st !! p). Qed.

Lemma RejectPromise_cells p e st : cells (snd (RejectPromise p e st)) = cells st.
Proof. unfold RejectPromise. by destruct (heap st !! p). Qed.

Lemma resolve_fn_keeps k v st : keeps st (snd (resolve_fn k v st)).
Proof.
  unfold resolve_fn. destruct (cells st !! k) as [[p []]|] eqn:Hk;
    try apply keeps_refl.
  apply (keeps_set _ _ k p Hk).
  destruct v; cbn -[FulfillPromise RejectPromise];
    rewrite ?FulfillPromise_cells; try reflexivity.
  destruct (Nat.eqb _ _); cbn -[RejectPromise]; rewrite ?RejectPromise_cells; reflexivity.
Qed.

Lemma reject_fn_keeps k e st : keeps st (snd (reject_fn k e st)).
Proof.
  unfold reject_fn. destruct (cells st !! k) as [[p []]|] eqn:Hk;
    try apply keeps_refl.
  apply (keeps_set _ _ k p Hk). cbn -[RejectPromise]. by rewrite RejectPromise_cells.
Qed.

Lemma PerformPromiseThen_cells p h1 h2 cap st :
  cells (snd (PerformPromiseThen p h1 h2 cap st)) = cells st.
Proof.
  unfold PerformPromiseThen. destruct (heap st !! p) as [pr|]; [|done].
  by destruct (p_state pr).
Qed.

Lemma promise_then_keeps p h1 h2 st : keeps st (snd (promise_then p h1 h2 st)).
Proof.
  rewrite snd_promise_then. apply (keeps_app _ _ [(length (heap st), false)]).
  by rewrite PerformPromiseThen_cells.
Qed.

Lemma PromiseResolve_keeps x st : keeps st (snd (PromiseResolve x st)).
Proof.
  assert (H : keeps st (snd ((do (p, k) <- new_promise; resolve_fn k x ;; ret p) st))).
  { rewrite snd_bind. cbn [new_promise fst snd]. rewrite snd_bind. cbn [ret snd].
    eapply keeps_trans; [|apply resolve_fn_keeps].
    by apply (keeps_app _ _ [(length (heap st), false)]). }
  destruct x; try exact H. apply keeps_refl.
Qed.

Lemma element_fn_keeps a i x st : keeps st (snd (element_fn a i x st)).
Proof.
  unfold element_fn. destruct (aggs st !! a) as [g|]; [|apply keeps_refl].
  destruct (a_called g !! i) as [[]|]; try apply keeps_refl.
  destruct (_ =? 0).
  - eapply keeps_trans; [|apply resolve_fn_keeps]. by apply keeps_cells.
  - by apply keeps_cells.
Qed.

Lemma finally_keeps (c : M completion) (thunk : fn) st :
  keeps st (snd (c st)) ->
  keeps st (snd ((do result <- c;
                  match result with
                  | Throw e => ret (Throw e)
                  | Normal r =>
                      do p <- PromiseResolve r;
                      do d <- promise_then p (Some thunk) None;
                      ret (Normal (VPromise d))
                  end) st)).
Proof.
  intros Hc. rewrite snd_bind. destruct (fst (c st)) as [r|e]; [|exact Hc].
  rewrite !snd_bind. cbn [ret snd].
  eapply keeps_trans; [exact Hc|].
  eapply keeps_trans; [apply PromiseResolve_keeps|apply promise_then_keeps].
Qed.

Lemma call_keeps f : forall x st, keeps st (snd (call f x st)).
Proof.
  induction f as [k|k|a i|a i|a i|f IH|f IH|v|e|s index|tag body]; intros x st;
    cbn [call].
  - apply resolve_fn_keeps.
  - apply reject_fn_keeps.
  - apply element_fn_keeps.
  - apply element_fn_keeps.
  - apply element_fn_keeps.
  - apply finally_keeps, IH.
  - apply finally_keeps, IH.
  - apply keeps_refl.
  - apply keeps_refl.
  - apply keeps_cells. unfold delete_fn. by destruct (synchs st !! s).
  - by apply keeps_cells.
Qed.

Lemma run_job_keeps j st : keeps st (snd (run_job j st)).
Proof.
  destruct j as [r x|p x]; cbn [run_job].
  - rewrite snd_bind.
    set (c := match r_handler r with Some h => call h x | None => _ end).
    assert (Hc : keeps st (snd (c st))).
    { subst c. destruct (r_handler r); [apply call_keeps|apply keeps_refl]. }
    destruct (fst (c st)); rewrite snd_bind; cbn [ret snd];
      (eapply keeps_trans; [exact Hc|]).
    + apply resolve_fn_keeps.
    + apply reject_fn_keeps.
  - rewrite snd_bind. cbn [new_cell fst snd].
    destruct (get_then x).
    + rewrite snd_bind. cbn [ret snd].
      eapply keeps_trans; [|apply promise_then_keeps].
      by apply (keeps_app _ _ [(p, false)]).
    + by apply (keeps_app _ _ [(p, false)]).
Qed.

Lemma tick_keeps st : keeps st (tick st).
Proof.
  unfold tick. destruct (queue st) as [|j q]; [apply keeps_refl|].
  eapply keeps_trans; [|apply run_job_keeps]. by apply keeps_cells.
Qed.

Lemma run_keeps n : forall st, keeps st (run n st).
Proof.
  induction n as [|n IH]; intros st; [apply keeps_refl|].
  cbn [run]. eapply keeps_trans; [apply tick_keeps|apply IH].
Qed.

Lemma reject_fn_sets_cell (k : nat) (p : ref) (e : val) (st : state) :
  cells st !! k = Some (p, false) ->
  cells (snd (reject_fn k e st)) !! k = Some (p, true).
Proof.
  intros Hk. assert (Hlt : (k < length (cells st))%nat) by (by eapply lookup_lt_Some).
  unfold reject_fn. rewrite Hk. cbn -[RejectPromise]. rewrite RejectPromise_cells.
  cbn. by apply list_lookup_insert_eq.
Qed.

(** The two ways of settling a DeferredPromise from outside. *)
Inductive settle_call :=
| CallResolve (x : val)     (* d.resolve(x) *)
| CallReject (x : val).     (* d.reject(x) *)

Definition settle (d : DeferredPromise.t) (c : settle_call) : M completion :=
  match c with
  | CallResolve x => call (DeferredPromise.resolve d) x
  | CallReject x => call (DeferredPromise.reject d) x
  end.

Lemma settle_spent (d : DeferredPromise.t) (k : nat) (p : ref) (c : settle_call) st :
  DeferredPromise.resolve d = FResolve k -> DeferredPromise.reject d = FReject k ->
  cells st !! k = Some (p, true) -> settle d c st = (Normal VUndef, st).
Proof.
  intros Hr Hj Hk. destruct c as [x|x]; cbn [settle]; rewrite ?Hr, ?Hj; cbn [call].
  - by eapply resolve_fn_dead.
  - by eapply reject_fn_dead.
Qed.

Lemma settle_spends (d : DeferredPromise.t) (k : nat) (p : ref) (c : settle_call) st :
  DeferredPromise.resolve d = FResolve k -> DeferredPromise.reject d = FReject k ->
  cells st !! k = Some (p, false) -> cells (snd (settle d c st)) !! k = Some (p, true).
Proof.
  intros Hr Hj Hk. destruct c as [x|x]; cbn [settle]; rewrite ?Hr, ?Hj; cbn [call].
  - by apply resolve_fn_sets_cell.
  - by apply reject_fn_sets_cell.
Qed.

(** X4. A DeferredPromise is settled at most once.  After the first call of
    [resolve] or [reject], whatever its argument (a plain value, an error, a
    promise that has not settled yet), every later call of [resolve] or
    [reject], with any argument and after any number of turns of the
    scheduler, returns normally and changes nothing. *)
Theorem DeferredPromise_settles_once
    (st : state) (first later : settle_call) (turns : nat) :
  let d := fst (DeferredPromise.constructor st) in
  let st1 := snd (DeferredPromise.constructor st) in
  let st2 := run turns (snd (settle d first st1)) in
  settle d later st2 = (Normal VUndef, st2).
Proof.
  cbn zeta.
  apply (settle_spent _ (length (cells st)) (length (heap st))); [reflexivity..|].
  apply run_keeps.
  apply settle_spends; [reflexivity..|].
  cbn. by hsimp.
Qed.

Lemma run_idle (n : nat) (st : state) : queue st = [] -> run n st = st.
Proof.
  intros Hq. induction n as [|n IH]; [done|].
  cbn [run]. unfold tick. by rewrite Hq.
Qed.

(** A state whose only job is [j] is at rest after one turn when the job
    queues nothing: all later turns leave it as the first one did. *)
Lemma run_one_job (n : nat) (st : state) :
  queue (tick st) = [] -> run n st = st \/ run n st = tick st.
Proof.
  intros Hq. destruct n as [|n]; [by left|]. right. cbn [run]. by apply run_idle.
Qed.

(** X5. A DeferredPromise resolved with itself never settles.  [d.resolve(d)]
    is not refused as a cycle, since [d] is not the promise it wraps: the
    wrapped promise starts to follow [d], that is itself.  It is pending after
    any number of turns, the job queue is empty after the first turn, and no
    later call of [resolve] or [reject] settles it either. *)
Theorem DeferredPromise_resolved_with_itself
    (st : state) (later : settle_call) (n m : nat) :
  queue st = [] ->
  let d := fst (DeferredPromise.constructor st) in
  let st1 := snd (DeferredPromise.constructor st) in
  let st2 := snd (settle d (CallResolve (DeferredPromise.to_val d)) st1) in
  queue (run (S n) st2) = []
  /\ state_of (run n st2) (DeferredPromise.promise d) = Some Pending
  /\ state_of (run m (snd (settle d later (run n st2)))) (DeferredPromise.promise d)
     = Some Pending.
Proof.
  destruct st as [h c a q l s]. cbn [queue]. intros ->. cbn zeta.
  set (d := fst (DeferredPromise.constructor (mkState h c a [] l s))).
  set (st1 := snd (DeferredPromise.constructor (mkState h c a [] l s))).
  set (st2 := snd (settle d (CallResolve (DeferredPromise.to_val d)) st1)).
  assert (E2 : st2 = mkState (h ++ [bare Pending]) (c ++ [(length h, true)]) a
                       [ThenableJob (length h) (VDeferred (length h))] l s).
  { subst st2 st1 d. cbn. unfold resolve_fn. cbn. by hsimp. }
  assert (E3 : tick st2
               = mkState (h ++ [mkPromise Pending
                                  [mkReaction (length c + 2) Fulfill
                                     (Some (FResolve (length c + 1)))]
                                  [mkReaction (length c + 2) Reject
                                     (Some (FReject (length c + 1)))];
                                bare Pending])
                   (c ++ [(length h, true); (length h, false);
                          ((length h + 1)%nat, false)]) a [] l s).
  { rewrite E2. unfold tick. cbn [queue]. unfold run_job, bind, new_cell.
    cbn [get_then set_queue set_cells heap cells aggs queue log synchs].
    rewrite (then_pending _ _ _ _ _ _ (length h) [] []) by (by hsimp).
    cbn. hsimp. reflexivity. }
  assert (Hq : queue (tick st2) = []) by (by rewrite E3).
  assert (Hcell : forall st', keeps st2 st' ->
            settle d later st' = (Normal VUndef, st')).
  { intros st' Hk.
    apply (settle_spent _ (length c) (length h)); [reflexivity..|].
    apply Hk. rewrite E2. cbn. by hsimp. }
  assert (Hp2 : state_of st2 (length h) = Some Pending).
  { rewrite E2. unfold state_of. cbn. by hsimp. }
  assert (Hp3 : state_of (tick st2) (length h) = Some Pending).
  { rewrite E3. unfold state_of. cbn. by hsimp. }
  change (DeferredPromise.promise d) with (length h).
  split; [|split].
  - cbn [run]. by rewrite run_idle.
  - destruct (run_one_job n st2 Hq) as [-> | ->]; done.
  - rewrite Hcell by apply run_keeps. cbn [snd]. rewrite <- run_add.
    destruct (run_one_job (n + m) st2 Hq) as [-> | ->]; done.
Qed.

Lemma DeferredPromise_resolved_with_itself_witness :
  let d := fst (DeferredPromise.constructor init) in
  let st2 := snd (settle d (CallResolve (DeferredPromise.to_val d))
                    (snd (DeferredPromise.constructor init))) in
  state_of (run 3 (snd (settle d (CallReject (VStr "stop")) (run 2 st2)))) 0
  = Some Pending.
Proof.
  exact (proj2 (proj2 (DeferredPromise_resolved_with_itself init
                         (CallReject (VStr "stop")) 2 3 eq_refl))).
Defined.

(** ** One DeferredPromise resolved with another *)

(** The outcome a call asks for. *)
Definition outcome_of (c : settle_call) : pstate :=
  match c with
  | CallResolve v => Fulfilled v
  | CallReject e => Rejected e
  end.

Lemma settle_plain (d : DeferredPromise.t) (k : nat) (p : ref) (c : settle_call)
    hp cl ag q lg sy frs rrs :
  DeferredPromise.resolve d = FResolve k -> DeferredPromise.reject d = FReject k ->
  cl !! k = Some (p, false) -> hp !! p = Some (mkPromise Pending frs rrs) ->
  plain (outcome_of c) ->
  settle d c (mkState hp cl ag q lg sy)
  = (Normal VUndef,
     mkState (<[p := bare (outcome_of c)]> hp) (<[k := (p, true)]> cl) ag
             (q ++ ((fun r => ReactionJob r (outcome_arg (outcome_of c)))
                      <$> match outcome_of c with Rejected _ => rrs | _ => frs end))
             lg sy).
Proof.
  intros Hr Hj Hk Hp Hpl.
  rewrite <- (settle_cell hp cl ag q lg sy k p frs rrs (outcome_of c) Hk Hp Hpl).
  destruct c; cbn [settle outcome_of outcome_arg]; rewrite ?Hr, ?Hj; reflexivity.
Qed.

Lemma thenable_job_deferred hp cl ag q lg sy (p P3 : nat) :
  tick (mkState hp cl ag (ThenableJob p (VDeferred P3) :: q) lg sy)
  = tick (mkState hp cl ag (ThenableJob p (VPromise P3) :: q) lg sy).
Proof. reflexivity. Qed.

Lemma resolve_with_deferred hp cl ag q lg sy k p d :
  cl !! k = Some (p, false) ->
  resolve_fn k (VDeferred d) (mkState hp cl ag q lg sy)
  = (Normal VUndef,
     mkState hp (<[k := (p, true)]> cl) ag (q ++ [ThenableJob p (VDeferred d)]) lg sy).
Proof. intros Hk. unfold resolve_fn. cbn. rewrite Hk. reflexivity. Qed.

(** The thenable job on a promise that is still pending. *)
Lemma thenable_turn_pending hp cl ag q lg sy (D P3 : nat) frs rrs :
  hp !! P3 = Some (mkPromise Pending frs rrs) ->
  tick (mkState hp cl ag (ThenableJob D (VPromise P3) :: q) lg sy)
  = mkState (<[P3 := mkPromise Pending
                        (frs ++ [mkReaction (length cl + 1) Fulfill
                                   (Some (FResolve (length cl)))])
                        (rrs ++ [mkReaction (length cl + 1) Reject
                                   (Some (FReject (length cl)))])]>
               (hp ++ [bare Pending]))
            ((cl ++ [(D, false)]) ++ [(length hp, false)]) ag q lg sy.
Proof.
  intros HP. unfold tick. cbn [queue]. unfold run_job, bind, new_cell.
  cbn [get_then set_queue set_cells heap cells aggs queue log synchs].
  rewrite (then_pending _ _ _ _ _ _ P3 frs rrs) by exact HP.
  len. reflexivity.
Qed.

(** X6. [d1.resolve(d2)] makes [d1] follow [d2], whichever comes first, the
    call or the settlement of [d2].  When [d2] is settled, by [resolve] with a
    value that is not a thenable or by [reject], then two turns of the
    scheduler after both have happened [d1] has the outcome of [d2]: fulfilled
    with the same value, or rejected with the same error.  Until [d2] is
    settled [d1] stays pending. *)
Theorem DeferredPromise_follows_deferred (st : state) (c : settle_call) (k : nat) :
  queue st = [] -> plain (outcome_of c) ->
  let d2 := fst (DeferredPromise.constructor st) in
  let st1 := snd (DeferredPromise.constructor st) in
  let d1 := fst (DeferredPromise.constructor st1) in
  let st2 := snd (DeferredPromise.constructor st1) in
  let follow := settle d1 (CallResolve (DeferredPromise.to_val d2)) in
  let p1 := DeferredPromise.promise d1 in
  (let st3 := run 2 (snd (follow (run k (snd (settle d2 c st2))))) in
   state_of st3 p1 = Some (outcome_of c) /\ queue st3 = [])
  /\ (let st3 := run 2 (snd (settle d2 c (run k (snd (follow st2))))) in
      state_of st3 p1 = Some (outcome_of c) /\ queue st3 = [])
  /\ state_of (run k (snd (follow st2))) p1 = Some Pending.
Proof.
  destruct st as [h cl a q l s]. cbn [queue]. intros -> Hpl. cbn zeta.
  assert (No : outcome_of c <> Pending) by (destruct c; discriminate).
  set (d2 := fst (DeferredPromise.constructor (mkState h cl a [] l s))).
  set (st1 := snd (DeferredPromise.constructor (mkState h cl a [] l s))).
  set (d1 := fst (DeferredPromise.constructor st1)).
  set (st2 := snd (DeferredPromise.constructor st1)).
  assert (E2 : st2 = mkState ((h ++ [bare Pending]) ++ [bare Pending])
                       ((cl ++ [(length h, false)]) ++ [((length h + 1)%nat, false)])
                       a [] l s).
  { subst st2 st1. cbn. len. reflexivity. }
  assert (R1 : DeferredPromise.resolve d1 = FResolve (length cl + 1)).
  { subst d1 st1. cbn. len. reflexivity. }
  assert (J1 : DeferredPromise.reject d1 = FReject (length cl + 1)).
  { subst d1 st1. cbn. len. reflexivity. }
  assert (P1 : DeferredPromise.promise d1 = (length h + 1)%nat).
  { subst d1 st1. cbn. len. reflexivity. }
  assert (V2 : DeferredPromise.to_val d2 = VDeferred (length h)) by reflexivity.
  rewrite P1, V2. cbn [settle]. rewrite R1. cbn [call].
  (* the last two turns, common to both orders *)
  assert (Tail : forall hp cs,
    hp !! length h = Some (bare (outcome_of c)) ->
    hp !! (length h + 1)%nat = Some (bare Pending) ->
    cs !! (length cl + 1)%nat = Some ((length h + 1)%nat, true) ->
    let st3 := run 2 (mkState hp cs a
                        [ThenableJob (length h + 1) (VDeferred (length h))] l s) in
    state_of st3 (length h + 1) = Some (outcome_of c) /\ queue st3 = []).
  { intros hp cs H2 H1 Hc.
    pose proof (lookup_lt_Some _ _ _ H1). pose proof (lookup_lt_Some _ _ _ Hc).
    cbn zeta. change (run 2 ?x) with (tick (tick x)).
    rewrite thenable_job_deferred.
    rewrite (thenable_turn _ _ _ _ _ _ (length h + 1) (length h) (outcome_of c) No H2).
    cbn [app].
    rewrite (adopt_turn _ _ _ _ _ _ (length cs) (length cs + 1) (length h + 1)
               (length hp) (outcome_of c) [] [])
      by (first [exact Hpl | lia | lk]).
    unfold state_of. cbn [heap queue]. split; [lk|].
    by destruct (outcome_of c). }
  split; [|split].
  - rewrite E2.
    rewrite (settle_plain d2 (length cl) (length h) c _ _ _ _ _ _ [] [])
      by (first [reflexivity | exact Hpl | lk]).
    cbn [snd]. replace (_ <$> _) with (@nil job) by (by destruct (outcome_of c)).
    cbn [app]. rewrite (run_idle k) by reflexivity.
    rewrite (resolve_with_deferred _ _ _ _ _ _ _ (length h + 1)) by lk.
    cbn [snd app]. apply Tail; lk.
  - rewrite E2.
    rewrite (resolve_with_deferred _ _ _ _ _ _ _ (length h + 1)) by lk.
    cbn [snd app].
    destruct k as [|k].
    + cbn [run].
      rewrite (settle_plain d2 (length cl) (length h) c _ _ _ _ _ _ [] [])
        by (first [reflexivity | exact Hpl | lk]).
      cbn [snd]. replace (_ <$> _) with (@nil job) by (by destruct (outcome_of c)).
      cbn [app]. apply Tail; lk.
    + cbn [run]. rewrite thenable_job_deferred.
      rewrite (thenable_turn_pending _ _ _ _ _ _ (length h + 1) (length h) [] []) by lk.
      rewrite (run_idle k) by reflexivity. cbn [app].
      rewrite (settle_plain d2 (length cl) (length h) c _ _ _ _ _ _
                 [mkReaction _ Fulfill _] [mkReaction _ Reject _])
        by (first [reflexivity | exact Hpl | lk]).
      cbn [snd app].
      match goal with
      | |- context [_ <$> ?x] =>
          replace ((fun r => ReactionJob r (outcome_arg (outcome_of c))) <$> x)
            with [ReactionJob
                    (mkReaction (length (<[(length cl + 1)%nat := ((length h + 1)%nat, true)]>
                                   ((cl ++ [(length h, false)])
                                      ++ [((length h + 1)%nat, false)])) + 1)
                       (outcome_type (outcome_of c))
                       (Some (settle_with (outcome_of c)
                                (length (<[(length cl + 1)%nat := ((length h + 1)%nat, true)]>
                                   ((cl ++ [(length h, false)])
                                      ++ [((length h + 1)%nat, false)]))))))
                    (outcome_arg (outcome_of c))]
            by (by destruct (outcome_of c))
      end.
      change (run 2 ?x) with (tick (tick x)).
      rewrite (adopt_turn _ _ _ _ _ _ _ _ (length h + 1)
                 (length h + 1 + 1) (outcome_of c) [] [])
        by (first [exact Hpl | (len; lia) | (len; lk)]).
      replace (_ <$> _) with (@nil job) by (by destruct (outcome_of c)).
      cbn [app]. unfold tick, state_of. cbn [queue heap]. split; [len; lk|done].
  - rewrite E2.
    rewrite (resolve_with_deferred _ _ _ _ _ _ _ (length h + 1)) by lk.
    cbn [snd app].
    destruct k as [|k]; cbn [run].
    + unfold state_of. cbn [heap]. lk.
    + rewrite thenable_job_deferred.
      rewrite (thenable_turn_pending _ _ _ _ _ _ (length h + 1) (length h) [] []) by lk.
      rewrite (run_idle k) by reflexivity. unfold state_of. cbn [heap]. lk.
Qed.

Lemma DeferredPromise_follows_deferred_witness :
  let d2 := fst (DeferredPromise.constructor init) in
  let st1 := snd (DeferredPromise.constructor init) in
  let d1 := fst (DeferredPromise.constructor st1) in
  let st2 := snd (DeferredPromise.constructor st1) in
  state_of
    (run 2 (snd (settle d2 (CallReject (VStr "boom"))
                   (run 1 (snd (settle d1 (CallResolve (DeferredPromise.to_val d2))
                                  st2))))))
    (DeferredPromise.promise d1)
  = Some (Rejected (VStr "boom")).
Proof.
  exact (proj1 (proj1 (proj2 (DeferredPromise_follows_deferred init
                                (CallReject (VStr "boom")) 1 eq_refl I)))).
Defined.

(** * Further properties of PromiseSynch *)

(** X7. [add] of a value that has no [finally] (anything but a promise or a
    DeferredPromise) throws a TypeError synchronously.  The ticket number is
    used up all the same, since [#index] is incremented before the call of
    [finally]; the Map, the promises, the job queue and the log are as
    before. *)
Theorem PromiseSynch_add_without_finally (st : state) (s : nat) (sy : synch) (v : val) :
  synchs st !! s = Some sy -> get_then v = None ->
  exists msg,
    PromiseSynch.add s v st
    = (Throw (TypeError msg),
       mkState (heap st) (cells st) (aggs st) (queue st) (log st)
               (<[s := mkSynch (S (s_index sy)) (s_promises sy)]> (synchs st))).
Proof.
  intros Hs Hv. exists "promise.finally is not a function".
  unfold PromiseSynch.add. rewrite Hs.
  destruct v; try discriminate Hv; reflexivity.
Qed.

Lemma PromiseSynch_add_without_finally_witness :
  exists msg,
    PromiseSynch.add 0 VUndef (snd (PromiseSynch.constructor init))
    = (Throw (TypeError msg), mkState [] [] [] [] [] [mkSynch 1 []]).
Proof.
  exact (PromiseSynch_add_without_finally (snd (PromiseSynch.constructor init)) 0
           (mkSynch 0 []) VUndef eq_refl eq_refl).
Defined.

(** ** A future added to the registry, and what is stored for it *)

Lemma map_delete_absent t m : map_has t m = false -> map_delete t m = m.
Proof.
  induction m as [|[k w] m IH]; cbn; [reflexivity|].
  destruct (Nat.eqb k t); cbn; [discriminate|]. intros H. by rewrite IH.
Qed.

Lemma map_delete_set_fresh t v m :
  map_has t m = false -> map_delete t (map_set t v m) = m.
Proof.
  induction m as [|[k w] m IH]; cbn.
  - by rewrite Nat.eqb_refl.
  - destruct (Nat.eqb k t) eqn:E; cbn; [discriminate|]. intros H.
    rewrite E. by rewrite IH.
Qed.

(** The four jobs that follow the settlement of a future given to [add],
    seen from the promise [D] that [finally] returned and that the registry
    stores. *)
Lemma finally_chain hp cl ag lg sy (s t KD D : nat) (o : pstate) idx mp :
  plain o ->
  cl !! KD = Some (D, false) -> hp !! D = Some (bare Pending) ->
  sy !! s = Some (mkSynch idx mp) ->
  let st :=
    mkState hp cl ag
      [ReactionJob (mkReaction KD (outcome_type o)
                      (Some (finally_handler o (FDelete s t)))) (outcome_arg o)]
      lg sy in
  synchs (tick st) = <[s := mkSynch idx (map_delete t mp)]> sy
  /\ heap (tick st) !! D = Some (bare Pending)
  /\ heap (run 4 st) !! D = Some (bare o)
  /\ (forall p, (p < length hp)%nat -> p <> D -> heap (run 4 st) !! p = hp !! p)
  /\ queue (run 4 st) = []
  /\ log (run 4 st) = lg
  /\ synchs (run 4 st) = <[s := mkSynch idx (map_delete t mp)]> sy.
Proof.
  intros Hpl HKD HD Hs.
  pose proof (lookup_lt_Some _ _ _ HKD). pose proof (lookup_lt_Some _ _ _ HD).
  assert (No : o <> Pending) by (destruct o; [destruct Hpl|discriminate..]).
  cbn zeta.
  change (run 4 ?x) with (tick (tick (tick (tick x)))).
  rewrite (eviction_turn _ _ _ _ _ _ s t KD D o idx mp) by (lk || (len; lia)).
  cbn [app]. split; [reflexivity|]. split; [lk|].
  rewrite (restore_turn _ _ _ _ _ _ (length cl + 1) (length hp + 1) o) by (len; lk).
  rewrite (thenable_turn _ _ _ _ _ _ D (length hp + 1) o) by (lk || exact No).
  len. cbn [app].
  rewrite (adopt_turn _ _ _ _ _ _ (length cl + 1 + 1) (length cl + 1 + 1 + 1) D
             (length hp + 1 + 1) o [] [])
    by (first [exact Hpl | lia | lk]).
  cbn [heap queue log synchs].
  split; [lk|]. split; [intros p Hp Hne; lk|].
  split; [by destruct o|]. done.
Qed.

(** X8. Adding a future and letting it settle gives the Map back as it was.
    In a registry whose next ticket is not in the Map: [add(d)] appends one
    entry, under that ticket, after the entries already there; when [d]
    settles, one turn of the scheduler later the Map holds exactly the
    entries it held before the [add], with their values and in their order.
    The same holds when [d] is settled first and added afterwards.  The
    counter stays one higher, and no other registry is changed. *)
Theorem PromiseSynch_add_then_settle_restores_map
    (st : state) (s idx : nat) (mp : list (nat * val)) (c : settle_call) :
  queue st = [] -> synchs st !! s = Some (mkSynch idx mp) -> map_has idx mp = false ->
  plain (outcome_of c) ->
  let d := fst (DeferredPromise.constructor st) in
  let st1 := snd (DeferredPromise.constructor st) in
  let add := PromiseSynch.add s (DeferredPromise.to_val d) in
  (exists D, synchs (snd (add st1)) !! s = Some (mkSynch (S idx) (mp ++ [(idx, VPromise D)])))
  /\ synchs (tick (snd (settle d c (snd (add st1))))) !! s = Some (mkSynch (S idx) mp)
  /\ synchs (tick (snd (add (snd (settle d c st1))))) !! s = Some (mkSynch (S idx) mp)
  /\ (forall s', s' <> s ->
        synchs (tick (snd (settle d c (snd (add st1))))) !! s' = synchs st !! s').
Proof.
  destruct st as [h cl a q l sy]. cbn [queue synchs]. intros -> Hs Hfresh Hpl. cbn zeta.
  pose proof (lookup_lt_Some _ _ _ Hs) as Hslt.
  assert (No : outcome_of c <> Pending) by (destruct c; discriminate).
  set (d := fst (DeferredPromise.constructor (mkState h cl a [] l sy))).
  set (st1 := snd (DeferredPromise.constructor (mkState h cl a [] l sy))).
  assert (E1 : st1 = mkState (h ++ [bare Pending]) (cl ++ [(length h, false)]) a [] l sy)
    by reflexivity.
  assert (Vd : DeferredPromise.to_val d = VDeferred (length h)) by reflexivity.
  rewrite Vd.
  assert (Eadd : snd (PromiseSynch.add s (VDeferred (length h)) st1)
    = mkState
        (<[length h := mkPromise Pending
              [mkReaction (length cl + 1) Fulfill (Some (FThenFinally (FDelete s idx)))]
              [mkReaction (length cl + 1) Reject (Some (FCatchFinally (FDelete s idx)))]]>
           ((h ++ [bare Pending]) ++ [bare Pending]))
        ((cl ++ [(length h, false)]) ++ [((length h + 1)%nat, false)]) a [] l
        (<[s := mkSynch (S idx) (mp ++ [(idx, VPromise (length h + 1))])]> sy)).
  { rewrite (add_deferred s st1 (mkSynch idx mp)) by (rewrite E1; exact Hs).
    cbn [snd s_index s_promises]. rewrite E1.
    cbn [set_synchs heap cells aggs queue log synchs].
    rewrite (then_pending _ _ _ _ _ _ (length h) [] []) by lk.
    cbn [snd app]. rewrite map_set_fresh by exact Hfresh. len. reflexivity. }
  assert (Efirst : synchs (tick (snd (settle d c (snd (PromiseSynch.add s (VDeferred (length h)) st1)))))
                   = <[s := mkSynch (S idx) mp]> sy).
  { rewrite Eadd.
    rewrite (settle_plain d (length cl) (length h) c _ _ _ _ _ _
               [mkReaction _ Fulfill _] [mkReaction _ Reject _])
      by (first [reflexivity | exact Hpl | lk]).
    cbn [snd app].
    match goal with
    | |- context [_ <$> ?x] =>
        replace ((fun r => ReactionJob r (outcome_arg (outcome_of c))) <$> x)
          with [ReactionJob
                  (mkReaction (length cl + 1) (outcome_type (outcome_of c))
                     (Some (finally_handler (outcome_of c) (FDelete s idx))))
                  (outcome_arg (outcome_of c))]
          by (by destruct (outcome_of c))
    end.
    destruct (finally_chain
                (<[length h := bare (outcome_of c)]>
                   (<[length h := mkPromise Pending
                        [mkReaction (length cl + 1) Fulfill
                           (Some (FThenFinally (FDelete s idx)))]
                        [mkReaction (length cl + 1) Reject
                           (Some (FCatchFinally (FDelete s idx)))]]>
                      ((h ++ [bare Pending]) ++ [bare Pending])))
                (<[length cl := (length h, true)]>
                   ((cl ++ [(length h, false)]) ++ [((length h + 1)%nat, false)]))
                a l
                (<[s := mkSynch (S idx) (mp ++ [(idx, VPromise (length h + 1))])]> sy)
                s idx (length cl + 1) (length h + 1) (outcome_of c) (S idx)
                (mp ++ [(idx, VPromise (length h + 1))]) Hpl)
      as (Hsy & _); [lk..|].
    rewrite Hsy. rewrite list_insert_insert_eq.
    rewrite <- (map_set_fresh idx _ mp Hfresh), map_delete_set_fresh by done. done. }
  split; [|split; [|split]].
  - exists (length h + 1)%nat. rewrite Eadd. cbn [synchs].
    by rewrite list_lookup_insert_eq.
  - rewrite Efirst. by rewrite list_lookup_insert_eq.
  - rewrite E1.
    rewrite (settle_plain d (length cl) (length h) c _ _ _ _ _ _ [] [])
      by (first [reflexivity | exact Hpl | lk]).
    cbn [snd]. replace (_ <$> _) with (@nil job) by (by destruct (outcome_of c)).
    cbn [app].
    rewrite (add_deferred s _ (mkSynch idx mp)) by exact Hs.
    cbn [snd s_index s_promises set_synchs heap cells aggs queue log synchs].
    rewrite (then_settled _ _ _ _ _ _ (length h) (outcome_of c)) by (lk || exact No).
    cbn [snd app].
    replace (match outcome_of c with
             | Rejected _ => Some (FCatchFinally (FDelete s idx))
             | _ => Some (FThenFinally (FDelete s idx))
             end)
      with (Some (finally_handler (outcome_of c) (FDelete s idx)))
      by (by destruct (outcome_of c)).
    match goal with
    | |- synchs (tick (mkState ?hp ?cs _ _ _ ?ss)) !! _ = _ =>
        destruct (finally_chain hp cs a l ss s idx (length cs - 1) (length hp - 1)
                    (outcome_of c) (S idx) (map_set idx (VPromise (length hp - 1)) mp) Hpl)
          as (Hsy & _)
    end.
    { len. replace (length cl + 1 + 1 - 1)%nat with (length cl + 1)%nat by lia.
      replace (length h + 1 + 1 - 1)%nat with (length h + 1)%nat by lia. lk. }
    { len. replace (length h + 1 + 1 - 1)%nat with (length h + 1)%nat by lia. lk. }
    { len. replace (length h + 1 + 1 - 1)%nat with (length h + 1)%nat by lia.
      by rewrite list_lookup_insert_eq. }
    revert Hsy. len.
    replace (length cl + 1 + 1 - 1)%nat with (length cl + 1)%nat by lia.
    replace (length h + 1 + 1 - 1)%nat with (length h + 1)%nat by lia.
    intros Hsy. rewrite Hsy.
    rewrite list_insert_insert_eq, list_lookup_insert_eq by done.
    by rewrite map_delete_set_fresh.
  - intros s' Hne. rewrite Efirst. by rewrite list_lookup_insert_ne.
Qed.

Lemma PromiseSynch_add_then_settle_restores_map_witness :
  let st := snd (PromiseSynch.add 0 (VDeferred 0)
                   (snd (DeferredPromise.constructor
                           (snd (PromiseSynch.constructor init))))) in
  let d := fst (DeferredPromise.constructor st) in
  let st1 := snd (DeferredPromise.constructor st) in
  synchs (tick (snd (settle d (CallResolve (VStr "v"))
                       (snd (PromiseSynch.add 0 (DeferredPromise.to_val d) st1))))) !! 0%nat
  = Some (mkSynch 2 [(0%nat, VPromise 1)]).
Proof.
  exact (proj1 (proj2 (PromiseSynch_add_then_settle_restores_map
                         (snd (PromiseSynch.add 0 (VDeferred 0)
                                 (snd (DeferredPromise.constructor
                                         (snd (PromiseSynch.constructor init))))))
                         0 1 [(0%nat, VPromise 1)] (CallResolve (VStr "v"))
                         eq_refl eq_refl eq_refl eq_refl))).
Defined.

Lemma map_set_elem t v m : (t, v) ∈ map_set t v m.
Proof.
  induction m as [|[k w] m IH]; cbn; [by apply list_elem_of_singleton|].
  destruct (Nat.eqb k t) eqn:E.
  - apply Nat.eqb_eq in E as ->. apply elem_of_cons. by left.
  - apply elem_of_cons. by right.
Qed.

(** X9. The registry does not store the future given to [add] but the promise
    [finally] returned for it, and that promise takes the outcome of the
    future unchanged: four turns of the scheduler after the future has
    settled, the stored promise is fulfilled with the future's value or
    rejected with the future's error; the boolean the callback of [add]
    returns is not seen.  The same holds for a future that had settled before
    it was added.  Until the future settles the stored promise is pending. *)
Theorem PromiseSynch_stored_promise_outcome
    (st : state) (s idx : nat) (mp : list (nat * val)) (c : settle_call) :
  queue st = [] -> synchs st !! s = Some (mkSynch idx mp) -> plain (outcome_of c) ->
  let d := fst (DeferredPromise.constructor st) in
  let st1 := snd (DeferredPromise.constructor st) in
  let add := PromiseSynch.add s (DeferredPromise.to_val d) in
  let stored := fun (st' : state) (D : ref) =>
    exists sy', synchs st' !! s = Some sy' /\ (idx, VPromise D) ∈ s_promises sy' in
  (exists D,
     D <> DeferredPromise.promise d
     /\ stored (snd (add st1)) D
     /\ state_of (snd (add st1)) D = Some Pending
     /\ let st4 := run 4 (snd (settle d c (snd (add st1)))) in
        state_of st4 D = Some (outcome_of c)
        /\ state_of st4 (DeferredPromise.promise d) = Some (outcome_of c)
        /\ queue st4 = [] /\ log st4 = log st)
  /\ (exists D,
        D <> DeferredPromise.promise d
        /\ stored (snd (add (snd (settle d c st1)))) D
        /\ let st4 := run 4 (snd (add (snd (settle d c st1)))) in
           state_of st4 D = Some (outcome_of c)
           /\ state_of st4 (DeferredPromise.promise d) = Some (outcome_of c)
           /\ queue st4 = [] /\ log st4 = log st).
Proof.
  destruct st as [h cl a q l sy]. cbn [queue synchs log]. intros -> Hs Hpl. cbn zeta.
  pose proof (lookup_lt_Some _ _ _ Hs) as Hslt.
  assert (No : outcome_of c <> Pending) by (destruct c; discriminate).
  set (d := fst (DeferredPromise.constructor (mkState h cl a [] l sy))).
  set (st1 := snd (DeferredPromise.constructor (mkState h cl a [] l sy))).
  assert (E1 : st1 = mkState (h ++ [bare Pending]) (cl ++ [(length h, false)]) a [] l sy)
    by reflexivity.
  assert (Vd : DeferredPromise.to_val d = VDeferred (length h)) by reflexivity.
  assert (Pd : DeferredPromise.promise d = length h) by reflexivity.
  rewrite Vd, Pd.
  assert (Eadd : snd (PromiseSynch.add s (VDeferred (length h)) st1)
    = mkState
        (<[length h := mkPromise Pending
              [mkReaction (length cl + 1) Fulfill (Some (FThenFinally (FDelete s idx)))]
              [mkReaction (length cl + 1) Reject (Some (FCatchFinally (FDelete s idx)))]]>
           ((h ++ [bare Pending]) ++ [bare Pending]))
        ((cl ++ [(length h, false)]) ++ [((length h + 1)%nat, false)]) a [] l
        (<[s := mkSynch (S idx) (map_set idx (VPromise (length h + 1)) mp)]> sy)).
  { rewrite (add_deferred s st1 (mkSynch idx mp)) by (rewrite E1; exact Hs).
    cbn [snd s_index s_promises]. rewrite E1.
    cbn [set_synchs heap cells aggs queue log synchs].
    rewrite (then_pending _ _ _ _ _ _ (length h) [] []) by lk.
    cbn [snd app]. len. reflexivity. }
  split.
  - exists (length h + 1)%nat. split; [lia|]. rewrite Eadd.
    split; [|split].
    { eexists. cbn [synchs]. split; [by apply list_lookup_insert_eq|].
      apply map_set_elem. }
    { unfold state_of. cbn [heap]. lk. }
    rewrite (settle_plain d (length cl) (length h) c _ _ _ _ _ _
               [mkReaction _ Fulfill _] [mkReaction _ Reject _])
      by (first [reflexivity | exact Hpl | lk]).
    cbn [snd app].
    match goal with
    | |- context [_ <$> ?x] =>
        replace ((fun r => ReactionJob r (outcome_arg (outcome_of c))) <$> x)
          with [ReactionJob
                  (mkReaction (length cl + 1) (outcome_type (outcome_of c))
                     (Some (finally_handler (outcome_of c) (FDelete s idx))))
                  (outcome_arg (outcome_of c))]
          by (by destruct (outcome_of c))
    end.
    match goal with
    | |- context [run 4 (mkState ?hp ?cs _ _ _ ?ss)] =>
        destruct (finally_chain hp cs a l ss s idx (length cl + 1) (length h + 1)
                    (outcome_of c) (S idx) (map_set idx (VPromise (length h + 1)) mp) Hpl)
          as (_ & _ & HD & Hold & Hq & Hl & _); [lk..|]
    end.
    cbn zeta. unfold state_of. rewrite HD, Hq, Hl.
    rewrite Hold by (len; lia). split; [done|]. split; [lk|done].
  - exists (length h + 1)%nat. split; [lia|]. rewrite E1.
    rewrite (settle_plain d (length cl) (length h) c _ _ _ _ _ _ [] [])
      by (first [reflexivity | exact Hpl | lk]).
    cbn [snd]. replace (_ <$> _) with (@nil job) by (by destruct (outcome_of c)).
    cbn [app].
    rewrite (add_deferred s _ (mkSynch idx mp)) by exact Hs.
    cbn [snd s_index s_promises set_synchs heap cells aggs queue log synchs].
    rewrite (then_settled _ _ _ _ _ _ (length h) (outcome_of c)) by (lk || exact No).
    cbn [snd app].
    replace (match outcome_of c with
             | Rejected _ => Some (FCatchFinally (FDelete s idx))
             | _ => Some (FThenFinally (FDelete s idx))
             end)
      with (Some (finally_handler (outcome_of c) (FDelete s idx)))
      by (by destruct (outcome_of c)).
    revert Hslt. len. intros Hslt.
    split.
    { eexists. cbn [synchs]. split; [by apply list_lookup_insert_eq|].
      apply map_set_elem. }
    match goal with
    | |- context [run 4 (mkState ?hp ?cs _ _ _ ?ss)] =>
        destruct (finally_chain hp cs a l ss s idx (length cl + 1) (length h + 1)
                    (outcome_of c) (S idx) (map_set idx (VPromise (length h + 1)) mp) Hpl)
          as (_ & _ & HD & Hold & Hq & Hl & _); [lk..|]
    end.
    cbn zeta. unfold state_of. rewrite HD, Hq, Hl.
    rewrite Hold by (len; lia). split; [done|]. split; [lk|done].
Qed.

Lemma PromiseSynch_stored_promise_outcome_witness :
  let st := snd (PromiseSynch.constructor init) in
  let d := fst (DeferredPromise.constructor st) in
  let st1 := snd (DeferredPromise.constructor st) in
  exists D,
    D <> DeferredPromise.promise d
    /\ state_of (run 4 (snd (settle d (CallReject (VStr "boom"))
                               (snd (PromiseSynch.add 0 (DeferredPromise.to_val d) st1)))))
         D = Some (Rejected (VStr "boom")).
Proof.
  destruct (proj1 (PromiseSynch_stored_promise_outcome
                     (snd (PromiseSynch.constructor init)) 0 0 []
                     (CallReject (VStr "boom")) eq_refl eq_refl I))
    as (D & Hne & _ & _ & HD & _).
  exists D. split; [exact Hne|exact HD].
Defined.

(** * Watching does not disturb

    [Promise.all], [Promise.race] and [Promise.allSettled] create promises,
    resolving functions and an aggregate of their own and register reactions
    on the promises they watch; they settle nothing that existed before the
    call. *)

Section Observes.
Variable st0 : state.

(** A state reached from [st0] by allocation and registration only: the
    registries and the log are those of [st0], every promise of [st0] has
    the state it had, and what was created since only refers to promises
    created since. *)
Record observes (st : state) : Prop := mkObserves {
  ob_synchs : synchs st = synchs st0;
  ob_log : log st = log st0;
  ob_heap : (length (heap st0) <= length (heap st))%nat;
  ob_cells : (length (cells st0) <= length (cells st))%nat;
  ob_aggs : (length (aggs st0) <= length (aggs st))%nat;
  ob_states : forall p, (p < length (heap st0))%nat -> state_of st p = state_of st0 p;
  ob_new_cells : forall k p b,
    (length (cells st0) <= k)%nat -> cells st !! k = Some (p, b) ->
    (length (heap st0) <= p)%nat;
  ob_new_aggs : forall a g,
    (length (aggs st0) <= a)%nat -> aggs st !! a = Some g ->
    (length (cells st0) <= a_cap g)%nat
}.

Lemma observes_refl : observes st0.
Proof.
  split; try done.
  - intros k p b Hk Hc. apply lookup_lt_Some in Hc. lia.
  - intros a g Ha Hg. apply lookup_lt_Some in Hg. lia.
Qed.

Lemma observes_new_promise st : observes st -> observes (snd (new_promise st)).
Proof.
  intros [O1 O2 O3 O4 O5 O6 O7 O8]. split; cbn; try done.
  - rewrite length_app. lia.
  - rewrite length_app. lia.
  - intros p Hp. rewrite <- O6 by done. unfold state_of. cbn.
    by rewrite lookup_app_l by lia.
  - intros k p b Hk Hc. apply lookup_app_Some in Hc as [Hc|[Hlen Hc]].
    + by eapply O7.
    + apply list_lookup_singleton_Some in Hc as [_ [= <- <-]]. lia.
Qed.

Lemma observes_new_cell st p :
  observes st -> (length (heap st0) <= p)%nat -> observes (snd (new_cell p st)).
Proof.
  intros [O1 O2 O3 O4 O5 O6 O7 O8] Hp. split; cbn; try done.
  - rewrite length_app. lia.
  - intros k p' b Hk Hc. apply lookup_app_Some in Hc as [Hc|[Hlen Hc]].
    + by eapply O7.
    + apply list_lookup_singleton_Some in Hc as [_ [= <- <-]]. lia.
Qed.

(** Settling a promise created since. *)
Lemma observes_settle st (p : ref) (pr : promise) (jobs : list job) :
  observes st -> (length (heap st0) <= p)%nat ->
  observes (mkState (<[p := pr]> (heap st)) (cells st) (aggs st)
              (queue st ++ jobs) (log st) (synchs st)).
Proof.
  intros [O1 O2 O3 O4 O5 O6 O7 O8] Hp. split; cbn; try done.
  - by rewrite length_insert.
  - intros p' Hp'. rewrite <- O6 by done. unfold state_of. cbn.
    by rewrite list_lookup_insert_ne by lia.
Qed.

Lemma observes_FulfillPromise st p v :
  observes st -> (length (heap st0) <= p)%nat -> observes (snd (FulfillPromise p v st)).
Proof.
  intros O Hp. unfold FulfillPromise. destruct (heap st !! p) as [pr|]; [|done].
  cbn. by apply (observes_settle st).
Qed.

Lemma observes_RejectPromise st p e :
  observes st -> (length (heap st0) <= p)%nat -> observes (snd (RejectPromise p e st)).
Proof.
  intros O Hp. unfold RejectPromise. destruct (heap st !! p) as [pr|]; [|done].
  cbn. by apply (observes_settle st).
Qed.

Lemma observes_flag st k p :
  observes st -> cells st !! k = Some (p, false) ->
  observes (set_cells (fun c => <[k := (p, true)]> c) st).
Proof.
  intros [O1 O2 O3 O4 O5 O6 O7 O8] Hk. split; cbn; try done.
  - by rewrite length_insert.
  - intros k' p' b Hk' Hc. destruct (decide (k' = k)) as [->|Hne].
    + rewrite list_lookup_insert_eq in Hc by (by eapply lookup_lt_Some).
      injection Hc as <- <-. by eapply O7.
    + rewrite list_lookup_insert_ne in Hc by done. by eapply O7.
Qed.

Lemma observes_enqueue st j : observes st -> observes (snd (enqueue j st)).
Proof. intros [O1 O2 O3 O4 O5 O6 O7 O8]. by split. Qed.

(** A resolving function created since the start settles a promise created
    since the start. *)
Lemma observes_resolve_fn st k x :
  observes st -> (length (cells st0) <= k)%nat -> observes (snd (resolve_fn k x st)).
Proof.
  intros O Hk. unfold resolve_fn.
  destruct (cells st !! k) as [[p []]|] eqn:Hc; try done.
  pose proof (ob_new_cells st O k p false Hk Hc) as Hp.
  pose proof (observes_flag st k p O Hc) as O'.
  destruct x; cbn [snd];
    try (by apply observes_FulfillPromise);
    try (by apply (observes_enqueue _ _ O')).
  destruct (Nat.eqb _ _); cbn [snd].
  - by apply observes_RejectPromise.
  - by apply (observes_enqueue _ _ O').
Qed.

Lemma observes_PerformPromiseThen st p h1 h2 cap :
  observes st -> observes (snd (PerformPromiseThen p h1 h2 cap st)).
Proof.
  intros O. unfold PerformPromiseThen. destruct (heap st !! p) as [pr|] eqn:Hp; [|done].
  destruct (p_state pr) eqn:Es.
  - destruct O as [O1 O2 O3 O4 O5 O6 O7 O8]. split; cbn; try done.
    + by rewrite length_insert.
    + intros p' Hp'. rewrite <- O6 by done. unfold state_of. cbn.
      destruct (decide (p' = p)) as [->|Hne].
      * rewrite list_lookup_insert_eq by (by eapply lookup_lt_Some).
        rewrite Hp. cbn. by rewrite Es.
      * by rewrite list_lookup_insert_ne.
  - by apply observes_enqueue.
  - by apply observes_enqueue.
Qed.

Lemma observes_promise_then st p h1 h2 :
  observes st -> observes (snd (promise_then p h1 h2 st)).
Proof.
  intros O. rewrite snd_promise_then.
  by apply observes_PerformPromiseThen, observes_new_promise.
Qed.

Lemma observes_PromiseResolve st x :
  observes st -> observes (snd (PromiseResolve x st)).
Proof.
  intros O.
  assert (H : observes (snd ((do (p, k) <- new_promise; resolve_fn k x ;; ret p) st))).
  { rewrite snd_bind. cbn [new_promise fst snd]. rewrite snd_bind. cbn [ret snd].
    apply observes_resolve_fn.
    - by apply (observes_new_promise st).
    - by destruct O. }
  destruct x; try exact H. exact O.
Qed.

Lemma observes_new_agg st cap :
  observes st -> (length (cells st0) <= cap)%nat -> observes (snd (new_agg cap st)).
Proof.
  intros [O1 O2 O3 O4 O5 O6 O7 O8] Hcap. split; cbn; try done.
  - rewrite length_app. lia.
  - intros a g Ha Hg. apply lookup_app_Some in Hg as [Hg|[Hlen Hg]].
    + by eapply O8.
    + apply list_lookup_singleton_Some in Hg as [_ <-]. done.
Qed.

Lemma observes_agg_push st a : observes st -> observes (snd (agg_push a st)).
Proof.
  intros [O1 O2 O3 O4 O5 O6 O7 O8]. unfold agg_push, modify. cbn.
  destruct (aggs st !! a) as [g|] eqn:Hg; [|by split].
  split; cbn; try done.
  - by rewrite length_insert.
  - intros a' g' Ha' Hg'. destruct (decide (a' = a)) as [->|Hne].
    + rewrite list_lookup_insert_eq in Hg' by (by eapply lookup_lt_Some).
      injection Hg' as <-. cbn. by eapply O8.
    + rewrite list_lookup_insert_ne in Hg' by done. by eapply O8.
Qed.

Lemma observes_agg_finish st a :
  observes st -> (length (aggs st0) <= a)%nat -> observes (snd (agg_finish a st)).
Proof.
  intros O Ha. unfold agg_finish. destruct (aggs st !! a) as [g|] eqn:Hg; [|done].
  pose proof (ob_new_aggs st O a g Ha Hg) as Hcap.
  assert (O' : observes
            (set_aggs (fun l => <[a := mkAgg (a_values g) (a_called g)
                                          (a_remaining g - 1) (a_cap g)]> l) st)).
  { destruct O as [O1 O2 O3 O4 O5 O6 O7 O8]. split; cbn; try done.
    - by rewrite length_insert.
    - intros a' g' Ha' Hg'. destruct (decide (a' = a)) as [->|Hne].
      + rewrite list_lookup_insert_eq in Hg' by (by eapply lookup_lt_Some).
        by injection Hg' as <-.
      + rewrite list_lookup_insert_ne in Hg' by done. by eapply O8. }
  destruct (_ =? 0); cbn [snd]; [|done].
  by apply observes_resolve_fn.
Qed.

Lemma observes_aggregate_loop mk a items : forall index st,
  observes st -> observes (snd (aggregate_loop mk a items index st)).
Proof.
  induction items as [|x items IH]; intros index st O; [done|].
  cbn [aggregate_loop]. rewrite !snd_bind. apply IH.
  by apply observes_promise_then, observes_PromiseResolve, observes_agg_push.
Qed.

Lemma observes_race_loop k items : forall st,
  observes st -> observes (snd (race_loop k items st)).
Proof.
  induction items as [|x items IH]; intros st O; [done|].
  cbn [race_loop]. rewrite !snd_bind. apply IH.
  by apply observes_promise_then, observes_PromiseResolve.
Qed.

End Observes.

Lemma observes_aggregate (mk : nat -> nat -> nat -> fn * fn) items st :
  observes st
    (snd ((do (r, k) <- new_promise;
           do a <- new_agg k;
           aggregate_loop (mk a k) a items 0%nat ;;
           agg_finish a ;;
           ret r) st)).
Proof.
  rewrite snd_bind. cbn [new_promise fst snd]. rewrite snd_bind.
  cbn [new_agg fst snd]. rewrite !snd_bind. cbn [ret snd].
  apply observes_agg_finish; [|cbn; lia].
  apply observes_aggregate_loop.
  apply (observes_new_agg st (snd (new_promise st)) (length (cells st))); [|lia].
  apply observes_new_promise, observes_refl.
Qed.

Lemma observes_Promise_allSettled items st :
  observes st (snd (Promise_allSettled items st)).
Proof. apply (observes_aggregate (fun a k i => (FSettledOk a i, FSettledErr a i))). Qed.

Lemma observes_Promise_all items st : observes st (snd (Promise_all items st)).
Proof. apply (observes_aggregate (fun a k i => (FAllElem a i, FReject k))). Qed.

Lemma observes_Promise_race items st : observes st (snd (Promise_race items st)).
Proof.
  unfold Promise_race. rewrite snd_bind. cbn [new_promise fst snd].
  rewrite snd_bind. cbn [ret snd].
  apply observes_race_loop, observes_new_promise, observes_refl.
Qed.

(** X10. [allSettled] only observes.  Whatever the registry holds and whether a
    callback is given or not, the call changes neither the counter nor the
    Map of any registry, runs no callback (the log is as before, also when
    the registry is empty and the result is settled at once), leaves every
    existing promise in the state it was in, and returns a promise that did
    not exist before. *)
Theorem PromiseSynch_allSettled_only_observes
    (st : state) (s : nat) (onsettled : option fn) :
  let r := fst (PromiseSynch.allSettled s onsettled st) in
  let st' := snd (PromiseSynch.allSettled s onsettled st) in
  synchs st' = synchs st /\ log st' = log st
  /\ (forall p, (p < length (heap st))%nat -> state_of st' p = state_of st p)
  /\ (length (heap st) <= r)%nat.
Proof.
  cbn zeta. unfold PromiseSynch.allSettled.
  set (values := match synchs st !! s with Some sy => snd <$> s_promises sy | None => [] end).
  pose proof (observes_Promise_allSettled values st) as O.
  rewrite (Promise_allSettled_eq values st) in O |- *. cbn [snd] in O.
  destruct onsettled as [f|].
  - apply (observes_promise_then st _ (length (heap st)) (Some f) None) in O as O'.
    destruct O' as [O1 O2 O3 O4 O5 O6 O7 O8].
    rewrite fst_promise_then. destruct O. repeat split; try done.
  - destruct O as [O1 O2 O3 O4 O5 O6 O7 O8]. cbn [fst snd]. repeat split; try done.
Qed.

Lemma PromiseSynch_allSettled_only_observes_witness :
  let st := snd (PromiseSynch.add 0 (VDeferred 0)
                   (snd (DeferredPromise.constructor
                           (snd (PromiseSynch.constructor init))))) in
  state_of (snd (PromiseSynch.allSettled 0 None st)) 1 = state_of st 1.
Proof.
  refine (proj1 (proj2 (proj2 (PromiseSynch_allSettled_only_observes
                                 (snd (PromiseSynch.add 0 (VDeferred 0)
                                         (snd (DeferredPromise.constructor
                                                 (snd (PromiseSynch.constructor init))))))
                                 0 None)))
            1%nat _).
  vm_compute. lia.
Defined.

(** X11. [all()] and [race()] only observe the barrier.  On any barrier and in
    any state, a call changes the state of no existing promise, so of no slot,
    runs no callback and returns a promise that did not exist before: the
    barrier can be asked any number of times, before or after its slots are
    resolved. *)
Theorem Barrier_all_race_only_observe (b : Barrier.t) (st : state) :
  (let r := fst (Barrier.all b st) in
   let st' := snd (Barrier.all b st) in
   (forall p, (p < length (heap st))%nat -> state_of st' p = state_of st p)
   /\ log st' = log st /\ (length (heap st) <= r)%nat)
  /\ (let r := fst (Barrier.race b st) in
      let st' := snd (Barrier.race b st) in
      (forall p, (p < length (heap st))%nat -> state_of st' p = state_of st p)
      /\ log st' = log st /\ (length (heap st) <= r)%nat).
Proof.
  cbn zeta. unfold Barrier.all, Barrier.race. split.
  - destruct (observes_Promise_all (Barrier.promises b) st) as [O1 O2 O3 O4 O5 O6 O7 O8].
    repeat split; try done.
    unfold Promise_all. rewrite fst_bind. cbn [new_promise fst snd].
    rewrite !fst_bind. cbn [ret fst]. done.
  - destruct (observes_Promise_race (Barrier.promises b) st) as [O1 O2 O3 O4 O5 O6 O7 O8].
    repeat split; try done.
    unfold Promise_race. rewrite fst_bind. cbn [new_promise fst snd].
    rewrite !fst_bind. cbn [ret fst]. done.
Qed.

Lemma Barrier_all_race_only_observe_witness :
  let st := snd (call (FResolve 1) (VStr "b") (alloc_promises 2 init)) in
  state_of (snd (Barrier.all (fresh_barrier 2 init) st)) 0 = state_of st 0.
Proof.
  refine (proj1 (proj1 (Barrier_all_race_only_observe (fresh_barrier 2 init)
                          (snd (call (FResolve 1) (VStr "b") (alloc_promises 2 init)))))
            0%nat _).
  vm_compute. lia.
Defined.

(** * A slot resolved with a promise *)

(** A pending promise resolved, through its resolve function, with a promise
    or DeferredPromise that has already settled: two turns later it has the
    same outcome. *)
Lemma follow_settled hp cl ag lg sy (k p q : nat) (o : pstate) (x : val) :
  plain o -> get_then x = Some q ->
  cl !! k = Some (p, false) -> hp !! p = Some (bare Pending) -> hp !! q = Some (bare o) ->
  run 2 (snd (resolve_fn k x (mkState hp cl ag [] lg sy)))
  = mkState (<[length hp := bare (Fulfilled VUndef)]> (<[p := bare o]> (hp ++ [bare Pending])))
            (<[(length cl + 1)%nat := (length hp, true)]>
               (<[length cl := (p, true)]>
                  ((<[k := (p, true)]> cl ++ [(p, false)]) ++ [(length hp, false)])))
            ag [] lg sy.
Proof.
  intros Hpl Hx Hk Hp Hq.
  assert (No : o <> Pending) by (destruct o; [destruct Hpl|discriminate..]).
  assert (Hne : q <> p) by (intros ->; rewrite Hp in Hq; injection Hq as <-; done).
  pose proof (lookup_lt_Some _ _ _ Hk). pose proof (lookup_lt_Some _ _ _ Hp).
  pose proof (lookup_lt_Some _ _ _ Hq).
  assert (E : snd (resolve_fn k x (mkState hp cl ag [] lg sy))
              = mkState hp (<[k := (p, true)]> cl) ag [ThenableJob p x] lg sy).
  { destruct x; try discriminate Hx; injection Hx as ->.
    - by rewrite (resolve_with_promise _ _ _ _ _ _ k p q Hk Hne).
    - by rewrite (resolve_with_deferred _ _ _ _ _ _ k p q Hk). }
  rewrite E. change (run 2 ?s) with (tick (tick s)).
  assert (T : tick (mkState hp (<[k := (p, true)]> cl) ag [ThenableJob p x] lg sy)
              = tick (mkState hp (<[k := (p, true)]> cl) ag [ThenableJob p (VPromise q)] lg sy)).
  { destruct x; try discriminate Hx; injection Hx as ->; reflexivity. }
  rewrite T. rewrite (thenable_turn _ _ _ _ _ _ p q o No Hq). cbn [app].
  rewrite (adopt_turn _ _ _ _ _ _ (length (<[k := (p, true)]> cl))
             (length (<[k := (p, true)]> cl) + 1) p (length hp) o [] [])
    by (first [exact Hpl | lia | (len; lia) | (len; lk)]).
  len. replace (_ <$> _) with (@nil job) by (by destruct o). reflexivity.
Qed.

(** X12. A slot can be resolved with a promise, and then takes its outcome.  On
    a barrier just built, [resolve(i, x)] with [x] a promise or
    DeferredPromise that is already settled returns normally and leaves slot
    [i] pending; two turns of the scheduler later slot [i] has the outcome of
    [x]: fulfilled with its value, or rejected with its error, which is how a
    slot of a barrier becomes rejected.  The other slots stay pending. *)
Theorem Barrier_slot_follows_promise
    (st : state) (n i : nat) (q : ref) (o : pstate) (x : val) :
  queue st = [] -> (i < n)%nat ->
  heap st !! q = Some (bare o) -> plain o -> get_then x = Some q ->
  exists st1,
    Barrier.resolve (fresh_barrier n st) (VNum (Fin (Z.of_nat i))) x (alloc_promises n st)
    = Some (Normal VUndef, st1)
    /\ state_of st1 (length (heap st) + i) = Some Pending
    /\ state_of (run 2 st1) (length (heap st) + i) = Some o
    /\ forall j : nat, (j < n)%nat -> j <> i ->
         state_of (run 2 st1) (length (heap st) + j) = Some Pending.
Proof.
  intros Hq0 Hi Hq Hpl Hx.
  exists (snd (call (FResolve (length (cells st) + i)) x (alloc_promises n st))).
  split.
  { apply Barrier_resolve_calls; [lia|]. rewrite Nat2Z.id.
    by apply fresh_barrier_resolveFunction. }
  pose proof (alloc_promises_cell n i st Hi) as Hk.
  pose proof (alloc_promises_slot n i st Hi) as Hp.
  assert (Hslots : forall j, (j < n)%nat ->
            heap (alloc_promises n st) !! (length (heap st) + j)%nat = Some (bare Pending)).
  { intros j Hj. by apply alloc_promises_slot. }
  assert (Hq' : heap (alloc_promises n st) !! q = Some (bare o)).
  { cbn. by apply lookup_app_l_Some. }
  assert (Hlen : length (heap (alloc_promises n st)) = (length (heap st) + n)%nat).
  { cbn. by rewrite length_app, length_replicate. }
  assert (Hqueue : queue (alloc_promises n st) = []) by exact Hq0.
  cbn [call].
  destruct (alloc_promises n st) as [hp cl ag qu lg sy]. cbn [heap cells queue] in *.
  subst qu. split.
  - assert (E : exists cl' qu',
               snd (resolve_fn (length (cells st) + i) x (mkState hp cl ag [] lg sy))
               = mkState hp cl' ag qu' lg sy).
    { unfold resolve_fn. cbn [cells]. rewrite Hk.
      destruct x; try discriminate Hx; cbn [snd]; try (eexists _, _; reflexivity).
      destruct (Nat.eqb _ _) eqn:Eq; [|eexists _, _; reflexivity].
      apply Nat.eqb_eq in Eq. injection Hx as ->. subst q. rewrite Hp in Hq'.
      injection Hq' as <-. destruct Hpl. }
    destruct E as (cl' & qu' & ->). unfold state_of. cbn [heap]. by rewrite Hp.
  - rewrite (follow_settled hp cl ag lg sy _ (length (heap st) + i) q o x Hpl Hx Hk Hp Hq').
    unfold state_of. cbn [heap].
    pose proof (lookup_lt_Some _ _ _ Hp).
    split.
    + rewrite list_lookup_insert_ne by lia.
      rewrite list_lookup_insert_eq by (rewrite length_app; lia). done.
    + intros j Hj Hne.
      rewrite !list_lookup_insert_ne by lia.
      rewrite lookup_app_l by lia. by rewrite Hslots.
Qed.

Lemma Barrier_slot_follows_promise_witness :
  let st := snd (call (FReject 0) (VStr "boom") (snd (DeferredPromise.constructor init))) in
  heap st !! 0%nat = Some (bare (Rejected (VStr "boom")))
  /\ exists st1,
       Barrier.resolve (fresh_barrier 2 st) (VNum (Fin 1)) (VDeferred 0) (alloc_promises 2 st)
       = Some (Normal VUndef, st1)
       /\ state_of (run 2 st1) 2 = Some (Rejected (VStr "boom"))
       /\ state_of (run 2 st1) 1 = Some Pending.
Proof.
  split; [reflexivity|].
  destruct (Barrier_slot_follows_promise
              (snd (call (FReject 0) (VStr "boom") (snd (DeferredPromise.constructor init))))
              2 1 0 (Rejected (VStr "boom")) (VDeferred 0))
    as (st1 & H1 & _ & H3 & H4); [reflexivity|lia|reflexivity|exact I|reflexivity|].
  exists st1. split; [exact H1|]. split; [exact H3|]. apply (H4 0%nat); lia.
Defined.

(** * Indices given as strings *)

(** X13. [resolve] takes the decimal string of an index for the index: the
    check lets it pass and the array is read at that position, so
    [resolve("3", v)] is [resolve(3, v)] in every respect.  The values [true]
    and [Infinity] pass the check as well, but name no position: the call
    throws a TypeError and changes nothing. *)
Theorem Barrier_resolve_string_index (b : Barrier.t) (value : val) (st : state) :
  (forall (s : string) (i : Z),
     canonical_index s = Some i ->
     Barrier.resolve b (VStr s) value st = Barrier.resolve b (VNum (Fin i)) value st
     /\ 0 <= i)
  /\ (forall x : val, x = VBool true \/ x = VNum PosInf ->
        Barrier.resolve b x value st
        = Some (Throw (TypeError "this.#resolveFunctions[index] is not a function"), st)).
Proof.
  split.
  - intros s i Hs.
    assert (Hne : String.eqb s "" = false) by (by destruct s).
    assert (Hinv : invalid_number (VStr s) = Some (i <? 0)).
    { unfold invalid_number, lt_zero. cbn. rewrite Hne. cbn. by rewrite Hs. }
    pose proof (invalid_number_rejected _ _ Hinv) as Hr. cbn in Hr. rewrite Hne in Hr.
    symmetry in Hr. apply Z.ltb_ge in Hr. split; [|done].
    unfold Barrier.resolve. rewrite Hinv, invalid_number_nonneg by done.
    replace (i <? 0) with false by (symmetry; by apply Z.ltb_ge).
    cbn [mbind option_bind array_get]. rewrite Hs. cbn.
    replace (0 <=? i) with true by (symmetry; by apply Z.leb_le). done.
  - intros x [-> | ->]; reflexivity.
Qed.

Lemma Barrier_resolve_string_index_witness :
  Barrier.resolve (fresh_barrier 2 init) (VStr "1") (VStr "v") (alloc_promises 2 init)
  = Barrier.resolve (fresh_barrier 2 init) (VNum (Fin 1)) (VStr "v") (alloc_promises 2 init).
Proof.
  exact (proj1 (proj1 (Barrier_resolve_string_index (fresh_barrier 2 init) (VStr "v")
                         (alloc_promises 2 init)) "1" 1 eq_refl)).
Defined.

(** X14. [new Barrier(length)] takes the decimal string of a length for the
    length: [new Barrier("3")] builds the same three slots as
    [new Barrier(3)].  Only the [length] property differs, which keeps the
    string it was given. *)
Theorem Barrier_constructor_string_length (st : state) (s : string) (i : Z) :
  canonical_index s = Some i -> i <= 2 ^ 32 - 1 ->
  let b := fresh_barrier (Z.to_nat i) st in
  Barrier.constructor (VNum (Fin i)) st = Some (Ok b, alloc_promises (Z.to_nat i) st)
  /\ Barrier.constructor (VStr s) st
     = Some (Ok (Barrier.mk (VStr s) (Barrier.promises b) (Barrier.resolveFunctions b)),
             alloc_promises (Z.to_nat i) st).
Proof.
  intros Hs Hi. cbn zeta.
  assert (Hne : String.eqb s "" = false) by (by destruct s).
  assert (Hinv : invalid_number (VStr s) = Some (i <? 0)).
  { unfold invalid_number, lt_zero. cbn. rewrite Hne. cbn. by rewrite Hs. }
  pose proof (invalid_number_rejected _ _ Hinv) as Hr. cbn in Hr. rewrite Hne in Hr.
  symmetry in Hr. rewrite Hr in Hinv. apply Z.ltb_ge in Hr.
  assert (Hlen : ToLength (VStr s) = Some i).
  { unfold ToLength. cbn. rewrite Hne, Hs. cbn. f_equal. lia. }
  assert (Hbig : (2 ^ 32 - 1 <? i) = false) by (apply Z.ltb_ge; lia).
  split.
  - unfold Barrier.constructor. rewrite invalid_number_nonneg by done.
    cbn [mbind option_bind]. rewrite ToLength_small by lia.
    cbn [mbind option_bind]. rewrite Hbig, array_from_eq. cbn [app].
    unfold fresh_barrier. by rewrite Z2Nat.id.
  - unfold Barrier.constructor. rewrite Hinv. cbn [mbind option_bind].
    rewrite Hlen. cbn [mbind option_bind]. rewrite Hbig, array_from_eq. done.
Qed.

Lemma Barrier_constructor_string_length_witness :
  Barrier.constructor (VStr "3") init
  = Some (Ok (Barrier.mk (VStr "3") [VPromise 0; VPromise 1; VPromise 2]
                [FResolve 0; FResolve 1; FResolve 2]),
          alloc_promises 3 init).
Proof.
  exact (proj2 (Barrier_constructor_string_length init "3" 3 eq_refl
                  ltac:(vm_compute; discriminate))).
Defined.

(** * Chaining through a DeferredPromise *)

(** The outcome a callback's completion gives to the promise derived by
    [then] or [catch]. *)
Definition completion_outcome (r : completion) : pstate :=
  match r with
  | Normal v => Fulfilled v
  | Throw e => Rejected e
  end.

(** A reaction job whose handler is a caller's callback. *)
Lemma user_reaction_turn hp cl ag q lg sy (K P tag : nat) (ty : rtype)
    (body : val -> completion) (x : val) :
  cl !! K = Some (P, false) -> hp !! P = Some (bare Pending) ->
  plain (completion_outcome (body x)) ->
  tick (mkState hp cl ag (ReactionJob (mkReaction K ty (Some (FUser tag body))) x :: q) lg sy)
  = mkState (<[P := bare (completion_outcome (body x))]> hp) (<[K := (P, true)]> cl) ag q
            (lg ++ [(tag, x)]) sy.
Proof.
  intros HK HP Hpl. unfold tick. cbn [queue]. unfold run_job.
  cbn [r_handler r_cap set_queue heap cells aggs queue log synchs call].
  unfold bind, modify, ret. cbn [set_log heap cells aggs queue log synchs].
  pose proof (settle_cell hp cl ag q (lg ++ [(tag, x)]) sy K P [] []
                (completion_outcome (body x)) HK HP Hpl) as Hs.
  destruct (body x) as [v|e]; cbn [completion_outcome outcome_arg] in *;
    rewrite Hs; cbn; rewrite app_nil_r; reflexivity.
Qed.

(** A reaction job without handler passes the outcome on. *)
Lemma empty_reaction_turn hp cl ag q lg sy (K P : nat) (o : pstate) :
  cl !! K = Some (P, false) -> hp !! P = Some (bare Pending) -> plain o ->
  tick (mkState hp cl ag
          (ReactionJob (mkReaction K (outcome_type o) None) (outcome_arg o) :: q) lg sy)
  = mkState (<[P := bare o]> hp) (<[K := (P, true)]> cl) ag q lg sy.
Proof.
  intros HK HP Hpl. unfold tick. cbn [queue]. unfold run_job.
  cbn [r_handler r_cap r_type set_queue heap cells aggs queue log synchs].
  unfold bind, ret.
  pose proof (settle_cell hp cl ag q lg sy K P [] [] o HK HP Hpl) as Hs.
  destruct o as [|v|e]; [destruct Hpl| |]; cbn [outcome_type outcome_arg] in *;
    rewrite Hs; cbn; rewrite app_nil_r; reflexivity.
Qed.

(** X15. [d.then(f)] and [d.catch(f)] on a DeferredPromise return a new promise
    that is settled one turn after [d]:
    - [then]: when [d] is fulfilled with [v], [f] is called with [v] and the
      new promise is fulfilled with what [f] returns, or rejected with what
      [f] throws; when [d] is rejected, [f] is not called and the new
      promise is rejected with the same error;
    - [catch]: when [d] is rejected with [e], [f] is called with [e] and the
      new promise is fulfilled with what [f] returns, or rejected with what
      [f] throws; when [d] is fulfilled, [f] is not called and the new
      promise is fulfilled with the same value.
    ([d] is settled with a value that is not a thenable, and what [f]
    returns is not a thenable either.) *)
Theorem DeferredPromise_then_catch_derived
    (st : state) (tag : nat) (body : val -> completion) (c : settle_call) :
  queue st = [] -> plain (outcome_of c) ->
  let d := fst (DeferredPromise.constructor st) in
  let st1 := snd (DeferredPromise.constructor st) in
  let f := Some (FUser tag body) in
  (let p' := fst (DeferredPromise.call_bound (DeferredPromise.then_ d) f None st1) in
   let st2 := snd (DeferredPromise.call_bound (DeferredPromise.then_ d) f None st1) in
   let st3 := tick (snd (settle d c st2)) in
   state_of (snd (settle d c st2)) p' = Some Pending
   /\ match c with
      | CallResolve v =>
          plain (completion_outcome (body v)) ->
          log st3 = log st ++ [(tag, v)] /\ state_of st3 p' = Some (completion_outcome (body v))
      | CallReject e =>
          log st3 = log st /\ state_of st3 p' = Some (Rejected e)
      end)
  /\ (let p' := fst (DeferredPromise.call_bound (DeferredPromise.catch d) f None st1) in
      let st2 := snd (DeferredPromise.call_bound (DeferredPromise.catch d) f None st1) in
      let st3 := tick (snd (settle d c st2)) in
      state_of (snd (settle d c st2)) p' = Some Pending
      /\ match c with
         | CallResolve v =>
             log st3 = log st /\ state_of st3 p' = Some (Fulfilled v)
         | CallReject e =>
             plain (completion_outcome (body e)) ->
             log st3 = log st ++ [(tag, e)]
             /\ state_of st3 p' = Some (completion_outcome (body e))
         end).
Proof.
  destruct st as [h cl a q l sy]. cbn [queue log]. intros -> Hpl. cbn zeta.
  set (d := fst (DeferredPromise.constructor (mkState h cl a [] l sy))).
  set (st1 := snd (DeferredPromise.constructor (mkState h cl a [] l sy))).
  assert (E1 : st1 = mkState (h ++ [bare Pending]) (cl ++ [(length h, false)]) a [] l sy)
    by reflexivity.
  cbn [DeferredPromise.call_bound DeferredPromise.then_ DeferredPromise.catch
       DeferredPromise.target DeferredPromise.boundThis d DeferredPromise.constructor
       bind new_promise ret fst snd heap].
  unfold promise_catch. rewrite E1.
  split.
  - rewrite (then_pending _ _ _ _ _ _ (length h) [] []) by lk.
    cbn [fst snd app]. len.
    rewrite (settle_plain d (length cl) (length h) c _ _ _ _ _ _
               [mkReaction _ Fulfill _] [mkReaction _ Reject _])
      by (first [reflexivity | exact Hpl | lk]).
    cbn [snd app]. split; [unfold state_of; cbn [heap]; lk|].
    destruct c as [v|e]; cbn [outcome_of outcome_arg fmap list_fmap] in *.
    + intros Hb.
      rewrite (user_reaction_turn _ _ _ _ _ _ (length cl + 1) (length h + 1))
        by (first [exact Hb | lk]).
      unfold state_of. cbn [log heap]. split; [done|lk].
    + rewrite (empty_reaction_turn _ _ _ _ _ _ (length cl + 1) (length h + 1) (Rejected e))
        by (first [exact I | lk]).
      unfold state_of. cbn [log heap]. split; [done|lk].
  - rewrite (then_pending _ _ _ _ _ _ (length h) [] []) by lk.
    cbn [fst snd app]. len.
    rewrite (settle_plain d (length cl) (length h) c _ _ _ _ _ _
               [mkReaction _ Fulfill _] [mkReaction _ Reject _])
      by (first [reflexivity | exact Hpl | lk]).
    cbn [snd app]. split; [unfold state_of; cbn [heap]; lk|].
    destruct c as [v|e]; cbn [outcome_of outcome_arg fmap list_fmap] in *.
    + rewrite (empty_reaction_turn _ _ _ _ _ _ (length cl + 1) (length h + 1) (Fulfilled v))
        by (first [exact Hpl | lk]).
      unfold state_of. cbn [log heap]. split; [done|lk].
    + intros Hb.
      rewrite (user_reaction_turn _ _ _ _ _ _ (length cl + 1) (length h + 1))
        by (first [exact Hb | lk]).
      unfold state_of. cbn [log heap]. split; [done|lk].
Qed.

Lemma DeferredPromise_then_catch_derived_witness :
  let d := fst (DeferredPromise.constructor init) in
  let st1 := snd (DeferredPromise.constructor init) in
  let f := Some (FUser 7 (fun _ => Normal (VStr "recovered"))) in
  let p' := fst (DeferredPromise.call_bound (DeferredPromise.catch d) f None st1) in
  let st2 := snd (DeferredPromise.call_bound (DeferredPromise.catch d) f None st1) in
  let st3 := tick (snd (settle d (CallReject (VStr "boom")) st2)) in
  log st3 = [(7%nat, VStr "boom")]
  /\ state_of st3 p' = Some (Fulfilled (VStr "recovered")).
Proof.
  exact (proj2 (proj2 (DeferredPromise_then_catch_derived init 7
                         (fun _ => Normal (VStr "recovered")) (CallReject (VStr "boom"))
                         eq_refl I)) eq_refl).
Defined.

(** The first job of [finally] with a caller's callback that returns a value
    which is not a thenable. *)
Lemma finally_user_turn hp cl ag q lg sy (tag KD D : nat) (body : val -> completion)
    (o : pstate) (r : val) :
  plain o -> body VUndef = Normal r -> get_then r = None ->
  cl !! KD = Some (D, false) -> (D < length hp)%nat ->
  tick (mkState hp cl ag
          (ReactionJob (mkReaction KD (outcome_type o)
                          (Some (finally_handler o (FUser tag body))))
             (outcome_arg o) :: q) lg sy)
  = mkState (<[length hp := bare (Fulfilled r)]> (hp ++ [bare Pending]) ++ [bare Pending])
            (<[KD := (D, true)]>
               (<[length cl := (length hp, true)]> (cl ++ [(length hp, false)])
                  ++ [((length hp + 1)%nat, false)]))
            ag
            ((q ++ [ReactionJob (mkReaction (length cl + 1) Fulfill (Some (restore o))) r])
               ++ [ThenableJob D (VPromise (length hp + 1))])
            (lg ++ [(tag, VUndef)]) sy.
Proof.
  intros Hpl Hbody Hr HKD HD. pose proof (lookup_lt_Some _ _ _ HKD) as HKDlt.
  assert (Hcall : forall thunk,
    (do result <- call (FUser tag body) VUndef;
     match result with
     | Normal r =>
         do p <- PromiseResolve r;
         do d <- promise_then p (Some thunk) None;
         ret (Normal (VPromise d))
     | Throw e => ret (Throw e)
     end) (mkState hp cl ag q lg sy)
    = (Normal (VPromise (length hp + 1)),
       mkState (<[length hp := bare (Fulfilled r)]> (hp ++ [bare Pending]) ++ [bare Pending])
         (<[length cl := (length hp, true)]> (cl ++ [(length hp, false)])
            ++ [((length hp + 1)%nat, false)]) ag
         (q ++ [ReactionJob (mkReaction (length cl + 1) Fulfill (Some thunk)) r])
         (lg ++ [(tag, VUndef)]) sy)).
  { intros thunk. cbn [call]. unfold bind at 1. unfold bind at 1.
    unfold modify, ret at 1. cbn [set_log heap cells aggs queue log synchs].
    rewrite Hbody.
    assert (EP : PromiseResolve r
                 = (do (p, k) <- new_promise; resolve_fn k r ;; ret p)).
    { destruct r; try discriminate Hr; reflexivity. }
    rewrite EP. unfold bind at 1. unfold bind at 1.
    unfold new_promise. cbn [set_heap set_cells heap cells aggs queue log synchs].
    unfold bind at 1.
    rewrite (resolve_fn_fulfill (length cl) (length hp) r (bare Pending))
      by (lk || exact Hr).
    cbn [ret heap cells aggs queue log synchs p_fulfillReactions bare fmap list_fmap].
    rewrite app_nil_r.
    unfold bind at 1.
    rewrite (then_settled _ _ _ _ _ _ (length hp) (Fulfilled r))
      by (lk || discriminate).
    cbn [outcome_type outcome_arg]. len. unfold ret. reflexivity. }
  unfold tick. cbn [queue]. unfold run_job. cbn [r_handler r_cap set_queue
    heap cells aggs queue log synchs].
  unfold bind at 1.
  destruct o as [|v|e]; [destruct Hpl| |];
    cbn [finally_handler outcome_arg restore] in *;
    change (call (FThenFinally (FUser tag body)) v)
      with (do result <- call (FUser tag body) VUndef;
            match result with
            | Normal r =>
                do p <- PromiseResolve r;
                do d <- promise_then p (Some (FValueThunk v)) None;
                ret (Normal (VPromise d))
            | Throw e => ret (Throw e)
            end) ||
    change (call (FCatchFinally (FUser tag body)) e)
      with (do result <- call (FUser tag body) VUndef;
            match result with
            | Normal r =>
                do p <- PromiseResolve r;
                do d <- promise_then p (Some (FThrower e)) None;
                ret (Normal (VPromise d))
            | Throw e => ret (Throw e)
            end);
    rewrite Hcall; unfold bind;
    rewrite resolve_with_promise with (p := D) by (lk || lia); reflexivity.
Qed.

(** The same job when the callback throws. *)
Lemma finally_user_throws hp cl ag q lg sy (tag KD D : nat) (body : val -> completion)
    (o : pstate) (e' : val) :
  plain o -> body VUndef = Throw e' ->
  cl !! KD = Some (D, false) -> hp !! D = Some (bare Pending) ->
  tick (mkState hp cl ag
          (ReactionJob (mkReaction KD (outcome_type o)
                          (Some (finally_handler o (FUser tag body))))
             (outcome_arg o) :: q) lg sy)
  = mkState (<[D := bare (Rejected e')]> hp) (<[KD := (D, true)]> cl) ag q
            (lg ++ [(tag, VUndef)]) sy.
Proof.
  intros Hpl Hbody HKD HD.
  unfold tick. cbn [queue]. unfold run_job. cbn [r_handler r_cap set_queue
    heap cells aggs queue log synchs].
  pose proof (reject_fn_reject KD D e' (bare Pending)
                (mkState hp cl ag q (lg ++ [(tag, VUndef)]) sy) HKD HD) as Hs.
  destruct o as [|v|e]; [destruct Hpl| |];
    cbn [finally_handler outcome_arg call]; unfold bind, modify, ret;
    cbn [set_log heap cells aggs queue log synchs]; rewrite Hbody;
    rewrite Hs; cbn; rewrite app_nil_r; reflexivity.
Qed.

(** X16. [d.finally(f)] on a DeferredPromise returns a new promise.  One turn
    after [d] has settled, [f] has been called once, without argument.  When
    [f] returns a value that is not a thenable, the new promise takes the
    outcome of [d], not the value [f] returned, four turns after the
    settlement; when [f] throws, the new promise is rejected with what [f]
    threw, after the first turn. *)
Theorem DeferredPromise_finally_derived
    (st : state) (tag : nat) (body : val -> completion) (c : settle_call) :
  queue st = [] -> plain (outcome_of c) ->
  let d := fst (DeferredPromise.constructor st) in
  let st1 := snd (DeferredPromise.constructor st) in
  let f := Some (FUser tag body) in
  let p' := fst (DeferredPromise.call_bound (DeferredPromise.finally d) f None st1) in
  let st2 := snd (DeferredPromise.call_bound (DeferredPromise.finally d) f None st1) in
  let st3 := snd (settle d c st2) in
  log st3 = log st /\ state_of st3 p' = Some Pending
  /\ (forall r, body VUndef = Normal r -> get_then r = None ->
        log (tick st3) = log st ++ [(tag, VUndef)]
        /\ state_of (run 4 st3) p' = Some (outcome_of c)
        /\ log (run 4 st3) = log st ++ [(tag, VUndef)]
        /\ queue (run 4 st3) = [])
  /\ (forall e', body VUndef = Throw e' ->
        log (tick st3) = log st ++ [(tag, VUndef)]
        /\ state_of (tick st3) p' = Some (Rejected e') /\ queue (tick st3) = []).
Proof.
  destruct st as [h cl a q l sy]. cbn [queue log]. intros -> Hpl. cbn zeta.
  assert (No : outcome_of c <> Pending) by (destruct c; discriminate).
  set (d := fst (DeferredPromise.constructor (mkState h cl a [] l sy))).
  set (st1 := snd (DeferredPromise.constructor (mkState h cl a [] l sy))).
  assert (E1 : st1 = mkState (h ++ [bare Pending]) (cl ++ [(length h, false)]) a [] l sy)
    by reflexivity.
  cbn [DeferredPromise.call_bound DeferredPromise.finally
       DeferredPromise.target DeferredPromise.boundThis d DeferredPromise.constructor
       bind new_promise ret fst snd heap].
  unfold promise_finally. rewrite E1.
  rewrite (then_pending _ _ _ _ _ _ (length h) [] []) by lk.
  cbn [fst snd app]. len.
  rewrite (settle_plain d (length cl) (length h) c _ _ _ _ _ _
             [mkReaction _ Fulfill _] [mkReaction _ Reject _])
    by (first [reflexivity | exact Hpl | lk]).
  cbn [snd app].
  match goal with
  | |- context [_ <$> ?x] =>
      replace ((fun r => ReactionJob r (outcome_arg (outcome_of c))) <$> x)
        with [ReactionJob
                (mkReaction (length cl + 1) (outcome_type (outcome_of c))
                   (Some (finally_handler (outcome_of c) (FUser tag body))))
                (outcome_arg (outcome_of c))]
        by (by destruct (outcome_of c))
  end.
  split; [done|]. split; [unfold state_of; cbn [heap]; lk|].
  split.
  - intros r Hbody Hr.
    change (run 4 ?x) with (tick (tick (tick (tick x)))).
    rewrite (finally_user_turn _ _ _ _ _ _ tag (length cl + 1) (length h + 1) body
               (outcome_of c) r Hpl Hbody Hr) by (lk || (len; lia)).
    cbn [app]. len. split; [done|].
    rewrite (restore_turn _ _ _ _ _ _ (length cl + 1 + 1 + 1) (length h + 1 + 1 + 1)
               (outcome_of c)) by (first [exact Hpl | (len; lk)]).
    rewrite (thenable_turn _ _ _ _ _ _ (length h + 1) (length h + 1 + 1 + 1) (outcome_of c))
      by (lk || exact No).
    len. cbn [app].
    rewrite (adopt_turn _ _ _ _ _ _ (length cl + 1 + 1 + 1 + 1)
               (length cl + 1 + 1 + 1 + 1 + 1) (length h + 1)
               (length h + 1 + 1 + 1 + 1) (outcome_of c) [] [])
      by (first [exact Hpl | lia | lk]).
    unfold state_of. cbn [heap log queue].
    split; [lk|]. split; [done|]. by destruct (outcome_of c).
  - intros e' Hbody.
    rewrite (finally_user_throws _ _ _ _ _ _ tag (length cl + 1) (length h + 1) body
               (outcome_of c) e' Hpl Hbody) by lk.
    unfold state_of. cbn [log heap queue]. split; [done|]. split; [lk|done].
Qed.

Lemma DeferredPromise_finally_derived_witness :
  let d := fst (DeferredPromise.constructor init) in
  let st1 := snd (DeferredPromise.constructor init) in
  let f := Some (FUser 7 (fun _ => Normal (VStr "ignored"))) in
  let p' := fst (DeferredPromise.call_bound (DeferredPromise.finally d) f None st1) in
  let st2 := snd (DeferredPromise.call_bound (DeferredPromise.finally d) f None st1) in
  let st3 := snd (settle d (CallReject (VStr "boom")) st2) in
  state_of (run 4 st3) p' = Some (Rejected (VStr "boom"))
  /\ log (run 4 st3) = [(7%nat, VUndef)].
Proof.
  destruct (proj1 (proj2 (proj2 (DeferredPromise_finally_derived init 7
                                   (fun _ => Normal (VStr "ignored"))
                                   (CallReject (VStr "boom")) eq_refl I)))
              (VStr "ignored") eq_refl eq_refl) as (_ & H1 & H2 & _).
  split; [exact H1|exact H2].
Defined.
